(** * Incremental convex hull on a half-edge polyhedron (Polyhedron_ConvexHull.h)

    A shallow embedding of [Polyhedron<T,FP,VP>] as found in
    [common/src/Polyhedron_ConvexHull.h]: the [Seam] class, the insertion
    state machine ([addPoint] and its helpers), [removeVertex], [createSeam],
    [split] / [deleteFaces], [sealWithSinglePolygon],
    [sealWithMultiplePolygons], [weave] and the splitting criteria.

    Conventions of the embedding.
    - Pointers are addresses ([positive]); [NULL] is [None].  Every object
      lives in a pool (a finite map from addresses to records); [new]
      allocates a fresh address, [delete] removes the address from its pool.
    - The owning collections [m_vertices], [m_edges], [m_faces] are lists of
      addresses in insertion order.
    - The links of the intrusive boundary lists are the [h_next] and
      [h_previous] fields of the half-edges, exactly what [next()] and
      [previous()] read.
    - The number type [T] is instantiated with exact integers and a zero
      epsilon.
    - [assert(c)] aborts the call with [AssertionFailed] when [c] is false.
      [assert(checkInvariant())] is left out: [checkInvariant] is not part
      of this translation unit.
    - The [Callback&] argument is the notification log of the state: each
      notification records the face and the mesh as it is at that moment. *)

From stdpp Require Import base option list gmap.
From Stdlib Require Import ZArith Lia.

Local Open Scope Z_scope.

(** ** Geometric primitives *)

Module Geometry.

Record Vec3 := vec3 { vx : Z; vy : Z; vz : Z }.

#[global] Instance Vec3_eq_dec : EqDecision Vec3.
Proof. solve_decision. Defined.

Definition vsub (a b : Vec3) : Vec3 :=
  vec3 (vx a - vx b) (vy a - vy b) (vz a - vz b).

Definition dot (a b : Vec3) : Z :=
  vx a * vx b + vy a * vy b + vz a * vz b.

Definition crossed (a b : Vec3) : Vec3 :=
  vec3 (vy a * vz b - vz a * vy b)
       (vz a * vx b - vx a * vz b)
       (vx a * vy b - vy a * vx b).

Definition null (a : Vec3) : bool :=
  (vx a =? 0) && (vy a =? 0) && (vz a =? 0).

(** Modelled from the spec: the linear-dependence test of the geometric
    primitives (Vec.h is not part of the sources).  Three points are
    linearly dependent when they lie on one line. *)
Definition linearlyDependent (a b c : Vec3) : bool :=
  null (crossed (vsub b a) (vsub c a)).

(** Modelled from the spec: the tolerance of the epsilon-based point-vs-segment
    classification (the constant of the geometric primitives is not part of
    the sources).  Coordinates are integers; the tolerance is one unit, the
    least positive length. *)
Definition epsilon : Z := 1.

(** Modelled from the spec: segment containment ([Vec::containedWithinSegment],
    Vec.h is not part of the sources), an epsilon-based classification.  For a
    point on the line through [start] and [end_], the vector to [end_] is
    projected on the direction to [start]; the point is contained when the
    projection is not positive up to the tolerance, that is when the point
    lies between the two, end points included, or past [end_] by no more than
    the tolerance.  The projection [d / |toStart|] is compared with [epsilon]
    by its square, so that no division or root is taken. *)
Definition containedWithinSegment (p start end_ : Vec3) : bool :=
  let toStart := vsub start p in
  let toEnd := vsub end_ p in
  let d := dot toEnd toStart in
  (d <=? 0) || (d * d <=? epsilon * epsilon * dot toStart toStart).

Inductive PointStatus := PSAbove | PSBelow | PSInside.

#[global] Instance PointStatus_eq_dec : EqDecision PointStatus.
Proof. solve_decision. Defined.

Record Plane := mkPlane { pl_normal : Vec3; pl_distance : Z }.

(** Modelled from the spec: the plane through three points (Plane.h is not part
    of the sources).  The call sites in [weave], [ShiftSeamForWeaving] and
    [ShiftSeamForSealing] pass the points so that the normal
    [(p2 - p0) x (p1 - p0)] is the outward normal of the face they are about
    to build.  The result is [None] when the points are linearly dependent
    (the C++ function returns false). *)
Definition setPlanePoints (p0 p1 p2 : Vec3) : option Plane :=
  let n := crossed (vsub p2 p0) (vsub p1 p0) in
  if null n then None else Some (mkPlane n (dot p0 n)).

(** Modelled from the spec: point-vs-plane classification. *)
Definition classify (d : Z) : PointStatus :=
  if 0 <? d then PSAbove else if d <? 0 then PSBelow else PSInside.

Definition planePointStatus (pl : Plane) (p : Vec3) : PointStatus :=
  classify (dot p (pl_normal pl) - pl_distance pl).

(** The running axis-aligned bounding box [m_bounds]. *)
Record BBox := mkBBox { bmin : Vec3; bmax : Vec3 }.

#[global] Instance BBox_eq_dec : EqDecision BBox.
Proof. solve_decision. Defined.

Definition vmin (a b : Vec3) : Vec3 :=
  vec3 (Z.min (vx a) (vx b)) (Z.min (vy a) (vy b)) (Z.min (vz a) (vz b)).

Definition vmax (a b : Vec3) : Vec3 :=
  vec3 (Z.max (vx a) (vx b)) (Z.max (vy a) (vy b)) (Z.max (vz a) (vz b)).

(** Modelled from the spec: [BBox::mergeWith(point)] grows the box so that it
    includes the point (BBox.h is not part of the sources). *)
Definition mergeWith (b : BBox) (p : Vec3) : BBox :=
  mkBBox (vmin (bmin b) p) (vmax (bmax b) p).

Definition vle (a b : Vec3) : Prop :=
  vx a <= vx b /\ vy a <= vy b /\ vz a <= vz b.

Definition boxContains (b : BBox) (p : Vec3) : Prop :=
  vle (bmin b) p /\ vle p (bmax b).

End Geometry.

Export Geometry.

(** ** Results of a call *)

Inductive Res (A : Type) : Type :=
| Ok (a : A)
| AssertionFailed
| NullPointer
| Diverged.

Arguments Ok {A} a.
Arguments AssertionFailed {A}.
Arguments NullPointer {A}.
Arguments Diverged {A}.

Definition isOk {A} (r : Res A) : bool :=
  match r with Ok _ => true | _ => false end.

#[global] Instance Res_eq_dec {A} `{EqDecision A} : EqDecision (Res A).
Proof. solve_decision. Defined.

(** ** Mesh model *)

Abbreviation Address := positive.

(** Modelled from the spec: the entity records of section 3 (the class
    declarations live in Polyhedron.h, which is not part of the sources). *)
Record Vertex := mkVertex {
  v_position : Vec3;
  v_leaving : option Address
}.

Record HalfEdge := mkHalfEdge {
  h_origin : Address;
  h_edge : option Address;
  h_face : option Address;
  h_next : Address;
  h_previous : Address
}.

Record Edge := mkEdge {
  e_first : option Address;
  e_second : option Address
}.

Record Face := mkFace {
  f_boundary : list Address
}.

Record Mesh := mkMesh {
  vertexPool : gmap positive Vertex;
  halfEdgePool : gmap positive HalfEdge;
  edgePool : gmap positive Edge;
  facePool : gmap positive Face;
  m_vertices : list Address;
  m_edges : list Address;
  m_faces : list Address;
  nextAddress : positive
}.

Definition emptyMesh : Mesh :=
  mkMesh ∅ ∅ ∅ ∅ [] [] [] 1%positive.

Inductive NotificationKind := FaceWasCreated | FaceWillBeDeleted.

#[global] Instance NotificationKind_eq_dec : EqDecision NotificationKind.
Proof. solve_decision. Defined.

(** What a [Callback] sees: which notification, which face, and the mesh at
    the moment of the call. *)
Record Notification := mkNotification {
  n_kind : NotificationKind;
  n_face : Address;
  n_mesh : Mesh
}.

Record State := mkState {
  st_mesh : Mesh;
  st_log : list Notification
}.

(** ** The monad of mesh surgery: state passing with abort *)

Definition M (A : Type) : Type := State -> Res (A * State).

Definition ret {A} (a : A) : M A := fun s => Ok (a, s).

Definition bind {A B} (m : M A) (k : A -> M B) : M B :=
  fun s => match m s with
           | Ok (a, s') => k a s'
           | AssertionFailed => AssertionFailed
           | NullPointer => NullPointer
           | Diverged => Diverged
           end.

Notation "'do' x <- m ; k" := (bind m (fun x => k))
  (at level 10, x name, m at level 100, k at level 200,
   format "'[v' 'do'  x  <-  m ; '/' k ']'").
Notation "'do' ' p <- m ; k" := (bind m (fun x => let 'p := x in k))
  (at level 10, p pattern, m at level 100, k at level 200).
Notation "'run' m ; k" := (bind m (fun _ => k))
  (at level 10, m at level 100, k at level 200,
   format "'[v' 'run'  m ; '/' k ']'").

Definition assertionFailed {A} : M A := fun _ => AssertionFailed.
Definition nullPointer {A} : M A := fun _ => NullPointer.
Definition diverged {A} : M A := fun _ => Diverged.

Definition assert (c : bool) : M unit :=
  if c then ret tt else assertionFailed.

(** [const] member functions only read the mesh. *)
Definition R (A : Type) : Type := Mesh -> Res A.

Definition rret {A} (a : A) : R A := fun _ => Ok a.

Definition rbind {A B} (m : R A) (k : A -> R B) : R B :=
  fun s => match m s with
           | Ok a => k a s
           | AssertionFailed => AssertionFailed
           | NullPointer => NullPointer
           | Diverged => Diverged
           end.

Notation "'get' x <- m ; k" := (rbind m (fun x => k))
  (at level 10, x name, m at level 100, k at level 200,
   format "'[v' 'get'  x  <-  m ; '/' k ']'").
Notation "'chk' m ; k" := (rbind m (fun _ => k))
  (at level 10, m at level 100, k at level 200,
   format "'[v' 'chk'  m ; '/' k ']'").

Definition rassert (c : bool) : R unit :=
  fun _ => if c then Ok tt else AssertionFailed.

Definition read {A} (r : R A) : M A :=
  fun s => match r (st_mesh s) with
           | Ok a => Ok (a, s)
           | AssertionFailed => AssertionFailed
           | NullPointer => NullPointer
           | Diverged => Diverged
           end.

Definition deref {A} (o : option A) : R A :=
  fun _ => match o with Some a => Ok a | None => NullPointer end.

Definition modifyMesh (f : Mesh -> Mesh) : M unit :=
  fun s => Ok (tt, mkState (f (st_mesh s)) (st_log s)).

(** Field updates of the mesh record. *)
Definition withVertexPool (f : gmap positive Vertex -> gmap positive Vertex) (m : Mesh) : Mesh :=
  mkMesh (f (vertexPool m)) (halfEdgePool m) (edgePool m) (facePool m)
         (m_vertices m) (m_edges m) (m_faces m) (nextAddress m).
Definition withHalfEdgePool (f : gmap positive HalfEdge -> gmap positive HalfEdge) (m : Mesh) : Mesh :=
  mkMesh (vertexPool m) (f (halfEdgePool m)) (edgePool m) (facePool m)
         (m_vertices m) (m_edges m) (m_faces m) (nextAddress m).
Definition withEdgePool (f : gmap positive Edge -> gmap positive Edge) (m : Mesh) : Mesh :=
  mkMesh (vertexPool m) (halfEdgePool m) (f (edgePool m)) (facePool m)
         (m_vertices m) (m_edges m) (m_faces m) (nextAddress m).
Definition withFacePool (f : gmap positive Face -> gmap positive Face) (m : Mesh) : Mesh :=
  mkMesh (vertexPool m) (halfEdgePool m) (edgePool m) (f (facePool m))
         (m_vertices m) (m_edges m) (m_faces m) (nextAddress m).
Definition withVertices (f : list Address -> list Address) (m : Mesh) : Mesh :=
  mkMesh (vertexPool m) (halfEdgePool m) (edgePool m) (facePool m)
         (f (m_vertices m)) (m_edges m) (m_faces m) (nextAddress m).
Definition withEdges (f : list Address -> list Address) (m : Mesh) : Mesh :=
  mkMesh (vertexPool m) (halfEdgePool m) (edgePool m) (facePool m)
         (m_vertices m) (f (m_edges m)) (m_faces m) (nextAddress m).
Definition withFaces (f : list Address -> list Address) (m : Mesh) : Mesh :=
  mkMesh (vertexPool m) (halfEdgePool m) (edgePool m) (facePool m)
         (m_vertices m) (m_edges m) (f (m_faces m)) (nextAddress m).
Definition bumpAddress (m : Mesh) : Mesh :=
  mkMesh (vertexPool m) (halfEdgePool m) (edgePool m) (facePool m)
         (m_vertices m) (m_edges m) (m_faces m) (Pos.succ (nextAddress m)).

(** [new]: the next free address. *)
Definition fresh : M Address :=
  fun s => Ok (nextAddress (st_mesh s),
               mkState (bumpAddress (st_mesh s)) (st_log s)).

(** Reading an object through a pointer. *)
Definition vertexAt (v : Address) : R Vertex :=
  fun m => match vertexPool m !! v with Some x => Ok x | None => NullPointer end.
Definition halfEdgeAt (h : Address) : R HalfEdge :=
  fun m => match halfEdgePool m !! h with Some x => Ok x | None => NullPointer end.
Definition edgeAt (e : Address) : R Edge :=
  fun m => match edgePool m !! e with Some x => Ok x | None => NullPointer end.
Definition faceAt (f : Address) : R Face :=
  fun m => match facePool m !! f with Some x => Ok x | None => NullPointer end.

(** Writing an object through a pointer (the object must be live). *)
Definition storeVertex (v : Address) (x : Vertex) : M unit :=
  run read (vertexAt v); modifyMesh (withVertexPool <[v := x]>).
Definition storeHalfEdge (h : Address) (x : HalfEdge) : M unit :=
  run read (halfEdgeAt h); modifyMesh (withHalfEdgePool <[h := x]>).
Definition storeEdge (e : Address) (x : Edge) : M unit :=
  run read (edgeAt e); modifyMesh (withEdgePool <[e := x]>).
Definition storeFace (f : Address) (x : Face) : M unit :=
  run read (faceAt f); modifyMesh (withFacePool <[f := x]>).

Definition updVertex (v : Address) (f : Vertex -> Vertex) : M unit :=
  do x <- read (vertexAt v); storeVertex v (f x).
Definition updHalfEdge (h : Address) (f : HalfEdge -> HalfEdge) : M unit :=
  do x <- read (halfEdgeAt h); storeHalfEdge h (f x).
Definition updEdge (e : Address) (f : Edge -> Edge) : M unit :=
  do x <- read (edgeAt e); storeEdge e (f x).

Definition addrEqb (a b : Address) : bool := bool_decide (a = b).
Definition optAddrEqb (a b : option Address) : bool := bool_decide (a = b).

(** ** Vertex, HalfEdge, Edge, Face

    Modelled from the spec: the member functions of the four entity classes
    (Polyhedron_Vertex.h, Polyhedron_HalfEdge.h, Polyhedron_Edge.h and
    Polyhedron_Face.h are not part of the sources).  Section 3 of the spec
    fixes what each one holds; the names are those used by the call sites in
    Polyhedron_ConvexHull.h. *)

Module Vertex.

Definition new (position : Vec3) : M Address :=
  do a <- fresh;
  run modifyMesh (withVertexPool <[a := mkVertex position None]>);
  ret a.

Definition position (v : Address) : R Vec3 :=
  get x <- vertexAt v; rret (v_position x).

Definition leaving (v : Address) : R (option Address) :=
  get x <- vertexAt v; rret (v_leaving x).

Definition setPosition (v : Address) (p : Vec3) : M unit :=
  updVertex v (fun x => mkVertex p (v_leaving x)).

Definition setLeaving (v : Address) (h : option Address) : M unit :=
  updVertex v (fun x => mkVertex (v_position x) h).

Definition delete (v : Address) : M unit :=
  run read (vertexAt v); modifyMesh (withVertexPool (base.delete v)).

End Vertex.

Module HalfEdge.

Definition origin (h : Address) : R Address :=
  get x <- halfEdgeAt h; rret (h_origin x).
Definition edge (h : Address) : R (option Address) :=
  get x <- halfEdgeAt h; rret (h_edge x).
Definition face (h : Address) : R (option Address) :=
  get x <- halfEdgeAt h; rret (h_face x).
Definition next (h : Address) : R Address :=
  get x <- halfEdgeAt h; rret (h_next x).
Definition previous (h : Address) : R Address :=
  get x <- halfEdgeAt h; rret (h_previous x).

Definition setEdge (h : Address) (e : option Address) : M unit :=
  updHalfEdge h (fun x => mkHalfEdge (h_origin x) e (h_face x) (h_next x) (h_previous x)).
Definition unsetEdge (h : Address) : M unit := setEdge h None.
Definition setFace (h : Address) (f : option Address) : M unit :=
  updHalfEdge h (fun x => mkHalfEdge (h_origin x) (h_edge x) f (h_next x) (h_previous x)).
Definition setNext (h n : Address) : M unit :=
  updHalfEdge h (fun x => mkHalfEdge (h_origin x) (h_edge x) (h_face x) n (h_previous x)).
Definition setPrevious (h p : Address) : M unit :=
  updHalfEdge h (fun x => mkHalfEdge (h_origin x) (h_edge x) (h_face x) (h_next x) p).

Definition setAsLeaving (h : Address) : M unit :=
  do o <- read (origin h); Vertex.setLeaving o (Some h).

(** A new half-edge is linked to itself and becomes the leaving half-edge of
    its origin. *)
Definition new (origin : Address) : M Address :=
  run read (vertexAt origin);
  do a <- fresh;
  run modifyMesh (withHalfEdgePool <[a := mkHalfEdge origin None None a a]>);
  run setAsLeaving a;
  ret a.

(** The destructor clears the leaving pointer of the origin when it points
    to this half-edge. *)
Definition delete (h : Address) : M unit :=
  do o <- read (origin h);
  do l <- read (Vertex.leaving o);
  run (if optAddrEqb l (Some h) then Vertex.setLeaving o None else ret tt);
  modifyMesh (withHalfEdgePool (base.delete h)).

End HalfEdge.

(** The intrusive list of half-edges ([HalfEdgeList]): a list value records
    the members in order from the head; [append] links the new tail between
    the old tail and the head. *)
Module HalfEdgeList.

Definition append (l : list Address) (h : Address) : M (list Address) :=
  match l with
  | [] => run HalfEdge.setNext h h; run HalfEdge.setPrevious h h; ret [h]
  | hd :: _ =>
      let tl := List.last l hd in
      run HalfEdge.setNext tl h;
      run HalfEdge.setPrevious h tl;
      run HalfEdge.setNext h hd;
      run HalfEdge.setPrevious hd h;
      ret (l ++ [h])
  end.

End HalfEdgeList.

Module Edge.

Definition first (e : Address) : R (option Address) :=
  get x <- edgeAt e; rret (e_first x).
Definition second (e : Address) : R (option Address) :=
  get x <- edgeAt e; rret (e_second x).

Definition firstEdge (e : Address) : R Address :=
  get o <- first e;
  match o with Some h => rret h | None => fun _ => AssertionFailed end.
Definition secondEdge (e : Address) : R Address :=
  get o <- second e;
  match o with Some h => rret h | None => fun _ => AssertionFailed end.

Definition firstVertex (e : Address) : R Address :=
  get h <- firstEdge e; HalfEdge.origin h.

Definition secondVertex (e : Address) : R Address :=
  get h1 <- firstEdge e;
  get o <- second e;
  match o with
  | Some h2 => HalfEdge.origin h2
  | None => get n <- HalfEdge.next h1; HalfEdge.origin n
  end.

Definition firstFace (e : Address) : R (option Address) :=
  get h <- firstEdge e; HalfEdge.face h.
Definition secondFace (e : Address) : R (option Address) :=
  get h <- secondEdge e; HalfEdge.face h.

Definition fullySpecified (e : Address) : R bool :=
  get _ <- firstEdge e;
  get o <- second e;
  rret (bool_decide (o <> None)).

Definition twin (e h : Address) : R (option Address) :=
  get x <- edgeAt e;
  chk rassert (optAddrEqb (e_first x) (Some h) || optAddrEqb (e_second x) (Some h));
  rret (if optAddrEqb (e_first x) (Some h) then e_second x else e_first x).

Definition new (h1 : Address) (h2 : option Address) : M Address :=
  do a <- fresh;
  run modifyMesh (withEdgePool <[a := mkEdge (Some h1) h2]>);
  run HalfEdge.setEdge h1 (Some a);
  run match h2 with Some h => HalfEdge.setEdge h (Some a) | None => ret tt end;
  ret a.

Definition flip (e : Address) : M unit :=
  updEdge e (fun x => mkEdge (e_second x) (e_first x)).

Definition makeSecondEdge (e h : Address) : M unit :=
  do x <- read (edgeAt e);
  run assert (optAddrEqb (e_first x) (Some h) || optAddrEqb (e_second x) (Some h));
  if optAddrEqb (e_second x) (Some h) then ret tt else flip e.

Definition setFirstAsLeaving (e : Address) : M unit :=
  do h <- read (firstEdge e); HalfEdge.setAsLeaving h.

Definition unsetSecondEdge (e : Address) : M unit :=
  do h <- read (secondEdge e);
  run HalfEdge.unsetEdge h;
  updEdge e (fun x => mkEdge (e_first x) None).

Definition setSecondEdge (e h : Address) : M unit :=
  do o <- read (second e);
  run assert (bool_decide (o = None));
  do he <- read (HalfEdge.edge h);
  run assert (bool_decide (he = None));
  run updEdge e (fun x => mkEdge (e_first x) (Some h));
  HalfEdge.setEdge h (Some e).

Definition delete (e : Address) : M unit :=
  run read (edgeAt e); modifyMesh (withEdgePool (base.delete e)).

End Edge.

Definition HalfEdge_twin (h : Address) : R Address :=
  get o <- HalfEdge.edge h;
  match o with
  | None => fun _ => AssertionFailed
  | Some e => get t <- Edge.twin e h; deref t
  end.

(** Running a command over the items of a list, in order. *)
Fixpoint forEach {A} (l : list A) (body : A -> M unit) : M unit :=
  match l with
  | [] => ret tt
  | x :: l' => run body x; forEach l' body
  end.

Fixpoint rmapM {A B} (f : A -> R B) (l : list A) : R (list B) :=
  match l with
  | [] => rret []
  | x :: l' => get y <- f x; get ys <- rmapM f l'; rret (y :: ys)
  end.

Module Face.

Definition boundary (f : Address) : R (list Address) :=
  get x <- faceAt f; rret (f_boundary x).

(** The constructor takes over the boundary list and makes every half-edge
    of it point back to the face. *)
Definition new (bd : list Address) : M Address :=
  run assert (3 <=? Z.of_nat (length bd));
  do a <- fresh;
  run modifyMesh (withFacePool <[a := mkFace bd]>);
  run forEach bd (fun h => HalfEdge.setFace h (Some a));
  ret a.

(** The destructor destroys the boundary half-edges the face owns. *)
Definition delete (f : Address) : M unit :=
  do bd <- read (boundary f);
  run forEach bd HalfEdge.delete;
  modifyMesh (withFacePool (base.delete f)).

Definition vertexPositions (f : Address) : R (list Vec3) :=
  get bd <- boundary f;
  rmapM (fun h => get o <- HalfEdge.origin h; Vertex.position o) bd.

(** The first triple of consecutive boundary vertices that is not linearly
    dependent fixes the plane of the face; the boundary is counter-clockwise
    seen from outside, so [(p2 - p1) x (p3 - p1)] points outward. *)
Fixpoint normalOf (ps : list Vec3) : option (Vec3 * Vec3) :=
  match ps with
  | p1 :: ((p2 :: p3 :: _) as rest) =>
      let n := crossed (vsub p2 p1) (vsub p3 p1) in
      if null n then normalOf rest else Some (n, p1)
  | _ => None
  end.

(** Modelled from the spec: point-vs-plane classification against the plane
    of a face. *)
Definition pointStatus (f : Address) (p : Vec3) : R PointStatus :=
  get ps <- vertexPositions f;
  match normalOf ps with
  | Some (n, o) => rret (classify (dot (vsub p o) n))
  | None => fun _ => AssertionFailed
  end.

(** Reverses the orientation of the boundary: next and previous links are
    swapped, the head stays. *)
Definition flip (f : Address) : M unit :=
  do bd <- read (boundary f);
  run forEach bd (fun h =>
        updHalfEdge h (fun x =>
          mkHalfEdge (h_origin x) (h_edge x) (h_face x) (h_previous x) (h_next x)));
  storeFace f (mkFace (match bd with [] => [] | hd :: tl => hd :: rev tl end)).

End Face.

(** Modelled from the spec: a vertex is incident to a face when one of the
    face's boundary half-edges originates at it ([Vertex::incident]). *)
Definition Vertex_incident (v : Address) (f : option Address) : R bool :=
  match f with
  | None => fun _ => AssertionFailed
  | Some f =>
      get bd <- Face.boundary f;
      get os <- rmapM HalfEdge.origin bd;
      rret (bool_decide (v ∈ os))
  end.

(** ** Seam *)

Module Seam.

(** [m_edges] of the class: the edges of the seam in order. *)
Definition t := list Address.

(** Check whether the given edge is connected to the last edge of the
    current seam with a vertex. *)
Definition checkEdge (seam : t) (edge : Address) : R bool :=
  match List.last (map Some seam) None with
  | None => rret true
  | Some last =>
      get a <- Edge.firstVertex last;
      get b <- Edge.secondVertex edge;
      rret (addrEqb a b)
  end.

Fixpoint checkEdgesFrom (last : Address) (it : list Address) : R bool :=
  match it with
  | [] => rret true
  | edge :: it' =>
      get a <- Edge.firstVertex last;
      get b <- Edge.secondVertex edge;
      if addrEqb a b then checkEdgesFrom edge it' else rret false
  end.

Definition checkEdges (seam : t) : R bool :=
  chk rassert (2 <? Z.of_nat (length seam));
  match List.last (map Some seam) None with
  | None => fun _ => NullPointer
  | Some last => checkEdgesFrom last seam
  end.

Definition push_back (seam : t) (edge : option Address) : R t :=
  match edge with
  | None => fun _ => AssertionFailed
  | Some e =>
      get c <- checkEdge seam e;
      chk rassert c;
      rret (seam ++ [e])
  end.

(** [replace(end, replacement)]: the iterator [end] is given by the part of
    the seam that starts at it. *)
Definition replace (fromEnd : list Address) (replacement : Address) : R t :=
  let seam := fromEnd ++ [replacement] in
  get c <- checkEdges seam;
  chk rassert c;
  rret seam.

Definition shift1 (seam : t) : R t :=
  match seam with
  | [] => fun _ => AssertionFailed
  | first :: rest =>
      let seam' := rest ++ [first] in
      get c <- checkEdges seam';
      chk rassert c;
      rret seam'
  end.

Fixpoint shiftLoop (criterion : t -> R bool) (n : nat) (seam : t) : R (bool * t) :=
  match n with
  | O => rret (false, seam)
  | S n' =>
      get c <- criterion seam;
      if c then rret (true, seam)
      else get seam' <- shift1 seam; shiftLoop criterion n' seam'
  end.

(** [shift(criterion)]: the counter [i] runs from 0 to [size()]. *)
Definition shift (criterion : t -> R bool) (seam : t) : R (bool * t) :=
  shiftLoop criterion (length seam) seam.

Definition first (seam : t) : R Address :=
  match seam with
  | e :: _ => rret e
  | [] => fun _ => AssertionFailed
  end.

Definition second (seam : t) : R Address :=
  match seam with
  | _ :: e :: _ => rret e
  | _ => fun _ => AssertionFailed
  end.

Definition last (seam : t) : R Address :=
  match List.last (map Some seam) None with
  | Some e => rret e
  | None => fun _ => AssertionFailed
  end.

End Seam.

(** ** Splitting criteria *)

(** The abstract class [SplittingCriterion]: the virtual [doMatches]. *)
Definition SplittingCriterion := option Address -> R bool.

Inductive MatchResult :=
| MatchResult_First
| MatchResult_Second
| MatchResult_Both
| MatchResult_Neither.

Definition discriminates (r : MatchResult) : bool :=
  match r with
  | MatchResult_First | MatchResult_Second => true
  | _ => false
  end.

Definition SplitByConnectivityCriterion (vertex : Address) : SplittingCriterion :=
  fun face => get i <- Vertex_incident vertex face; rret (negb i).

Definition SplitByVisibilityCriterion (point : Vec3) : SplittingCriterion :=
  fun face =>
    get f <- deref face;
    get st <- Face.pointStatus f point;
    rret (bool_decide (st = PSBelow)).

Section Criterion.

Variable criterion : SplittingCriterion.

Definition matchesFace (face : option Address) : R bool := criterion face.

Definition matches (edge : Address) : R MatchResult :=
  get f1 <- Edge.firstFace edge;
  get firstResult <- matchesFace f1;
  get f2 <- Edge.secondFace edge;
  get secondResult <- matchesFace f2;
  rret (if firstResult
        then if secondResult then MatchResult_Both else MatchResult_First
        else if secondResult then MatchResult_Second else MatchResult_Neither).

Fixpoint findFirstSplittingEdge (edges : list Address) : M (option Address) :=
  match edges with
  | [] => ret None
  | edge :: rest =>
      do result <- read (matches edge);
      match result with
      | MatchResult_Second => run Edge.flip edge; ret (Some edge)
      | MatchResult_First => ret (Some edge)
      | MatchResult_Both | MatchResult_Neither => findFirstSplittingEdge rest
      end
  end.

(** The inner loop of [findNextSplittingEdge]; [fuel] bounds the number of
    turns around the vertex. *)
Fixpoint nextSplittingLoop (fuel : nat) (last halfEdge next : Address)
    (result : MatchResult) : R (Address * MatchResult) :=
  if discriminates result || addrEqb next last then rret (next, result)
  else match fuel with
       | O => fun _ => Diverged
       | S fuel' =>
           get t <- HalfEdge_twin halfEdge;
           get halfEdge' <- HalfEdge.previous t;
           get oe <- HalfEdge.edge halfEdge';
           get next' <- deref oe;
           get result' <- matches next';
           nextSplittingLoop fuel' last halfEdge' next' result'
       end.

(** finds the next seam edge in counter clockwise orientation *)
Definition findNextSplittingEdge (last : Address) : M (option Address) :=
  do h <- read (Edge.firstEdge last);
  do halfEdge <- read (HalfEdge.previous h);
  do oe <- read (HalfEdge.edge halfEdge);
  do next <- read (deref oe);
  do result <- read (matches next);
  do fuel <- read (fun m => Ok (size (halfEdgePool m)));
  do '(next, result) <- read (nextSplittingLoop fuel last halfEdge next result);
  if negb (discriminates result) then ret None
  else
    run match result with
        | MatchResult_Second => Edge.flip next
        | _ => ret tt
        end;
    ret (Some next).

Fixpoint createSeamLoop (fuel : nat) (first : Address) (seam : Seam.t)
    (current : option Address) : M Seam.t :=
  match fuel with
  | O => diverged
  | S fuel' =>
      do seam <- read (Seam.push_back seam current);
      do current <- match current with
                    | Some c => findNextSplittingEdge c
                    | None => nullPointer
                    end;
      if optAddrEqb current (Some first) then ret seam
      else createSeamLoop fuel' first seam current
  end.

Definition createSeam : M Seam.t :=
  do edges <- read (fun m => Ok (m_edges m));
  do first <- findFirstSplittingEdge edges;
  match first with
  | None => ret []
  | Some f => createSeamLoop (length edges) f [] (Some f)
  end.

End Criterion.

(** ** Planar helpers

    Modelled from the spec: the 2D convex hull helper and the polygon
    containment test (ConvexHull2D.h and the point-in-polygon routine are
    not part of the sources; the spec gives them at interface level).  Both
    work in the plane of the given coplanar points. *)

Module Planar.

Fixpoint firstDistinct (p : Vec3) (ps : list Vec3) : option Vec3 :=
  match ps with
  | [] => None
  | q :: ps' => if bool_decide (q = p) then firstDistinct p ps' else Some q
  end.

Fixpoint firstIndependent (p q : Vec3) (ps : list Vec3) : option Vec3 :=
  match ps with
  | [] => None
  | r :: ps' => if linearlyDependent p q r then firstIndependent p q ps' else Some r
  end.

(** A normal of the plane the points lie in. *)
Definition planeNormal (ps : list Vec3) : option Vec3 :=
  match ps with
  | [] => None
  | p :: rest =>
      match firstDistinct p rest with
      | None => None
      | Some q =>
          match firstIndependent p q rest with
          | None => None
          | Some r => Some (crossed (vsub q p) (vsub r p))
          end
      end
  end.

(** Positive when [c] lies to the left of the ray from [a] to [b], seen
    against the normal [n]. *)
Definition orient (n a b c : Vec3) : Z :=
  dot (crossed (vsub b a) (vsub c a)) n.

Definition lexLt (a b : Vec3) : bool :=
  (vx a <? vx b) || ((vx a =? vx b) && ((vy a <? vy b) ||
    ((vy a =? vy b) && (vz a <? vz b)))).

Definition lowest (p : Vec3) (ps : list Vec3) : Vec3 :=
  fold_left (fun best q => if lexLt q best then q else best) ps p.

Definition sqDist (a b : Vec3) : Z := dot (vsub b a) (vsub b a).

(** The next hull vertex after [cur]: no point lies to the right of the ray
    towards it, and of the points on that ray it is the farthest. *)
Definition wrapStep (n cur : Vec3) (ps : list Vec3) : option Vec3 :=
  match firstDistinct cur ps with
  | None => None
  | Some q0 =>
      Some (fold_left
              (fun q r =>
                 let o := orient n cur q r in
                 if (o <? 0) || ((o =? 0) && (sqDist cur q <? sqDist cur r))
                 then r else q)
              ps q0)
  end.

Fixpoint wrap (fuel : nat) (n start cur : Vec3) (ps : list Vec3) : list Vec3 :=
  match fuel with
  | O => []
  | S fuel' =>
      match wrapStep n cur ps with
      | None => []
      | Some q => if bool_decide (q = start) then [] else q :: wrap fuel' n start q ps
      end
  end.

Definition convexHull2D (ps : list Vec3) : list Vec3 :=
  match ps, planeNormal ps with
  | p :: rest, Some n =>
      let start := lowest p rest in
      start :: wrap (length ps) n start start ps
  | _, _ => []
  end.

Fixpoint sides (n p : Vec3) (first : Vec3) (vs : list Vec3) : list Z :=
  match vs with
  | [] => []
  | [a] => [orient n a first p]
  | a :: ((b :: _) as vs') => orient n a b p :: sides n p first vs'
  end.

Definition polygonContainsPoint (p : Vec3) (vs : list Vec3) : bool :=
  match vs, planeNormal vs with
  | v :: _, Some n =>
      let ss := sides n p v vs in
      forallb (fun s => 0 <=? s) ss || forallb (fun s => s <=? 0) ss
  | _, _ => false
  end.

End Planar.

(** ** The polyhedron: collections, shape states, callbacks *)

Definition vertexCount : R nat := fun m => Ok (length (m_vertices m)).
Definition edgeCount : R nat := fun m => Ok (length (m_edges m)).
Definition faceCount : R nat := fun m => Ok (length (m_faces m)).

(** Modelled from the spec: the shape states of section 3 (the predicates are
    declared in Polyhedron.h, which is not part of the sources). *)
Definition isEmpty (m : Mesh) : bool :=
  bool_decide (length (m_vertices m) = 0%nat).
Definition isPoint (m : Mesh) : bool :=
  bool_decide (length (m_vertices m) = 1%nat) &&
  bool_decide (length (m_edges m) = 0%nat) &&
  bool_decide (length (m_faces m) = 0%nat).
Definition isEdge (m : Mesh) : bool :=
  bool_decide (length (m_vertices m) = 2%nat) &&
  bool_decide (length (m_edges m) = 1%nat) &&
  bool_decide (length (m_faces m) = 0%nat).
Definition isPolygon (m : Mesh) : bool :=
  bool_decide (3 <= length (m_vertices m))%nat &&
  bool_decide (length (m_faces m) = 1%nat).
Definition isPolyhedron (m : Mesh) : bool :=
  bool_decide (4 <= length (m_vertices m))%nat &&
  bool_decide (4 <= length (m_faces m))%nat.

Definition empty : R bool := fun m => Ok (isEmpty m).
Definition point : R bool := fun m => Ok (isPoint m).
Definition edge : R bool := fun m => Ok (isEdge m).
Definition polygon : R bool := fun m => Ok (isPolygon m).
Definition polyhedron : R bool := fun m => Ok (isPolyhedron m).

(** The owning lists: [append(x, 1)], [remove(x)], [front()] and, for the
    vertex ring, [next()]. *)
Definition appendVertex (v : Address) : M unit := modifyMesh (withVertices (fun l => l ++ [v])).
Definition appendEdge (e : Address) : M unit := modifyMesh (withEdges (fun l => l ++ [e])).
Definition appendFace (f : Address) : M unit := modifyMesh (withFaces (fun l => l ++ [f])).

Definition removeAddr (a : Address) (l : list Address) : list Address :=
  filter (fun b => b <> a) l.

Definition removeVertexFromList (v : Address) : M unit := modifyMesh (withVertices (removeAddr v)).
Definition removeEdgeFromList (e : Address) : M unit := modifyMesh (withEdges (removeAddr e)).
Definition removeFaceFromList (f : Address) : M unit := modifyMesh (withFaces (removeAddr f)).

Definition frontVertex : R Address := fun m => deref (head (m_vertices m)) m.
Definition frontFace : R Address := fun m => deref (head (m_faces m)) m.

Fixpoint successor (first : Address) (v : Address) (l : list Address) : option Address :=
  match l with
  | [] => None
  | a :: l' =>
      if addrEqb a v
      then Some (match l' with b :: _ => b | [] => first end)
      else successor first v l'
  end.

(** [Vertex::next()]: the successor in the vertex ring. *)
Definition nextVertex (v : Address) : R Address :=
  fun m => match m_vertices m with
           | [] => NullPointer
           | a :: _ => deref (successor a v (m_vertices m)) m
           end.

Definition vertexPositions : R (list Vec3) :=
  fun m => rmapM Vertex.position (m_vertices m) m.

(** The two member functions of [Callback]. *)
Definition faceWasCreated (f : Address) : M unit :=
  fun s => Ok (tt, mkState (st_mesh s)
                           (st_log s ++ [mkNotification FaceWasCreated f (st_mesh s)])).
Definition faceWillBeDeleted (f : Address) : M unit :=
  fun s => Ok (tt, mkState (st_mesh s)
                           (st_log s ++ [mkNotification FaceWillBeDeleted f (st_mesh s)])).

(** Modelled from the spec: [clear] destroys all faces (with their boundary
    half-edges), edges and vertices (Polyhedron_Misc.h is not part of the
    sources).  It takes no callback. *)
Definition clear : M unit :=
  do fs <- read (fun m => Ok (m_faces m));
  run forEach fs Face.delete;
  do es <- read (fun m => Ok (m_edges m));
  run forEach es Edge.delete;
  do vs <- read (fun m => Ok (m_vertices m));
  run forEach vs Vertex.delete;
  modifyMesh (fun m => withVertices (fun _ => [])
                         (withEdges (fun _ => []) (withFaces (fun _ => []) m))).

Fixpoint rforallb {A} (f : A -> R bool) (l : list A) : R bool :=
  match l with
  | [] => rret true
  | x :: l' => get b <- f x; if b then rforallb f l' else rret false
  end.

(** Modelled from the spec: the point-containment query; a point is contained
    when it is on or inside every face plane. *)
Definition contains (position : Vec3) : R bool :=
  fun m =>
    rforallb (fun f => get st <- Face.pointStatus f position;
                       rret (negb (bool_decide (st = PSAbove))))
             (m_faces m) m.

(** Modelled from the spec: looking a vertex up by position. *)
Definition findVertexByPosition (p : Vec3) : R (option Address) :=
  fun m =>
    Ok (head (filter (fun v => (v_position <$> (vertexPool m !! v)) = Some p)
                     (m_vertices m))).

(** ** Insertion helpers, in the order of the source *)

(** Adds the given point to an empty polyhedron. *)
Definition addFirstPoint (position : Vec3) : M unit :=
  do e <- read empty;
  run assert e;
  do v <- Vertex.new position;
  appendVertex v.

(** Adds the given point to a polyhedron that contains one point. *)
Definition addSecondPoint (position : Vec3) : M unit :=
  do p <- read point;
  run assert p;
  do onlyVertex <- read frontVertex;
  do q <- read (Vertex.position onlyVertex);
  if bool_decide (position <> q) then
    do newVertex <- Vertex.new position;
    run appendVertex newVertex;
    do halfEdge1 <- HalfEdge.new onlyVertex;
    do halfEdge2 <- HalfEdge.new newVertex;
    do edge <- Edge.new halfEdge1 (Some halfEdge2);
    appendEdge edge
  else ret tt.

(** Adds a colinear third point to a polyhedron that contains one edge. *)
Definition addPointToEdge (position : Vec3) : M bool :=
  do e <- read edge;
  run assert e;
  do v1 <- read frontVertex;
  do v2 <- read (nextVertex v1);
  do p1 <- read (Vertex.position v1);
  do p2 <- read (Vertex.position v2);
  run assert (linearlyDependent p1 p2 position);
  if containedWithinSegment position p1 p2 then ret false
  else
    run Vertex.setPosition v2 position;
    ret true.

(** The loop of [makePolygon]. *)
Fixpoint makePolygonLoop (positions : list Vec3) (boundary : list Address)
    : M (list Address) :=
  match positions with
  | [] => ret boundary
  | p :: rest =>
      do v <- Vertex.new p;
      do h <- HalfEdge.new v;
      do e <- Edge.new h None;
      run appendVertex v;
      do boundary <- HalfEdgeList.append boundary h;
      run appendEdge e;
      makePolygonLoop rest boundary
  end.

(** Creates a new polygon from the given set of coplanar points. *)
Definition makePolygon (positions : list Vec3) : M unit :=
  do e <- read empty;
  run assert e;
  run assert (2 <? Z.of_nat (length positions));
  do boundary <- makePolygonLoop positions [];
  do f <- Face.new boundary;
  run faceWasCreated f;
  appendFace f.

(** Adds the given coplanar point to a polyhedron that is a polygon or an
    edge. *)
Definition addPointToPolygon (position : Vec3) : M bool :=
  do n <- read vertexCount;
  do ps <- read vertexPositions;
  if bool_decide (3 <= n)%nat && Planar.polygonContainsPoint position ps
  then ret false
  else
    let positions := Planar.convexHull2D (ps ++ [position]) in
    run clear;
    run makePolygon positions;
    ret true.

(** Adds the given point to a polyhedron that contains one edge. *)
Definition addThirdPoint (position : Vec3) : M bool :=
  do e <- read edge;
  run assert e;
  do v1 <- read frontVertex;
  do v2 <- read (nextVertex v1);
  do p1 <- read (Vertex.position v1);
  do p2 <- read (Vertex.position v2);
  if linearlyDependent p1 p2 position
  then addPointToEdge position
  else addPointToPolygon position.

(** ** Split *)

Definition halfEdgeFuel : R nat := fun m => Ok (S (size (halfEdgePool m))).

(** The loop of [deleteFaces] once around the boundary of the face that was
    entered at [first]; [recurse] is the recursive call of [deleteFaces].  The
    references [visitedFaces] and [verticesToDelete] are threaded through as
    a pair. *)
Fixpoint deleteFacesLoop
    (recurse : Address -> gset positive * list Address -> M (gset positive * list Address))
    (first : Address) (n : nat) (current : Address)
    (acc : gset positive * list Address) {struct n}
    : M (gset positive * list Address) :=
  match n with
  | O => diverged
  | S n' =>
      do oedge <- read (HalfEdge.edge current);
      do acc <-
        match oedge with
        | None => ret acc
        | Some edge =>
            do fs <- read (Edge.fullySpecified edge);
            do acc <-
              (if fs
               then do ot <- read (Edge.twin edge current);
                    do t <- read (deref ot);
                    recurse t acc
               else ret acc);
            do fs <- read (Edge.fullySpecified edge);
            run (if fs
                 then run Edge.makeSecondEdge edge current;
                      Edge.unsetSecondEdge edge
                 else run HalfEdge.unsetEdge current;
                      run removeEdgeFromList edge;
                      Edge.delete edge);
            ret acc
        end;
      do origin <- read (HalfEdge.origin current);
      do l <- read (Vertex.leaving origin);
      do acc <-
        (if optAddrEqb l (Some current)
         then run removeVertexFromList origin;
              ret (acc.1, acc.2 ++ [origin])
         else ret acc);
      do current <- read (HalfEdge.next current);
      if addrEqb current first then ret acc
      else deleteFacesLoop recurse first n' current acc
  end.

(** [deleteFaces]: [depth] bounds the recursion over faces. *)
Fixpoint deleteFaces (depth : nat) (first : Address)
    (acc : gset positive * list Address) {struct depth}
    : M (gset positive * list Address) :=
  match depth with
  | O => diverged
  | S depth' =>
      do oface <- read (HalfEdge.face first);
      do face <- read (deref oface);
      if bool_decide (face ∈ acc.1) then ret acc
      else
        let acc := ({[face]} ∪ acc.1, acc.2) in
        do fuel <- read halfEdgeFuel;
        do acc <- deleteFacesLoop (deleteFaces depth') first fuel first acc;
        run faceWillBeDeleted face;
        run removeFaceFromList face;
        run Face.delete face;
        ret acc
  end.

(** Splits this polyhedron along the given seam and removes all faces, edges
    and vertices which are "above" the seam. *)
Definition split (seam : Seam.t) : M unit :=
  run assert (3 <=? Z.of_nat (length seam));
  (* First, unset the second half edge of every seam edge.
     Thereby remember the second half edge of the first seam edge. *)
  do e0 <- read (Seam.first seam);
  do first <- read (Edge.secondEdge e0);
  run forEach seam (fun edge =>
        run Edge.setFirstAsLeaving edge;
        Edge.unsetSecondEdge edge);
  (* Now delete all the faces, edges, and vertices which are above the seam. *)
  do depth <- read (fun m => Ok (S (size (facePool m))));
  do acc <- deleteFaces depth first (∅, []);
  (* the local list verticesToDelete goes out of scope *)
  forEach acc.2 Vertex.delete.

(** ** Sealing *)

Fixpoint rexistsb {A} (f : A -> R bool) (l : list A) : R bool :=
  match l with
  | [] => rret false
  | x :: l' => get b <- f x; if b then rret true else rexistsb f l'
  end.

Definition planeOf (v1 v2 v3 : Address) : R Plane :=
  get p1 <- Vertex.position v1;
  get p2 <- Vertex.position v2;
  get p3 <- Vertex.position v3;
  match setPlanePoints p1 p2 p3 with
  | Some pl => rret pl
  | None => fun _ => AssertionFailed
  end.

Definition statusOfVertex (pl : Plane) (v : Address) : R PointStatus :=
  get p <- Vertex.position v; rret (planePointStatus pl p).

Module ShiftSeamForSealing.

Definition checkRemainingPoints (plane : Plane) (seam : Seam.t) : R bool :=
  if (length seam <? 5)%nat then rret true
  else
    let middle := removelast (skipn 2 seam) in
    get above <- rexistsb (fun edge =>
                   get vertex <- Edge.firstVertex edge;
                   get st <- statusOfVertex plane vertex;
                   rret (bool_decide (st = PSAbove))) middle;
    rret (negb above).

Definition call (seam : Seam.t) : R bool :=
  get first <- Seam.first seam;
  get second <- Seam.second seam;
  get v1 <- Edge.firstVertex first;
  get v2 <- Edge.secondVertex first;
  get v3 <- Edge.firstVertex second;
  get plane <- planeOf v1 v2 v3;
  get last <- Seam.last seam;
  get v4 <- Edge.secondVertex last;
  get st <- statusOfVertex plane v4;
  if bool_decide (st <> PSBelow) then rret false
  else checkRemainingPoints plane seam.

End ShiftSeamForSealing.

Fixpoint sealSingleLoop (it : list Address) (boundary : list Address)
    : M (list Address) :=
  match it with
  | [] => ret boundary
  | currentEdge :: it' =>
      do fs <- read (Edge.fullySpecified currentEdge);
      run assert (negb fs);
      do origin <- read (Edge.secondVertex currentEdge);
      do boundaryEdge <- HalfEdge.new origin;
      do boundary <- HalfEdgeList.append boundary boundaryEdge;
      run Edge.setSecondEdge currentEdge boundaryEdge;
      sealSingleLoop it' boundary
  end.

(** Weaves a new cap onto the given seam edges. The new cap will be a single
    polygon, so we assume that all seam vertices lie on a plane. *)
Definition sealWithSinglePolygon (seam : Seam.t) : M unit :=
  run assert (3 <=? Z.of_nat (length seam));
  do boundary <- sealSingleLoop seam [];
  do face <- Face.new boundary;
  run faceWasCreated face;
  appendFace face.

(** The inner loop of [sealWithMultiplePolygons]: try to add more points as
    long as they all lie on the same plane as the first three points. *)
Fixpoint sealRun (plane : Plane) (curIt : list Address)
    (boundary : list Address) (lastVertex : Address)
    : M (list Address * list Address * Address) :=
  match curIt with
  | [] => ret (curIt, boundary, lastVertex)
  | curEdge :: curIt' =>
      do v <- read (Edge.firstVertex curEdge);
      do st <- read (statusOfVertex plane v);
      if bool_decide (st = PSInside) then
        do o <- read (Edge.secondVertex curEdge);
        do curBoundaryEdge <- HalfEdge.new o;
        do boundary <- HalfEdgeList.append boundary curBoundaryEdge;
        run Edge.setSecondEdge curEdge curBoundaryEdge;
        do lastVertex <- read (Edge.firstVertex curEdge);
        sealRun plane curIt' boundary lastVertex
      else ret (curIt, boundary, lastVertex)
  end.

Fixpoint sealLoop (fuel : nat) (seam : Seam.t) : M unit :=
  match seam with
  | [] => ret tt
  | _ =>
      match fuel with
      | O => diverged
      | S fuel' =>
          run assert (3 <=? Z.of_nat (length seam));
          match seam with
          | firstEdge :: secondEdge :: curIt =>
              do o1 <- read (Edge.secondVertex firstEdge);
              do firstBoundaryEdge <- HalfEdge.new o1;
              do o2 <- read (Edge.secondVertex secondEdge);
              do secondBoundaryEdge <- HalfEdge.new o2;
              do boundary <- HalfEdgeList.append [] firstBoundaryEdge;
              do boundary <- HalfEdgeList.append boundary secondBoundaryEdge;
              run Edge.setSecondEdge firstEdge firstBoundaryEdge;
              run Edge.setSecondEdge secondEdge secondBoundaryEdge;
              do v1 <- read (Edge.firstVertex firstEdge);
              do v2 <- read (Edge.secondVertex firstEdge);
              do v3 <- read (Edge.firstVertex secondEdge);
              do plane <- read (planeOf v1 v2 v3);
              do '(curIt, boundary, lastVertex) <- sealRun plane curIt boundary v3;
              do '(seam, boundary) <-
                match curIt with
                | _ :: _ =>
                    do lastBoundaryEdge <- HalfEdge.new lastVertex;
                    do boundary <- HalfEdgeList.append boundary lastBoundaryEdge;
                    do newEdge <- Edge.new lastBoundaryEdge None;
                    run appendEdge newEdge;
                    do seam <- read (Seam.replace curIt newEdge);
                    ret (seam, boundary)
                | [] => ret ([], boundary)
                end;
              do newFace <- Face.new boundary;
              run faceWasCreated newFace;
              run appendFace newFace;
              sealLoop fuel' seam
          | _ => assertionFailed
          end
      end
  end.

Definition sealWithMultiplePolygons (seam : Seam.t) : M unit :=
  run assert (3 <=? Z.of_nat (length seam));
  if bool_decide (length seam = 3%nat) then sealWithSinglePolygon seam
  else
    do '(_, seam) <- read (Seam.shift ShiftSeamForSealing.call seam);
    sealLoop (length seam) seam.

(** ** Weaving *)

Definition ShiftSeamForWeaving (position : Vec3) (seam : Seam.t) : R bool :=
  get last <- Seam.last seam;
  get first <- Seam.first seam;
  get v1 <- Edge.firstVertex last;
  get v2 <- Edge.secondVertex last;
  get v3 <- Edge.firstVertex first;
  chk rassert (negb (addrEqb v3 v1));
  chk rassert (negb (addrEqb v3 v2));
  get p1 <- Vertex.position v1;
  get p2 <- Vertex.position v2;
  match setPlanePoints position p1 p2 with
  | None => fun _ => AssertionFailed
  | Some lastPlane =>
      get status <- statusOfVertex lastPlane v3;
      chk rassert (negb (bool_decide (status = PSAbove)));
      rret (bool_decide (status = PSBelow))
  end.

(** The inner loop of [weave]: seam edges whose first vertex lies in the
    plane of the face under construction are merged into it. *)
Fixpoint weaveRun (plane : Plane) (it : list Address) (h : Address)
    (boundary : list Address) : M (list Address * Address * list Address) :=
  match it with
  | [] => ret (it, h, boundary)
  | next :: it' =>
      do v <- read (Edge.firstVertex next);
      do st <- read (statusOfVertex plane v);
      if bool_decide (st = PSInside) then
        run Edge.setSecondEdge next h;
        do v <- read (Edge.firstVertex next);
        do h <- HalfEdge.new v;
        do boundary <- HalfEdgeList.append boundary h;
        weaveRun plane it' h boundary
      else ret (it, h, boundary)
  end.

Fixpoint weaveLoop (fuel : nat) (top : Address) (it : list Address)
    (first last : option Address) : M (option Address * option Address) :=
  match it with
  | [] => ret (first, last)
  | edge :: it =>
      match fuel with
      | O => diverged
      | S fuel' =>
          do fs <- read (Edge.fullySpecified edge);
          run assert (negb fs);
          do v1 <- read (Edge.secondVertex edge);
          do v2 <- read (Edge.firstVertex edge);
          do h1 <- HalfEdge.new top;
          do h2 <- HalfEdge.new v1;
          do h3 <- HalfEdge.new v2;
          do boundary <- HalfEdgeList.append [] h1;
          do boundary <- HalfEdgeList.append boundary h2;
          do boundary <- HalfEdgeList.append boundary h3;
          run Edge.setSecondEdge edge h2;
          do '(it, h, boundary) <-
            match it with
            | [] => ret (it, h3, boundary)
            | _ :: _ =>
                do plane <- read (planeOf top v2 v1);
                weaveRun plane it h3 boundary
            end;
          do newFace <- Face.new boundary;
          run faceWasCreated newFace;
          run appendFace newFace;
          run match last with
              | Some l => do e <- Edge.new h1 (Some l); appendEdge e
              | None => ret tt
              end;
          let first := match first with None => Some h1 | Some _ => first end in
          weaveLoop fuel' top it first (Some h)
      end
  end.

(** Weaves a new cap onto the given seam edges. The new cap will form a
    triangle fan (actually a cone) with a new vertex at the location of the
    given point being shared by all the newly created triangles. *)
Definition weave (seam : Seam.t) (position : Vec3) : M unit :=
  run assert (3 <=? Z.of_nat (length seam));
  do '(shifted, seam) <- read (Seam.shift (ShiftSeamForWeaving position) seam);
  run assert shifted;
  do top <- Vertex.new position;
  do '(first, last) <- weaveLoop (length seam) top seam None None;
  do first <- read (deref first);
  do last <- read (deref last);
  do f1 <- read (HalfEdge.face first);
  do f2 <- read (HalfEdge.face last);
  run assert (negb (optAddrEqb f1 f2));
  do e <- Edge.new first (Some last);
  run appendEdge e;
  appendVertex top.

(** ** Insertion into a polygon or a polyhedron *)

(** Adds the given point to this polyhedron by weaving a cap over the given
    seam. Assumes that this polyhedron has been split by the given seam. *)
Definition addPointToPolyhedron (position : Vec3) (seam : Seam.t) : M bool :=
  run assert (negb (bool_decide (seam = [])));
  do remainingFace <- read frontFace;
  do vertices <- read (Face.vertexPositions remainingFace);
  run weave seam position;
  do p <- read polyhedron;
  run assert p;
  ret true.

Fixpoint makePolyhedronLoop (fuel : nat) (first current : Address) (seam : Seam.t)
    : M Seam.t :=
  match fuel with
  | O => diverged
  | S fuel' =>
      do e <- read (HalfEdge.edge current);
      do seam <- read (Seam.push_back seam e);
      (* The seam must be CCW, so we have to iterate in reverse order in
         this case. *)
      do current <- read (HalfEdge.previous current);
      if addrEqb current first then ret seam
      else makePolyhedronLoop fuel' first current seam
  end.

(** Converts a coplanar polyhedron into a non-coplanar one by adding the
    given point, which is assumed to be non-coplanar to the points in this
    polyhedron. *)
Definition makePolyhedron (position : Vec3) : M bool :=
  do p <- read polygon;
  run assert p;
  do face <- read frontFace;
  do boundary <- read (Face.boundary face);
  do first <- read (deref (head boundary));
  do fuel <- read halfEdgeFuel;
  do seam <- makePolyhedronLoop fuel first first [];
  addPointToPolyhedron position seam.

(** Adds the given point to this polyhedron. *)
Definition addFurtherPointToPolyhedron (position : Vec3) : M bool :=
  do p <- read polyhedron;
  run assert p;
  do c <- read (contains position);
  if c then ret false
  else
    do seam <- createSeam (SplitByVisibilityCriterion position);
    if bool_decide (seam = []) then ret false
    else
      run split seam;
      addPointToPolyhedron position seam.

(** Adds the given point to a polygon. The result is either a different
    polygon if the given point is coplanar to the already existing polygon,
    or a polyhedron if the given point is not coplanar. *)
Definition addFurtherPointToPolygon (position : Vec3) : M bool :=
  do face <- read frontFace;
  do status <- read (Face.pointStatus face position);
  match status with
  | PSInside => addPointToPolygon position
  | PSAbove => run Face.flip face; makePolyhedron position
  | PSBelow => makePolyhedron position
  end.

(** Adds the given point to a polyhedron that is either a polygon or a
    polyhedron. *)
Definition addFurtherPoint (position : Vec3) : M bool :=
  do n <- read faceCount;
  if bool_decide (n = 1%nat)
  then addFurtherPointToPolygon position
  else addFurtherPointToPolyhedron position.

(** ** The public operations *)

Record Polyhedron := mkPolyhedron {
  mesh : Mesh;
  m_bounds : BBox
}.

Definition emptyPolyhedron : Polyhedron :=
  mkPolyhedron emptyMesh (mkBBox (vec3 0 0 0) (vec3 0 0 0)).

(** A member function call on the polyhedron with a callback: the helper
    runs on the mesh and the callback, the bounds are left to the caller. *)
Definition call {A} (m : M A) (p : Polyhedron) (callback : list Notification)
    : Res (A * Mesh * list Notification) :=
  match m (mkState (mesh p) callback) with
  | Ok (a, s) => Ok (a, st_mesh s, st_log s)
  | AssertionFailed => AssertionFailed
  | NullPointer => NullPointer
  | Diverged => Diverged
  end.

Definition andThen {A B} (r : Res A) (k : A -> Res B) : Res B :=
  match r with
  | Ok a => k a
  | AssertionFailed => AssertionFailed
  | NullPointer => NullPointer
  | Diverged => Diverged
  end.

(** [void addPoint(const V& position, Callback& callback)]: the result
    carries the polyhedron and the callback after the call, and no value. *)
Definition addPoint (position : Vec3) (p : Polyhedron) (callback : list Notification)
    : Res (unit * Polyhedron * list Notification) :=
  match length (m_vertices (mesh p)) with
  | 0%nat =>
      andThen (call (addFirstPoint position) p callback) (fun '(_, m, cb) =>
      Ok (tt, mkPolyhedron m (mkBBox position position), cb))
  | 1%nat =>
      andThen (call (addSecondPoint position) p callback) (fun '(_, m, cb) =>
      Ok (tt, mkPolyhedron m (mergeWith (m_bounds p) position), cb))
  | 2%nat =>
      andThen (call (addThirdPoint position) p callback) (fun '(_, m, cb) =>
      Ok (tt, mkPolyhedron m (mergeWith (m_bounds p) position), cb))
  | _ =>
      andThen (call (addFurtherPoint position) p callback) (fun '(b, m, cb) =>
      Ok (tt, mkPolyhedron m (if b : bool then mergeWith (m_bounds p) position
                              else m_bounds p), cb))
  end.

(** Modelled from the spec: [updateBounds] recomputes the bounding box from
    the vertices (Polyhedron_Misc.h is not part of the sources). *)
Definition updateBounds (m : Mesh) (old : BBox) : Res BBox :=
  andThen (vertexPositions m) (fun ps =>
  match ps with
  | [] => Ok old
  | p :: rest => Ok (fold_left mergeWith rest (mkBBox p p))
  end).

Definition removeVertexBody (vertex : Address) : M unit :=
  do pos <- read (Vertex.position vertex);
  do found <- read (findVertexByPosition pos);
  run assert (optAddrEqb found (Some vertex));
  do seam <- createSeam (SplitByConnectivityCriterion vertex);
  run split seam;
  sealWithMultiplePolygons seam.

Definition removeVertex (vertex : Address) (p : Polyhedron) (callback : list Notification)
    : Res (unit * Polyhedron * list Notification) :=
  andThen (call (removeVertexBody vertex) p callback) (fun '(_, m, cb) =>
  andThen (updateBounds m (m_bounds p)) (fun b =>
  Ok (tt, mkPolyhedron m b, cb))).

(** [addPoints]: the points are added one after the other. *)
Fixpoint addPoints (points : list Vec3) (p : Polyhedron) (callback : list Notification)
    : Res (unit * Polyhedron * list Notification) :=
  match points with
  | [] => Ok (tt, p, callback)
  | x :: rest =>
      andThen (addPoint x p callback) (fun '(_, p', cb) => addPoints rest p' cb)
  end.

(** [merge]: every vertex of the other polyhedron, once around its vertex
    ring. *)
Definition merge (other : Polyhedron) (p : Polyhedron) (callback : list Notification)
    : Res (unit * Polyhedron * list Notification) :=
  andThen (vertexPositions (mesh other)) (fun ps => addPoints ps p callback).

(** * Vocabulary of the statements *)

(** ** Rotation of a sequence *)

Definition rotate1 {A} (l : list A) : list A :=
  match l with
  | [] => []
  | x :: r => r ++ [x]
  end.

Definition rot {A} (k : nat) (l : list A) : list A := Nat.iter k rotate1 l.

Definition connected (last edge : Address) : R bool :=
  get a <- Edge.firstVertex last;
  get b <- Edge.secondVertex edge;
  rret (addrEqb a b).

(** The edges of [it] follow one another, the first of them following [last]. *)
Fixpoint chain (m : Mesh) (last : Address) (it : list Address) : Prop :=
  match it with
  | [] => True
  | e :: it' => connected last e m = Ok true /\ chain m e it'
  end.

(** A closed seam: more than two edges, each following its predecessor,
    the first following the last ([checkEdges]). *)
Definition closedSeam (m : Mesh) (seam : Seam.t) : Prop :=
  (2 < length seam)%nat /\
  match last seam with
  | Some l => chain m l seam
  | None => False
  end.


(** What [shift(criterion)] does with a seam: a single [shift()] moves the
    first edge to the end; the seam after [shift(criterion)] is the seam
    before rotated by [k] single shifts, the criterion having been false on
    every rotation tried before; on true the rotated seam satisfies the
    criterion, on false all [size()] rotations were made and the sequence is
    what it was; on a closed seam with a criterion that answers on all
    arrangements of its edges the call returns. *)
Definition onlyRotates (criterion : Seam.t -> R bool) (seam : Seam.t) (m : Mesh) : Prop :=
  (forall seam1, Seam.shift1 seam m = Ok seam1 -> seam1 = rotate1 seam) /\
  (forall b seam', Seam.shift criterion seam m = Ok (b, seam') ->
     exists k, (k <= length seam)%nat /\
       seam' = rot k seam /\ seam' = drop k seam ++ take k seam /\
       seam' ≡ₚ seam /\
       (forall j, (j < k)%nat -> criterion (rot j seam) m = Ok false) /\
       (if b then criterion seam' m = Ok true
        else k = length seam /\ seam' = seam)) /\
  ((forall l, l ≡ₚ seam -> exists b, criterion l m = Ok b) ->
   Seam.checkEdges seam m = Ok true ->
   exists r, Seam.shift criterion seam m = Ok r).

(** ** Observations on the result of a call *)

Definition positionsOf (r : Res (unit * Polyhedron * list Notification)) : Res (list Vec3) :=
  andThen r (fun '(_, p, _) => vertexPositions (mesh p)).

Definition shapeOf (r : Res (unit * Polyhedron * list Notification)) : Res (nat * nat * nat) :=
  andThen r (fun '(_, p, _) =>
    Ok (length (m_vertices (mesh p)), length (m_edges (mesh p)), length (m_faces (mesh p)))).

Definition meshOf (r : Res (unit * Polyhedron * list Notification)) : Res Mesh :=
  andThen r (fun '(_, p, _) => Ok (mesh p)).

Definition inMesh {A} (r : Res (unit * Polyhedron * list Notification)) (q : R A) : Res A :=
  andThen (meshOf r) q.

(** [removeVertex] of the vertex at the given position. *)
Definition removeVertexAt (position : Vec3) (p : Polyhedron) (callback : list Notification)
    : Res (unit * Polyhedron * list Notification) :=
  andThen (findVertexByPosition position (mesh p)) (fun o =>
  match o with
  | Some v => removeVertex v p callback
  | None => AssertionFailed
  end).

(** The convexity property: no vertex lies strictly above the plane of a
    face. *)
Definition convex (m : Mesh) : Prop :=
  forall f v p, f ∈ m_faces m -> v ∈ m_vertices m ->
    Vertex.position v m = Ok p -> Face.pointStatus f p m <> Ok PSAbove.

Definition isAbove (f v : Address) : R bool :=
  get p <- Vertex.position v;
  get st <- Face.pointStatus f p;
  rret (bool_decide (st = PSAbove)).

Definition someVertexAbove : R bool :=
  fun m => rexistsb (fun f => rexistsb (isAbove f) (m_vertices m)) (m_faces m) m.

Definition faceWithPositions (ps : list Vec3) : R (option Address) :=
  fun m => Ok (head (filter (fun f => Face.vertexPositions f m = Ok ps) (m_faces m))).

(** Five points around an apex: [ringA0] is higher than the other four. *)
Definition ringA0 := vec3 2 0 1.
Definition ringA1 := vec3 1 2 0.
Definition ringA2 := vec3 (-1) 1 0.
Definition ringA3 := vec3 (-1) (-1) 0.
Definition ringA4 := vec3 1 (-2) 0.
Definition apex := vec3 0 0 3.

Definition ringWithApex : Res (unit * Polyhedron * list Notification) :=
  addPoints [ringA0; ringA1; ringA2; ringA3; ringA4; apex] emptyPolyhedron [].

Definition ringWithoutApex : Res (unit * Polyhedron * list Notification) :=
  andThen ringWithApex (fun '(_, p, cb) => removeVertexAt apex p cb).


(** ** An edge and a third point on its line *)

Definition edgeV1 := vec3 0 0 0.
Definition edgeV2 := vec3 1 0 0.
Definition beyondV1 := vec3 (-1) 0 0.

(** The segment between the two vertices of an edge-state polyhedron
    contains the point. *)
Definition edgeSegmentContains (r : Res (unit * Polyhedron * list Notification))
    (q : Vec3) : Res bool :=
  andThen (positionsOf r) (fun ps =>
  match ps with
  | [a; b] => Ok (linearlyDependent a b q && containedWithinSegment q a b)
  | _ => AssertionFailed
  end).


(** ** The empty seam *)

(** No edge of the polyhedron has the criterion true on one side only. *)
Definition noSplittingEdge (criterion : SplittingCriterion) (m : Mesh) : Prop :=
  Forall (fun e => exists r, matches criterion e m = Ok r /\ discriminates r = false)
         (m_edges m).

Definition singlePoint : Res (unit * Polyhedron * list Notification) :=
  addPoints [vec3 0 0 0] emptyPolyhedron [].

(** The seam [createSeam] builds for the vertex at the given position. *)
Definition connectivitySeamAt (position : Vec3) (p : Polyhedron) : Res Seam.t :=
  andThen (findVertexByPosition position (mesh p)) (fun o =>
  match o with
  | Some v =>
      andThen (createSeam (SplitByConnectivityCriterion v) (mkState (mesh p) []))
              (fun r => Ok r.1)
  | None => AssertionFailed
  end).

(** A tetrahedron whose four faces have been flipped: every face looks
    inwards.  No sequence of insertions produces this state. *)
Definition tetrahedron : Res (unit * Polyhedron * list Notification) :=
  addPoints [vec3 0 0 0; vec3 4 0 0; vec3 0 4 0; vec3 0 0 4] emptyPolyhedron [].

Definition insideOut (p : Polyhedron) : Res Polyhedron :=
  andThen (forEach (m_faces (mesh p)) Face.flip (mkState (mesh p) []))
          (fun r => Ok (mkPolyhedron (st_mesh r.2) (m_bounds p))).

Definition insideOutTetrahedron : Res Polyhedron :=
  andThen tetrahedron (fun '(_, p, _) => insideOut p).

Definition polyhedronOf (r : Res (unit * Polyhedron * list Notification)) : Polyhedron :=
  match r with
  | Ok (_, p, _) => p
  | _ => emptyPolyhedron
  end.

Definition orEmpty (r : Res Polyhedron) : Polyhedron :=
  match r with
  | Ok p => p
  | _ => emptyPolyhedron
  end.

Definition noSplittingEdgeB (criterion : SplittingCriterion) (m : Mesh) : bool :=
  forallb (fun e => match matches criterion e m with
                    | Ok r => negb (discriminates r)
                    | _ => false
                    end) (m_edges m).

(** ** Relations kept by calls *)

(** Every successful call of [m] relates the state before to the state
    after. *)
Definition preserves {A} (Rel : State -> State -> Prop) (m : M A) : Prop :=
  forall s a s', m s = Ok (a, s') -> Rel s s'.


(** ** Creation and deletion of faces *)

(** The three statements that follow each [new Face]. *)
Definition createdFace (boundary : list Address) : M Address :=
  do f <- Face.new boundary;
  run faceWasCreated f;
  run appendFace f;
  ret f.

(** The three statements that end [deleteFaces]. *)
Definition deletedFace (face : Address) : M unit :=
  run faceWillBeDeleted face;
  run removeFaceFromList face;
  Face.delete face.

(** A relation between the state before and after a call that every update
    of the vertices, half-edges and edges keeps. *)
Class MeshRel (Rel : State -> State -> Prop) : Prop := {
  mr_refl :: Reflexive Rel;
  mr_trans :: Transitive Rel;
  mr_fresh : preserves Rel fresh;
  mr_vertexPool g : preserves Rel (modifyMesh (withVertexPool g));
  mr_halfEdgePool g : preserves Rel (modifyMesh (withHalfEdgePool g));
  mr_edgePool g : preserves Rel (modifyMesh (withEdgePool g));
  mr_vertices g : preserves Rel (modifyMesh (withVertices g));
  mr_edges g : preserves Rel (modifyMesh (withEdges g))
}.

(** ... and that the creation and the deletion of a face, with their
    notifications, keep. *)
Class FaceRel (Rel : State -> State -> Prop) : Prop := {
  fr_created boundary : preserves Rel (createdFace boundary);
  fr_deleted face : preserves Rel (deletedFace face)
}.


(** ** Addresses, bounds *)

(** Addresses are handed out in increasing order. *)
Definition addressesGrow (s s' : State) : Prop :=
  (nextAddress (st_mesh s) <= nextAddress (st_mesh s'))%positive.

(** The bounds contain the position of every vertex of the polyhedron. *)
Definition boundsCoverVertices (p : Polyhedron) : Prop :=
  forall v q, v ∈ m_vertices (mesh p) -> Vertex.position v (mesh p) = Ok q ->
    boxContains (m_bounds p) q.

Definition boundsCoverVerticesB (p : Polyhedron) : bool :=
  forallb (fun v => match Vertex.position v (mesh p) with
                    | Ok q =>
                        (vx (bmin (m_bounds p)) <=? vx q) && (vy (bmin (m_bounds p)) <=? vy q) &&
                        (vz (bmin (m_bounds p)) <=? vz q) && (vx q <=? vx (bmax (m_bounds p))) &&
                        (vy q <=? vy (bmax (m_bounds p))) && (vz q <=? vz (bmax (m_bounds p)))
                    | _ => true
                    end) (m_vertices (mesh p)).

Definition edgePolyhedron : Polyhedron :=
  polyhedronOf (addPoints [vec3 0 0 0; vec3 2 0 0] emptyPolyhedron []).

Definition edgeState : State := mkState (mesh edgePolyhedron) [].

(** Every object of the pools, and every half-edge an edge or a half-edge
    points to, lies below the next free address. *)
Definition allocated (m : Mesh) : Prop :=
  (forall a x, vertexPool m !! a = Some x -> (a < nextAddress m)%positive) /\
  (forall a x, halfEdgePool m !! a = Some x ->
     (a < nextAddress m)%positive /\ (h_next x < nextAddress m)%positive) /\
  (forall a x, edgePool m !! a = Some x ->
     (a < nextAddress m)%positive /\
     (forall g, e_first x = Some g -> (g < nextAddress m)%positive)) /\
  (forall a x, facePool m !! a = Some x -> (a < nextAddress m)%positive).

(** Between two states: addresses grow; below the address [n] the pool of
    half-edges is unchanged; half-edges keep their origin, edges their first
    half-edge and, once set, their second, vertices their position; the
    faces, the lists of faces and vertices and the callback are unchanged. *)
Definition capFrame (n : positive) (s s' : State) : Prop :=
  (nextAddress (st_mesh s) <= nextAddress (st_mesh s'))%positive /\
  (forall h, (h < n)%positive ->
     halfEdgePool (st_mesh s') !! h = halfEdgePool (st_mesh s) !! h) /\
  (forall h x, halfEdgePool (st_mesh s) !! h = Some x ->
     (h < nextAddress (st_mesh s))%positive ->
     exists x', halfEdgePool (st_mesh s') !! h = Some x' /\ h_origin x' = h_origin x) /\
  (forall e x, edgePool (st_mesh s) !! e = Some x ->
     exists x', edgePool (st_mesh s') !! e = Some x' /\ e_first x' = e_first x /\
       (e_second x <> None -> e_second x' = e_second x)) /\
  (forall e, edgePool (st_mesh s) !! e = None -> edgePool (st_mesh s') !! e = None) /\
  facePool (st_mesh s') = facePool (st_mesh s) /\
  m_faces (st_mesh s') = m_faces (st_mesh s) /\
  m_vertices (st_mesh s') = m_vertices (st_mesh s) /\
  st_log s' = st_log s.

(** What the cap did with the seam edge [e]: at some state [s1] after [s]
    the edge was not fully specified and had the second vertex [o]; at the
    end its second half-edge is the new half-edge [h], which originates at
    [o]. *)
Definition capped (n : positive) (s s' : State) (e h : Address) : Prop :=
  exists g x s1,
    capFrame n s s1 /\
    Edge.fullySpecified e (st_mesh s1) = Ok false /\
    Edge.secondVertex e (st_mesh s1) = Ok (h_origin x) /\
    edgePool (st_mesh s') !! e = Some (mkEdge (Some g) (Some h)) /\
    halfEdgePool (st_mesh s') !! h = Some x /\
    (h < nextAddress (st_mesh s'))%positive.

(** One new face caps the seam: its boundary has one new half-edge per seam
    edge, which originates at the second vertex the edge had before and is
    now the second half-edge of the edge. *)
Definition sealedBySingleFace (s s' : State) (seam : list Address) : Prop :=
  exists f hs,
    facePool (st_mesh s) !! f = None /\
    facePool (st_mesh s') = <[f := mkFace hs]> (facePool (st_mesh s)) /\
    m_faces (st_mesh s') = m_faces (st_mesh s) ++ [f] /\
    (exists m1, st_log s' = st_log s ++ [mkNotification FaceWasCreated f m1]) /\
    Forall2 (fun e h => exists o,
        Edge.fullySpecified e (st_mesh s) = Ok false /\
        Edge.secondVertex e (st_mesh s) = Ok o /\
        halfEdgePool (st_mesh s) !! h = None /\
        HalfEdge.origin h (st_mesh s') = Ok o /\
        HalfEdge.face h (st_mesh s') = Ok (Some f) /\
        Edge.second e (st_mesh s') = Ok (Some h) /\
        Edge.fullySpecified e (st_mesh s') = Ok true) seam hs.

Definition allocatedB (m : Mesh) : bool :=
  forallb (fun ax => Pos.ltb ax.1 (nextAddress m)) (map_to_list (vertexPool m)) &&
  forallb (fun ax => Pos.ltb ax.1 (nextAddress m) &&
                     Pos.ltb (h_next ax.2) (nextAddress m))
          (map_to_list (halfEdgePool m)) &&
  forallb (fun ax => Pos.ltb ax.1 (nextAddress m) &&
                     match e_first ax.2 with
                     | Some g => Pos.ltb g (nextAddress m)
                     | None => true
                     end)
          (map_to_list (edgePool m)) &&
  forallb (fun ax => Pos.ltb ax.1 (nextAddress m)) (map_to_list (facePool m)).

(** A tetrahedron, cut open around its vertex [(0, 0, 4)]: the seam of three
    edges and the state after [split]. *)
Definition openTetrahedron : Res (Seam.t * State) :=
  andThen tetrahedron (fun '(_, p, _) =>
  andThen (findVertexByPosition (vec3 0 0 4) (mesh p)) (fun o =>
  match o with
  | Some v =>
      andThen (createSeam (SplitByConnectivityCriterion v) (mkState (mesh p) []))
              (fun '(seam, s) =>
      andThen (split seam s) (fun '(_, s') => Ok (seam, s')))
  | None => AssertionFailed
  end)).

Definition seamOf (r : Res (Seam.t * State)) : Seam.t :=
  match r with
  | Ok (seam, _) => seam
  | _ => []
  end.

Definition stateOf (r : Res (Seam.t * State)) : State :=
  match r with
  | Ok (_, s) => s
  | _ => mkState emptyMesh []
  end.

(** The faces of the pool lie below the next free address. *)
Definition facesAllocated (m : Mesh) : Prop :=
  forall f x, facePool m !! f = Some x -> (f < nextAddress m)%positive.

(** In the mesh a callback sees, the face owns a boundary of at least three
    half-edges, each of them live and pointing back to the face. *)
Definition boundaryWired (m : Mesh) (f : Address) : Prop :=
  exists bd, facePool m !! f = Some (mkFace bd) /\ (3 <= length bd)%nat /\
    forall h, h ∈ bd -> exists x, halfEdgePool m !! h = Some x /\ h_face x = Some f.

(** In the mesh a callback sees, the face is live and so is every half-edge
    of its boundary. *)
Definition boundaryLive (m : Mesh) (f : Address) : Prop :=
  exists bd, facePool m !! f = Some (mkFace bd) /\
    forall h, h ∈ bd -> is_Some (halfEdgePool m !! h).

Definition snapshotOk (n : Notification) : Prop :=
  match n_kind n with
  | FaceWasCreated => boundaryWired (n_mesh n) (n_face n)
  | FaceWillBeDeleted => boundaryLive (n_mesh n) (n_face n)
  end.

(** The notifications, replayed on the set of live faces: a created face is
    new (at or above the bound of the addresses handed out so far), a deleted
    face was live; the mesh a notification sees has the faces that are live
    at that point of the replay (with the created face, and still with the
    face to be deleted). *)
Fixpoint replays (live : gset positive) (bound : positive) (l : list Notification)
    (live' : gset positive) (bound' : positive) : Prop :=
  match l with
  | [] => live' = live /\ (bound <= bound')%positive
  | n :: l' =>
      snapshotOk n /\
      match n_kind n with
      | FaceWasCreated =>
          (bound <= n_face n)%positive /\
          dom (facePool (n_mesh n)) = live ∪ {[n_face n]} /\
          replays (live ∪ {[n_face n]}) (Pos.succ (n_face n)) l' live' bound'
      | FaceWillBeDeleted =>
          n_face n ∈ live /\
          dom (facePool (n_mesh n)) = live /\
          replays (live ∖ {[n_face n]}) bound l' live' bound'
      end
  end.

(** The notifications come in the order in which the faces are created and
    destroyed: starting from the set [live] of faces, each notification sees
    a mesh whose faces are exactly those left by the notifications before
    it; a face notified as created is new and already among them, a face
    notified as about to be deleted is still among them. *)
Fixpoint inOrder (live : gset positive) (l : list Notification) : Prop :=
  match l with
  | [] => True
  | n :: l' =>
      match n_kind n with
      | FaceWasCreated =>
          (n_face n ∉ live) /\
          dom (facePool (n_mesh n)) = live ∪ {[n_face n]} /\
          inOrder (live ∪ {[n_face n]}) l'
      | FaceWillBeDeleted =>
          n_face n ∈ live /\
          dom (facePool (n_mesh n)) = live /\
          inOrder (live ∖ {[n_face n]}) l'
      end
  end.

Definition callbacksInOrder (s s' : State) : Prop :=
  exists l, st_log s' = st_log s ++ l /\ inOrder (dom (facePool (st_mesh s))) l.

Definition notified (s s' : State) : Prop :=
  facesAllocated (st_mesh s) ->
  facesAllocated (st_mesh s') /\
  exists l, st_log s' = st_log s ++ l /\
    replays (dom (facePool (st_mesh s))) (nextAddress (st_mesh s)) l
            (dom (facePool (st_mesh s'))) (nextAddress (st_mesh s')).

Definition createdIn (l : list Notification) : list Address :=
  map n_face (filter (fun n => n_kind n = FaceWasCreated) l).

Definition deletedIn (l : list Notification) : list Address :=
  map n_face (filter (fun n => n_kind n = FaceWillBeDeleted) l).

(** The notifications of a call match what the call did to the faces: the
    faces after the call are those before, plus the faces notified as
    created, minus the faces notified as deleted; no face is notified twice
    as created or twice as deleted; a face notified as created was not there
    before, a face notified as deleted was there before or was created by
    the call; each notification saw the boundary of its face. *)
Definition callbacksMatchFaces (s s' : State) : Prop :=
  exists l, st_log s' = st_log s ++ l /\
    NoDup (createdIn l) /\ NoDup (deletedIn l) /\
    dom (facePool (st_mesh s')) =
      (dom (facePool (st_mesh s)) ∪ list_to_set (createdIn l)) ∖ list_to_set (deletedIn l) /\
    (forall f, f ∈ createdIn l -> f ∉ dom (facePool (st_mesh s))) /\
    (forall f, f ∈ deletedIn l -> f ∈ dom (facePool (st_mesh s)) \/ f ∈ createdIn l) /\
    Forall snapshotOk l.

Definition triangle : Res (unit * Polyhedron * list Notification) :=
  addPoints [vec3 0 0 0; vec3 2 0 0; vec3 0 2 0] emptyPolyhedron [].

Definition logOf (r : Res (unit * Polyhedron * list Notification)) : list Notification :=
  match r with
  | Ok (_, _, cb) => cb
  | _ => []
  end.

(** The address of the vertex at the given position (the address [1] when
    there is none). *)
Definition vertexOf (position : Vec3) (p : Polyhedron) : Address :=
  match findVertexByPosition position (mesh p) with
  | Ok (Some v) => v
  | _ => 1%positive
  end.

Definition finalState {A} (r : Res (A * State)) (s : State) : State :=
  match r with
  | Ok (_, s') => s'
  | _ => s
  end.

(** The half-edges of the mesh are linked as the surgery expects: the
    predecessor of a half-edge is live, is followed by it and lies in the
    same face; the edge of a half-edge, when live, has it as first or as
    second half-edge; the two half-edges of a fully specified edge run in opposite
    directions (each originates where the other ends). *)
Definition wellFormed (m : Mesh) : Prop :=
  (forall h x, halfEdgePool m !! h = Some x ->
     exists y, halfEdgePool m !! h_previous x = Some y /\
               h_next y = h /\ h_face y = h_face x) /\
  (forall h x e ex, halfEdgePool m !! h = Some x -> h_edge x = Some e ->
     edgePool m !! e = Some ex ->
     e_first ex = Some h \/ e_second ex = Some h) /\
  (forall e h1 h2, edgePool m !! e = Some (mkEdge (Some h1) (Some h2)) ->
     exists x1 x2 n1 n2,
       halfEdgePool m !! h1 = Some x1 /\ halfEdgePool m !! h2 = Some x2 /\
       halfEdgePool m !! h_next x1 = Some n1 /\ halfEdgePool m !! h_next x2 = Some n2 /\
       h_origin n1 = h_origin x2 /\ h_origin n2 = h_origin x1).

Definition wellFormedB (m : Mesh) : bool :=
  forallb (fun hx : positive * HalfEdge =>
             match halfEdgePool m !! h_previous hx.2 with
             | Some y => Pos.eqb (h_next y) hx.1 &&
                         bool_decide (h_face y = h_face hx.2)
             | None => false
             end &&
             match h_edge hx.2 with
             | None => true
             | Some e =>
                 match edgePool m !! e with
                 | Some ex => bool_decide (e_first ex = Some hx.1) ||
                              bool_decide (e_second ex = Some hx.1)
                 | None => true
                 end
             end) (map_to_list (halfEdgePool m)) &&
  forallb (fun ex : positive * Edge =>
             match e_first ex.2, e_second ex.2 with
             | Some h1, Some h2 =>
                 match halfEdgePool m !! h1, halfEdgePool m !! h2 with
                 | Some x1, Some x2 =>
                     match halfEdgePool m !! h_next x1, halfEdgePool m !! h_next x2 with
                     | Some n1, Some n2 =>
                         Pos.eqb (h_origin n1) (h_origin x2) &&
                         Pos.eqb (h_origin n2) (h_origin x1)
                     | _, _ => false
                     end
                 | _, _ => false
                 end
             | _, _ => true
             end) (map_to_list (edgePool m)).

(** The answer of the criterion does not depend on which half-edge of an
    edge is the first: it is the same after an edge has been flipped. *)
Definition edgeBlind (criterion : SplittingCriterion) : Prop :=
  forall f e x m, edgePool m !! e = Some x ->
    criterion f (withEdgePool <[e := mkEdge (e_second x) (e_first x)]> m)
      = criterion f m.

(** Each edge of the seam has the criterion true on its first face and false
    on its second. *)
Definition oriented (criterion : SplittingCriterion) (m : Mesh) (seam : Seam.t) : Prop :=
  Forall (fun e => matches criterion e m = Ok MatchResult_First) seam.

(** Consecutive edges share a vertex: the first vertex of an edge is the
    second vertex of the next. *)
Definition linked (m : Mesh) (seam : Seam.t) : Prop :=
  match seam with
  | [] => True
  | e :: it => chain m e it
  end.

(** ... and the first edge follows the last: a closed loop. *)
Definition looped (m : Mesh) (seam : Seam.t) : Prop :=
  match last seam with
  | Some l => chain m l seam
  | None => True
  end.

Definition validSeam (criterion : SplittingCriterion) (m : Mesh) (seam : Seam.t) : Prop :=
  oriented criterion m seam /\ looped m seam.

(** Between two states, as far as a seam is concerned: well-formedness is
    kept, and so are the orientation and the two vertices of every edge that
    has the criterion true on its first face only. *)
Definition keepsSeams (criterion : SplittingCriterion) (s s' : State) : Prop :=
  wellFormed (st_mesh s) ->
  wellFormed (st_mesh s') /\
  forall e, matches criterion e (st_mesh s) = Ok MatchResult_First ->
    matches criterion e (st_mesh s') = Ok MatchResult_First /\
    Edge.firstVertex e (st_mesh s') = Edge.firstVertex e (st_mesh s) /\
    Edge.secondVertex e (st_mesh s') = Edge.secondVertex e (st_mesh s).

(** Turning around a vertex [v]: the half-edge ends at [v], belongs to the
    edge [next], and lies in a face for which the criterion is true. *)
Definition around (criterion : SplittingCriterion) (m : Mesh) (v halfEdge next : Address)
    : Prop :=
  exists x nx, halfEdgePool m !! halfEdge = Some x /\ h_edge x = Some next /\
    criterion (h_face x) m = Ok true /\
    halfEdgePool m !! h_next x = Some nx /\ h_origin nx = v.

(** The seam [createSeam] builds around the vertex [(0, 0, 4)] of a
    tetrahedron, and the state after the call. *)
Definition seamedTetrahedron : Res (Seam.t * State) :=
  createSeam (SplitByConnectivityCriterion
                (vertexOf (vec3 0 0 4) (polyhedronOf tetrahedron)))
             (mkState (mesh (polyhedronOf tetrahedron)) []).

(** The faces for which the criterion is true in the mesh [m0]. *)
Definition matching (criterion : SplittingCriterion) (m0 : Mesh)
    : option Address -> Prop :=
  fun f => criterion f m0 = Ok true.

(** The half-edge is one of the two half-edges of the edge record. *)
Definition halfOf (h : Address) (ex : Edge) : Prop :=
  e_first ex = Some h \/ e_second ex = Some h.

(** The faces own their boundaries: a live half-edge of the boundary of a
    face points to that face, and the successor of a half-edge lies in the
    same face. *)
Definition facesOwnBoundaries (m : Mesh) : Prop :=
  (forall f bd h x, facePool m !! f = Some (mkFace bd) -> h ∈ bd ->
     halfEdgePool m !! h = Some x -> h_face x = Some f) /\
  (forall h x y, halfEdgePool m !! h = Some x ->
     halfEdgePool m !! h_next x = Some y -> h_face y = h_face x).

(** The edge of a half-edge, when live, has it as first or second half-edge. *)
Definition edgesKnowHalves (m : Mesh) : Prop :=
  forall h x e ex, halfEdgePool m !! h = Some x -> h_edge x = Some e ->
    edgePool m !! e = Some ex -> halfOf h ex.

(** The live half-edges of an edge lie on the same side: when one is in a
    face to keep, so is the other. *)
Definition sidesAgree (keep : option Address -> Prop) (m : Mesh) : Prop :=
  forall e ex h h' x x', edgePool m !! e = Some ex ->
    halfOf h ex -> halfOf h' ex ->
    halfEdgePool m !! h = Some x -> halfEdgePool m !! h' = Some x' ->
    keep (h_face x) -> keep (h_face x').

(** A half-edge, an edge of the side that is not kept (seen in the mesh [m1]
    the deletion starts from). *)
Definition loseH (keep : option Address -> Prop) (m1 : Mesh) (h : Address) : Prop :=
  forall x, halfEdgePool m1 !! h = Some x -> ~ keep (h_face x).

Definition loseE (keep : option Address -> Prop) (m1 : Mesh) (e : Address) : Prop :=
  forall ex h x, edgePool m1 !! e = Some ex -> halfOf h ex ->
    halfEdgePool m1 !! h = Some x -> ~ keep (h_face x).

(** An edge with a half-edge in a face to keep. *)
Definition keepE (keep : option Address -> Prop) (m1 : Mesh) (e : Address) : Prop :=
  exists ex h x, edgePool m1 !! e = Some ex /\ halfOf h ex /\
    halfEdgePool m1 !! h = Some x /\ keep (h_face x).

(** What the deletion keeps, between the mesh [m1] it starts from and a
    later state: the half-edges of the faces to keep, the edges such a
    half-edge belongs to, and the faces to keep are as they were; what is
    still live was live, half-edges kept their face, successor and origin,
    edges have no new half-edge, and the edge of a half-edge still knows
    it. *)
Definition sideKept (keep : option Address -> Prop) (m1 : Mesh) (s : State) : Prop :=
  (forall h x, halfEdgePool m1 !! h = Some x -> keep (h_face x) ->
     halfEdgePool (st_mesh s) !! h = Some x) /\
  (forall h x, halfEdgePool (st_mesh s) !! h = Some x ->
     exists x1, halfEdgePool m1 !! h = Some x1 /\ h_face x = h_face x1 /\
                h_next x = h_next x1 /\ h_origin x = h_origin x1) /\
  (forall e, keepE keep m1 e ->
     edgePool (st_mesh s) !! e = edgePool m1 !! e /\
     (e ∈ m_edges m1 -> e ∈ m_edges (st_mesh s))) /\
  (forall e ex, edgePool (st_mesh s) !! e = Some ex ->
     exists ex1, edgePool m1 !! e = Some ex1 /\
                 forall h, halfOf h ex -> halfOf h ex1) /\
  edgesKnowHalves (st_mesh s) /\
  (forall f, keep (Some f) ->
     facePool (st_mesh s) !! f = facePool m1 !! f /\
     (f ∈ m_faces m1 -> f ∈ m_faces (st_mesh s))) /\
  (forall f x, facePool (st_mesh s) !! f = Some x -> facePool m1 !! f = Some x).

(** What the first loop of [split] has done when the edges [done] of the
    seam have been opened: these edges have lost their second half-edge,
    which no longer points to them; half-edges in faces to keep, the other
    edges, the faces and the lists are as in the mesh [m0] before. *)
Definition opened (keep : option Address -> Prop) (m0 : Mesh) (done : list Address)
    (s : State) : Prop :=
  (forall h x, halfEdgePool (st_mesh s) !! h = Some x ->
     exists x0, halfEdgePool m0 !! h = Some x0 /\ h_face x = h_face x0 /\
                h_next x = h_next x0 /\ h_origin x = h_origin x0) /\
  (forall h x0, halfEdgePool m0 !! h = Some x0 -> keep (h_face x0) ->
     halfEdgePool (st_mesh s) !! h = Some x0) /\
  (forall e, e ∉ done -> edgePool (st_mesh s) !! e = edgePool m0 !! e) /\
  (forall e, e ∈ done -> exists h1 h2,
     edgePool m0 !! e = Some (mkEdge (Some h1) (Some h2)) /\
     edgePool (st_mesh s) !! e = Some (mkEdge (Some h1) None)) /\
  edgesKnowHalves (st_mesh s) /\
  facePool (st_mesh s) = facePool m0 /\
  m_faces (st_mesh s) = m_faces m0 /\
  m_edges (st_mesh s) = m_edges m0.

(** Every live edge outside the seam has the criterion with the same answer
    on both sides. *)
Definition seamSeparates (criterion : SplittingCriterion) (m : Mesh) (seam : Seam.t)
    : Prop :=
  forall e ex, edgePool m !! e = Some ex -> e ∉ seam ->
    exists r, matches criterion e m = Ok r /\ discriminates r = false.

Definition seamSeparatesB (criterion : SplittingCriterion) (m : Mesh) (seam : Seam.t)
    : bool :=
  forallb (fun ex : positive * Edge =>
             bool_decide (ex.1 ∈ seam) ||
             match matches criterion ex.1 m with
             | Ok r => negb (discriminates r)
             | _ => false
             end) (map_to_list (edgePool m)).

Definition orientedB (criterion : SplittingCriterion) (m : Mesh) (seam : Seam.t) : bool :=
  forallb (fun e => match matches criterion e m with
                    | Ok MatchResult_First => true
                    | _ => false
                    end) seam.

Definition facesOwnBoundariesB (m : Mesh) : bool :=
  forallb (fun fx : positive * Face =>
             forallb (fun h => match halfEdgePool m !! h with
                               | Some x => bool_decide (h_face x = Some fx.1)
                               | None => true
                               end) (f_boundary fx.2))
          (map_to_list (facePool m)) &&
  forallb (fun hx : positive * HalfEdge =>
             match halfEdgePool m !! h_next hx.2 with
             | Some y => bool_decide (h_face y = h_face hx.2)
             | None => true
             end) (map_to_list (halfEdgePool m)).


(** Between two states: nothing differs but the order of the two half-edges
    in some edge records. *)
Definition onlyFlips (s s' : State) : Prop :=
  vertexPool (st_mesh s') = vertexPool (st_mesh s) /\
  halfEdgePool (st_mesh s') = halfEdgePool (st_mesh s) /\
  facePool (st_mesh s') = facePool (st_mesh s) /\
  m_vertices (st_mesh s') = m_vertices (st_mesh s) /\
  m_edges (st_mesh s') = m_edges (st_mesh s) /\
  m_faces (st_mesh s') = m_faces (st_mesh s) /\
  nextAddress (st_mesh s') = nextAddress (st_mesh s) /\
  st_log s' = st_log s /\
  forall e, edgePool (st_mesh s') !! e = edgePool (st_mesh s) !! e \/
            exists x, edgePool (st_mesh s) !! e = Some x /\
                      edgePool (st_mesh s') !! e = Some (mkEdge (e_second x) (e_first x)).

(** The first vertex of the edge [e] is not above the plane. *)
Definition notAbove (m : Mesh) (plane : Plane) (e : Address) : Prop :=
  exists v p, Edge.firstVertex e m = Ok v /\ Vertex.position v m = Ok p /\
              planePointStatus plane p <> PSAbove.

Definition openedRing : Res ((bool * Seam.t) * State) :=
  let p := polyhedronOf ringWithApex in
  (do seam <- createSeam (SplitByConnectivityCriterion (vertexOf apex p));
   run split seam;
   read (Seam.shift ShiftSeamForSealing.call seam)) (mkState (mesh p) []).

(** Between two states: the list of vertices is the same and every vertex
    is where it was. *)
Definition positionsFixed (s s' : State) : Prop :=
  m_vertices (st_mesh s') = m_vertices (st_mesh s) /\
  forall v, Vertex.position v (st_mesh s') = Vertex.position v (st_mesh s).

(** Between two states: every vertex after was a vertex before, at the same
    position. *)
Definition verticesShrink (s s' : State) : Prop :=
  (forall v, v ∈ m_vertices (st_mesh s') -> v ∈ m_vertices (st_mesh s)) /\
  forall v q, Vertex.position v (st_mesh s') = Ok q ->
              Vertex.position v (st_mesh s) = Ok q.

(** The vertices after the insertion of [position]: the new point, and
    vertices that were there before, where they were. *)
Definition fromInput (position : Vec3) (s s' : State) : Prop :=
  forall v q, v ∈ m_vertices (st_mesh s') ->
    Vertex.position v (st_mesh s') = Ok q ->
    q = position \/
    (v ∈ m_vertices (st_mesh s) /\ Vertex.position v (st_mesh s) = Ok q).

Definition hasVertexAt (position : Vec3) (s' : State) : Prop :=
  exists top, top ∈ m_vertices (st_mesh s') /\
              Vertex.position top (st_mesh s') = Ok position.

(** Between two states: addresses grow, the half-edges allocated before keep
    their origin, and the lists of edges and faces are the same. *)
Definition originsKept (s s' : State) : Prop :=
  (nextAddress (st_mesh s) <= nextAddress (st_mesh s'))%positive /\
  (forall h o, (h < nextAddress (st_mesh s))%positive ->
     HalfEdge.origin h (st_mesh s) = Ok o -> HalfEdge.origin h (st_mesh s') = Ok o) /\
  m_edges (st_mesh s') = m_edges (st_mesh s) /\
  m_faces (st_mesh s') = m_faces (st_mesh s).

(** Between two states: addresses grow; an edge allocated before that had
    a first half-edge still has one, and one that was fully specified still
    is. *)
Definition edgesStay (s s' : State) : Prop :=
  (nextAddress (st_mesh s) <= nextAddress (st_mesh s'))%positive /\
  forall e, (e < nextAddress (st_mesh s))%positive ->
    (forall h, Edge.firstEdge e (st_mesh s) = Ok h ->
               exists h', Edge.firstEdge e (st_mesh s') = Ok h') /\
    (Edge.fullySpecified e (st_mesh s) = Ok true ->
     Edge.fullySpecified e (st_mesh s') = Ok true).

(** The edges of the list were allocated before the state [s]. *)
Definition belowNext (s : State) (l : list Address) : Prop :=
  Forall (fun e => (e < nextAddress (st_mesh s))%positive) l.

(** Every edge of the list is fully specified in the state [s]. *)
Definition allClosed (s : State) (l : list Address) : Prop :=
  Forall (fun e => Edge.fullySpecified e (st_mesh s) = Ok true) l.

(** ** An edge and a third point just past its end *)

Definition longEdgeV1 := vec3 0 0 0.
Definition longEdgeV2 := vec3 4 0 0.
Definition justPastV2 := vec3 5 0 0.

(** A third point off the line of the edge, and a point inside the triangle
    of the three. *)
Definition triangleV3 := vec3 0 4 0.
Definition insideTriangle := vec3 1 1 0.

(** ** Incorporated points *)

(** The point was incorporated between the two states: the mesh is not what
    it was, and the polyhedron has a vertex at the point or, for a coplanar
    point added to an edge or a polygon, was built anew as the polygon of
    the planar convex hull of its vertex positions and the point. *)
Definition incorporated (position : Vec3) (s s' : State) : Prop :=
  st_mesh s' <> st_mesh s /\
  (hasVertexAt position s' \/
   exists ps, vertexPositions (st_mesh s) = Ok ps /\
     vertexPositions (st_mesh s') = Ok (Planar.convexHull2D (ps ++ [position]))).

(** ** What split removes *)

(** The half-edge is live and still points to an edge: the deletion has not
    passed it yet. *)
Definition pendingB (m : Mesh) (h : Address) : bool :=
  match halfEdgePool m !! h with
  | Some x => match h_edge x with Some _ => true | None => false end
  | None => false
  end.

(** Between two meshes, while faces are deleted: nothing is created; a
    half-edge that is still live has its face, successor and origin, and its
    edge or none; a face that is still live is unchanged; every vertex is
    still there, at its position, and its leaving half-edge is the same as
    long as that half-edge is live; the lists only lose members. *)
Definition fadesM (m m' : Mesh) : Prop :=
  (forall h x', halfEdgePool m' !! h = Some x' ->
     exists x, halfEdgePool m !! h = Some x /\ h_face x' = h_face x /\
       h_next x' = h_next x /\ h_origin x' = h_origin x /\
       (h_edge x' = h_edge x \/ h_edge x' = None)) /\
  (forall f fx, facePool m' !! f = Some fx -> facePool m !! f = Some fx) /\
  (forall e, is_Some (edgePool m' !! e) -> is_Some (edgePool m !! e)) /\
  (forall v vx, vertexPool m !! v = Some vx ->
     exists vx', vertexPool m' !! v = Some vx' /\ v_position vx' = v_position vx /\
       (v_leaving vx' = v_leaving vx \/ v_leaving vx' = None)) /\
  (forall v, is_Some (vertexPool m' !! v) -> is_Some (vertexPool m !! v)) /\
  (forall v vx h, vertexPool m !! v = Some vx -> v_leaving vx = Some h ->
     is_Some (halfEdgePool m' !! h) ->
     exists vx', vertexPool m' !! v = Some vx' /\ v_leaving vx' = Some h) /\
  (forall v, v ∈ m_vertices m' -> v ∈ m_vertices m) /\
  (forall e, e ∈ m_edges m' -> e ∈ m_edges m) /\
  (forall f, f ∈ m_faces m' -> f ∈ m_faces m).

Definition fades (s s' : State) : Prop := fadesM (st_mesh s) (st_mesh s').

(** The record the deletion leaves of an edge that had the half-edges [a]
    and [b]: the half-edges it has not passed, or nothing when it has
    passed both. *)
Definition remaining (m : Mesh) (a b : Address) : option Edge :=
  match pendingB m a, pendingB m b with
  | true, true => Some (mkEdge (Some a) (Some b))
  | true, false => Some (mkEdge (Some a) None)
  | false, true => Some (mkEdge (Some b) None)
  | false, false => None
  end.

(** The deletion has passed the half-edge [h]: it no longer points to an
    edge, and its origin, when [h] was its leaving half-edge in the mesh [m1]
    the deletion started from, is off the list of vertices and among the
    vertices to delete. *)
Definition passed (m1 : Mesh) (vs : list Address) (m : Mesh) (h : Address) : Prop :=
  pendingB m h = false /\
  forall x vx, halfEdgePool m1 !! h = Some x ->
    vertexPool m1 !! h_origin x = Some vx -> v_leaving vx = Some h ->
    h_origin x ∈ vs /\ h_origin x ∉ m_vertices m.

(** The half-edges of the faces [V] are passed in [m'] exactly when they were
    in [m]. *)
Definition untouched (m1 : Mesh) (V : gset positive) (m m' : Mesh) : Prop :=
  forall h x f, halfEdgePool m1 !! h = Some x -> h_face x = Some f -> f ∈ V ->
    pendingB m' h = pendingB m h.

(** The state of the deletion that started from the mesh [m1], when the
    faces [acc.1] have been visited and the vertices [acc.2] are to be
    deleted: a live face has its half-edges; a face that is gone was visited
    and is off the list; no visited face is to be kept; an edge that had two
    half-edges has those the deletion has not passed, and is off the list
    once both are passed; when one is passed the faces of both were visited;
    the half-edges of a visited face that is gone are passed; a vertex to delete had
    its leaving half-edge in a visited face; a vertex off the list is to be
    deleted. *)
Definition removalInv (keep : option Address -> Prop) (m1 : Mesh)
    (acc : gset positive * list Address) (m : Mesh) : Prop :=
  (forall h x f, halfEdgePool m1 !! h = Some x -> h_face x = Some f ->
     is_Some (facePool m !! f) -> is_Some (halfEdgePool m !! h)) /\
  (forall f, is_Some (facePool m1 !! f) -> facePool m !! f = None ->
     f ∈ acc.1 /\ f ∉ m_faces m) /\
  (forall f, f ∈ acc.1 -> ~ keep (Some f)) /\
  (forall e a b, edgePool m1 !! e = Some (mkEdge (Some a) (Some b)) ->
     edgePool m !! e = remaining m a b /\
     (pendingB m a = false -> pendingB m b = false -> e ∉ m_edges m)) /\
  (forall e a b xa xb, edgePool m1 !! e = Some (mkEdge (Some a) (Some b)) ->
     halfEdgePool m1 !! a = Some xa -> halfEdgePool m1 !! b = Some xb ->
     pendingB m a && pendingB m b = false ->
     exists fa fb, h_face xa = Some fa /\ h_face xb = Some fb /\
                   fa ∈ acc.1 /\ fb ∈ acc.1) /\
  (forall f h x, f ∈ acc.1 -> facePool m !! f = None ->
     halfEdgePool m1 !! h = Some x -> h_face x = Some f -> passed m1 acc.2 m h) /\
  (forall v, v ∈ acc.2 -> exists vx h x f, vertexPool m1 !! v = Some vx /\
     v_leaving vx = Some h /\ halfEdgePool m1 !! h = Some x /\
     h_face x = Some f /\ f ∈ acc.1) /\
  (forall v, v ∈ m_vertices m1 -> v ∈ m_vertices m \/ v ∈ acc.2).

(** What a call of [deleteFaces] has done between the state [s] with the
    accumulator [acc] and the state [s'] with [acc']. *)
Definition removalStep (keep : option Address -> Prop) (m1 : Mesh)
    (acc : gset positive * list Address) (s : State)
    (acc' : gset positive * list Address) (s' : State) : Prop :=
  fades s s' /\
  removalInv keep m1 acc' (st_mesh s') /\
  acc.1 ⊆ acc'.1 /\
  (forall v, v ∈ acc.2 -> v ∈ acc'.2) /\
  (forall f, f ∈ acc'.1 -> f ∉ acc.1 -> facePool (st_mesh s') !! f = None) /\
  (forall f, f ∈ acc.1 -> is_Some (facePool (st_mesh s) !! f) ->
     is_Some (facePool (st_mesh s') !! f)).

(** The [i]-th successor of a half-edge. *)
Fixpoint iterNext (m : Mesh) (i : nat) (h : Address) : option Address :=
  match i with
  | O => Some h
  | S i' =>
      match halfEdgePool m !! h with
      | Some x => iterNext m i' (h_next x)
      | None => None
      end
  end.

(** The boundary of a face is one cycle: every half-edge of a face is
    reached from every other one by following the successors. *)
Definition faceCycles (m : Mesh) : Prop :=
  forall h h' x x' f, halfEdgePool m !! h = Some x -> halfEdgePool m !! h' = Some x' ->
    h_face x = Some f -> h_face x' = Some f -> exists i, iterNext m i h = Some h'.

(** The half-edges the loop of [deleteFaces] passes when it is at [current]
    and stops at [first]. *)
Inductive walk (m : Mesh) (first : Address) : Address -> Address -> Prop :=
  | walk_here current : walk m first current current
  | walk_next current x h :
      halfEdgePool m !! current = Some x -> h_next x <> first ->
      walk m first (h_next x) h -> walk m first current h.

(** The half-edges of an edge with two half-edges differ, are live and point
    to the edge. *)
Definition halvesKnowEdge (m : Mesh) : Prop :=
  forall e a b, edgePool m !! e = Some (mkEdge (Some a) (Some b)) ->
    a <> b /\
    (exists xa, halfEdgePool m !! a = Some xa /\ h_edge xa = Some e) /\
    (exists xb, halfEdgePool m !! b = Some xb /\ h_edge xb = Some e).

(** The edge of a half-edge in a face that is not kept has two half-edges. *)
Definition lostEdgesFull (keep : option Address -> Prop) (m : Mesh) : Prop :=
  forall h x e ex, halfEdgePool m !! h = Some x -> h_edge x = Some e ->
    ~ keep (h_face x) -> edgePool m !! e = Some ex ->
    exists a b, ex = mkEdge (Some a) (Some b).

(** The half-edge [h1] is the first half-edge of an edge of the seam and
    originates at the vertex [v]. *)
Definition seamLeaving (m0 : Mesh) (seam : list Address) (v h1 : Address) : Prop :=
  exists e o x, e ∈ seam /\ edgePool m0 !! e = Some (mkEdge (Some h1) o) /\
    halfEdgePool m0 !! h1 = Some x /\ h_origin x = v.

(** What the first loop of [split] has done to the half-edges and the
    vertices when the edges [done] of the seam have been opened: every
    half-edge is still there, with its face, successor and origin, and with
    its edge unless it was the second half-edge of an opened edge; every
    vertex is still there, at its position, and its leaving half-edge is
    the one it had or the first half-edge of an opened edge that originates
    at it; the first vertex of an opened edge leaves through such a
    half-edge; the list of vertices is the same. *)
Definition unlinked (m0 : Mesh) (done : list Address) (m : Mesh) : Prop :=
  (forall h x0, halfEdgePool m0 !! h = Some x0 ->
     exists x, halfEdgePool m !! h = Some x /\ h_face x = h_face x0 /\
       h_next x = h_next x0 /\ h_origin x = h_origin x0 /\
       (h_edge x = h_edge x0 \/
        exists e h1, e ∈ done /\ edgePool m0 !! e = Some (mkEdge (Some h1) (Some h)))) /\
  (forall v vx, vertexPool m !! v = Some vx ->
     exists vx0, vertexPool m0 !! v = Some vx0 /\ v_position vx = v_position vx0 /\
       (v_leaving vx = v_leaving vx0 \/
        exists h1, seamLeaving m0 done v h1 /\ v_leaving vx = Some h1)) /\
  (forall v, is_Some (vertexPool m0 !! v) -> is_Some (vertexPool m !! v)) /\
  (forall v h1, seamLeaving m0 done v h1 ->
     exists vx h1', vertexPool m !! v = Some vx /\ v_leaving vx = Some h1' /\
                    seamLeaving m0 done v h1') /\
  m_vertices m = m_vertices m0.

(** The half-edge lies in a live face. *)
Definition inLiveFace (m : Mesh) (x : HalfEdge) : Prop :=
  exists f, h_face x = Some f /\ is_Some (facePool m !! f).

(** A closed surface: every edge has two different live half-edges that
    point to it and lie in live faces; the boundary of a face is one cycle;
    every listed vertex has a leaving half-edge that originates at it and
    lies in a live face. *)
Definition closedSurface (m : Mesh) : Prop :=
  halvesKnowEdge m /\
  (forall e ex, edgePool m !! e = Some ex -> exists a b, ex = mkEdge (Some a) (Some b)) /\
  faceCycles m /\
  (forall e a b x, edgePool m !! e = Some (mkEdge (Some a) (Some b)) ->
     halfEdgePool m !! a = Some x \/ halfEdgePool m !! b = Some x -> inLiveFace m x) /\
  (forall v, v ∈ m_vertices m ->
     exists vx h x, vertexPool m !! v = Some vx /\ v_leaving vx = Some h /\
                    halfEdgePool m !! h = Some x /\ h_origin x = v /\ inLiveFace m x).

(** A vertex where a face for which the criterion is true meets a face for
    which it is not is the first vertex of an edge of the seam. *)
Definition seamOnBorder (criterion : SplittingCriterion) (m : Mesh) (seam : Seam.t)
    : Prop :=
  forall h x h' x', halfEdgePool m !! h = Some x -> halfEdgePool m !! h' = Some x' ->
    h_origin x' = h_origin x ->
    criterion (h_face x) m = Ok true -> criterion (h_face x') m <> Ok true ->
    exists h1, seamLeaving m seam (h_origin x) h1.

(** From the face [f] the face [g] is reached across edges that are not in
    the seam. *)
Inductive crossing (m : Mesh) (seam : Seam.t) (f : Address) : Address -> Prop :=
  | crossing_here : crossing m seam f f
  | crossing_step g g' e a b xa xb :
      crossing m seam f g -> e ∉ seam ->
      edgePool m !! e = Some (mkEdge (Some a) (Some b)) ->
      halfEdgePool m !! a = Some xa -> halfEdgePool m !! b = Some xb ->
      (h_face xa = Some g /\ h_face xb = Some g') \/
      (h_face xa = Some g' /\ h_face xb = Some g) ->
      crossing m seam f g'.

(** The faces for which the criterion is false are connected: each of them
    is reached from the second face of the first edge of the seam without
    crossing the seam. *)
Definition sideConnected (criterion : SplittingCriterion) (m : Mesh) (seam : Seam.t)
    : Prop :=
  forall e0 f0 f, head seam = Some e0 -> Edge.secondFace e0 m = Ok (Some f0) ->
    is_Some (facePool m !! f) -> criterion (Some f) m = Ok false ->
    crossing m seam f0 f.

(** The vertex lies strictly on the side of the faces for which the
    criterion is false: every half-edge that originates at it lies in such a
    face. *)
Definition strictlyOff (criterion : SplittingCriterion) (m : Mesh) (v : Address) : Prop :=
  forall h x, halfEdgePool m !! h = Some x -> h_origin x = v ->
    criterion (h_face x) m = Ok false.

(** The vertex is a corner of a face for which the criterion is true. *)
Definition onKeptFace (criterion : SplittingCriterion) (m : Mesh) (v : Address) : Prop :=
  exists h x, halfEdgePool m !! h = Some x /\ h_origin x = v /\
    criterion (h_face x) m = Ok true.

Definition inLiveFaceB (m : Mesh) (x : HalfEdge) : bool :=
  match h_face x with
  | Some f => bool_decide (is_Some (facePool m !! f))
  | None => false
  end.

Definition closedSurfaceB (m : Mesh) : bool :=
  forallb (fun ex : positive * Edge =>
             match ex.2 with
             | mkEdge (Some a) (Some b) =>
                 negb (bool_decide (a = b)) &&
                 match halfEdgePool m !! a, halfEdgePool m !! b with
                 | Some xa, Some xb =>
                     bool_decide (h_edge xa = Some ex.1) &&
                     bool_decide (h_edge xb = Some ex.1) &&
                     inLiveFaceB m xa && inLiveFaceB m xb
                 | _, _ => false
                 end
             | _ => false
             end) (map_to_list (edgePool m)) &&
  forallb (fun hx : positive * HalfEdge =>
             forallb (fun hx' : positive * HalfEdge =>
                        match h_face hx.2 with
                        | Some f =>
                            negb (bool_decide (h_face hx'.2 = Some f)) ||
                            existsb (fun i => bool_decide (iterNext m i hx.1 = Some hx'.1))
                                    (seq 0 (S (size (halfEdgePool m))))
                        | None => true
                        end) (map_to_list (halfEdgePool m)))
          (map_to_list (halfEdgePool m)) &&
  forallb (fun v =>
             match vertexPool m !! v with
             | Some vx =>
                 match v_leaving vx with
                 | Some h =>
                     match halfEdgePool m !! h with
                     | Some x => bool_decide (h_origin x = v) && inLiveFaceB m x
                     | None => false
                     end
                 | None => false
                 end
             | None => false
             end) (m_vertices m).

Definition seamLeavingB (m : Mesh) (seam : list Address) (v : Address) : bool :=
  existsb (fun e =>
             match edgePool m !! e with
             | Some (mkEdge (Some h1) _) =>
                 match halfEdgePool m !! h1 with
                 | Some x => bool_decide (h_origin x = v)
                 | None => false
                 end
             | _ => false
             end) seam.

Definition holds (r : Res bool) : bool :=
  match r with
  | Ok true => true
  | _ => false
  end.

Definition seamOnBorderB (criterion : SplittingCriterion) (m : Mesh) (seam : Seam.t)
    : bool :=
  forallb (fun hx : positive * HalfEdge =>
             forallb (fun hx' : positive * HalfEdge =>
                        negb (bool_decide (h_origin hx'.2 = h_origin hx.2)) ||
                        negb (holds (criterion (h_face hx.2) m)) ||
                        holds (criterion (h_face hx'.2) m) ||
                        seamLeavingB m seam (h_origin hx.2))
                     (map_to_list (halfEdgePool m)))
          (map_to_list (halfEdgePool m)).

(** The faces next to the face [g] across an edge that is not in the seam. *)
Definition neighboursOf (m : Mesh) (seam : Seam.t) (g : Address) : list Address :=
  flat_map (fun ex : positive * Edge =>
              if bool_decide (ex.1 ∈ seam) then []
              else
                match ex.2 with
                | mkEdge (Some a) (Some b) =>
                    match halfEdgePool m !! a, halfEdgePool m !! b with
                    | Some xa, Some xb =>
                        match h_face xa, h_face xb with
                        | Some fa, Some fb =>
                            (if bool_decide (fa = g) then [fb] else []) ++
                            (if bool_decide (fb = g) then [fa] else [])
                        | _, _ => []
                        end
                    | _, _ => []
                    end
                | _ => []
                end) (map_to_list (edgePool m)).

Fixpoint spread (m : Mesh) (seam : Seam.t) (n : nat) (l : list Address) : list Address :=
  match n with
  | O => l
  | S n' => spread m seam n' (l ++ flat_map (neighboursOf m seam) l)
  end.

Definition sideConnectedB (criterion : SplittingCriterion) (m : Mesh) (seam : Seam.t)
    : bool :=
  match seam with
  | e0 :: _ =>
      match Edge.secondFace e0 m with
      | Ok (Some f0) =>
          forallb (fun fx : positive * Face =>
                     match criterion (Some fx.1) m with
                     | Ok false =>
                         bool_decide (fx.1 ∈ spread m seam (size (facePool m)) [f0])
                     | _ => true
                     end) (map_to_list (facePool m))
      | _ => true
      end
  | [] => true
  end.

Definition cube : Res (unit * Polyhedron * list Notification) :=
  addPoints [vec3 0 0 0; vec3 2 0 0; vec3 2 2 0; vec3 0 2 0;
             vec3 0 0 2; vec3 2 0 2; vec3 2 2 2; vec3 0 2 2] emptyPolyhedron [].

Definition beyondCorner := vec3 5 5 5.

(** The seam [createSeam] builds on the cube for the point [beyondCorner],
    and the state after the call. *)
Definition seamedCube : Res (Seam.t * State) :=
  createSeam (SplitByVisibilityCriterion beyondCorner)
             (mkState (mesh (polyhedronOf cube)) []).
(** * Reasoning about calls *)

Lemma bind_Ok {A B} (m : M A) (k : A -> M B) s r :
  bind m k s = Ok r <-> exists a s1, m s = Ok (a, s1) /\ k a s1 = Ok r.
Proof.
  unfold bind. split.
  - destruct (m s) as [[a s1]| | |]; try discriminate. eauto.
  - intros (a & s1 & -> & H). exact H.
Qed.

Lemma rbind_Ok {A B} (m : R A) (k : A -> R B) s r :
  rbind m k s = Ok r <-> exists a, m s = Ok a /\ k a s = Ok r.
Proof.
  unfold rbind. split.
  - destruct (m s) as [a| | |]; try discriminate. eauto.
  - intros (a & -> & H). exact H.
Qed.

Lemma read_Ok {A} (r : R A) s a s' :
  read r s = Ok (a, s') <-> r (st_mesh s) = Ok a /\ s' = s.
Proof.
  unfold read. split.
  - destruct (r (st_mesh s)); try discriminate. intros [= -> ->]. done.
  - intros [-> ->]. done.
Qed.

Lemma ret_Ok {A} (a : A) s b s' : ret a s = Ok (b, s') <-> b = a /\ s' = s.
Proof. unfold ret. split; [intros [= -> ->]|intros [-> ->]]; done. Qed.

Lemma rret_Ok {A} (a : A) m b : rret a m = Ok b <-> b = a.
Proof. unfold rret. split; [intros [= ->]|intros ->]; done. Qed.

Lemma assert_Ok c s u s' : assert c s = Ok (u, s') <-> c = true /\ s' = s.
Proof.
  destruct c; simpl; unfold ret, assertionFailed; split;
    try (intros [= <- <-]); try (intros [? ->]); try done.
  by destruct u.
Qed.

Lemma rassert_Ok c m u : rassert c m = Ok u <-> c = true.
Proof. destruct c; unfold rassert; split; try done. by destruct u. Qed.

Lemma deref_Ok {A} (o : option A) m a : deref o m = Ok a <-> o = Some a.
Proof. destruct o; unfold deref; split; congruence. Qed.

Lemma modifyMesh_Ok f s u s' :
  modifyMesh f s = Ok (u, s') <-> s' = mkState (f (st_mesh s)) (st_log s).
Proof. unfold modifyMesh. destruct u. split; congruence. Qed.

(** Taking a successful call apart, one step at a time. *)
Ltac inv_step :=
  match goal with
  | H : bind _ _ _ = Ok _ |- _ =>
      apply bind_Ok in H; destruct H as (? & ? & ? & H)
  | H : rbind _ _ _ = Ok _ |- _ =>
      apply rbind_Ok in H; destruct H as (? & ? & H)
  | H : read _ _ = Ok (_, _) |- _ =>
      apply read_Ok in H; destruct H as [H ?]; subst
  | H : ret _ _ = Ok (_, _) |- _ =>
      apply ret_Ok in H; destruct H as [? ?]; subst
  | H : rret _ _ = Ok _ |- _ =>
      apply rret_Ok in H; subst
  | H : assert _ _ = Ok (_, _) |- _ =>
      apply assert_Ok in H; destruct H as [H ?]; subst
  | H : rassert _ _ = Ok _ |- _ =>
      apply rassert_Ok in H
  | H : deref _ _ = Ok _ |- _ =>
      apply deref_Ok in H; subst
  | H : modifyMesh _ _ = Ok (_, _) |- _ =>
      apply modifyMesh_Ok in H; subst
  | H : assertionFailed _ = Ok _ |- _ => discriminate H
  | H : nullPointer _ = Ok _ |- _ => discriminate H
  | H : diverged _ = Ok _ |- _ => discriminate H
  | H : AssertionFailed = Ok _ |- _ => discriminate H
  | H : NullPointer = Ok _ |- _ => discriminate H
  | H : Diverged = Ok _ |- _ => discriminate H
  end.

Ltac inv_all := repeat inv_step.

Lemma bind_intro {A B} (m : M A) (k : A -> M B) s a s1 r :
  m s = Ok (a, s1) -> k a s1 = r -> bind m k s = r.
Proof. unfold bind. by intros -> ->. Qed.

Lemma rbind_intro {A B} (m : R A) (k : A -> R B) s a r :
  m s = Ok a -> k a s = r -> rbind m k s = r.
Proof. unfold rbind. by intros -> ->. Qed.

Lemma read_intro {A} (r : R A) s a :
  r (st_mesh s) = Ok a -> read r s = Ok (a, s).
Proof. unfold read. by intros ->. Qed.

(** ** Relations kept by calls *)

Section Preserves.

Context (Rel : State -> State -> Prop) `{!Reflexive Rel} `{!Transitive Rel}.

Lemma preserves_bind {A B} (m : M A) (k : A -> M B) :
  preserves Rel m -> (forall a, preserves Rel (k a)) -> preserves Rel (bind m k).
Proof.
  intros Hm Hk s b s' H. apply bind_Ok in H as (a & s1 & H1 & H2).
  etrans; [by eapply Hm|by eapply Hk].
Qed.

Lemma preserves_ret {A} (a : A) : preserves Rel (ret a).
Proof. intros s b s' H. apply ret_Ok in H as [_ ->]. done. Qed.

Lemma preserves_read {A} (r : R A) : preserves Rel (read r).
Proof. intros s b s' H. apply read_Ok in H as [_ ->]. done. Qed.

Lemma preserves_assert c : preserves Rel (assert c).
Proof. intros s b s' H. apply assert_Ok in H as [_ ->]. done. Qed.

Lemma preserves_assertionFailed {A} : preserves Rel (@assertionFailed A).
Proof. intros s b s' H. discriminate. Qed.

Lemma preserves_nullPointer {A} : preserves Rel (@nullPointer A).
Proof. intros s b s' H. discriminate. Qed.

Lemma preserves_diverged {A} : preserves Rel (@diverged A).
Proof. intros s b s' H. discriminate. Qed.

Lemma preserves_forEach {A} (l : list A) (body : A -> M unit) :
  (forall x, preserves Rel (body x)) -> preserves Rel (forEach l body).
Proof.
  intros Hb. induction l as [|x l IH]; simpl.
  - apply preserves_ret.
  - apply preserves_bind; [apply Hb|]. intros _. exact IH.
Qed.

End Preserves.

Create HintDb pres discriminated.

Ltac head_of t :=
  lazymatch t with
  | ?f _ => head_of f
  | _ => t
  end.

(** One step down the structure of a command; the leaves are closed with
    the hints of [pres]. *)
Ltac pres_step :=
  lazymatch goal with
  | |- preserves _ (bind _ _) =>
      apply preserves_bind; try typeclasses eauto; [|intros ?]
  | |- preserves _ (ret _) => apply preserves_ret; typeclasses eauto
  | |- preserves _ (read _) => apply preserves_read; typeclasses eauto
  | |- preserves _ (assert _) => apply preserves_assert; typeclasses eauto
  | |- preserves _ assertionFailed => apply preserves_assertionFailed
  | |- preserves _ nullPointer => apply preserves_nullPointer
  | |- preserves _ diverged => apply preserves_diverged
  | |- preserves _ (forEach _ _) =>
      apply preserves_forEach; try typeclasses eauto; intros ?
  | |- preserves _ (match ?x with _ => _ end) => destruct x
  | |- preserves _ ?m =>
      first [ solve [eauto with pres]
            | let h := head_of m in unfold h ]
  end.

Ltac pres := repeat pres_step.

(** ** Rotation of a sequence *)

Lemma rotate1_perm {A} (l : list A) : rotate1 l ≡ₚ l.
Proof.
  destruct l as [|x r]; simpl; [done|].
  by rewrite Permutation_app_comm.
Qed.

Lemma rot_perm {A} k (l : list A) : rot k l ≡ₚ l.
Proof.
  induction k as [|k IH]; simpl; [done|].
  unfold rot in *. by rewrite rotate1_perm.
Qed.

Lemma rot_S {A} k (l : list A) : rot (S k) l = rot k (rotate1 l).
Proof. unfold rot. by rewrite Nat.iter_succ_r. Qed.

Lemma rot_length {A} k (l : list A) : length (rot k l) = length l.
Proof. by rewrite (Permutation_length (rot_perm k l)). Qed.

Lemma rot_app {A} (l1 l2 : list A) : rot (length l1) (l1 ++ l2) = l2 ++ l1.
Proof.
  revert l2. induction l1 as [|x l1 IH]; intros l2; simpl length.
  - by rewrite app_nil_r.
  - rewrite rot_S. simpl. rewrite <- app_assoc, IH. by rewrite <- app_assoc.
Qed.

(** [size()] single rotations compose to the identity. *)
Lemma rot_full {A} (l : list A) : rot (length l) l = l.
Proof.
  pose proof (rot_app l []) as H. by rewrite app_nil_r in H.
Qed.

Lemma rot_drop_take {A} k (l : list A) :
  (k <= length l)%nat -> rot k l = drop k l ++ take k l.
Proof.
  intros Hk. rewrite <- (take_drop k l) at 1.
  replace k with (length (take k l)) at 1 by (rewrite length_take; lia).
  apply rot_app.
Qed.

(** * Relations kept by the surgery *)

Section Surgery.

Context (Rel : State -> State -> Prop) `{!MeshRel Rel}.

Lemma preserves_createdFace_then `{!FaceRel Rel} {B} boundary (k : M B) :
  preserves Rel k ->
  preserves Rel (do f <- Face.new boundary;
                 run faceWasCreated f; run appendFace f; k).
Proof.
  intros Hk s b s' H.
  apply bind_Ok in H as (f & s1 & H1 & H).
  apply bind_Ok in H as ([] & s2 & H2 & H).
  apply bind_Ok in H as ([] & s3 & H3 & H).
  etrans; [|by eapply Hk].
  apply (fr_created boundary s f). unfold createdFace.
  eapply bind_intro; [exact H1|]. eapply bind_intro; [exact H2|].
  eapply bind_intro; [exact H3|]. done.
Qed.

Lemma preserves_createdFace_last `{!FaceRel Rel} boundary :
  preserves Rel (do f <- Face.new boundary; run faceWasCreated f; appendFace f).
Proof.
  intros s b s' H.
  apply bind_Ok in H as (f & s1 & H1 & H).
  apply bind_Ok in H as ([] & s2 & H2 & H3). destruct b.
  apply (fr_created boundary s f). unfold createdFace.
  eapply bind_intro; [exact H1|]. eapply bind_intro; [exact H2|].
  eapply bind_intro; [exact H3|]. done.
Qed.

Lemma preserves_deletedFace_then `{!FaceRel Rel} {B} face (k : M B) :
  preserves Rel k ->
  preserves Rel (run faceWillBeDeleted face; run removeFaceFromList face;
                 run Face.delete face; k).
Proof.
  intros Hk s b s' H.
  apply bind_Ok in H as ([] & s1 & H1 & H).
  apply bind_Ok in H as ([] & s2 & H2 & H).
  apply bind_Ok in H as ([] & s3 & H3 & H).
  etrans; [|by eapply Hk].
  apply (fr_deleted face s tt). unfold deletedFace.
  eapply bind_intro; [exact H1|]. eapply bind_intro; [exact H2|]. exact H3.
Qed.

End Surgery.

Ltac surgery_step :=
  lazymatch goal with
  | |- preserves _ (bind (Face.new _) (fun f => bind (faceWasCreated f) (fun _ => bind (appendFace f) _))) =>
      apply preserves_createdFace_then; try typeclasses eauto
  | |- preserves _ (bind (Face.new _) (fun f => bind (faceWasCreated f) (fun _ => appendFace f))) =>
      apply preserves_createdFace_last; try typeclasses eauto
  | |- preserves _ (bind (faceWillBeDeleted ?f) (fun _ => bind (removeFaceFromList ?f) (fun _ => bind (Face.delete ?f) _))) =>
      apply preserves_deletedFace_then; try typeclasses eauto
  | |- preserves _ fresh => apply mr_fresh
  | |- preserves _ (modifyMesh (withVertexPool _)) => apply mr_vertexPool
  | |- preserves _ (modifyMesh (withHalfEdgePool _)) => apply mr_halfEdgePool
  | |- preserves _ (modifyMesh (withEdgePool _)) => apply mr_edgePool
  | |- preserves _ (modifyMesh (withVertices _)) => apply mr_vertices
  | |- preserves _ (modifyMesh (withEdges _)) => apply mr_edges
  | |- _ => pres_step
  end.

Ltac surgery := repeat surgery_step.

Section SurgeryFunctions.

Context (Rel : State -> State -> Prop) `{!MeshRel Rel} `{!FaceRel Rel}.

Lemma preserves_HalfEdge_new o : preserves Rel (HalfEdge.new o).
Proof. unfold HalfEdge.new. surgery. Qed.

Lemma preserves_append l h : preserves Rel (HalfEdgeList.append l h).
Proof. unfold HalfEdgeList.append. surgery. Qed.

Lemma preserves_setSecondEdge e h : preserves Rel (Edge.setSecondEdge e h).
Proof. unfold Edge.setSecondEdge. surgery. Qed.

Lemma preserves_Edge_new h1 h2 : preserves Rel (Edge.new h1 h2).
Proof. unfold Edge.new. surgery. Qed.

Hint Resolve preserves_HalfEdge_new preserves_append preserves_setSecondEdge
  preserves_Edge_new : pres.

Lemma preserves_findFirstSplittingEdge criterion edges :
  preserves Rel (findFirstSplittingEdge criterion edges).
Proof. induction edges as [|e edges IH]; simpl; surgery. Qed.

Lemma preserves_findNextSplittingEdge criterion last :
  preserves Rel (findNextSplittingEdge criterion last).
Proof. unfold findNextSplittingEdge. surgery. Qed.

Hint Resolve preserves_findFirstSplittingEdge preserves_findNextSplittingEdge : pres.

Lemma preserves_createSeamLoop criterion fuel : forall first seam current,
  preserves Rel (createSeamLoop criterion fuel first seam current).
Proof. induction fuel as [|fuel IH]; intros; simpl; surgery. Qed.

Hint Resolve preserves_createSeamLoop : pres.

Lemma preserves_createSeam criterion : preserves Rel (createSeam criterion).
Proof. unfold createSeam. surgery. Qed.

Lemma preserves_makePolygonLoop positions : forall boundary,
  preserves Rel (makePolygonLoop positions boundary).
Proof. induction positions as [|p positions IH]; intros; simpl; surgery. Qed.

Hint Resolve preserves_makePolygonLoop : pres.

Lemma preserves_makePolygon positions : preserves Rel (makePolygon positions).
Proof. unfold makePolygon. surgery. Qed.

Lemma preserves_deleteFacesLoop recurse first n :
  (forall t acc, preserves Rel (recurse t acc)) ->
  forall current acc, preserves Rel (deleteFacesLoop recurse first n current acc).
Proof. intros Hr. induction n as [|n IH]; intros; simpl; surgery. Qed.

Lemma preserves_deleteFaces depth : forall first acc,
  preserves Rel (deleteFaces depth first acc).
Proof.
  induction depth as [|depth IH]; intros; simpl; [surgery|].
  pose proof (fun n => preserves_deleteFacesLoop (deleteFaces depth) first n IH) as HL.
  surgery.
Qed.

Hint Resolve preserves_deleteFaces : pres.

Lemma preserves_split seam : preserves Rel (split seam).
Proof. unfold split. surgery. Qed.

Lemma preserves_sealSingleLoop it : forall boundary,
  preserves Rel (sealSingleLoop it boundary).
Proof. induction it as [|e it IH]; intros; simpl; surgery. Qed.

Hint Resolve preserves_sealSingleLoop : pres.

Lemma preserves_sealWithSinglePolygon seam :
  preserves Rel (sealWithSinglePolygon seam).
Proof. unfold sealWithSinglePolygon. surgery. Qed.

Lemma preserves_sealRun plane curIt : forall boundary lastVertex,
  preserves Rel (sealRun plane curIt boundary lastVertex).
Proof. induction curIt as [|e it IH]; intros; simpl; surgery. Qed.

Hint Resolve preserves_sealRun preserves_sealWithSinglePolygon : pres.

Lemma preserves_sealLoop fuel : forall seam, preserves Rel (sealLoop fuel seam).
Proof.
  induction fuel as [|fuel IH]; intros seam; destruct seam as [|e1 [|e2 seam]];
    simpl; surgery.
Qed.

Hint Resolve preserves_sealLoop : pres.

Lemma preserves_sealWithMultiplePolygons seam :
  preserves Rel (sealWithMultiplePolygons seam).
Proof. unfold sealWithMultiplePolygons. surgery. Qed.

Lemma preserves_weaveRun plane it : forall h boundary,
  preserves Rel (weaveRun plane it h boundary).
Proof. induction it as [|e it IH]; intros; simpl; surgery. Qed.

Hint Resolve preserves_weaveRun : pres.

Lemma preserves_weaveLoop fuel : forall top it first last,
  preserves Rel (weaveLoop fuel top it first last).
Proof.
  induction fuel as [|fuel IH]; intros top it first last; destruct it as [|e it];
    simpl; surgery.
Qed.

Hint Resolve preserves_weaveLoop : pres.

Lemma preserves_weave seam position : preserves Rel (weave seam position).
Proof. unfold weave. surgery. Qed.

Hint Resolve preserves_weave preserves_split preserves_createSeam
  preserves_sealWithMultiplePolygons preserves_makePolygon : pres.

Lemma preserves_addPointToPolyhedron position seam :
  preserves Rel (addPointToPolyhedron position seam).
Proof. unfold addPointToPolyhedron. surgery. Qed.

Lemma preserves_makePolyhedronLoop fuel : forall first current seam,
  preserves Rel (makePolyhedronLoop fuel first current seam).
Proof. induction fuel as [|fuel IH]; intros; simpl; surgery. Qed.

Hint Resolve preserves_addPointToPolyhedron preserves_makePolyhedronLoop : pres.

Lemma preserves_makePolyhedron position : preserves Rel (makePolyhedron position).
Proof. unfold makePolyhedron. surgery. Qed.

Lemma preserves_addFurtherPointToPolyhedron position :
  preserves Rel (addFurtherPointToPolyhedron position).
Proof. unfold addFurtherPointToPolyhedron. surgery. Qed.

Lemma preserves_removeVertexBody vertex : preserves Rel (removeVertexBody vertex).
Proof. unfold removeVertexBody. surgery. Qed.

Lemma preserves_addFirstPoint position : preserves Rel (addFirstPoint position).
Proof. unfold addFirstPoint. surgery. Qed.

Lemma preserves_addSecondPoint position : preserves Rel (addSecondPoint position).
Proof. unfold addSecondPoint. surgery. Qed.

Lemma preserves_addPointToEdge position : preserves Rel (addPointToEdge position).
Proof. unfold addPointToEdge. surgery. Qed.

End SurgeryFunctions.

(** * Addresses grow *)

#[global] Instance addressesGrow_refl : Reflexive addressesGrow.
Proof. intros s. unfold addressesGrow. lia. Qed.

#[global] Instance addressesGrow_trans : Transitive addressesGrow.
Proof. intros s1 s2 s3. unfold addressesGrow. lia. Qed.

Lemma preserves_modifyMesh (Rel : State -> State -> Prop) f :
  (forall s, Rel s (mkState (f (st_mesh s)) (st_log s))) ->
  preserves Rel (modifyMesh f).
Proof. intros H s [] s' E. apply modifyMesh_Ok in E as ->. apply H. Qed.

Ltac grow_leaf :=
  lazymatch goal with
  | |- preserves _ (modifyMesh _) =>
      apply preserves_modifyMesh; intros ?; unfold addressesGrow; simpl; lia
  | |- preserves _ fresh =>
      intros ? ? ? [= <- <-]; unfold addressesGrow; simpl; lia
  | |- preserves _ (faceWasCreated _) =>
      intros ? ? ? [= <- <-]; unfold addressesGrow; simpl; lia
  | |- preserves _ (faceWillBeDeleted _) =>
      intros ? ? ? [= <- <-]; unfold addressesGrow; simpl; lia
  end.

Ltac grow := repeat first [grow_leaf | pres_step].

#[global] Instance addressesGrow_MeshRel : MeshRel addressesGrow.
Proof. split; try typeclasses eauto; intros; grow. Qed.

#[global] Instance addressesGrow_FaceRel : FaceRel addressesGrow.
Proof.
  split; intros.
  - unfold createdFace, Face.new, appendFace. grow.
  - unfold deletedFace, Face.delete, removeFaceFromList. grow.
Qed.

Lemma grow_clear : preserves addressesGrow clear.
Proof. unfold clear. grow. Qed.

Lemma grow_Face_flip f : preserves addressesGrow (Face.flip f).
Proof. unfold Face.flip. grow. Qed.

Lemma fresh_strict s a s' :
  fresh s = Ok (a, s') ->
  a = nextAddress (st_mesh s) /\
  nextAddress (st_mesh s') = Pos.succ (nextAddress (st_mesh s)).
Proof. intros [= <- <-]. done. Qed.

Lemma Vertex_new_strict p s a s' :
  Vertex.new p s = Ok (a, s') ->
  (nextAddress (st_mesh s) < nextAddress (st_mesh s'))%positive.
Proof.
  unfold Vertex.new. intros H.
  apply bind_Ok in H as (a' & s1 & Hf & H). apply fresh_strict in Hf as [-> Hn].
  apply bind_Ok in H as ([] & s2 & Hm & H). apply modifyMesh_Ok in Hm as ->.
  apply ret_Ok in H as [-> ->]. simpl. simpl in Hn. lia.
Qed.

Lemma weave_strict seam position s u s' :
  weave seam position s = Ok (u, s') ->
  (nextAddress (st_mesh s) < nextAddress (st_mesh s'))%positive.
Proof.
  unfold weave. intros H.
  apply bind_Ok in H as ([] & s1 & Ha & H). apply assert_Ok in Ha as [_ ->].
  apply bind_Ok in H as ([b seam'] & s1 & Hs & H). apply read_Ok in Hs as [_ ->].
  apply bind_Ok in H as ([] & s1 & Ha & H). apply assert_Ok in Ha as [_ ->].
  apply bind_Ok in H as (top & s1 & Hv & H). apply Vertex_new_strict in Hv.
  assert (Hg : addressesGrow s1 s'); [|unfold addressesGrow in Hg; lia].
  lazymatch type of H with
  | ?m _ = Ok _ => assert (Hp : preserves addressesGrow m)
  end.
  { pose proof (preserves_weaveLoop addressesGrow) as HL.
    pose proof (preserves_Edge_new addressesGrow) as HE.
    grow. }
  exact (Hp _ _ _ H).
Qed.

(** * Seam::shift *)

Lemma checkEdgesFrom_true m it : forall last,
  Seam.checkEdgesFrom last it m = Ok true <-> chain m last it.
Proof.
  induction it as [|e it IH]; intros last; simpl.
  - by rewrite rret_Ok.
  - rewrite <- IH. unfold connected. split.
    + intros H. inv_all.
      destruct (addrEqb x x0) eqn:E; [|by inv_all].
      split; [|done].
      eapply rbind_intro; [eassumption|].
      eapply rbind_intro; [eassumption|]. by rewrite E.
    + intros [H1 H2]. inv_all.
      eapply rbind_intro; [eassumption|].
      eapply rbind_intro; [eassumption|]. by rewrite <- H1.
Qed.

Lemma last_map_Some (l : list Address) :
  List.last (map Some l) None = last l.
Proof.
  induction l as [|x l IH]; [done|].
  destruct l as [|y l]; [done|].
  change (List.last (map Some (x :: y :: l)) None)
    with (List.last (map Some (y :: l)) None).
  by rewrite IH.
Qed.

Lemma chain_app m l1 : forall a l2,
  chain m a (l1 ++ l2) <-> chain m a l1 /\ chain m (default a (last l1)) l2.
Proof.
  induction l1 as [|x l1 IH]; intros a l2.
  - simpl. tauto.
  - change ((x :: l1) ++ l2) with (x :: (l1 ++ l2)).
    cbn [chain]. rewrite IH.
    assert (default a (last (x :: l1)) = default x (last l1)) as ->.
    { destruct l1 as [|y l1]; [done|]. rewrite last_cons_cons.
      pose proof (last_is_Some (y :: l1)) as [_ Hs].
      destruct Hs as [z ->]; done. }
    tauto.
Qed.

Lemma checkEdges_true m seam :
  Seam.checkEdges seam m = Ok true <-> closedSeam m seam.
Proof.
  unfold Seam.checkEdges, closedSeam. rewrite last_map_Some. split.
  - intros H. inv_all. apply Z.ltb_lt in H0. split; [lia|].
    destruct (last seam); [|done]. by apply checkEdgesFrom_true.
  - intros [Hlen H]. eapply (rbind_intro _ _ _ tt).
    + apply rassert_Ok. apply Z.ltb_lt. lia.
    + destruct (last seam); [|done]. by apply checkEdgesFrom_true.
Qed.

Lemma closedSeam_rotate1 m seam :
  closedSeam m seam -> closedSeam m (rotate1 seam).
Proof.
  unfold closedSeam. destruct seam as [|x r]; [simpl; lia|].
  intros [Hlen H]. simpl rotate1. split.
  - rewrite length_app. simpl in *. lia.
  - rewrite last_snoc. apply chain_app.
    destruct (last (x :: r)) as [l|] eqn:El; [|done].
    cbn [chain] in H. destruct H as [H1 H2]. split; [done|].
    simpl. split; [|done].
    destruct r as [|y r]; [simpl in Hlen; lia|].
    rewrite last_cons_cons in El. by rewrite El.
Qed.

Lemma shift1_spec m seam seam1 :
  Seam.shift1 seam m = Ok seam1 -> seam1 = rotate1 seam /\ seam <> [].
Proof.
  destruct seam as [|x r]; simpl; [done|].
  intros H. by inv_all.
Qed.

Lemma shift1_closed m seam :
  seam <> [] -> closedSeam m seam -> Seam.shift1 seam m = Ok (rotate1 seam).
Proof.
  intros Hne Hc. destruct seam as [|x r]; [done|].
  apply closedSeam_rotate1, checkEdges_true in Hc. simpl in *.
  eapply rbind_intro; [exact Hc|]. done.
Qed.

Lemma shiftLoop_spec criterion m n : forall seam b seam',
  Seam.shiftLoop criterion n seam m = Ok (b, seam') ->
  exists k, (k <= n)%nat /\ seam' = rot k seam /\
    (forall j, (j < k)%nat -> criterion (rot j seam) m = Ok false) /\
    (if b then criterion seam' m = Ok true else k = n).
Proof.
  induction n as [|n IH]; intros seam b seam' H; simpl in H.
  - inv_all. injection H as -> ->. exists 0%nat.
    split; [lia|]. split; [done|]. split; [intros; lia|done].
  - inv_all. destruct x.
    + inv_all. injection H as -> ->. exists 0%nat.
      split; [lia|]. split; [done|]. split; [intros; lia|done].
    + inv_all. apply shift1_spec in H1 as [-> Hne].
      apply IH in H as (k & Hk & -> & Hj & Hb).
      exists (S k). rewrite rot_S.
      split; [lia|]. split; [done|]. split.
      * intros [|j] Hlt; [done|]. rewrite rot_S. apply Hj. lia.
      * destruct b; [done|lia].
Qed.

Lemma shiftLoop_returns criterion m n : forall seam,
  seam <> [] -> closedSeam m seam ->
  (forall l, l ≡ₚ seam -> exists b, criterion l m = Ok b) ->
  exists r, Seam.shiftLoop criterion n seam m = Ok r.
Proof.
  induction n as [|n IH]; intros seam Hne Hc Ht; simpl.
  - by eexists.
  - destruct (Ht seam) as [b Hb]; [done|].
    destruct b.
    + eexists. eapply rbind_intro; [exact Hb|]. done.
    + destruct (IH (rotate1 seam)) as [r Hr].
      * destruct seam; [done|]. simpl. by destruct seam.
      * by apply closedSeam_rotate1.
      * intros l Hl. apply Ht. by rewrite Hl, rotate1_perm.
      * exists r. eapply rbind_intro; [exact Hb|]. simpl.
        eapply rbind_intro; [by apply shift1_closed|]. done.
Qed.

(** C10.  [Seam::shift(criterion)] only rotates a non-empty seam.  A single
    [shift()] moves the first edge to the end of the sequence.  The seam
    after [shift(criterion)] is the seam before, rotated by some number [k]
    of single shifts (so the same edges in the same cyclic order), where the
    criterion was false for every rotation tried before; when the call
    returns true the rotated seam satisfies the criterion, when it returns
    false all [size()] rotations were made and the sequence is exactly what
    it was before the call.  On a closed seam with a criterion that answers
    on each of its rotations, the call returns. *)
Theorem shift_only_rotates (criterion : Seam.t -> R bool) (seam : Seam.t) (m : Mesh) :
  seam <> [] -> onlyRotates criterion seam m.
Proof.
  intros Hne. unfold onlyRotates. split; [|split].
  - intros seam1 H. by apply shift1_spec in H as [-> _].
  - intros b seam' H. unfold Seam.shift in H.
    apply shiftLoop_spec in H as (k & Hk & -> & Hj & Hb).
    exists k. split; [done|]. split; [done|].
    split; [by apply rot_drop_take|]. split; [apply rot_perm|].
    split; [done|].
    destruct b; [done|]. subst k. split; [done|]. apply rot_full.
  - intros Ht Hc. apply checkEdges_true in Hc.
    by apply shiftLoop_returns.
Qed.

Lemma shift_only_rotates_witness :
  let m := st_mesh (stateOf seamedTetrahedron) in
  let seam := [8; 11; 14]%positive in
  let criterion := fun seam : Seam.t => rret (bool_decide (head seam = Some 14%positive)) in
  let never := fun _ : Seam.t => rret false in
  (seam <> [] /\ Seam.checkEdges seam m = Ok true /\
   Seam.shift1 seam m = Ok [11; 14; 8]%positive /\
   Seam.shift criterion seam m = Ok (true, [14; 8; 11]%positive) /\
   Seam.shift never seam m = Ok (false, seam)) /\
  (onlyRotates criterion seam m /\ onlyRotates never seam m) /\
  [11; 14; 8]%positive = rotate1 seam /\
  (exists k, (k <= length seam)%nat /\ [14; 8; 11]%positive = rot k seam /\
     [14; 8; 11]%positive ≡ₚ seam /\
     (forall j, (j < k)%nat -> criterion (rot j seam) m = Ok false) /\
     criterion [14; 8; 11]%positive m = Ok true) /\
  (exists r, Seam.shift criterion seam m = Ok r).
Proof.
  intros m seam criterion never.
  assert (Hne : seam <> []) by discriminate.
  assert (Hc : Seam.checkEdges seam m = Ok true) by (vm_compute; reflexivity).
  assert (H1 : Seam.shift1 seam m = Ok [11; 14; 8]%positive) by (vm_compute; reflexivity).
  assert (H2 : Seam.shift criterion seam m = Ok (true, [14; 8; 11]%positive))
    by (vm_compute; reflexivity).
  assert (H3 : Seam.shift never seam m = Ok (false, seam)) by (vm_compute; reflexivity).
  pose proof (shift_only_rotates criterion seam m Hne) as T1.
  pose proof (shift_only_rotates never seam m Hne) as T2.
  split; [exact (conj Hne (conj Hc (conj H1 (conj H2 H3))))|].
  split; [exact (conj T1 T2)|].
  destruct T1 as (A & B & C).
  split; [exact (A _ H1)|].
  split.
  - destruct (B _ _ H2) as (k & Hk & Hr & _ & Hp & Hj & Ht).
    exists k. exact (conj Hk (conj Hr (conj Hp (conj Hj Ht)))).
  - apply C; [|exact Hc]. intros l _. eexists. reflexivity.
Defined.

(** * Convexity after removeVertex *)

Lemma rexistsb_true {A} (f : A -> R bool) l m :
  rexistsb f l m = Ok true -> exists x, x ∈ l /\ f x m = Ok true.
Proof.
  induction l as [|x l IH]; simpl; [by rewrite rret_Ok|].
  intros H. inv_all. destruct x0.
  - exists x. split; [left|done].
  - destruct (IH H) as (y & Hy & Hf). exists y. split; [by right|done].
Qed.

Lemma someVertexAbove_true m :
  someVertexAbove m = Ok true -> ~ convex m.
Proof.
  intros H Hc. apply rexistsb_true in H as (f & Hf & H).
  apply rexistsb_true in H as (v & Hv & H).
  unfold isAbove in H. inv_all.
  eapply Hc; [exact Hf|exact Hv|eassumption|].
  rewrite H1. f_equal. symmetry in H. by apply bool_decide_eq_true in H.
Qed.

Lemma meshOf_Ok r m :
  meshOf r = Ok m -> exists p cb, r = Ok (tt, p, cb) /\ mesh p = m.
Proof.
  destruct r as [[[[] p] cb]| | |]; simpl; try discriminate.
  intros [= <-]. eauto.
Qed.

(** A call that is seen to return has a result. *)
Lemma isOk_true {A} (r : Res A) : isOk r = true -> exists a, r = Ok a.
Proof. destruct r; try discriminate. eauto. Qed.

(** C1 (the code at the failing input).  Six points are added and the hull is
    a convex polyhedron with 6 vertices, 11 edges and 7 faces.  Removing the
    apex leaves a mesh in the polyhedron state with 5 vertices, one of whose
    faces is the triangle [ringA2, ringA3, ringA4]; the point [ringA0], a
    vertex of the mesh, lies strictly above the plane of that face, so the
    mesh is not convex. *)
Theorem removeVertex_leaves_vertex_above_face :
  shapeOf ringWithApex = Ok (6, 11, 7)%nat /\
  inMesh ringWithApex someVertexAbove = Ok false /\
  exists p cb, ringWithoutApex = Ok (tt, p, cb) /\
    isPolyhedron (mesh p) = true /\
    vertexPositions (mesh p) = Ok [ringA2; ringA0; ringA1; ringA3; ringA4] /\
    (exists f, f ∈ m_faces (mesh p) /\
       Face.vertexPositions f (mesh p) = Ok [ringA2; ringA3; ringA4] /\
       Face.pointStatus f ringA0 (mesh p) = Ok PSAbove) /\
    ~ convex (mesh p).
Proof.
  split; [vm_compute; reflexivity|]. split; [vm_compute; reflexivity|].
  destruct (isOk_true (meshOf ringWithoutApex)) as [m E]; [vm_compute; reflexivity|].
  destruct (meshOf_Ok _ _ E) as (p & cb & Hr & <-).
  exists p, cb. split; [exact Hr|].
  assert (H1 : inMesh ringWithoutApex (fun m => Ok (isPolyhedron m)) = Ok true)
    by (vm_compute; reflexivity).
  assert (H2 : inMesh ringWithoutApex vertexPositions =
               Ok [ringA2; ringA0; ringA1; ringA3; ringA4]) by (vm_compute; reflexivity).
  assert (H3 : inMesh ringWithoutApex (fun m =>
             (get o <- faceWithPositions [ringA2; ringA3; ringA4];
             get f <- deref o;
             Face.pointStatus f ringA0) m) = Ok PSAbove) by (vm_compute; reflexivity).
  assert (H4 : inMesh ringWithoutApex someVertexAbove = Ok true) by (vm_compute; reflexivity).
  unfold inMesh in H1, H2, H3, H4. rewrite E in H1, H2, H3, H4.
  cbn [andThen] in H1, H2, H3, H4.
  split; [congruence|]. split; [exact H2|]. split; [|apply someVertexAbove_true; exact H4].
  apply rbind_Ok in H3 as (o & Ho & H3).
  apply rbind_Ok in H3 as (f & Hf & H3).
  apply deref_Ok in Hf as ->.
  unfold faceWithPositions in Ho. injection Ho as Ho.
  assert (Hin : f ∈ filter (fun f => Face.vertexPositions f (mesh p) =
                                     Ok [ringA2; ringA3; ringA4]) (m_faces (mesh p))).
  { destruct (filter _ _); [discriminate Ho|]. simpl in Ho. injection Ho as ->. left. }
  apply list_elem_of_filter in Hin as [Hq Hin].
  exists f. split; [exact Hin|]. split; [exact Hq|exact H3].
Qed.

(** * A collinear third point *)

Lemma addPointToEdge_spec position s b s' :
  addPointToEdge position s = Ok (b, s') ->
  exists v1 v2 p1 p2,
    isEdge (st_mesh s) = true /\
    frontVertex (st_mesh s) = Ok v1 /\ nextVertex v1 (st_mesh s) = Ok v2 /\
    Vertex.position v1 (st_mesh s) = Ok p1 /\
    Vertex.position v2 (st_mesh s) = Ok p2 /\
    linearlyDependent p1 p2 position = true /\
    b = negb (containedWithinSegment position p1 p2) /\
    if b then Vertex.setPosition v2 position s = Ok (tt, s') else s' = s.
Proof.
  unfold addPointToEdge. intros H.
  apply bind_Ok in H as (e & s1 & He & H). apply read_Ok in He as [He ->].
  apply bind_Ok in H as ([] & s1 & Ha & H). apply assert_Ok in Ha as [-> ->].
  apply bind_Ok in H as (v1 & s1 & Hv1 & H). apply read_Ok in Hv1 as [Hv1 ->].
  apply bind_Ok in H as (v2 & s1 & Hv2 & H). apply read_Ok in Hv2 as [Hv2 ->].
  apply bind_Ok in H as (p1 & s1 & Hp1 & H). apply read_Ok in Hp1 as [Hp1 ->].
  apply bind_Ok in H as (p2 & s1 & Hp2 & H). apply read_Ok in Hp2 as [Hp2 ->].
  apply bind_Ok in H as ([] & s1 & Ha & H). apply assert_Ok in Ha as [Hl ->].
  exists v1, v2, p1, p2. injection He as He.
  do 6 (split; [done|]).
  destruct (containedWithinSegment position p1 p2).
  - apply ret_Ok in H as [-> ->]. done.
  - apply bind_Ok in H as ([] & s1 & Hs & H). apply ret_Ok in H as [-> ->]. done.
Qed.

(** C5 (the code at the failing input).  The polyhedron is the edge from
    [edgeV1] to [edgeV2]; the point [beyondV1] is collinear with them and
    lies outside the segment, on the side of [edgeV1].  [addPoint] replaces
    the second vertex: the edge then runs from [edgeV1] to [beyondV1], and
    the former end point [edgeV2] is not within its segment. *)
Theorem addPointToEdge_drops_second_vertex :
  let before := addPoints [edgeV1; edgeV2] emptyPolyhedron [] in
  let after := addPoints [edgeV1; edgeV2; beyondV1] emptyPolyhedron [] in
  positionsOf before = Ok [edgeV1; edgeV2] /\
  linearlyDependent edgeV1 edgeV2 beyondV1 = true /\
  containedWithinSegment beyondV1 edgeV1 edgeV2 = false /\
  shapeOf after = Ok (2, 1, 0)%nat /\
  positionsOf after = Ok [edgeV1; beyondV1] /\
  edgeSegmentContains after beyondV1 = Ok true /\
  edgeSegmentContains after edgeV1 = Ok true /\
  edgeSegmentContains after edgeV2 = Ok false.
Proof. repeat split; vm_compute; reflexivity. Qed.

(** * The empty seam *)

Lemma findFirstSplittingEdge_None criterion edges s s' :
  findFirstSplittingEdge criterion edges s = Ok (None, s') ->
  s' = s /\
  Forall (fun e => exists r, matches criterion e (st_mesh s) = Ok r /\
                             discriminates r = false) edges.
Proof.
  induction edges as [|e edges IH]; simpl; intros H.
  - apply ret_Ok in H as [_ ->]. done.
  - apply bind_Ok in H as (r & s1 & Hr & H). apply read_Ok in Hr as [Hr ->].
    destruct r.
    + apply ret_Ok in H as [? _]. discriminate.
    + apply bind_Ok in H as (? & ? & _ & H). apply ret_Ok in H as [? _]. discriminate.
    + destruct (IH H) as [-> HF]. split; [done|]. constructor; [|done]. eauto.
    + destruct (IH H) as [-> HF]. split; [done|]. constructor; [|done]. eauto.
Qed.

Lemma findFirstSplittingEdge_none_intro criterion edges s :
  Forall (fun e => exists r, matches criterion e (st_mesh s) = Ok r /\
                             discriminates r = false) edges ->
  findFirstSplittingEdge criterion edges s = Ok (None, s).
Proof.
  induction 1 as [|e edges (r & Hr & Hd) _ IH]; simpl; [done|].
  eapply bind_intro; [by apply read_intro|].
  destruct r; try discriminate; exact IH.
Qed.

Lemma push_back_nonempty seam e m seam' :
  Seam.push_back seam e m = Ok seam' -> seam' <> [].
Proof.
  destruct e as [e|]; simpl; [|done]. intros H.
  apply rbind_Ok in H as (c & _ & H). apply rbind_Ok in H as ([] & _ & H).
  apply rret_Ok in H as ->. by destruct seam.
Qed.

Lemma push_back_app seam e m seam' :
  Seam.push_back seam e m = Ok seam' -> exists e', e = Some e' /\ seam' = seam ++ [e'].
Proof.
  destruct e as [e|]; simpl; [|done]. intros H.
  apply rbind_Ok in H as (c & _ & H). apply rbind_Ok in H as ([] & _ & H).
  apply rret_Ok in H as ->. eauto.
Qed.

Lemma createSeamLoop_nonempty criterion fuel : forall first seam current s seam' s',
  createSeamLoop criterion fuel first seam current s = Ok (seam', s') -> seam' <> [].
Proof.
  induction fuel as [|fuel IH]; intros first seam current s seam' s' H; simpl in H;
    [discriminate|].
  apply bind_Ok in H as (seam1 & s1 & Hp & H). apply read_Ok in Hp as [Hp ->].
  apply push_back_nonempty in Hp.
  apply bind_Ok in H as (c & s1 & _ & H).
  destruct (optAddrEqb c (Some first)).
  - apply ret_Ok in H as [-> _]. done.
  - by eapply IH.
Qed.

(** [createSeam] returns the empty seam exactly when no edge splits, and it
    then leaves the polyhedron as it is. *)
Lemma createSeam_empty criterion s s' :
  createSeam criterion s = Ok ([], s') <->
  s' = s /\ noSplittingEdge criterion (st_mesh s).
Proof.
  unfold createSeam, noSplittingEdge. split.
  - intros H. apply bind_Ok in H as (edges & s1 & He & H).
    apply read_Ok in He as [[= <-] ->].
    apply bind_Ok in H as (first & s1 & Hf & H).
    destruct first as [f|].
    + by apply createSeamLoop_nonempty in H.
    + apply findFirstSplittingEdge_None in Hf as [-> HF].
      apply ret_Ok in H as [_ ->]. done.
  - intros [-> H].
    eapply bind_intro; [by apply read_intro|].
    eapply bind_intro; [by apply findFirstSplittingEdge_none_intro|]. done.
Qed.

Lemma call_Ok {A} (m : M A) p cb a m' cb' :
  call m p cb = Ok (a, m', cb') <->
  m (mkState (mesh p) cb) = Ok (a, mkState m' cb').
Proof.
  unfold call. destruct (m _) as [[a0 [m0 l0]]| | |]; simpl; split; congruence.
Qed.

Lemma addFurtherPointToPolyhedron_empty_seam position s :
  isPolyhedron (st_mesh s) = true ->
  contains position (st_mesh s) = Ok false ->
  noSplittingEdge (SplitByVisibilityCriterion position) (st_mesh s) ->
  addFurtherPointToPolyhedron position s = Ok (false, s).
Proof.
  intros Hp Hc Hn. unfold addFurtherPointToPolyhedron.
  eapply bind_intro; [by apply read_intro|]. rewrite Hp.
  eapply bind_intro; [done|].
  eapply bind_intro; [by apply read_intro|].
  eapply bind_intro; [by apply createSeam_empty|]. done.
Qed.

Lemma split_empty s : split [] s = AssertionFailed.
Proof. done. Qed.

Lemma removeVertexBody_empty_seam vertex s q :
  Vertex.position vertex (st_mesh s) = Ok q ->
  noSplittingEdge (SplitByConnectivityCriterion vertex) (st_mesh s) ->
  removeVertexBody vertex s = AssertionFailed.
Proof.
  intros Hq Hn. unfold removeVertexBody.
  eapply bind_intro; [by apply read_intro|].
  eapply bind_intro; [by apply read_intro|].
  destruct (optAddrEqb _ _); [|done].
  eapply bind_intro; [done|].
  eapply bind_intro; [by apply createSeam_empty|]. done.
Qed.

(** C6 (as amended).  When no edge splits, [createSeam] returns the empty
    seam and changes nothing.  [addPoint] on a polyhedron-state hull that
    does not contain the point then returns normally and leaves the
    polyhedron, its bounds and the callback as they were.  [removeVertex]
    does not: it hands the empty seam to [split], whose assertion on the size
    of the seam fails. *)
Theorem empty_seam_addPoint_returns_removeVertex_aborts
    (position : Vec3) (p : Polyhedron) (cb : list Notification)
    (vertex : Address) (p' : Polyhedron) (cb' : list Notification) (q : Vec3) :
  isPolyhedron (mesh p) = true ->
  contains position (mesh p) = Ok false ->
  noSplittingEdge (SplitByVisibilityCriterion position) (mesh p) ->
  Vertex.position vertex (mesh p') = Ok q ->
  noSplittingEdge (SplitByConnectivityCriterion vertex) (mesh p') ->
  createSeam (SplitByVisibilityCriterion position) (mkState (mesh p) cb)
    = Ok ([], mkState (mesh p) cb) /\
  addPoint position p cb = Ok (tt, p, cb) /\
  createSeam (SplitByConnectivityCriterion vertex) (mkState (mesh p') cb')
    = Ok ([], mkState (mesh p') cb') /\
  removeVertex vertex p' cb' = AssertionFailed.
Proof.
  intros Hp Hc Hn Hq Hn'.
  split; [by apply createSeam_empty|].
  split; [|split; [by apply createSeam_empty|]].
  - assert (Hvf : (4 <= length (m_vertices (mesh p)))%nat /\
                  (4 <= length (m_faces (mesh p)))%nat).
    { unfold isPolyhedron in Hp. apply andb_true_iff in Hp as [Hv Hf].
      by split; eapply bool_decide_eq_true. }
    destruct Hvf as [Hv Hf].
    assert (Hs : addFurtherPoint position (mkState (mesh p) cb)
                 = Ok (false, mkState (mesh p) cb)).
    { unfold addFurtherPoint. eapply bind_intro; [by apply read_intro|].
      cbn [st_mesh]. rewrite bool_decide_eq_false_2 by lia.
      by apply addFurtherPointToPolyhedron_empty_seam. }
    unfold addPoint.
    destruct (length (m_vertices (mesh p))) as [|[|[|n]]] eqn:El; try lia.
    unfold call. rewrite Hs. simpl. by destruct p.
  - unfold removeVertex, call.
    by rewrite (removeVertexBody_empty_seam vertex (mkState (mesh p') cb') q).
Qed.

Lemma noSplittingEdgeB_true criterion m :
  noSplittingEdgeB criterion m = true -> noSplittingEdge criterion m.
Proof.
  unfold noSplittingEdgeB, noSplittingEdge. rewrite forallb_forall, Forall_forall.
  intros H e He. specialize (H e). rewrite <- list_elem_of_In in H.
  specialize (H He). destruct (matches criterion e m) as [r| | |]; try discriminate.
  exists r. split; [done|]. by destruct (discriminates r).
Qed.

(** C6 (the claim at a concrete input).  The polyhedron is a single point.
    [createSeam] for its vertex returns the empty seam, and [removeVertex]
    does not return normally: the assertion of [split] fails. *)
Lemma removeVertex_on_single_point_aborts :
  shapeOf singlePoint = Ok (1, 0, 0)%nat /\
  andThen singlePoint (fun '(_, p, _) => connectivitySeamAt (vec3 0 0 0) p) = Ok [] /\
  andThen singlePoint (fun '(_, p, cb) => removeVertexAt (vec3 0 0 0) p cb)
    = AssertionFailed.
Proof. repeat split; vm_compute; reflexivity. Qed.

Lemma empty_seam_witness :
  let p := orEmpty insideOutTetrahedron in
  let p' := polyhedronOf singlePoint in
  let position := vec3 1 1 1 in
  (isPolyhedron (mesh p) = true /\
   contains position (mesh p) = Ok false /\
   noSplittingEdge (SplitByVisibilityCriterion position) (mesh p) /\
   Vertex.position 1%positive (mesh p') = Ok (vec3 0 0 0) /\
   noSplittingEdge (SplitByConnectivityCriterion 1%positive) (mesh p')) /\
  addPoint position p [] = Ok (tt, p, []) /\
  removeVertex 1%positive p' [] = AssertionFailed.
Proof.
  intros p p' position.
  assert (H1 : isPolyhedron (mesh p) = true) by (vm_compute; reflexivity).
  assert (H2 : contains position (mesh p) = Ok false) by (vm_compute; reflexivity).
  assert (H3 : noSplittingEdge (SplitByVisibilityCriterion position) (mesh p))
    by (apply noSplittingEdgeB_true; vm_compute; reflexivity).
  assert (H4 : Vertex.position 1%positive (mesh p') = Ok (vec3 0 0 0))
    by (vm_compute; reflexivity).
  assert (H5 : noSplittingEdge (SplitByConnectivityCriterion 1%positive) (mesh p'))
    by (apply noSplittingEdgeB_true; vm_compute; reflexivity).
  split; [tauto|].
  pose proof (empty_seam_addPoint_returns_removeVertex_aborts
                position p [] 1%positive p' [] (vec3 0 0 0) H1 H2 H3 H4 H5)
    as (_ & A & _ & B).
  exact (conj A B).
Defined.

(** * What the insertion helpers report *)

Ltac grows_from H :=
  lazymatch type of H with
  | ?m _ = Ok _ =>
      let Hp := fresh "Hp" in
      assert (Hp : preserves addressesGrow m);
      [|specialize (Hp _ _ _ H); unfold addressesGrow in Hp]
  end.

Lemma addPointToPolyhedron_true position seam s b s' :
  addPointToPolyhedron position seam s = Ok (b, s') ->
  b = true /\ (nextAddress (st_mesh s) < nextAddress (st_mesh s'))%positive.
Proof.
  unfold addPointToPolyhedron. intros H.
  apply bind_Ok in H as ([] & s1 & Ha & H). apply assert_Ok in Ha as [_ ->].
  apply bind_Ok in H as (f & s1 & Hf & H). apply read_Ok in Hf as [_ ->].
  apply bind_Ok in H as (vs & s1 & Hv & H). apply read_Ok in Hv as [_ ->].
  apply bind_Ok in H as ([] & s1 & Hw & H). apply weave_strict in Hw.
  apply bind_Ok in H as (p & s2 & Hp & H). apply read_Ok in Hp as [_ ->].
  apply bind_Ok in H as ([] & s2 & Ha & H). apply assert_Ok in Ha as [_ ->].
  apply ret_Ok in H as [-> ->]. done.
Qed.

Lemma makePolyhedron_true position s b s' :
  makePolyhedron position s = Ok (b, s') ->
  b = true /\ (nextAddress (st_mesh s) < nextAddress (st_mesh s'))%positive.
Proof.
  unfold makePolyhedron. intros H.
  apply bind_Ok in H as (p & s1 & Hp & H). apply read_Ok in Hp as [_ ->].
  apply bind_Ok in H as ([] & s1 & Ha & H). apply assert_Ok in Ha as [_ ->].
  apply bind_Ok in H as (f & s1 & Hf & H). apply read_Ok in Hf as [_ ->].
  apply bind_Ok in H as (bd & s1 & Hb & H). apply read_Ok in Hb as [_ ->].
  apply bind_Ok in H as (h & s1 & Hh & H). apply read_Ok in Hh as [_ ->].
  apply bind_Ok in H as (n & s1 & Hn & H). apply read_Ok in Hn as [_ ->].
  apply bind_Ok in H as (seam & s1 & Hl & H).
  grows_from Hl. { apply preserves_makePolyhedronLoop; typeclasses eauto. }
  apply addPointToPolyhedron_true in H as [-> H]. split; [done|lia].
Qed.

Lemma makePolygon_strict positions s u s' :
  makePolygon positions s = Ok (u, s') ->
  (nextAddress (st_mesh s) < nextAddress (st_mesh s'))%positive.
Proof.
  unfold makePolygon. intros H.
  apply bind_Ok in H as (e & s1 & He & H). apply read_Ok in He as [_ ->].
  apply bind_Ok in H as ([] & s1 & Ha & H). apply assert_Ok in Ha as [_ ->].
  apply bind_Ok in H as ([] & s1 & Ha & H). apply assert_Ok in Ha as [Hlen ->].
  destruct positions as [|p positions]; [discriminate Hlen|].
  apply bind_Ok in H as (bd & s1 & Hl & H). simpl in Hl.
  apply bind_Ok in Hl as (v & s0 & Hv & Hl). apply Vertex_new_strict in Hv.
  grows_from Hl.
  { pose proof (preserves_makePolygonLoop addressesGrow) as HL.
    pose proof (preserves_HalfEdge_new addressesGrow) as HH.
    pose proof (preserves_Edge_new addressesGrow) as HE.
    pose proof (preserves_append addressesGrow) as HA.
    unfold appendVertex, appendEdge. grow. }
  grows_from H.
  { unfold Face.new, appendFace. grow. }
  lia.
Qed.

Lemma addPointToPolygon_result position s b s' :
  addPointToPolygon position s = Ok (b, s') ->
  if b then (nextAddress (st_mesh s) < nextAddress (st_mesh s'))%positive
  else s' = s.
Proof.
  unfold addPointToPolygon. intros H.
  apply bind_Ok in H as (n & s1 & Hn & H). apply read_Ok in Hn as [_ ->].
  apply bind_Ok in H as (ps & s1 & Hp & H). apply read_Ok in Hp as [_ ->].
  destruct (_ && _).
  - apply ret_Ok in H as [-> ->]. done.
  - apply bind_Ok in H as ([] & s1 & Hc & H).
    apply bind_Ok in H as ([] & s2 & Hm & H). apply ret_Ok in H as [-> ->].
    apply makePolygon_strict in Hm. apply grow_clear in Hc.
    unfold addressesGrow in Hc. lia.
Qed.

Lemma setPosition_changes v position s u s' q :
  Vertex.position v (st_mesh s) = Ok q -> position <> q ->
  Vertex.setPosition v position s = Ok (u, s') -> st_mesh s' <> st_mesh s.
Proof.
  unfold Vertex.setPosition, updVertex, storeVertex, Vertex.position.
  intros Hq Hne H.
  apply rbind_Ok in Hq as (x0 & Hx0 & Hq). apply rret_Ok in Hq as ->.
  apply bind_Ok in H as (x & s1 & Hx & H). apply read_Ok in Hx as [Hx ->].
  apply bind_Ok in H as (x' & s1 & Hx' & H). apply read_Ok in Hx' as [_ ->].
  apply modifyMesh_Ok in H as ->. intros E.
  apply (f_equal (fun m => vertexPool m !! v)) in E. simpl in E.
  rewrite lookup_insert_eq in E.
  unfold vertexAt in Hx, Hx0.
  destruct (vertexPool (st_mesh s) !! v) as [y|]; [|discriminate].
  injection Hx as ->. injection Hx0 as ->. injection E as E.
  apply (f_equal v_position) in E. simpl in E. congruence.
Qed.

Lemma containedWithinSegment_end p q : containedWithinSegment q p q = true.
Proof.
  unfold containedWithinSegment, dot, vsub. simpl.
  apply orb_true_iff. left. apply Z.leb_le. lia.
Qed.

Lemma addThirdPoint_result position s b s' :
  addThirdPoint position s = Ok (b, s') ->
  if b then st_mesh s' <> st_mesh s else s' = s.
Proof.
  unfold addThirdPoint. intros H.
  apply bind_Ok in H as (e & s1 & He & H). apply read_Ok in He as [_ ->].
  apply bind_Ok in H as ([] & s1 & Ha & H). apply assert_Ok in Ha as [_ ->].
  apply bind_Ok in H as (v1 & s1 & Hv1 & H). apply read_Ok in Hv1 as [Hv1 ->].
  apply bind_Ok in H as (v2 & s1 & Hv2 & H). apply read_Ok in Hv2 as [Hv2 ->].
  apply bind_Ok in H as (p1 & s1 & Hp1 & H). apply read_Ok in Hp1 as [Hp1 ->].
  apply bind_Ok in H as (p2 & s1 & Hp2 & H). apply read_Ok in Hp2 as [Hp2 ->].
  destruct (linearlyDependent p1 p2 position).
  - apply addPointToEdge_spec in H
      as (v1' & v2' & p1' & p2' & _ & Hv1' & Hv2' & Hp1' & Hp2' & _ & Hb & H).
    rewrite Hv1 in Hv1'. injection Hv1' as <-.
    rewrite Hv2 in Hv2'. injection Hv2' as <-.
    rewrite Hp1 in Hp1'. injection Hp1' as <-.
    rewrite Hp2 in Hp2'. injection Hp2' as <-.
    destruct b; [|done].
    eapply setPosition_changes; [exact Hp2| |exact H].
    intros ->. rewrite containedWithinSegment_end in Hb. discriminate.
  - apply addPointToPolygon_result in H. destruct b; [|done].
    intros E. rewrite E in H. lia.
Qed.

Lemma addFurtherPoint_result position s b s' :
  addFurtherPoint position s = Ok (b, s') ->
  if b then (nextAddress (st_mesh s) < nextAddress (st_mesh s'))%positive
  else s' = s.
Proof.
  unfold addFurtherPoint. intros H.
  apply bind_Ok in H as (n & s1 & Hn & H). apply read_Ok in Hn as [_ ->].
  destruct (bool_decide (n = 1%nat)).
  - unfold addFurtherPointToPolygon in H.
    apply bind_Ok in H as (f & s1 & Hf & H). apply read_Ok in Hf as [_ ->].
    apply bind_Ok in H as (st & s1 & Hs & H). apply read_Ok in Hs as [_ ->].
    destruct st.
    + apply bind_Ok in H as ([] & s1 & Hfl & H). apply grow_Face_flip in Hfl.
      apply makePolyhedron_true in H as [-> H]. unfold addressesGrow in Hfl. lia.
    + by apply makePolyhedron_true in H as [-> H].
    + by apply addPointToPolygon_result in H.
  - unfold addFurtherPointToPolyhedron in H.
    apply bind_Ok in H as (p & s1 & Hp & H). apply read_Ok in Hp as [_ ->].
    apply bind_Ok in H as ([] & s1 & Ha & H). apply assert_Ok in Ha as [_ ->].
    apply bind_Ok in H as (c & s1 & Hc & H). apply read_Ok in Hc as [_ ->].
    destruct c.
    + apply ret_Ok in H as [-> ->]. done.
    + apply bind_Ok in H as (seam & s1 & Hs & H).
      destruct (bool_decide (seam = [])) eqn:E.
      * apply bool_decide_eq_true in E as ->.
        apply createSeam_empty in Hs as [-> _].
        apply ret_Ok in H as [-> ->]. done.
      * apply bind_Ok in H as ([] & s2 & Hsp & H).
        apply addPointToPolyhedron_true in H as [-> H].
        apply (preserves_createSeam addressesGrow) in Hs.
        apply (preserves_split addressesGrow) in Hsp.
        unfold addressesGrow in *. lia.
Qed.

(** * The bounding box *)

Lemma mergeWith_inside b q : boxContains b q -> mergeWith b q = b.
Proof.
  destruct b as [[x1 y1 z1] [x2 y2 z2]], q as [x y z].
  unfold boxContains, vle, mergeWith, vmin, vmax. simpl.
  intros [(? & ? & ?) (? & ? & ?)].
  f_equal; f_equal; lia.
Qed.

Lemma mergeWith_contains b q : boxContains (mergeWith b q) q.
Proof.
  unfold boxContains, vle, mergeWith, vmin, vmax. simpl. lia.
Qed.

Lemma box_of_point q : boxContains (mkBBox q q) q.
Proof. unfold boxContains, vle. simpl. lia. Qed.

Lemma frontVertex_elem m v : frontVertex m = Ok v -> v ∈ m_vertices m.
Proof.
  unfold frontVertex. intros H. apply deref_Ok in H.
  destruct (m_vertices m); [discriminate|]. injection H as ->. left.
Qed.

Lemma successor_elem first v l w :
  successor first v l = Some w -> w = first \/ w ∈ l.
Proof.
  induction l as [|a l IH]; simpl; [done|].
  destruct (addrEqb a v).
  - intros [= <-]. destruct l; [by left|]. right. right. left.
  - intros H. destruct (IH H); [by left|]. right. by right.
Qed.

Lemma nextVertex_elem m v w : nextVertex v m = Ok w -> w ∈ m_vertices m.
Proof.
  unfold nextVertex. destruct (m_vertices m) as [|a l] eqn:E; [done|].
  intros H. apply deref_Ok in H. apply successor_elem in H as [->|H]; [left|done].
Qed.

Lemma addFirstPoint_strict position s u s' :
  addFirstPoint position s = Ok (u, s') ->
  (nextAddress (st_mesh s) < nextAddress (st_mesh s'))%positive.
Proof.
  unfold addFirstPoint. intros H.
  apply bind_Ok in H as (e & s1 & He & H). apply read_Ok in He as [_ ->].
  apply bind_Ok in H as ([] & s1 & Ha & H). apply assert_Ok in Ha as [_ ->].
  apply bind_Ok in H as (v & s1 & Hv & H). apply Vertex_new_strict in Hv.
  apply modifyMesh_Ok in H as ->. simpl. done.
Qed.

Lemma addSecondPoint_result position s u s' :
  addSecondPoint position s = Ok (u, s') ->
  exists v q, v ∈ m_vertices (st_mesh s) /\ Vertex.position v (st_mesh s) = Ok q /\
    if bool_decide (position = q) then s' = s
    else (nextAddress (st_mesh s) < nextAddress (st_mesh s'))%positive.
Proof.
  unfold addSecondPoint. intros H.
  apply bind_Ok in H as (e & s1 & He & H). apply read_Ok in He as [_ ->].
  apply bind_Ok in H as ([] & s1 & Ha & H). apply assert_Ok in Ha as [_ ->].
  apply bind_Ok in H as (v & s1 & Hv & H). apply read_Ok in Hv as [Hv ->].
  apply bind_Ok in H as (q & s1 & Hq & H). apply read_Ok in Hq as [Hq ->].
  exists v, q. split; [by apply frontVertex_elem|]. split; [done|].
  destruct (decide (position = q)) as [->|Hne].
  - rewrite bool_decide_eq_true_2 by done.
    rewrite bool_decide_eq_false_2 in H by naive_solver.
    by apply ret_Ok in H as [_ ->].
  - rewrite bool_decide_eq_false_2 by done.
    rewrite bool_decide_eq_true_2 in H by done.
    apply bind_Ok in H as (nv & s1 & Hn & H). apply Vertex_new_strict in Hn.
    grows_from H.
    { pose proof (preserves_HalfEdge_new addressesGrow) as HH.
      pose proof (preserves_Edge_new addressesGrow) as HE.
      unfold appendVertex, appendEdge. grow. }
    lia.
Qed.

(** C4 (the code at the failing input).  The polyhedron is the edge from
    [longEdgeV1] to [longEdgeV2], with the bounds of its two vertices.  The
    point [justPastV2] lies on the line of the edge, past [longEdgeV2] by no
    more than the tolerance: the segment test counts it as contained and
    [addThirdPoint] answers false and changes nothing.  [addPoint] leaves
    the mesh and the callback as they were, and merges the point into the
    bounds all the same: the bounds grow to a box that no longer is the box
    of the vertices.  From three vertices on [addPoint] merges only when the
    helper answers true: a point inside the triangle is ignored and the
    bounds stay. *)
Theorem addPoint_merges_ignored_point_into_bounds :
  let p := polyhedronOf (addPoints [longEdgeV1; longEdgeV2] emptyPolyhedron []) in
  let q := polyhedronOf (addPoints [longEdgeV1; longEdgeV2; triangleV3] emptyPolyhedron []) in
  vertexPositions (mesh p) = Ok [longEdgeV1; longEdgeV2] /\
  m_bounds p = mkBBox longEdgeV1 longEdgeV2 /\
  linearlyDependent longEdgeV1 longEdgeV2 justPastV2 = true /\
  containedWithinSegment justPastV2 longEdgeV1 longEdgeV2 = true /\
  addThirdPoint justPastV2 (mkState (mesh p) []) = Ok (false, mkState (mesh p) []) /\
  addPoint justPastV2 p [] = Ok (tt, mkPolyhedron (mesh p) (mkBBox longEdgeV1 justPastV2), []) /\
  mkBBox longEdgeV1 justPastV2 <> m_bounds p /\
  ~ boxContains (m_bounds p) justPastV2 /\
  addFurtherPoint insideTriangle (mkState (mesh q) []) = Ok (false, mkState (mesh q) []) /\
  addPoint insideTriangle q [] = Ok (tt, q, []).
Proof.
  intros p q.
  assert (Hb : m_bounds p = mkBBox longEdgeV1 longEdgeV2) by (vm_compute; reflexivity).
  do 6 (split; [vm_compute; reflexivity|]).
  split; [rewrite Hb; discriminate|].
  split; [|split; vm_compute; reflexivity].
  rewrite Hb. unfold boxContains, vle. simpl. lia.
Qed.

Lemma boundsCoverVerticesB_true p :
  boundsCoverVerticesB p = true -> boundsCoverVertices p.
Proof.
  unfold boundsCoverVerticesB, boundsCoverVertices. rewrite forallb_forall.
  intros H v q Hv Hq. apply list_elem_of_In in Hv. specialize (H v Hv).
  rewrite Hq in H. rewrite !andb_true_iff, !Z.leb_le in H.
  unfold boxContains, vle. tauto.
Qed.

(** C7 (the claim at a concrete input).  No function of the value that
    [addPoint] returns tells whether the point was incorporated: on the
    single-point polyhedron the duplicate point is ignored and a new point is
    incorporated, and both calls return the same (empty) value. *)
Lemma addPoint_result_reports_nothing :
  ~ exists report : unit -> bool,
      forall position p cb r p' cb',
        addPoint position p cb = Ok (r, p', cb') ->
        (report r = true <-> mesh p' <> mesh p).
Proof.
  intros [report H].
  set (p := polyhedronOf singlePoint).
  assert (H1 : addPoint (vec3 0 0 0) p [] = Ok (tt, p, []))
    by (vm_compute; reflexivity).
  destruct (isOk_true (addPoint (vec3 1 0 0) p [])) as [[[[] p2] cb2] H2];
    [vm_compute; reflexivity|].
  assert (H3 : shapeOf (addPoint (vec3 1 0 0) p []) = Ok (2, 1, 0)%nat)
    by (vm_compute; reflexivity).
  assert (H4 : length (m_vertices (mesh p)) = 1%nat) by (vm_compute; reflexivity).
  rewrite H2 in H3. simpl in H3. injection H3 as H3 _ _.
  apply H in H1, H2.
  destruct (report tt).
  - apply H1; done.
  - assert (He : mesh p2 <> mesh p) by (intros E; rewrite E in H3; lia).
    apply H2 in He. discriminate.
Qed.


Lemma capFrame_refl n s : capFrame n s s.
Proof.
  unfold capFrame. split; [lia|]. split; [done|].
  split; [eauto|]. split; [eauto|]. done.
Qed.

Lemma capFrame_trans n s1 s2 s3 :
  capFrame n s1 s2 -> capFrame n s2 s3 -> capFrame n s1 s3.
Proof.
  intros (A1 & A2 & A3 & A4 & A5 & A6 & A7 & A8 & A9)
         (B1 & B2 & B3 & B4 & B5 & B6 & B7 & B8 & B9).
  unfold capFrame. split; [lia|].
  split. { intros h Hh. rewrite B2, A2; done. }
  split. { intros h x Hx Hlt. destruct (A3 h x Hx Hlt) as (x' & Hx' & E).
           destruct (B3 h x' Hx') as (x'' & Hx'' & E'); [lia|].
           exists x''. split; congruence. }
  split. { intros e x Hx. destruct (A4 e x Hx) as (x' & Hx' & E & F).
           destruct (B4 e x' Hx') as (x'' & Hx'' & E' & F'). exists x''.
           split; [done|]. split; [congruence|].
           intros Hn. rewrite F', F; [done..|]. rewrite F; done. }
  split; [eauto|].
  repeat split; congruence.
Qed.

#[global] Instance capFrame_Reflexive n : Reflexive (capFrame n) := capFrame_refl n.
#[global] Instance capFrame_Transitive n : Transitive (capFrame n) := capFrame_trans n.

Lemma updHalfEdge_eff h f s u s' :
  updHalfEdge h f s = Ok (u, s') ->
  exists x, halfEdgePool (st_mesh s) !! h = Some x /\
    s' = mkState (withHalfEdgePool <[h := f x]> (st_mesh s)) (st_log s).
Proof.
  unfold updHalfEdge, storeHalfEdge. intros H.
  apply bind_Ok in H as (x & s1 & Hx & H). apply read_Ok in Hx as [Hx ->].
  apply bind_Ok in H as (x' & s1 & Hx' & H). apply read_Ok in Hx' as [_ ->].
  apply modifyMesh_Ok in H as ->. unfold halfEdgeAt in Hx.
  destruct (halfEdgePool (st_mesh s) !! h) as [y|]; [|discriminate].
  injection Hx as ->. eauto.
Qed.

Lemma updEdge_eff e f s u s' :
  updEdge e f s = Ok (u, s') ->
  exists x, edgePool (st_mesh s) !! e = Some x /\
    s' = mkState (withEdgePool <[e := f x]> (st_mesh s)) (st_log s).
Proof.
  unfold updEdge, storeEdge. intros H.
  apply bind_Ok in H as (x & s1 & Hx & H). apply read_Ok in Hx as [Hx ->].
  apply bind_Ok in H as (x' & s1 & Hx' & H). apply read_Ok in Hx' as [_ ->].
  apply modifyMesh_Ok in H as ->. unfold edgeAt in Hx.
  destruct (edgePool (st_mesh s) !! e) as [y|]; [|discriminate].
  injection Hx as ->. eauto.
Qed.

Lemma updVertex_eff v f s u s' :
  updVertex v f s = Ok (u, s') ->
  exists x, vertexPool (st_mesh s) !! v = Some x /\
    s' = mkState (withVertexPool <[v := f x]> (st_mesh s)) (st_log s).
Proof.
  unfold updVertex, storeVertex. intros H.
  apply bind_Ok in H as (x & s1 & Hx & H). apply read_Ok in Hx as [Hx ->].
  apply bind_Ok in H as (x' & s1 & Hx' & H). apply read_Ok in Hx' as [_ ->].
  apply modifyMesh_Ok in H as ->. unfold vertexAt in Hx.
  destruct (vertexPool (st_mesh s) !! v) as [y|]; [|discriminate].
  injection Hx as ->. eauto.
Qed.

(** An update of a half-edge at or above [n] that keeps its origin. *)
Lemma capFrame_updHalfEdge n h f :
  (n <= h)%positive -> (forall x, h_origin (f x) = h_origin x) ->
  preserves (capFrame n) (updHalfEdge h f).
Proof.
  intros Hn Hf s u s' H. apply updHalfEdge_eff in H as (x & Hx & ->).
  unfold capFrame. simpl. split; [lia|].
  split. { intros h' Hh'. rewrite lookup_insert_ne; [done|lia]. }
  split. { intros h' x' Hx' _. destruct (decide (h = h')) as [->|Hne].
           - rewrite lookup_insert_eq. exists (f x). split; [done|]. rewrite Hf. congruence.
           - rewrite lookup_insert_ne by done. eauto. }
  split; [eauto|]. done.
Qed.

Lemma capFrame_setLeaving n v l : preserves (capFrame n) (Vertex.setLeaving v l).
Proof.
  intros s u s' H. apply updVertex_eff in H as (x & Hx & ->).
  unfold capFrame. simpl. split; [lia|]. split; [done|].
  split; [eauto|]. split; [eauto|]. done.
Qed.

Lemma HalfEdge_new_eff o s h s' :
  HalfEdge.new o s = Ok (h, s') ->
  h = nextAddress (st_mesh s) /\
  nextAddress (st_mesh s') = Pos.succ h /\
  halfEdgePool (st_mesh s') = <[h := mkHalfEdge o None None h h]> (halfEdgePool (st_mesh s)) /\
  edgePool (st_mesh s') = edgePool (st_mesh s) /\
  facePool (st_mesh s') = facePool (st_mesh s) /\
  m_faces (st_mesh s') = m_faces (st_mesh s) /\
  m_vertices (st_mesh s') = m_vertices (st_mesh s) /\
  m_edges (st_mesh s') = m_edges (st_mesh s) /\
  st_log s' = st_log s.
Proof.
  unfold HalfEdge.new. intros H.
  apply bind_Ok in H as (vx & s1 & Hv & H). apply read_Ok in Hv as [Hv ->].
  apply bind_Ok in H as (a & s1 & Hf & H). injection Hf as <- <-.
  apply bind_Ok in H as ([] & s1 & Hm & H). apply modifyMesh_Ok in Hm as ->.
  apply bind_Ok in H as ([] & s1 & Hl & H). apply ret_Ok in H as [-> ->].
  unfold HalfEdge.setAsLeaving in Hl.
  apply bind_Ok in Hl as (o' & s2 & Ho & Hl). apply read_Ok in Ho as [_ ->].
  apply updVertex_eff in Hl as (x & Hx & ->). simpl. repeat split.
Qed.

Lemma capFrame_HalfEdge_new n o s h s' :
  (n <= nextAddress (st_mesh s))%positive ->
  HalfEdge.new o s = Ok (h, s') ->
  capFrame n s s' /\ (n <= h)%positive /\
  halfEdgePool (st_mesh s') !! h = Some (mkHalfEdge o None None h h).
Proof.
  intros Hle H.
  apply HalfEdge_new_eff in H as (-> & Hn & Hh & He & Hf & Hfs & Hvs & Hes & Hl).
  split; [|split; [done|by rewrite Hh, lookup_insert_eq]].
  unfold capFrame. rewrite Hn, Hh, He, Hf, Hfs, Hvs, Hl.
  split; [lia|].
  split. { intros h Hlt. rewrite lookup_insert_ne; [done|lia]. }
  split. { intros h x Hx Hlt. rewrite lookup_insert_ne by lia. eauto. }
  split; [eauto|]. done.
Qed.

Lemma last_elem (l : list Address) hd : hd ∈ l -> List.last l hd ∈ l.
Proof.
  intros H. destruct l as [|a l]; [by apply elem_of_nil in H|]. clear H.
  revert a. induction l as [|b l IH]; intros a; [left|].
  right. apply (IH b).
Qed.

Lemma capFrame_setNext n h a :
  (n <= h)%positive -> preserves (capFrame n) (HalfEdge.setNext h a).
Proof. intros Hn. by apply capFrame_updHalfEdge. Qed.

Lemma capFrame_setPrevious n h a :
  (n <= h)%positive -> preserves (capFrame n) (HalfEdge.setPrevious h a).
Proof. intros Hn. by apply capFrame_updHalfEdge. Qed.

Lemma capFrame_append n l h :
  Forall (fun a => (n <= a)%positive) l -> (n <= h)%positive ->
  preserves (capFrame n) (HalfEdgeList.append l h).
Proof.
  intros Hl Hh. unfold HalfEdgeList.append.
  pose proof (capFrame_setNext n) as HN.
  pose proof (capFrame_setPrevious n) as HP.
  destruct l as [|hd l'].
  - pres.
  - assert (Ht : (n <= List.last (hd :: l') hd)%positive).
    { rewrite Forall_forall in Hl. apply Hl, last_elem. left. }
    assert (Hd : (n <= hd)%positive) by (by inversion Hl).
    pres.
Qed.

Lemma append_result l h s l' s' :
  HalfEdgeList.append l h s = Ok (l', s') -> l' = l ++ [h].
Proof.
  unfold HalfEdgeList.append. destruct l as [|hd l0]; intros H.
  - apply bind_Ok in H as (? & ? & _ & H). apply bind_Ok in H as (? & ? & _ & H).
    by apply ret_Ok in H as [-> _].
  - apply bind_Ok in H as (? & ? & _ & H). apply bind_Ok in H as (? & ? & _ & H).
    apply bind_Ok in H as (? & ? & _ & H). apply bind_Ok in H as (? & ? & _ & H).
    by apply ret_Ok in H as [-> _].
Qed.

Lemma setSecondEdge_eff n e h s u s' :
  (n <= h)%positive ->
  Edge.setSecondEdge e h s = Ok (u, s') ->
  capFrame n s s' /\
  exists x, edgePool (st_mesh s) !! e = Some x /\ e_second x = None /\
            edgePool (st_mesh s') !! e = Some (mkEdge (e_first x) (Some h)).
Proof.
  intros Hn H. unfold Edge.setSecondEdge in H.
  apply bind_Ok in H as (o & s1 & Ho & H). apply read_Ok in Ho as [Ho ->].
  apply bind_Ok in H as ([] & s1 & Ha & H). apply assert_Ok in Ha as [Ha ->].
  apply bool_decide_eq_true in Ha as ->.
  apply bind_Ok in H as (he & s1 & Hhe & H). apply read_Ok in Hhe as [_ ->].
  apply bind_Ok in H as ([] & s1 & Ha & H). apply assert_Ok in Ha as [_ ->].
  apply bind_Ok in H as ([] & s1 & Hu & H).
  apply updEdge_eff in Hu as (x & Hx & ->).
  assert (Hs : e_second x = None).
  { unfold Edge.second, edgeAt in Ho. apply rbind_Ok in Ho as (y & Hy & Ho).
    rewrite Hx in Hy. injection Hy as <-. by apply rret_Ok in Ho. }
  pose proof (capFrame_updHalfEdge n h
    (fun x => mkHalfEdge (h_origin x) (Some e) (h_face x) (h_next x) (h_previous x))
    Hn (fun _ => eq_refl) _ _ _ H) as HF.
  apply updHalfEdge_eff in H as (y & Hy & ->).
  split.
  - etrans; [|exact HF]. unfold capFrame. simpl. split; [lia|]. split; [done|].
    split; [eauto|]. split; [|split; [|done]].
    + intros e' x' Hx'. destruct (decide (e = e')) as [<-|Hne].
      * rewrite lookup_insert_eq. eexists. split; [done|]. simpl.
        rewrite Hx in Hx'. injection Hx' as <-. split; [done|]. by rewrite Hs.
      * rewrite lookup_insert_ne by done. eauto.
    + intros e' He'. rewrite lookup_insert_ne; [done|]. intros <-. congruence.
  - exists x. simpl. by rewrite lookup_insert_eq.
Qed.

Lemma capped_mono n s0 s s' s'' e h :
  capFrame n s0 s -> capFrame n s' s'' -> capped n s s' e h -> capped n s0 s'' e h.
Proof.
  intros F0 F (g & x & s1 & F1 & Hfs & Ho & He & Hh & Hlt).
  destruct F as (G1 & G2 & G3 & G4 & G5 & _).
  destruct (G4 _ _ He) as ([f2 s2] & He' & Ef & Es). simpl in *.
  destruct (G3 _ _ Hh Hlt) as (x' & Hx' & Eo).
  exists g, x', s1. split; [by etrans|]. split; [done|]. split; [by rewrite Eo|].
  split; [|split; [done|lia]].
  rewrite He'. subst f2. by rewrite Es.
Qed.

Lemma fullySpecified_false e m :
  Edge.fullySpecified e m = Ok false <->
  exists g, edgePool m !! e = Some (mkEdge (Some g) None).
Proof.
  unfold Edge.fullySpecified, Edge.firstEdge, Edge.first, Edge.second, edgeAt, rbind, rret.
  destruct (edgePool m !! e) as [[[g|] [h|]]|]; split;
    try discriminate; try (intros [? [=]]; fail); try (by eauto).
Qed.

(** The loop of [sealWithSinglePolygon]: one new half-edge per edge. *)
Lemma sealSingleLoop_spec n it : forall boundary s boundary' s',
  (n <= nextAddress (st_mesh s))%positive ->
  Forall (fun a => (n <= a)%positive) boundary ->
  sealSingleLoop it boundary s = Ok (boundary', s') ->
  capFrame n s s' /\
  exists hs, boundary' = boundary ++ hs /\
    Forall (fun a => (n <= a)%positive) hs /\
    Forall2 (capped n s s') it hs.
Proof.
  induction it as [|e it IH]; intros bd s bd' s' Hn Hbd H; simpl in H.
  - apply ret_Ok in H as [-> ->]. split; [apply capFrame_refl|].
    exists []. rewrite app_nil_r. split; [done|]. split; constructor.
  - apply bind_Ok in H as (fs & s1 & Hfs & H). apply read_Ok in Hfs as [Hfs ->].
    apply bind_Ok in H as ([] & s1 & Ha & H). apply assert_Ok in Ha as [Ha ->].
    apply negb_true_iff in Ha as ->.
    apply bind_Ok in H as (o & s1 & Ho & H). apply read_Ok in Ho as [Ho ->].
    apply bind_Ok in H as (h & s1 & Hh & H).
    pose proof (HalfEdge_new_eff _ _ _ _ Hh) as (Eh & En1 & _).
    apply (capFrame_HalfEdge_new n) in Hh as (F1 & Hnh & Hh); [|done].
    apply bind_Ok in H as (bd1 & s2 & Hap & H).
    pose proof (append_result _ _ _ _ _ Hap) as ->.
    apply (capFrame_append n) in Hap as F2; [|done..].
    apply bind_Ok in H as ([] & s3 & Hs & H).
    apply (setSecondEdge_eff n) in Hs as (F3 & x & Hx & Hxs & Hx'); [|done].
    assert (F23 : capFrame n s1 s3) by (etrans; [exact F2|exact F3]).
    assert (F13 : capFrame n s s3) by (etrans; [exact F1|exact F23]).
    assert (Hn3 : (n <= nextAddress (st_mesh s3))%positive)
      by (destruct F13 as (G1 & _); lia).
    apply IH in H as (F4 & hs & -> & Hhs & HF);
      [|done|by apply Forall_app; split; [|constructor]].
    split; [etrans; [exact F13|exact F4]|]. exists (h :: hs). rewrite <- app_assoc. split; [done|].
    split; [by constructor|]. constructor.
    + apply (capped_mono n s s s3 s'); [apply capFrame_refl|exact F4|].
      destruct F23 as (G1 & _ & G3 & _).
      destruct (G3 _ _ Hh) as (y & Hy & Ey); [lia|]. simpl in Ey.
      pose proof Hfs as Hfs'. apply fullySpecified_false in Hfs' as (g & Hg).
      assert (F12 : capFrame n s s2) by (etrans; [exact F1|exact F2]).
      destruct F12 as (_ & _ & _ & K4 & _).
      destruct (K4 _ _ Hg) as (x' & Hx2 & Ef & _). rewrite Hx in Hx2.
      injection Hx2 as <-. simpl in Ef. rewrite Ef in Hx'.
      exists g, y, s. split; [apply capFrame_refl|]. split; [done|].
      split; [by rewrite Ey|]. split; [done|]. split; [done|]. lia.
    + eapply Forall2_impl; [exact HF|]. intros e' h'.
      apply capped_mono; [done|apply capFrame_refl].
Qed.

Lemma secondVertex_back s s1 e o :
  allocated (st_mesh s) ->
  capFrame (nextAddress (st_mesh s)) s s1 ->
  Edge.fullySpecified e (st_mesh s1) = Ok false ->
  Edge.secondVertex e (st_mesh s1) = Ok o ->
  Edge.fullySpecified e (st_mesh s) = Ok false /\
  Edge.secondVertex e (st_mesh s) = Ok o.
Proof.
  intros (_ & Ah & Ae & _) (_ & F2 & _ & F4 & F5 & _) Hfs Ho.
  apply fullySpecified_false in Hfs as (g & Hg).
  destruct (edgePool (st_mesh s) !! e) as [[f0 s0]|] eqn:E;
    [|apply F5 in E; congruence].
  destruct (F4 _ _ E) as (x' & Hx' & Ef & Es). rewrite Hg in Hx'.
  injection Hx' as <-. simpl in *. subst f0.
  destruct s0 as [h2|]; [specialize (Es ltac:(done)); discriminate|].
  split; [apply fullySpecified_false; eauto|].
  destruct (Ae _ _ E) as (_ & Hlt). specialize (Hlt g eq_refl).
  revert Ho. unfold Edge.secondVertex, Edge.firstEdge, Edge.first, Edge.second,
    HalfEdge.next, HalfEdge.origin, edgeAt, halfEdgeAt, rbind, rret.
  rewrite Hg, E. cbn. rewrite (F2 g Hlt).
  destruct (halfEdgePool (st_mesh s) !! g) as [y|] eqn:Ey; [|done].
  destruct (Ah _ _ Ey) as (_ & Hn). cbn. by rewrite (F2 _ Hn).
Qed.

Lemma forEach_setFace bd f : forall s u s',
  forEach bd (fun h => HalfEdge.setFace h (Some f)) s = Ok (u, s') ->
  (forall h, h ∈ bd -> exists x, halfEdgePool (st_mesh s') !! h = Some x /\
                                 h_face x = Some f) /\
  (forall h x, halfEdgePool (st_mesh s) !! h = Some x ->
     exists x', halfEdgePool (st_mesh s') !! h = Some x' /\
       h_origin x' = h_origin x /\ (h_face x = Some f -> h_face x' = Some f)) /\
  (forall h, halfEdgePool (st_mesh s) !! h = None ->
             halfEdgePool (st_mesh s') !! h = None) /\
  edgePool (st_mesh s') = edgePool (st_mesh s) /\
  facePool (st_mesh s') = facePool (st_mesh s) /\
  m_faces (st_mesh s') = m_faces (st_mesh s) /\
  nextAddress (st_mesh s') = nextAddress (st_mesh s) /\
  st_log s' = st_log s.
Proof.
  induction bd as [|h bd IH]; intros s u s' H; simpl in H.
  - apply ret_Ok in H as [_ ->]. split; [intros h Hh; by apply elem_of_nil in Hh|].
    split; [eauto|]. done.
  - apply bind_Ok in H as ([] & s1 & Hs & H).
    apply updHalfEdge_eff in Hs as (x & Hx & ->).
    apply IH in H as (I1 & I2 & I3 & I4 & I5 & I6 & I7 & I8). simpl in *.
    split.
    { intros h' Hh'. apply elem_of_cons in Hh' as [->|Hh']; [|by apply I1].
      destruct (I2 h (mkHalfEdge (h_origin x) (h_edge x) (Some f) (h_next x) (h_previous x)))
        as (x' & Hx' & _ & Hf); [by rewrite lookup_insert_eq|].
      exists x'. split; [done|]. by apply Hf. }
    split.
    { intros h' x' Hx'. destruct (decide (h = h')) as [<-|Hne].
      - rewrite Hx in Hx'. injection Hx' as <-.
        destruct (I2 h (mkHalfEdge (h_origin x) (h_edge x) (Some f) (h_next x) (h_previous x)))
          as (x' & Hx' & Ho & Hf); [by rewrite lookup_insert_eq|].
        exists x'. split; [done|]. split; [done|]. intros _. by apply Hf.
      - apply I2. by rewrite lookup_insert_ne. }
    split.
    { intros h' Hh'. apply I3. rewrite lookup_insert_ne; [done|]. congruence. }
    done.
Qed.

Lemma Face_new_eff bd s f s' :
  Face.new bd s = Ok (f, s') ->
  f = nextAddress (st_mesh s) /\
  (3 <= length bd)%nat /\
  facePool (st_mesh s') = <[f := mkFace bd]> (facePool (st_mesh s)) /\
  (forall h, h ∈ bd -> exists x, halfEdgePool (st_mesh s') !! h = Some x /\
                                 h_face x = Some f) /\
  (forall h x, halfEdgePool (st_mesh s) !! h = Some x ->
     exists x', halfEdgePool (st_mesh s') !! h = Some x' /\
       h_origin x' = h_origin x) /\
  edgePool (st_mesh s') = edgePool (st_mesh s) /\
  m_faces (st_mesh s') = m_faces (st_mesh s) /\
  st_log s' = st_log s.
Proof.
  unfold Face.new. intros H.
  apply bind_Ok in H as ([] & s1 & Ha & H). apply assert_Ok in Ha as [Ha ->].
  apply bind_Ok in H as (a & s1 & Hf & H). injection Hf as <- <-.
  apply bind_Ok in H as ([] & s1 & Hm & H). apply modifyMesh_Ok in Hm as ->.
  apply bind_Ok in H as ([] & s1 & Hl & H). apply ret_Ok in H as [-> ->].
  apply forEach_setFace in Hl as (I1 & I2 & _ & I4 & I5 & I6 & _ & I8).
  simpl in *. split; [done|]. split; [apply Z.leb_le in Ha; lia|].
  split; [done|]. split; [done|]. split; [|done].
  intros h x Hx. destruct (I2 h x Hx) as (x' & Hx' & Ho & _). eauto.
Qed.

(** [sealWithSinglePolygon] caps the seam with one new face. *)
Lemma sealWithSinglePolygon_spec seam s u s' :
  allocated (st_mesh s) ->
  sealWithSinglePolygon seam s = Ok (u, s') ->
  sealedBySingleFace s s' seam.
Proof.
  intros Hal H. unfold sealWithSinglePolygon in H.
  apply bind_Ok in H as ([] & s1 & Ha & H). apply assert_Ok in Ha as [_ ->].
  apply bind_Ok in H as (bd & s1 & Hloop & H).
  apply (sealSingleLoop_spec (nextAddress (st_mesh s))) in Hloop
    as (F & hs & -> & Hhs & Hcap); [|lia|constructor].
  simpl in *.
  apply bind_Ok in H as (f & s2 & Hnew & H).
  apply Face_new_eff in Hnew as (-> & _ & Hfp & Hbd & Hor & Hep & Hfs & Hlog).
  apply bind_Ok in H as ([] & s3 & Hcb & H). injection Hcb as <-.
  apply modifyMesh_Ok in H as ->. unfold withFaces. simpl.
  pose proof F as (F1 & F2 & F3 & F4 & F5 & F6 & F7 & F8 & F9).
  exists (nextAddress (st_mesh s1)), hs.
  split.
  { destruct (facePool (st_mesh s) !! nextAddress (st_mesh s1)) eqn:E; [|done].
    destruct Hal as (_ & _ & _ & Af). apply Af in E. lia. }
  split; [by rewrite Hfp, F6|].
  split; [by rewrite Hfs, F7|].
  split; [rewrite Hlog, F9; eauto|].
  apply Forall2_same_length_lookup in Hcap as [Hlen Hcap].
  apply Forall2_same_length_lookup. split; [done|].
  intros i e h Hie Hih.
  destruct (Hcap i e h Hie Hih) as (g & x & s0 & F0 & Hfs0 & Ho0 & He & Hh & Hlt).
  assert (Hnh : (nextAddress (st_mesh s) <= h)%positive).
  { rewrite Forall_lookup in Hhs. by apply (Hhs i). }
  assert (Hel : h ∈ hs) by (by apply list_elem_of_lookup_2 with i).
  destruct (secondVertex_back _ _ _ _ Hal F0 Hfs0 Ho0) as (B1 & B2).
  exists (h_origin x). split; [done|]. split; [done|].
  split.
  { destruct (halfEdgePool (st_mesh s) !! h) eqn:E; [|done].
    destruct Hal as (_ & Ah & _). apply Ah in E as [E _]. lia. }
  destruct (Hbd h Hel) as (y & Hy & Hyf).
  destruct (Hor h x Hh) as (y' & Hy' & Hyo). rewrite Hy in Hy'. injection Hy' as <-.
  unfold HalfEdge.origin, HalfEdge.face, Edge.second, Edge.fullySpecified,
    Edge.firstEdge, Edge.first, Edge.second, halfEdgeAt, edgeAt, rbind, rret.
  simpl. rewrite Hy, Hep, He. simpl. rewrite Hyo, Hyf. done.
Qed.

Lemma forallb_map_to_list {A} (f : positive * A -> bool) (m : gmap positive A) :
  forallb f (map_to_list m) = true -> forall a x, m !! a = Some x -> f (a, x) = true.
Proof.
  rewrite forallb_forall. intros H a x Hx. apply H.
  apply list_elem_of_In. by apply elem_of_map_to_list.
Qed.

Lemma allocatedB_true m : allocatedB m = true -> allocated m.
Proof.
  unfold allocatedB, allocated. rewrite !andb_true_iff.
  intros [[[Hv Hh] He] Hf].
  split. { intros a x Hx. apply (forallb_map_to_list _ _ Hv) in Hx.
           by apply Pos.ltb_lt in Hx. }
  split. { intros a x Hx. apply (forallb_map_to_list _ _ Hh) in Hx.
           apply andb_true_iff in Hx as [H1 H2].
           apply Pos.ltb_lt in H1, H2. done. }
  split.
  { intros a x Hx. apply (forallb_map_to_list _ _ He) in Hx.
    apply andb_true_iff in Hx as [H1 H2]. apply Pos.ltb_lt in H1.
    split; [done|]. intros g Hg. simpl in H2. rewrite Hg in H2.
    by apply Pos.ltb_lt in H2. }
  intros a x Hx. apply (forallb_map_to_list _ _ Hf) in Hx.
  by apply Pos.ltb_lt in Hx.
Qed.

(** C9.  On a seam of exactly three edges [sealWithMultiplePolygons] is
    [sealWithSinglePolygon]: the two calls end in the same way and in the same
    state.  When the call returns, exactly one face has been created and
    appended to the faces (with one notification); its boundary has one new
    half-edge per seam edge, in the order of the seam, which originates at
    the second vertex the seam edge had before the call and is now the second
    half-edge of that edge, so every seam edge, not fully specified before,
    is fully specified after. *)
Theorem seal_of_three_edges_is_single_polygon (seam : Seam.t) (s : State) :
  length seam = 3%nat ->
  allocated (st_mesh s) ->
  sealWithMultiplePolygons seam s = sealWithSinglePolygon seam s /\
  forall u s', sealWithMultiplePolygons seam s = Ok (u, s') ->
               sealedBySingleFace s s' seam.
Proof.
  intros Hlen Hal.
  assert (E : sealWithMultiplePolygons seam s = sealWithSinglePolygon seam s).
  { unfold sealWithMultiplePolygons, bind, assert. rewrite Hlen. reflexivity. }
  split; [done|]. intros u s' H. rewrite E in H.
  by apply sealWithSinglePolygon_spec in H.
Qed.

Lemma seal_of_three_edges_witness :
  let seam := seamOf openTetrahedron in
  let s := stateOf openTetrahedron in
  (length seam = 3%nat /\ allocated (st_mesh s)) /\
  sealWithMultiplePolygons seam s = sealWithSinglePolygon seam s /\
  exists s', sealWithMultiplePolygons seam s = Ok (tt, s') /\
             sealedBySingleFace s s' seam.
Proof.
  intros seam s.
  assert (H1 : length seam = 3%nat) by (vm_compute; reflexivity).
  assert (H2 : allocated (st_mesh s)) by (apply allocatedB_true; vm_compute; reflexivity).
  destruct (isOk_true (sealWithMultiplePolygons seam s)) as [[[] s'] E];
    [vm_compute; reflexivity|].
  split; [exact (conj H1 H2)|].
  destruct (seal_of_three_edges_is_single_polygon seam s H1 H2) as [A B].
  split; [exact A|]. exists s'. split; [exact E|]. exact (B tt s' E).
Defined.

(** ** Callbacks *)

Lemma replays_weaken l : forall live b0 b live' b',
  (b0 <= b)%positive -> replays live b l live' b' -> replays live b0 l live' b'.
Proof.
  induction l as [|n l IH]; intros live b0 b live' b' Hle H; simpl in *.
  - destruct H as [-> H]. split; [done|lia].
  - destruct H as [Hs H]. split; [done|].
    destruct (n_kind n).
    + destruct H as (H1 & H2 & H3). split; [lia|]. by split.
    + destruct H as (H1 & H2 & H3). split; [done|]. split; [done|]. by eapply IH.
Qed.

Lemma replays_app l1 : forall l2 live b live1 b1 live2 b2,
  replays live b l1 live1 b1 -> replays live1 b1 l2 live2 b2 ->
  replays live b (l1 ++ l2) live2 b2.
Proof.
  induction l1 as [|n l1 IH]; intros l2 live b live1 b1 live2 b2 H1 H2; simpl in *.
  - destruct H1 as [-> Hle]. by eapply replays_weaken.
  - destruct H1 as [Hs H1]. split; [done|].
    destruct (n_kind n); destruct H1 as (Ha & Hm & Hb);
      (split; [done|]); (split; [done|]); by eapply IH.
Qed.

Lemma createdIn_cons n l :
  createdIn (n :: l) =
    match n_kind n with
    | FaceWasCreated => n_face n :: createdIn l
    | FaceWillBeDeleted => createdIn l
    end.
Proof.
  unfold createdIn. rewrite filter_cons. destruct (n_kind n); by case_decide.
Qed.

Lemma deletedIn_cons n l :
  deletedIn (n :: l) =
    match n_kind n with
    | FaceWasCreated => deletedIn l
    | FaceWillBeDeleted => n_face n :: deletedIn l
    end.
Proof.
  unfold deletedIn. rewrite filter_cons. destruct (n_kind n); by case_decide.
Qed.

(** What a replay says about the created and the deleted faces. *)
Lemma replays_sound l : forall live b live' b',
  (forall f, f ∈ live -> (f < b)%positive) ->
  replays live b l live' b' ->
  NoDup (createdIn l) /\ NoDup (deletedIn l) /\
  live' = (live ∪ list_to_set (createdIn l)) ∖ list_to_set (deletedIn l) /\
  Forall (fun f => (b <= f)%positive) (createdIn l) /\
  (forall f, f ∈ deletedIn l -> f ∈ live \/ f ∈ createdIn l) /\
  Forall snapshotOk l.
Proof.
  induction l as [|n l IH]; intros live b live' b' Hb H; simpl in H.
  - destruct H as [-> _]. unfold createdIn, deletedIn. simpl.
    split; [constructor|]. split; [constructor|].
    split; [by rewrite union_empty_r_L, difference_empty_L|].
    split; [constructor|]. split; [|constructor].
    intros f Hf. by apply elem_of_nil in Hf.
  - destruct H as [Hs H]. rewrite createdIn_cons, deletedIn_cons.
    destruct (n_kind n) eqn:Ek; destruct H as (Ha & _ & H).
    + apply IH in H as (C1 & C2 & C3 & C4 & C5 & C6).
      2:{ intros f Hf. apply elem_of_union in Hf as [Hf|Hf].
          - apply Hb in Hf. lia.
          - apply elem_of_singleton in Hf as ->. lia. }
      split.
      { constructor; [|done]. intros Hin. rewrite Forall_forall in C4.
        apply C4 in Hin. lia. }
      split; [done|].
      split; [by rewrite C3, list_to_set_cons, (assoc_L (∪))|].
      split.
      { constructor; [done|]. eapply Forall_impl; [exact C4|]. simpl. intros; lia. }
      split; [|by constructor].
      intros f Hf. destruct (C5 f Hf) as [Hl|Hc]; [|right; by right].
      apply elem_of_union in Hl as [Hl|Hl]; [by left|].
      apply elem_of_singleton in Hl as ->. right. left.
    + apply IH in H as (C1 & C2 & C3 & C4 & C5 & C6).
      2:{ intros f Hf. apply elem_of_difference in Hf as [Hf _]. by apply Hb. }
      assert (Hnc : n_face n ∉ createdIn l).
      { intros Hin. rewrite Forall_forall in C4. apply C4 in Hin.
        apply Hb in Ha. lia. }
      split; [done|].
      split.
      { constructor; [|done]. intros Hin. destruct (C5 _ Hin) as [Hl|Hc]; [|done].
        apply elem_of_difference in Hl as [_ Hl]. apply Hl. by apply elem_of_singleton. }
      split.
      { rewrite C3, list_to_set_cons. apply set_eq. intros f.
        rewrite !elem_of_difference, !elem_of_union, elem_of_difference,
          elem_of_singleton, !elem_of_list_to_set.
        destruct (decide (f = n_face n)) as [->|Hne]; tauto. }
      split; [done|]. split; [|by constructor].
      intros f Hf. apply elem_of_cons in Hf as [->|Hf]; [by left|].
      destruct (C5 f Hf) as [Hl|Hc]; [|by right]. left.
      by apply elem_of_difference in Hl as [Hl _].
Qed.

Lemma notified_matches s s' :
  facesAllocated (st_mesh s) -> notified s s' -> callbacksMatchFaces s s'.
Proof.
  intros Hal H. destruct (H Hal) as (_ & l & Hl & Hr).
  apply replays_sound in Hr as (C1 & C2 & C3 & C4 & C5 & C6).
  2:{ intros f Hf. apply elem_of_dom in Hf as [x Hx]. by apply Hal in Hx. }
  exists l. split; [done|]. split; [done|]. split; [done|]. split; [done|].
  split; [|done].
  intros f Hf Hd. rewrite Forall_forall in C4. apply C4 in Hf.
  apply elem_of_dom in Hd as [x Hx]. apply Hal in Hx. lia.
Qed.

Lemma replays_inOrder l : forall live b live' b',
  (forall f, f ∈ live -> (f < b)%positive) ->
  replays live b l live' b' -> inOrder live l.
Proof.
  induction l as [|n l IH]; intros live b live' b' Hb H; simpl in *; [done|].
  destruct H as [_ H]. destruct (n_kind n); destruct H as (Ha & Hm & H).
  - split; [intros Hin; apply Hb in Hin; lia|]. split; [done|].
    eapply IH; [|exact H]. intros f Hf. apply elem_of_union in Hf as [Hf|Hf].
    + apply Hb in Hf. lia.
    + apply elem_of_singleton in Hf as ->. lia.
  - split; [done|]. split; [done|].
    eapply IH; [|exact H]. intros f Hf.
    apply elem_of_difference in Hf as [Hf _]. by apply Hb.
Qed.

Lemma notified_inOrder s s' :
  facesAllocated (st_mesh s) -> notified s s' -> callbacksInOrder s s'.
Proof.
  intros Hal H. destruct (H Hal) as (_ & l & Hl & Hr).
  exists l. split; [done|]. eapply replays_inOrder; [|exact Hr].
  intros f Hf. apply elem_of_dom in Hf as [x Hx]. by apply Hal in Hx.
Qed.

Lemma notified_refl s : notified s s.
Proof.
  intros Hal. split; [done|]. exists []. rewrite app_nil_r.
  split; [done|]. simpl. split; [done|lia].
Qed.

Lemma notified_trans s1 s2 s3 : notified s1 s2 -> notified s2 s3 -> notified s1 s3.
Proof.
  intros H1 H2 Hal. destruct (H1 Hal) as (Hal2 & l1 & E1 & R1).
  destruct (H2 Hal2) as (Hal3 & l2 & E2 & R2).
  split; [done|]. exists (l1 ++ l2).
  split; [by rewrite E2, E1, app_assoc|]. by eapply replays_app.
Qed.

#[global] Instance notified_Reflexive : Reflexive notified := notified_refl.
#[global] Instance notified_Transitive : Transitive notified := notified_trans.

(** A step that keeps the faces and the callback, and does not lower the
    next free address, is silent. *)
Lemma notified_silent s s' :
  facePool (st_mesh s') = facePool (st_mesh s) ->
  (nextAddress (st_mesh s) <= nextAddress (st_mesh s'))%positive ->
  st_log s' = st_log s ->
  notified s s'.
Proof.
  intros Hf Hn Hl Hal. split.
  - intros f x Hx. rewrite Hf in Hx. apply Hal in Hx. lia.
  - exists []. rewrite app_nil_r. split; [done|]. simpl. by rewrite Hf.
Qed.

#[global] Instance notified_MeshRel : MeshRel notified.
Proof.
  split; try typeclasses eauto.
  - intros s a s' [= <- <-]. apply notified_silent; [reflexivity|simpl; lia|reflexivity].
  - intros g s a s' [= <- <-]. apply notified_silent; [reflexivity|simpl; lia|reflexivity].
  - intros g s a s' [= <- <-]. apply notified_silent; [reflexivity|simpl; lia|reflexivity].
  - intros g s a s' [= <- <-]. apply notified_silent; [reflexivity|simpl; lia|reflexivity].
  - intros g s a s' [= <- <-]. apply notified_silent; [reflexivity|simpl; lia|reflexivity].
  - intros g s a s' [= <- <-]. apply notified_silent; [reflexivity|simpl; lia|reflexivity].
Qed.

Lemma Face_new_next bd s f s' :
  Face.new bd s = Ok (f, s') -> nextAddress (st_mesh s') = Pos.succ (nextAddress (st_mesh s)).
Proof.
  unfold Face.new. intros H.
  apply bind_Ok in H as ([] & s1 & Ha & H). apply assert_Ok in Ha as [Ha ->].
  apply bind_Ok in H as (a & s1 & Hf & H). injection Hf as <- <-.
  apply bind_Ok in H as ([] & s1 & Hm & H). apply modifyMesh_Ok in Hm as ->.
  apply bind_Ok in H as ([] & s1 & Hl & H). apply ret_Ok in H as [-> ->].
  by apply forEach_setFace in Hl as (_ & _ & _ & _ & _ & _ & -> & _).
Qed.

Lemma notified_createdFace boundary : preserves notified (createdFace boundary).
Proof.
  intros s a s' H Hal. unfold createdFace in H.
  apply bind_Ok in H as (f & s1 & Hnew & H).
  pose proof (Face_new_next _ _ _ _ Hnew) as Hnext.
  apply Face_new_eff in Hnew as (-> & Hlen & Hfp & Hbd & _ & _ & _ & Hlog).
  apply bind_Ok in H as ([] & s2 & Hcb & H). injection Hcb as <-.
  apply bind_Ok in H as ([] & s3 & Hap & H). apply modifyMesh_Ok in Hap as ->.
  apply ret_Ok in H as [-> ->]. unfold withFaces. simpl.
  split.
  - intros f x Hx. simpl in Hx |- *. rewrite Hfp in Hx. rewrite Hnext.
    destruct (decide (f = nextAddress (st_mesh s))) as [->|Hne]; [lia|].
    rewrite lookup_insert_ne in Hx by done. apply Hal in Hx. lia.
  - eexists. split; [by rewrite Hlog|]. simpl.
    split.
    { unfold snapshotOk. simpl. exists boundary.
      split; [by rewrite Hfp, lookup_insert_eq|]. split; [done|]. exact Hbd. }
    split; [lia|].
    split; [by rewrite Hfp, dom_insert_L, (comm_L (∪))|].
    split; [|lia]. by rewrite Hfp, dom_insert_L, (comm_L (∪)).
Qed.

Lemma HalfEdge_delete_eff h s u s' :
  HalfEdge.delete h s = Ok (u, s') ->
  facePool (st_mesh s') = facePool (st_mesh s) /\
  nextAddress (st_mesh s') = nextAddress (st_mesh s) /\
  st_log s' = st_log s /\
  is_Some (halfEdgePool (st_mesh s) !! h) /\
  forall h', is_Some (halfEdgePool (st_mesh s') !! h') ->
             is_Some (halfEdgePool (st_mesh s) !! h').
Proof.
  unfold HalfEdge.delete. intros H.
  apply bind_Ok in H as (o & s1 & Ho & H). apply read_Ok in Ho as [Ho ->].
  apply bind_Ok in H as (l & s1 & Hl & H). apply read_Ok in Hl as [Hl ->].
  apply bind_Ok in H as ([] & s1 & Hs & H). apply modifyMesh_Ok in H as ->.
  assert (Hlive : is_Some (halfEdgePool (st_mesh s) !! h)).
  { revert Ho. unfold HalfEdge.origin, halfEdgeAt, rbind.
    destruct (halfEdgePool (st_mesh s) !! h); [eauto|done]. }
  assert (E : facePool (st_mesh s1) = facePool (st_mesh s) /\
              nextAddress (st_mesh s1) = nextAddress (st_mesh s) /\
              st_log s1 = st_log s /\
              halfEdgePool (st_mesh s1) = halfEdgePool (st_mesh s)).
  { destruct (optAddrEqb l (Some h)).
    - apply updVertex_eff in Hs as (x & _ & ->). done.
    - by apply ret_Ok in Hs as [_ ->]. }
  destruct E as (E1 & E2 & E3 & E4). unfold withHalfEdgePool. simpl.
  split; [done|]. split; [done|]. split; [done|]. split; [done|].
  intros h' [x Hx]. rewrite E4 in Hx. apply lookup_delete_Some in Hx as [_ Hx]. eauto.
Qed.

Lemma forEach_HalfEdge_delete bd : forall s u s',
  forEach bd HalfEdge.delete s = Ok (u, s') ->
  facePool (st_mesh s') = facePool (st_mesh s) /\
  nextAddress (st_mesh s') = nextAddress (st_mesh s) /\
  st_log s' = st_log s /\
  forall h, h ∈ bd -> is_Some (halfEdgePool (st_mesh s) !! h).
Proof.
  induction bd as [|h bd IH]; intros s u s' H; simpl in H.
  - apply ret_Ok in H as [_ ->]. split; [done|]. split; [done|]. split; [done|].
    intros h Hh. by apply elem_of_nil in Hh.
  - apply bind_Ok in H as ([] & s1 & Hd & H).
    apply HalfEdge_delete_eff in Hd as (D1 & D2 & D3 & D4 & D5).
    apply IH in H as (I1 & I2 & I3 & I4).
    split; [congruence|]. split; [congruence|]. split; [congruence|].
    intros h' Hh'. apply elem_of_cons in Hh' as [->|Hh']; [done|]. by apply D5, I4.
Qed.

Lemma notified_deletedFace face : preserves notified (deletedFace face).
Proof.
  intros s a s' H Hal. unfold deletedFace in H.
  apply bind_Ok in H as ([] & s1 & Hcb & H). injection Hcb as <-.
  apply bind_Ok in H as ([] & s2 & Hrm & H). apply modifyMesh_Ok in Hrm as ->.
  unfold Face.delete in H.
  apply bind_Ok in H as (bd & s3 & Hbd & H). apply read_Ok in Hbd as [Hbd ->].
  apply bind_Ok in H as ([] & s3 & Hdel & H). apply modifyMesh_Ok in H as ->.
  apply forEach_HalfEdge_delete in Hdel as (D1 & D2 & D3 & D4).
  unfold withFaces, withFacePool in *. simpl in *.
  assert (Hf : facePool (st_mesh s) !! face = Some (mkFace bd)).
  { revert Hbd. unfold Face.boundary, faceAt, rbind, rret. simpl.
    destruct (facePool (st_mesh s) !! face) as [[bd']|]; [|done].
    by intros [= ->]. }
  split.
  - intros f x Hx. simpl in Hx. rewrite D1 in Hx.
    apply lookup_delete_Some in Hx as [_ Hx]. apply Hal in Hx. simpl. by rewrite D2.
  - eexists. split; [by rewrite D3|]. simpl.
    split.
    { unfold snapshotOk. simpl. exists bd. split; [done|]. exact D4. }
    split; [by apply elem_of_dom|].
    split; [done|].
    split; [|lia]. by rewrite D1, dom_delete_L.
Qed.

#[global] Instance notified_FaceRel : FaceRel notified.
Proof. split; [apply notified_createdFace|apply notified_deletedFace]. Qed.

Lemma allocated_faces m : allocated m -> facesAllocated m.
Proof. by intros (_ & _ & _ & H). Qed.

(** C8 (the claim at a concrete input).  A fourth point is added to a
    triangle, in its plane and outside of it.  The call returns; the face [15]
    of the triangle is destroyed and the face [28] is created; the callback
    is notified of the creation, and of no deletion.  So the notifications
    do not match what the call did to the faces. *)
Lemma addPoint_on_polygon_deletes_face_silently :
  let p := polyhedronOf triangle in
  let r := addPoint (vec3 2 2 0) p [] in
  let p' := polyhedronOf r in
  isOk r = true /\
  m_faces (mesh p) = [15%positive] /\
  isPolygon (mesh p) = true /\
  facePool (mesh p') !! 15%positive = None /\
  m_faces (mesh p') = [28%positive] /\
  createdIn (logOf r) = [28%positive] /\
  deletedIn (logOf r) = [] /\
  ~ callbacksMatchFaces (mkState (mesh p) []) (mkState (mesh p') (logOf r)).
Proof.
  intros p r p'.
  assert (H1 : facePool (mesh p') !! 15%positive = None) by (vm_compute; reflexivity).
  assert (H2 : deletedIn (logOf r) = []) by (vm_compute; reflexivity).
  assert (H3 : is_Some (facePool (mesh p) !! 15%positive)) by (vm_compute; eauto).
  split; [vm_compute; reflexivity|]. split; [vm_compute; reflexivity|].
  split; [vm_compute; reflexivity|]. split; [exact H1|].
  split; [vm_compute; reflexivity|]. split; [vm_compute; reflexivity|].
  split; [exact H2|].
  intros (l & Hl & _ & _ & Hdom & _). simpl in Hl. subst l.
  rewrite H2 in Hdom. simpl in Hdom. rewrite difference_empty_L in Hdom.
  assert (Hin : 15%positive ∈ dom (facePool (mesh p'))).
  { rewrite Hdom. apply elem_of_union_l. by apply elem_of_dom. }
  apply elem_of_dom in Hin as [x Hx]. rewrite H1 in Hx. discriminate.
Qed.

(** In the surgery of [addPoint] on a polyhedron and of [removeVertex]
    ([split] with [deleteFaces], [weave], [sealWithSinglePolygon],
    [sealWithMultiplePolygons], and [makePolygon], [makePolyhedron],
    [addFurtherPointToPolyhedron] and the body of [removeVertex], which call
    them), the notifications match the faces: [faceWasCreated] has been
    called exactly once for each face the call created, at a moment when the
    face owned its boundary and every half-edge of the boundary pointed back
    to it; [faceWillBeDeleted] has been called exactly once for each face the
    call destroyed, at a moment when the face and every half-edge of its
    boundary were still live; no other face is notified.  The notifications
    come in the order in which the faces are created and destroyed: the mesh
    each of them sees has exactly the faces that the notifications before it
    leave. *)
Theorem surgery_notifies_each_face_once (s s' : State) :
  facesAllocated (st_mesh s) ->
  (exists seam, split seam s = Ok (tt, s')) \/
  (exists seam position, weave seam position s = Ok (tt, s')) \/
  (exists seam, sealWithSinglePolygon seam s = Ok (tt, s')) \/
  (exists seam, sealWithMultiplePolygons seam s = Ok (tt, s')) \/
  (exists positions, makePolygon positions s = Ok (tt, s')) \/
  (exists position b, makePolyhedron position s = Ok (b, s')) \/
  (exists position b, addFurtherPointToPolyhedron position s = Ok (b, s')) \/
  (exists vertex, removeVertexBody vertex s = Ok (tt, s')) ->
  callbacksMatchFaces s s' /\ callbacksInOrder s s'.
Proof.
  intros Hal H.
  assert (Hn : notified s s').
  { destruct H as [[seam H]|[(seam & position & H)|[[seam H]|[[seam H]|
      [[positions H]|[(position & b & H)|[(position & b & H)|[vertex H]]]]]]]].
    - by apply (preserves_split notified) in H.
    - by apply (preserves_weave notified) in H.
    - by apply (preserves_sealWithSinglePolygon notified) in H.
    - by apply (preserves_sealWithMultiplePolygons notified) in H.
    - by apply (preserves_makePolygon notified) in H.
    - by apply (preserves_makePolyhedron notified) in H.
    - by apply (preserves_addFurtherPointToPolyhedron notified) in H.
    - by apply (preserves_removeVertexBody notified) in H. }
  split; [by apply notified_matches|by apply notified_inOrder].
Qed.

Lemma surgery_notifies_witness :
  let p := polyhedronOf ringWithApex in
  let s := mkState (mesh p) [] in
  let vertex := vertexOf apex p in
  let s' := finalState (removeVertexBody vertex s) s in
  (facesAllocated (st_mesh s) /\ removeVertexBody vertex s = Ok (tt, s')) /\
  callbacksMatchFaces s s' /\ callbacksInOrder s s'.
Proof.
  intros p s vertex s'.
  assert (H1 : facesAllocated (st_mesh s))
    by (apply allocated_faces, allocatedB_true; vm_compute; reflexivity).
  assert (H2 : removeVertexBody vertex s = Ok (tt, s')).
  { destruct (isOk_true (removeVertexBody vertex s)) as [[[] s1] E];
      [vm_compute; reflexivity|].
    unfold s'. rewrite E. reflexivity. }
  split; [exact (conj H1 H2)|].
  apply (surgery_notifies_each_face_once s s' H1).
  do 7 right. exists vertex. exact H2.
Defined.

(** ** Seams *)

Lemma wellFormedB_true m : wellFormedB m = true -> wellFormed m.
Proof.
  unfold wellFormedB, wellFormed. rewrite andb_true_iff. intros [Hh He].
  split; [|split].
  - intros h x Hx. apply (forallb_map_to_list _ _ Hh) in Hx. simpl in Hx.
    apply andb_true_iff in Hx as [Hx _].
    destruct (halfEdgePool m !! h_previous x) as [y|]; [|done].
    apply andb_true_iff in Hx as [H1 H2]. apply Pos.eqb_eq in H1.
    apply bool_decide_eq_true in H2. eauto.
  - intros h x e ex Hx Hxe Hex. apply (forallb_map_to_list _ _ Hh) in Hx. simpl in Hx.
    apply andb_true_iff in Hx as [_ Hx]. rewrite Hxe, Hex in Hx.
    apply orb_true_iff in Hx as [Hx|Hx]; apply bool_decide_eq_true in Hx; eauto.
  - intros e h1 h2 Hex. apply (forallb_map_to_list _ _ He) in Hex. simpl in Hex.
    destruct (halfEdgePool m !! h1) as [x1|]; [|done].
    destruct (halfEdgePool m !! h2) as [x2|]; [|done].
    destruct (halfEdgePool m !! h_next x1) as [n1|] eqn:E1; [|done].
    destruct (halfEdgePool m !! h_next x2) as [n2|] eqn:E2; [|done].
    apply andb_true_iff in Hex as [H1 H2]. apply Pos.eqb_eq in H1, H2.
    exists x1, x2, n1, n2. by repeat split.
Qed.

Lemma rmapM_withEdgePool {A B} (f : A -> R B) l g m :
  (forall x, f x (withEdgePool g m) = f x m) ->
  rmapM f l (withEdgePool g m) = rmapM f l m.
Proof.
  intros Hf. induction l as [|x l IH]; [done|].
  simpl. unfold rbind. rewrite Hf, IH. done.
Qed.

Lemma edgeBlind_connectivity vertex : edgeBlind (SplitByConnectivityCriterion vertex).
Proof.
  intros [f|] e x m _; [|done].
  set (g := <[e := mkEdge (e_second x) (e_first x)]>).
  unfold SplitByConnectivityCriterion, Vertex_incident, rbind.
  change (Face.boundary f (withEdgePool g m)) with (Face.boundary f m).
  destruct (Face.boundary f m) as [bd| | |]; try done.
  by rewrite rmapM_withEdgePool.
Qed.

Lemma edgeBlind_visibility point : edgeBlind (SplitByVisibilityCriterion point).
Proof.
  intros [f|] e x m _; [|done].
  set (g := <[e := mkEdge (e_second x) (e_first x)]>).
  unfold SplitByVisibilityCriterion, Face.pointStatus, Face.vertexPositions, rbind.
  simpl.
  change (Face.boundary f (withEdgePool g m)) with (Face.boundary f m).
  destruct (Face.boundary f m) as [bd| | |]; try done.
  rewrite rmapM_withEdgePool by done.
  destruct (rmapM _ bd m) as [ps| | |]; try done.
  by destruct (Face.normalOf ps) as [[n o]|].
Qed.

(** *** Reading edges and half-edges *)

Lemma matches_Ok criterion e m r :
  matches criterion e m = Ok r <->
  exists h1 h2 x1 x2 b1 b2,
    edgePool m !! e = Some (mkEdge (Some h1) (Some h2)) /\
    halfEdgePool m !! h1 = Some x1 /\ halfEdgePool m !! h2 = Some x2 /\
    criterion (h_face x1) m = Ok b1 /\ criterion (h_face x2) m = Ok b2 /\
    r = (if b1 then if b2 then MatchResult_Both else MatchResult_First
         else if b2 then MatchResult_Second else MatchResult_Neither).
Proof.
  unfold matches, matchesFace, Edge.firstFace, Edge.secondFace, Edge.firstEdge,
    Edge.secondEdge, Edge.first, Edge.second, HalfEdge.face, edgeAt, halfEdgeAt,
    rbind, rret.
  split.
  - destruct (edgePool m !! e) as [[[h1|] [h2|]]|]; simpl; try discriminate.
    + destruct (halfEdgePool m !! h1) as [x1|] eqn:H1; simpl; try discriminate.
      destruct (criterion (h_face x1) m) as [b1| | |] eqn:E1; simpl; try discriminate.
      destruct (halfEdgePool m !! h2) as [x2|] eqn:H2; simpl; try discriminate.
      destruct (criterion (h_face x2) m) as [b2| | |] eqn:E2; simpl; try discriminate.
      intros [= <-]. exists h1, h2, x1, x2, b1, b2. by repeat split.
    + destruct (halfEdgePool m !! h1) as [x1|]; simpl; try discriminate.
      destruct (criterion (h_face x1) m) as [b1| | |]; simpl; discriminate.
  - intros (h1 & h2 & x1 & x2 & b1 & b2 & He & H1 & H2 & C1 & C2 & ->).
    rewrite He. simpl. rewrite H1. simpl. rewrite C1, H2. simpl. by rewrite C2.
Qed.

Lemma firstVertex_Ok e m v :
  Edge.firstVertex e m = Ok v <->
  exists h1 o x1, edgePool m !! e = Some (mkEdge (Some h1) o) /\
                  halfEdgePool m !! h1 = Some x1 /\ h_origin x1 = v.
Proof.
  unfold Edge.firstVertex, Edge.firstEdge, Edge.first, HalfEdge.origin, edgeAt,
    halfEdgeAt, rbind, rret.
  split.
  - destruct (edgePool m !! e) as [[[h1|] o]|]; simpl; try discriminate.
    destruct (halfEdgePool m !! h1) as [x1|] eqn:E; simpl; try discriminate.
    intros [= <-]. exists h1, o, x1. by repeat split.
  - intros (h1 & o & x1 & He & H1 & <-). rewrite He. simpl. by rewrite H1.
Qed.

Lemma secondVertex_Ok e m v h1 h2 :
  edgePool m !! e = Some (mkEdge (Some h1) (Some h2)) ->
  Edge.secondVertex e m = Ok v <->
  exists x2, halfEdgePool m !! h2 = Some x2 /\ h_origin x2 = v.
Proof.
  intros He.
  unfold Edge.secondVertex, Edge.firstEdge, Edge.first, Edge.second,
    HalfEdge.origin, edgeAt, halfEdgeAt, rbind, rret. rewrite He. simpl.
  split.
  - destruct (halfEdgePool m !! h2) as [x2|] eqn:E; simpl; try discriminate.
    intros [= <-]. eauto.
  - intros (x2 & H2 & <-). by rewrite H2.
Qed.

Lemma connected_true last e m :
  connected last e m = Ok true <->
  exists v, Edge.firstVertex last m = Ok v /\ Edge.secondVertex e m = Ok v.
Proof.
  unfold connected, rbind, rret. split.
  - destruct (Edge.firstVertex last m) as [a| | |]; try discriminate.
    destruct (Edge.secondVertex e m) as [b| | |]; try discriminate.
    intros [= H]. unfold addrEqb in H. apply bool_decide_eq_true in H as ->. eauto.
  - intros (v & -> & ->). unfold addrEqb. by rewrite bool_decide_eq_true_2.
Qed.

(** *** Flipping an edge *)

Lemma keepsSeams_refl criterion s : keepsSeams criterion s s.
Proof. intros Hwf. split; [done|]. intros e He. done. Qed.

Lemma keepsSeams_trans criterion s1 s2 s3 :
  keepsSeams criterion s1 s2 -> keepsSeams criterion s2 s3 -> keepsSeams criterion s1 s3.
Proof.
  intros H1 H2 Hwf. destruct (H1 Hwf) as [Hwf2 K1]. destruct (H2 Hwf2) as [Hwf3 K2].
  split; [done|]. intros e He. destruct (K1 e He) as (A1 & A2 & A3).
  destruct (K2 e A1) as (B1 & B2 & B3). split; [done|]. split; congruence.
Qed.

Lemma flip_eff e s u s' :
  Edge.flip e s = Ok (u, s') ->
  exists x, edgePool (st_mesh s) !! e = Some x /\
    s' = mkState (withEdgePool <[e := mkEdge (e_second x) (e_first x)]> (st_mesh s))
                 (st_log s).
Proof. unfold Edge.flip. intros H. by apply updEdge_eff in H. Qed.

Lemma matches_other criterion n x e m :
  edgeBlind criterion -> edgePool m !! n = Some x -> e <> n ->
  matches criterion e (withEdgePool <[n := mkEdge (e_second x) (e_first x)]> m)
    = matches criterion e m.
Proof.
  intros Hb Hx Hne.
  unfold matches, matchesFace, Edge.firstFace, Edge.secondFace, Edge.firstEdge,
    Edge.secondEdge, Edge.first, Edge.second, HalfEdge.face, edgeAt, halfEdgeAt,
    rbind, rret. simpl. rewrite lookup_insert_ne by done.
  destruct (edgePool m !! e) as [[[h1|] [h2|]]|]; simpl; try done.
  - destruct (halfEdgePool m !! h1) as [x1|]; simpl; try done.
    rewrite (Hb _ _ _ _ Hx).
    destruct (criterion (h_face x1) m) as [b1| | |]; simpl; try done.
    destruct (halfEdgePool m !! h2) as [x2|]; simpl; try done.
    rewrite (Hb _ _ _ _ Hx). done.
  - destruct (halfEdgePool m !! h1) as [x1|]; simpl; try done.
    rewrite (Hb _ _ _ _ Hx). done.
Qed.

Lemma firstVertex_other n y e m :
  e <> n -> Edge.firstVertex e (withEdgePool <[n := y]> m) = Edge.firstVertex e m.
Proof.
  intros Hne.
  unfold Edge.firstVertex, Edge.firstEdge, Edge.first, HalfEdge.origin, edgeAt,
    halfEdgeAt, rbind, rret. simpl. rewrite lookup_insert_ne by done.
  by destruct (edgePool m !! e) as [[[h1|] o]|].
Qed.

Lemma secondVertex_other n y e m :
  e <> n -> Edge.secondVertex e (withEdgePool <[n := y]> m) = Edge.secondVertex e m.
Proof.
  intros Hne.
  unfold Edge.secondVertex, Edge.firstEdge, Edge.first, Edge.second,
    HalfEdge.origin, HalfEdge.next, edgeAt, halfEdgeAt, rbind, rret. simpl.
  rewrite lookup_insert_ne by done.
  by destruct (edgePool m !! e) as [[[h1|] [h2|]]|].
Qed.

Lemma wellFormed_flip m n x :
  wellFormed m -> edgePool m !! n = Some x ->
  wellFormed (withEdgePool <[n := mkEdge (e_second x) (e_first x)]> m).
Proof.
  intros (W1 & W2 & W3) Hx. split; [|split].
  - exact W1.
  - intros h hx e ex Hh He Hex. simpl in *.
    destruct (decide (e = n)) as [->|Hne].
    + rewrite lookup_insert_eq in Hex. injection Hex as <-. simpl.
      destruct (W2 h hx n x Hh He Hx); tauto.
    + rewrite lookup_insert_ne in Hex by done. by apply (W2 h hx e ex).
  - intros e h1 h2 He. simpl in *.
    destruct (decide (e = n)) as [->|Hne].
    + rewrite lookup_insert_eq in He. injection He as E1 E2.
      destruct x as [f1 f2]. simpl in *. subst f1 f2.
      destruct (W3 n h2 h1 Hx) as (x1 & x2 & n1 & n2 & A1 & A2 & A3 & A4 & A5 & A6).
      exists x2, x1, n2, n1. by repeat split.
    + rewrite lookup_insert_ne in He by done. by apply (W3 e).
Qed.

(** Flipping an edge that has the criterion true on its second face only. *)
Lemma keepsSeams_flip criterion n s u s' :
  edgeBlind criterion ->
  matches criterion n (st_mesh s) = Ok MatchResult_Second ->
  Edge.flip n s = Ok (u, s') ->
  keepsSeams criterion s s' /\ matches criterion n (st_mesh s') = Ok MatchResult_First.
Proof.
  intros Hb Hm H. apply flip_eff in H as (x & Hx & ->). split.
  - intros Hwf. simpl. split; [by apply wellFormed_flip|].
    intros e He. assert (e <> n) by congruence.
    rewrite matches_other, firstVertex_other, secondVertex_other by done. done.
  - simpl. apply matches_Ok in Hm as (h1 & h2 & x1 & x2 & b1 & b2 & He & H1 & H2 & C1 & C2 & Hr).
    rewrite Hx in He. injection He as ->. simpl.
    destruct b1, b2; try discriminate.
    apply matches_Ok. exists h2, h1, x2, x1, true, false. simpl.
    rewrite lookup_insert_eq, !(Hb _ _ _ _ Hx). by repeat split.
Qed.

(** *** findNextSplittingEdge *)

Lemma halfEdge_field {A} (f : HalfEdge -> A) h m a :
  (get x <- halfEdgeAt h; rret (f x)) m = Ok a <->
  exists x, halfEdgePool m !! h = Some x /\ f x = a.
Proof.
  unfold halfEdgeAt, rbind, rret. split.
  - destruct (halfEdgePool m !! h) as [x|]; [|done]. intros [= <-]. eauto.
  - intros (x & -> & <-). done.
Qed.

(** The twin of a half-edge that turns around [v] in a face where the
    criterion is true, on an edge where the criterion does not discriminate:
    it originates at [v] and lies in a face where the criterion is true. *)
Lemma twin_around criterion m v halfEdge next result t :
  wellFormed m -> around criterion m v halfEdge next ->
  matches criterion next m = Ok result -> discriminates result = false ->
  HalfEdge_twin halfEdge m = Ok t ->
  exists xt, halfEdgePool m !! t = Some xt /\ h_origin xt = v /\
             criterion (h_face xt) m = Ok true.
Proof.
  intros (W1 & W2 & W3) (x & nx & Hx & Hxe & Hc & Hnx & Hv) Hm Hd Ht.
  apply matches_Ok in Hm as (h1 & h2 & x1 & x2 & b1 & b2 & He & H1 & H2 & C1 & C2 & ->).
  destruct (W3 _ _ _ He) as (y1 & y2 & n1 & n2 & A1 & A2 & A3 & A4 & A5 & A6).
  rewrite H1 in A1. injection A1 as <-. rewrite H2 in A2. injection A2 as <-.
  unfold HalfEdge_twin, HalfEdge.edge, Edge.twin, halfEdgeAt, edgeAt, rbind, rret,
    rassert, deref, optAddrEqb in Ht.
  rewrite Hx in Ht. simpl in Ht. rewrite Hxe, He in Ht. simpl in Ht.
  destruct (bool_decide (Some h1 = Some halfEdge)) eqn:E1.
  - apply bool_decide_eq_true in E1. injection E1 as ->.
    simpl in Ht. injection Ht as <-.
    rewrite Hx in H1. injection H1 as <-.
    rewrite Hnx in A3. injection A3 as <-.
    exists x2. split; [done|]. split; [congruence|].
    rewrite Hc in C1. injection C1 as <-.
    destruct b2; [done|discriminate].
  - simpl in Ht.
    destruct (bool_decide (Some h2 = Some halfEdge)) eqn:E2; [|discriminate].
    apply bool_decide_eq_true in E2. injection E2 as ->.
    simpl in Ht. injection Ht as <-.
    rewrite Hx in H2. injection H2 as <-.
    rewrite Hnx in A4. injection A4 as <-.
    exists x1. split; [done|]. split; [congruence|].
    rewrite Hc in C2. injection C2 as <-.
    destruct b1; [done|discriminate].
Qed.

Lemma nextSplittingLoop_spec criterion m v last fuel :
  forall halfEdge next result next' result',
  wellFormed m -> around criterion m v halfEdge next ->
  matches criterion next m = Ok result ->
  nextSplittingLoop criterion fuel last halfEdge next result m = Ok (next', result') ->
  exists halfEdge', around criterion m v halfEdge' next' /\
    matches criterion next' m = Ok result'.
Proof.
  induction fuel as [|fuel IH]; intros halfEdge next result next' result' Hwf Ha Hm H.
  - simpl in H. destruct (discriminates result || addrEqb next last) eqn:E; [|done].
    injection H as <- <-. eauto.
  - simpl in H. destruct (discriminates result || addrEqb next last) eqn:E.
    { injection H as <- <-. eauto. }
    apply orb_false_iff in E as [Hd _].
    apply rbind_Ok in H as (t & Ht & H).
    apply rbind_Ok in H as (halfEdge1 & Hp & H).
    apply rbind_Ok in H as (oe & Hoe & H).
    apply rbind_Ok in H as (next1 & Hn1 & H). apply deref_Ok in Hn1 as ->.
    apply rbind_Ok in H as (result1 & Hm1 & H).
    destruct (twin_around _ _ _ _ _ _ _ Hwf Ha Hm Hd Ht) as (xt & Hxt & Hvt & Hct).
    apply halfEdge_field in Hp as (xt' & Hxt' & <-).
    rewrite Hxt in Hxt'. injection Hxt' as <-.
    apply halfEdge_field in Hoe as (y & Hy & Hye).
    pose proof Hwf as (W1 & _ & _).
    destruct (W1 _ _ Hxt) as (y' & Hy' & Hny & Hfy).
    rewrite Hy in Hy'. injection Hy' as <-.
    apply (IH _ _ _ _ _ Hwf) in H; [done| |done].
    exists y, xt. split; [done|]. split; [done|].
    split; [by rewrite Hfy|]. split; [by rewrite Hny|done].
Qed.

Lemma findNextSplittingEdge_spec criterion last s next s' :
  edgeBlind criterion -> wellFormed (st_mesh s) ->
  matches criterion last (st_mesh s) = Ok MatchResult_First ->
  findNextSplittingEdge criterion last s = Ok (Some next, s') ->
  keepsSeams criterion s s' /\
  matches criterion next (st_mesh s') = Ok MatchResult_First /\
  connected last next (st_mesh s') = Ok true.
Proof.
  intros Hb Hwf Hlast H. unfold findNextSplittingEdge in H.
  apply bind_Ok in H as (h & s1 & Hh & H). apply read_Ok in Hh as [Hh ->].
  apply bind_Ok in H as (halfEdge & s1 & Hp & H). apply read_Ok in Hp as [Hp ->].
  apply bind_Ok in H as (oe & s1 & Hoe & H). apply read_Ok in Hoe as [Hoe ->].
  apply bind_Ok in H as (next0 & s1 & Hn0 & H). apply read_Ok in Hn0 as [Hn0 ->].
  apply deref_Ok in Hn0 as ->.
  apply bind_Ok in H as (result0 & s1 & Hm0 & H). apply read_Ok in Hm0 as [Hm0 ->].
  apply bind_Ok in H as (fuel & s1 & Hf & H). apply read_Ok in Hf as [_ ->].
  apply bind_Ok in H as ([next1 result] & s1 & Hloop & H).
  apply read_Ok in Hloop as [Hloop ->].
  pose proof Hwf as (W1 & W2 & W3).
  (* the edge [last] *)
  pose proof Hlast as Hl.
  apply matches_Ok in Hl as (l1 & l2 & xl1 & xl2 & b1 & b2 & Hel & Hl1 & Hl2 & Cl1 & Cl2 & Hr).
  destruct b1, b2; try discriminate. clear Hr.
  assert (h = l1) as ->.
  { revert Hh. unfold Edge.firstEdge, Edge.first, edgeAt, rbind, rret. rewrite Hel.
    simpl. by intros [= <-]. }
  apply halfEdge_field in Hp as (xl1' & Hxl1' & <-).
  rewrite Hl1 in Hxl1'. injection Hxl1' as <-.
  apply halfEdge_field in Hoe as (y & Hy & Hye).
  destruct (W1 _ _ Hl1) as (y' & Hy' & Hny & Hfy).
  rewrite Hy in Hy'. injection Hy' as <-.
  assert (Ha : around criterion (st_mesh s) (h_origin xl1) (h_previous xl1) next0).
  { exists y, xl1. split; [done|]. split; [done|].
    split; [by rewrite Hfy|]. split; [by rewrite Hny|done]. }
  assert (Hfv : Edge.firstVertex last (st_mesh s) = Ok (h_origin xl1)).
  { apply firstVertex_Ok. exists l1, (Some l2), xl1. done. }
  destruct (nextSplittingLoop_spec _ _ _ _ _ _ _ _ _ _ Hwf Ha Hm0 Hloop)
    as (halfEdge' & (x & nx & Hx & Hxe & Hc & Hnx & Hv) & Hm).
  destruct (discriminates result) eqn:Hd; simpl in H; [|by apply ret_Ok in H as [[=] _]].
  apply bind_Ok in H as ([] & s2 & Hflip & H). apply ret_Ok in H as [[= <-] ->].
  pose proof Hm as Hm'.
  apply matches_Ok in Hm' as (h1 & h2 & x1 & x2 & c1 & c2 & He & H1 & H2 & C1 & C2 & Hr).
  pose proof (W2 _ _ _ _ Hx Hxe He) as Hor. simpl in Hor.
  destruct (W3 _ _ _ He) as (y1 & y2 & n1 & n2 & A1 & A2 & A3 & A4 & A5 & A6).
  rewrite H1 in A1. injection A1 as <-. rewrite H2 in A2. injection A2 as <-.
  destruct result; try discriminate.
  - (* the first face matches: no flip *)
    apply ret_Ok in Hflip as [_ ->].
    destruct c1, c2; try discriminate.
    split; [apply keepsSeams_refl|]. split; [done|].
    assert (halfEdge' = h1) as ->.
    { destruct Hor as [[= ->]|[= ->]]; [done|]. congruence. }
    rewrite Hx in H1. injection H1 as <-.
    rewrite Hnx in A3. injection A3 as <-.
    apply connected_true. exists (h_origin xl1). split; [done|].
    apply (secondVertex_Ok _ _ _ _ _ He). exists x2. split; [done|]. congruence.
  - (* the second face matches: the edge is flipped *)
    destruct c1, c2; try discriminate.
    assert (halfEdge' = h2) as ->.
    { destruct Hor as [[= ->]|[= ->]]; [|done]. congruence. }
    rewrite Hx in H2. injection H2 as <-.
    rewrite Hnx in A4. injection A4 as <-.
    destruct (keepsSeams_flip _ _ _ _ _ Hb Hm Hflip) as [Hk Hm2].
    split; [done|]. split; [done|].
    assert (Hne : last <> next) by congruence.
    apply flip_eff in Hflip as (ex & Hex & ->). simpl.
    rewrite He in Hex. injection Hex as <-. simpl.
    apply connected_true. exists (h_origin xl1). split.
    + by rewrite firstVertex_other.
    + apply (secondVertex_Ok _ _ _ h2 h1); [simpl; by rewrite lookup_insert_eq|].
      exists x1. split; [done|]. congruence.
Qed.

(** *** createSeam *)

Lemma findFirstSplittingEdge_spec criterion edges : forall s f s',
  edgeBlind criterion ->
  findFirstSplittingEdge criterion edges s = Ok (Some f, s') ->
  keepsSeams criterion s s' /\
  matches criterion f (st_mesh s') = Ok MatchResult_First.
Proof.
  induction edges as [|e edges IH]; intros s f s' Hb H; simpl in H.
  - by apply ret_Ok in H as [[=] _].
  - apply bind_Ok in H as (r & s1 & Hr & H). apply read_Ok in Hr as [Hr ->].
    destruct r.
    + apply ret_Ok in H as [[= <-] ->]. split; [apply keepsSeams_refl|done].
    + apply bind_Ok in H as ([] & s1 & Hflip & H).
      apply ret_Ok in H as [[= <-] ->].
      by apply (keepsSeams_flip criterion f s tt s1).
    + by apply IH.
    + by apply IH.
Qed.

Lemma oriented_keeps criterion s s' seam :
  keepsSeams criterion s s' -> wellFormed (st_mesh s) ->
  oriented criterion (st_mesh s) seam -> oriented criterion (st_mesh s') seam.
Proof.
  intros Hk Hwf Ho. destruct (Hk Hwf) as [_ K]. unfold oriented in *.
  eapply Forall_impl; [exact Ho|]. intros e He. by apply K.
Qed.

Lemma connected_keeps criterion s s' a b :
  keepsSeams criterion s s' -> wellFormed (st_mesh s) ->
  matches criterion a (st_mesh s) = Ok MatchResult_First ->
  matches criterion b (st_mesh s) = Ok MatchResult_First ->
  connected a b (st_mesh s') = connected a b (st_mesh s).
Proof.
  intros Hk Hwf Ha Hb. destruct (Hk Hwf) as [_ K].
  destruct (K a Ha) as (_ & Ea & _). destruct (K b Hb) as (_ & _ & Eb).
  unfold connected, rbind. by rewrite Ea, Eb.
Qed.

Lemma chain_keeps criterion s s' l : forall a,
  keepsSeams criterion s s' -> wellFormed (st_mesh s) ->
  oriented criterion (st_mesh s) (a :: l) ->
  chain (st_mesh s) a l -> chain (st_mesh s') a l.
Proof.
  induction l as [|e l IH]; intros a Hk Hwf Ho Hc; [done|].
  destruct Hc as [Hc1 Hc2].
  apply Forall_cons in Ho as [Ha Ho]. pose proof Ho as Ho'.
  apply Forall_cons in Ho' as [He _].
  split; [|by apply IH].
  by rewrite (connected_keeps criterion s s').
Qed.

Lemma linked_keeps criterion s s' seam :
  keepsSeams criterion s s' -> wellFormed (st_mesh s) ->
  oriented criterion (st_mesh s) seam ->
  linked (st_mesh s) seam -> linked (st_mesh s') seam.
Proof.
  destruct seam as [|e it]; [done|]. simpl. apply chain_keeps.
Qed.

Lemma push_back_spec seam e m seam' :
  Seam.push_back seam (Some e) m = Ok seam' ->
  seam' = seam ++ [e] /\
  forall l, last seam = Some l -> connected l e m = Ok true.
Proof.
  simpl. intros H. apply rbind_Ok in H as (c & Hc & H).
  apply rbind_Ok in H as ([] & Ha & H). apply rassert_Ok in Ha as ->.
  apply rret_Ok in H as ->. split; [done|].
  intros l Hl. unfold Seam.checkEdge in Hc. rewrite last_map_Some, Hl in Hc.
  exact Hc.
Qed.

Lemma linked_snoc m seam e :
  linked m seam -> (forall l, last seam = Some l -> connected l e m = Ok true) ->
  linked m (seam ++ [e]).
Proof.
  destruct seam as [|a it]; [done|]. simpl. intros Hl Hc.
  apply chain_app. split; [done|]. simpl. split; [|done].
  apply Hc. destruct it as [|b it]; [done|].
  rewrite last_cons_cons.
  pose proof (last_is_Some (b :: it)) as [_ Hs]. destruct Hs as [z Hz]; [done|].
  by rewrite Hz.
Qed.

Lemma createSeamLoop_spec criterion fuel : forall first seam current s seam' s',
  edgeBlind criterion -> wellFormed (st_mesh s) ->
  oriented criterion (st_mesh s) seam -> linked (st_mesh s) seam ->
  matches criterion current (st_mesh s) = Ok MatchResult_First ->
  (seam = [] /\ current = first \/ head seam = Some first) ->
  createSeamLoop criterion fuel first seam (Some current) s = Ok (seam', s') ->
  wellFormed (st_mesh s') /\ validSeam criterion (st_mesh s') seam' /\
  head seam' = Some first.
Proof.
  induction fuel as [|fuel IH];
    intros first seam current s seam' s' Hb Hwf Ho Hl Hc Hhead H; simpl in H;
    [discriminate|].
  apply bind_Ok in H as (seam1 & s1 & Hp & H). apply read_Ok in Hp as [Hp ->].
  apply push_back_spec in Hp as [-> Hconn].
  apply bind_Ok in H as (oc & s1 & Hn & H).
  destruct oc as [n|].
  2:{ unfold optAddrEqb in H. rewrite bool_decide_eq_false_2 in H by done.
      destruct fuel; simpl in H; [discriminate|].
      apply bind_Ok in H as (? & ? & Hp & _). apply read_Ok in Hp as [Hp _].
      discriminate. }
  destruct (findNextSplittingEdge_spec _ _ _ _ _ Hb Hwf Hc Hn) as (Hk & Hm & Hcn).
  assert (Ho1 : oriented criterion (st_mesh s) (seam ++ [current])).
  { apply Forall_app. split; [done|]. by constructor. }
  assert (Hl1 : linked (st_mesh s) (seam ++ [current])) by (by apply linked_snoc).
  assert (Hh1 : head (seam ++ [current]) = Some first).
  { destruct Hhead as [[-> ->]|Hh]; [done|]. by destruct seam. }
  pose proof (oriented_keeps _ _ _ _ Hk Hwf Ho1) as Ho2.
  pose proof (linked_keeps _ _ _ _ Hk Hwf Ho1 Hl1) as Hl2.
  destruct (Hk Hwf) as [Hwf1 _].
  unfold optAddrEqb in H. case_bool_decide as Hfirst.
  - apply ret_Ok in H as [-> ->]. injection Hfirst as ->.
    split; [done|]. split; [|done]. split; [done|].
    unfold looped. rewrite last_snoc.
    destruct (seam ++ [current]) as [|a it] eqn:E; [done|].
    injection Hh1 as ->. simpl. split; [done|exact Hl2].
  - apply (IH first (seam ++ [current]) n s1 seam' s'); try done.
    by right.
Qed.

Lemma createSeam_spec criterion s seam s' :
  edgeBlind criterion -> wellFormed (st_mesh s) ->
  createSeam criterion s = Ok (seam, s') ->
  wellFormed (st_mesh s') /\ validSeam criterion (st_mesh s') seam.
Proof.
  intros Hb Hwf H. unfold createSeam in H.
  apply bind_Ok in H as (edges & s1 & He & H). apply read_Ok in He as [_ ->].
  apply bind_Ok in H as (first & s1 & Hf & H).
  destruct first as [f|].
  - apply findFirstSplittingEdge_spec in Hf as [Hk Hm]; [|done].
    destruct (Hk Hwf) as [Hwf1 _].
    apply createSeamLoop_spec in H as (A & B & _); try done.
    + by constructor.
    + by left.
  - apply ret_Ok in H as [-> ->].
    apply findFirstSplittingEdge_None in Hf as [-> _].
    split; [done|]. split; [constructor|done].
Qed.

(** *** shift *)

Lemma looped_rotate1 m seam : looped m seam -> looped m (rotate1 seam).
Proof.
  unfold looped. destruct seam as [|x r]; [done|]. simpl rotate1.
  rewrite last_snoc. intros H. apply chain_app.
  destruct (last (x :: r)) as [l|] eqn:El.
  2:{ pose proof (last_is_Some (x :: r)) as [_ Hs]. destruct Hs as [z Hz]; [done|].
      congruence. }
  cbn [chain] in H. destruct H as [H1 H2]. split; [done|].
  simpl. split; [|done].
  destruct r as [|y r]; [by injection El as <-|].
  rewrite last_cons_cons in El. by rewrite El.
Qed.

Lemma validSeam_rotate1 criterion m seam :
  validSeam criterion m seam -> validSeam criterion m (rotate1 seam).
Proof.
  intros [Ho Hl]. split; [|by apply looped_rotate1].
  unfold oriented in *. destruct seam as [|x r]; [done|]. simpl.
  apply Forall_cons in Ho as [Hx Hr]. apply Forall_app. split; [done|by constructor].
Qed.

Lemma validSeam_rot criterion m k : forall seam,
  validSeam criterion m seam -> validSeam criterion m (rot k seam).
Proof.
  induction k as [|k IH]; intros seam H; [done|].
  rewrite rot_S. by apply IH, validSeam_rotate1.
Qed.




(** ** Split *)

Section Deletion.

Variable keep : option Address -> Prop.
Variable m1 : Mesh.

Lemma sideKept_start :
  edgesKnowHalves m1 -> forall log, sideKept keep m1 (mkState m1 log).
Proof.
  intros Hk log. unfold sideKept. simpl.
  split; [done|]. split; [eauto|]. split; [done|].
  split; [eauto|]. split; [done|]. split; done.
Qed.

(** A step that leaves the half-edges, the edges, the faces and the lists of
    edges and of faces alone. *)
Lemma sideKept_same s s' :
  halfEdgePool (st_mesh s') = halfEdgePool (st_mesh s) ->
  edgePool (st_mesh s') = edgePool (st_mesh s) ->
  facePool (st_mesh s') = facePool (st_mesh s) ->
  m_edges (st_mesh s') = m_edges (st_mesh s) ->
  m_faces (st_mesh s') = m_faces (st_mesh s) ->
  sideKept keep m1 s -> sideKept keep m1 s'.
Proof.
  intros Eh Ee Ef Ees Efs. unfold sideKept, edgesKnowHalves.
  rewrite Eh, Ee, Ef, Ees, Efs. done.
Qed.

Lemma loseE_not_keepE e : loseE keep m1 e -> keepE keep m1 e -> False.
Proof.
  intros Hl (ex & h & x & He & Hh & Hx & Hk). by apply (Hl ex h x).
Qed.

(** Writing a half-edge of the other side, keeping its face, successor and
    origin, and clearing or keeping its edge. *)
Lemma sideKept_halfEdge s h x x' :
  sideKept keep m1 s -> loseH keep m1 h ->
  halfEdgePool (st_mesh s) !! h = Some x ->
  h_face x' = h_face x -> h_next x' = h_next x -> h_origin x' = h_origin x ->
  (h_edge x' = h_edge x \/ h_edge x' = None) ->
  sideKept keep m1 (mkState (withHalfEdgePool <[h := x']> (st_mesh s)) (st_log s)).
Proof.
  intros (J1 & J2 & J3 & J4 & J5 & J6 & J7) Hl Hx Ef En Eo Ee.
  unfold sideKept, edgesKnowHalves. simpl.
  split; [|split; [|split; [done|split; [done|split; [|done]]]]].
  - intros h0 x0 H0 Hk. destruct (decide (h0 = h)) as [->|Hne].
    + by destruct (Hl x0 H0).
    + rewrite lookup_insert_ne by done. by apply J1.
  - intros h0 x0 H0. destruct (decide (h0 = h)) as [->|Hne].
    + rewrite lookup_insert_eq in H0. injection H0 as <-.
      destruct (J2 h x Hx) as (x1 & A & B & C & D). exists x1.
      split; [done|]. split; [congruence|]. split; congruence.
    + rewrite lookup_insert_ne in H0 by done. by apply J2.
  - intros h0 x0 e ex H0 He Hex. destruct (decide (h0 = h)) as [->|Hne].
    + rewrite lookup_insert_eq in H0. injection H0 as <-.
      destruct Ee as [Ee|Ee]; [|congruence].
      apply (J5 h x e ex); [done|congruence|done].
    + rewrite lookup_insert_ne in H0 by done. by apply (J5 h0 x0 e ex).
Qed.

Lemma sideKept_deleteHalfEdge s h :
  sideKept keep m1 s -> loseH keep m1 h ->
  sideKept keep m1 (mkState (withHalfEdgePool (base.delete h) (st_mesh s)) (st_log s)).
Proof.
  intros (J1 & J2 & J3 & J4 & J5 & J6 & J7) Hl.
  unfold sideKept, edgesKnowHalves. simpl.
  split; [|split; [|split; [done|split; [done|split; [|done]]]]].
  - intros h0 x0 H0 Hk. destruct (decide (h0 = h)) as [->|Hne].
    + by destruct (Hl x0 H0).
    + rewrite lookup_delete_ne by done. by apply J1.
  - intros h0 x0 H0. apply lookup_delete_Some in H0 as [_ H0]. by apply J2.
  - intros h0 x0 e ex H0 He Hex. apply lookup_delete_Some in H0 as [_ H0].
    by apply (J5 h0 x0 e ex).
Qed.

(** Writing an edge of the other side without adding a half-edge to it. *)
Lemma sideKept_edge s e ex ex' :
  sideKept keep m1 s -> loseE keep m1 e ->
  edgePool (st_mesh s) !! e = Some ex ->
  (forall h, halfOf h ex' -> halfOf h ex) ->
  (forall h x, halfEdgePool (st_mesh s) !! h = Some x -> h_edge x = Some e ->
     halfOf h ex') ->
  sideKept keep m1 (mkState (withEdgePool <[e := ex']> (st_mesh s)) (st_log s)).
Proof.
  intros (J1 & J2 & J3 & J4 & J5 & J6 & J7) Hl Hex Hsub Hknow.
  unfold sideKept, edgesKnowHalves. simpl.
  split; [done|]. split; [done|].
  split; [|split; [|split; [|done]]].
  - intros e0 Hk. destruct (decide (e0 = e)) as [->|Hne].
    + by destruct (loseE_not_keepE e).
    + rewrite lookup_insert_ne by done. by apply J3.
  - intros e0 ex0 H0. destruct (decide (e0 = e)) as [->|Hne].
    + rewrite lookup_insert_eq in H0. injection H0 as <-.
      destruct (J4 e ex Hex) as (ex1 & A & B). exists ex1. split; [done|].
      intros h Hh. by apply B, Hsub.
    + rewrite lookup_insert_ne in H0 by done. by apply J4.
  - intros h0 x0 e0 ex0 H0 He H0e. destruct (decide (e0 = e)) as [->|Hne].
    + rewrite lookup_insert_eq in H0e. injection H0e as <-. by apply (Hknow h0 x0).
    + rewrite lookup_insert_ne in H0e by done. by apply (J5 h0 x0 e0 ex0).
Qed.

Lemma elem_of_removeAddr a b l : a ∈ l -> a <> b -> a ∈ removeAddr b l.
Proof. intros Ha Hne. unfold removeAddr. by apply list_elem_of_filter. Qed.

Lemma sideKept_deleteEdge s e :
  sideKept keep m1 s -> loseE keep m1 e ->
  sideKept keep m1
    (mkState (withEdgePool (base.delete e) (withEdges (removeAddr e) (st_mesh s)))
             (st_log s)).
Proof.
  intros (J1 & J2 & J3 & J4 & J5 & J6 & J7) Hl.
  unfold sideKept, edgesKnowHalves. simpl.
  split; [done|]. split; [done|].
  split; [|split; [|split; [|done]]].
  - intros e0 Hk. assert (Hne : e0 <> e).
    { intros ->. by destruct (loseE_not_keepE e). }
    rewrite lookup_delete_ne by done. destruct (J3 e0 Hk) as [A B].
    split; [done|]. intros Hin. apply elem_of_removeAddr; [by apply B|done].
  - intros e0 ex0 H0. apply lookup_delete_Some in H0 as [_ H0]. by apply J4.
  - intros h0 x0 e0 ex0 H0 He H0e. apply lookup_delete_Some in H0e as [_ H0e].
    by apply (J5 h0 x0 e0 ex0).
Qed.

Lemma sideKept_removeEdgeFromList s e :
  sideKept keep m1 s -> loseE keep m1 e ->
  sideKept keep m1 (mkState (withEdges (removeAddr e) (st_mesh s)) (st_log s)).
Proof.
  intros (J1 & J2 & J3 & J4 & J5 & J6 & J7) Hl.
  unfold sideKept, edgesKnowHalves. simpl.
  split; [done|]. split; [done|].
  split; [|done].
  intros e0 Hk. assert (Hne : e0 <> e).
  { intros ->. by destruct (loseE_not_keepE e). }
  destruct (J3 e0 Hk) as [A B].
  split; [done|]. intros Hin. apply elem_of_removeAddr; [by apply B|done].
Qed.

Lemma sideKept_removeFaceFromList s f :
  sideKept keep m1 s -> ~ keep (Some f) ->
  sideKept keep m1 (mkState (withFaces (removeAddr f) (st_mesh s)) (st_log s)).
Proof.
  intros (J1 & J2 & J3 & J4 & J5 & J6 & J7) Hl.
  unfold sideKept, edgesKnowHalves. simpl.
  split; [done|]. split; [done|]. split; [done|]. split; [done|].
  split; [done|]. split; [|done].
  intros f0 Hk. assert (Hne : f0 <> f) by (by intros ->).
  destruct (J6 f0 Hk) as [A B]. split; [done|].
  intros Hin. apply elem_of_removeAddr; [by apply B|done].
Qed.

Lemma sideKept_deleteFace s f :
  sideKept keep m1 s -> ~ keep (Some f) ->
  sideKept keep m1 (mkState (withFacePool (base.delete f) (st_mesh s)) (st_log s)).
Proof.
  intros (J1 & J2 & J3 & J4 & J5 & J6 & J7) Hl.
  unfold sideKept, edgesKnowHalves. simpl.
  split; [done|]. split; [done|]. split; [done|]. split; [done|].
  split; [done|]. split.
  - intros f0 Hk. assert (Hne : f0 <> f) by (by intros ->).
    rewrite lookup_delete_ne by done. by apply J6.
  - intros f0 x0 H0. apply lookup_delete_Some in H0 as [_ H0]. by apply J7.
Qed.

End Deletion.

Section DeletionCalls.

Variable keep : option Address -> Prop.
Variable m1 : Mesh.
Hypothesis Hsides : sidesAgree keep m1.
Hypothesis Hfaces : facesOwnBoundaries m1.

(** The edge of a live half-edge of the other side is an edge of the other
    side. *)
Lemma loseE_of_half s h x e ex :
  sideKept keep m1 s -> loseH keep m1 h ->
  halfEdgePool (st_mesh s) !! h = Some x -> h_edge x = Some e ->
  edgePool (st_mesh s) !! e = Some ex ->
  loseE keep m1 e.
Proof.
  intros (J1 & J2 & J3 & J4 & J5 & J6 & J7) Hl Hx He Hex ex1 h' x' Hex1 Hh' Hx' Hk.
  destruct (J4 e ex Hex) as (ex1' & A & B). rewrite Hex1 in A. injection A as <-.
  destruct (J2 h x Hx) as (x1 & C & _).
  apply (Hl x1 C).
  apply (Hsides e ex1 h' h x' x1); try done.
  apply B. by apply (J5 h x e ex).
Qed.

Lemma loseH_of_half s e ex h :
  sideKept keep m1 s -> loseE keep m1 e ->
  edgePool (st_mesh s) !! e = Some ex -> halfOf h ex -> loseH keep m1 h.
Proof.
  intros (J1 & J2 & J3 & J4 & J5 & J6 & J7) Hl Hex Hh x Hx.
  destruct (J4 e ex Hex) as (ex1 & A & B).
  apply (Hl ex1 h x); [done|by apply B|done].
Qed.

Lemma kept_unsetEdge h s u s' :
  sideKept keep m1 s -> loseH keep m1 h ->
  HalfEdge.unsetEdge h s = Ok (u, s') -> sideKept keep m1 s'.
Proof.
  intros J Hl H. unfold HalfEdge.unsetEdge, HalfEdge.setEdge in H.
  apply updHalfEdge_eff in H as (x & Hx & ->).
  apply (sideKept_halfEdge keep m1 s h x); try done. by right.
Qed.

Lemma kept_unsetSecondEdge e s u s' :
  sideKept keep m1 s -> loseE keep m1 e ->
  Edge.unsetSecondEdge e s = Ok (u, s') -> sideKept keep m1 s'.
Proof.
  intros J Hl H. unfold Edge.unsetSecondEdge in H.
  apply bind_Ok in H as (h2 & s0 & Hh2 & H). apply read_Ok in Hh2 as [Hh2 ->].
  apply bind_Ok in H as ([] & sa & Hu & H).
  unfold HalfEdge.unsetEdge, HalfEdge.setEdge in Hu.
  apply updHalfEdge_eff in Hu as (x2 & Hx2 & ->).
  apply updEdge_eff in H as (ex & Hex & ->). simpl in Hex.
  assert (Hsec : e_second ex = Some h2).
  { revert Hh2. unfold Edge.secondEdge, Edge.second, edgeAt, rbind, rret.
    rewrite Hex. simpl. destruct (e_second ex); [by intros [= ->]|done]. }
  assert (Hl2 : loseH keep m1 h2).
  { apply (loseH_of_half s e ex); try done. by right. }
  assert (Ja := sideKept_halfEdge keep m1 s h2 x2
                  (mkHalfEdge (h_origin x2) None (h_face x2) (h_next x2) (h_previous x2))
                  J Hl2 Hx2 eq_refl eq_refl eq_refl (or_intror eq_refl)).
  apply (sideKept_edge keep m1 _ e ex); try done.
  - intros h [Hh|Hh]; simpl in Hh; [by left|done].
  - intros h x Hx He. simpl in Hx.
    destruct (decide (h = h2)) as [->|Hne].
    + rewrite lookup_insert_eq in Hx. injection Hx as <-. simpl in He. done.
    + rewrite lookup_insert_ne in Hx by done.
      destruct J as (_ & _ & _ & _ & J5 & _).
      destruct (J5 h x e ex Hx He Hex) as [Hf|Hs]; [by left|congruence].
Qed.

Lemma kept_flip e s u s' :
  sideKept keep m1 s -> loseE keep m1 e ->
  Edge.flip e s = Ok (u, s') -> sideKept keep m1 s'.
Proof.
  intros J Hl H. apply flip_eff in H as (ex & Hex & ->).
  apply (sideKept_edge keep m1 s e ex); try done.
  - intros h [Hh|Hh]; simpl in Hh; [by right|by left].
  - intros h x Hx He. destruct J as (_ & _ & _ & _ & J5 & _).
    destruct (J5 h x e ex Hx He Hex) as [Hf|Hs]; [by right|by left].
Qed.

Lemma kept_makeSecondEdge e h s u s' :
  sideKept keep m1 s -> loseE keep m1 e ->
  Edge.makeSecondEdge e h s = Ok (u, s') -> sideKept keep m1 s'.
Proof.
  intros J Hl H. unfold Edge.makeSecondEdge in H.
  apply bind_Ok in H as (x & s0 & Hx & H). apply read_Ok in Hx as [_ ->].
  apply bind_Ok in H as ([] & s0 & Ha & H). apply assert_Ok in Ha as [_ ->].
  destruct (optAddrEqb (e_second x) (Some h)).
  - by apply ret_Ok in H as [_ ->].
  - by apply (kept_flip e s u s').
Qed.

Lemma kept_deleteEdge e s u1 s1 u2 s2 :
  sideKept keep m1 s -> loseE keep m1 e ->
  removeEdgeFromList e s = Ok (u1, s1) -> Edge.delete e s1 = Ok (u2, s2) ->
  sideKept keep m1 s2.
Proof.
  intros J Hl H1 H2. apply modifyMesh_Ok in H1 as ->.
  unfold Edge.delete in H2.
  apply bind_Ok in H2 as (x & s0 & Hx & H2). apply read_Ok in Hx as [_ ->].
  apply modifyMesh_Ok in H2 as ->. simpl. by apply sideKept_deleteEdge.
Qed.

Lemma kept_HalfEdge_delete h s u s' :
  sideKept keep m1 s -> loseH keep m1 h ->
  HalfEdge.delete h s = Ok (u, s') -> sideKept keep m1 s'.
Proof.
  intros J Hl H. unfold HalfEdge.delete in H.
  apply bind_Ok in H as (o & s0 & Ho & H). apply read_Ok in Ho as [_ ->].
  apply bind_Ok in H as (l & s0 & Hlv & H). apply read_Ok in Hlv as [_ ->].
  apply bind_Ok in H as ([] & sa & Hs & H). apply modifyMesh_Ok in H as ->.
  apply sideKept_deleteHalfEdge; [|done].
  destruct (optAddrEqb l (Some h)).
  - apply updVertex_eff in Hs as (x & _ & ->). by apply (sideKept_same keep m1 s).
  - by apply ret_Ok in Hs as [_ ->].
Qed.

Lemma kept_forEach_HalfEdge_delete bd : forall s u s',
  sideKept keep m1 s -> (forall h, h ∈ bd -> loseH keep m1 h) ->
  forEach bd HalfEdge.delete s = Ok (u, s') -> sideKept keep m1 s'.
Proof.
  induction bd as [|h bd IH]; intros s u s' J Hl H; simpl in H.
  - by apply ret_Ok in H as [_ ->].
  - apply bind_Ok in H as ([] & sa & Hd & H).
    apply (IH sa u s'); [|intros h' Hh'; apply Hl; by right|done].
    apply (kept_HalfEdge_delete h s tt sa); [done|apply Hl; by left|done].
Qed.

Lemma kept_deletedFace f s u s' :
  sideKept keep m1 s -> ~ keep (Some f) ->
  deletedFace f s = Ok (u, s') ->
  sideKept keep m1 s' /\ facePool (st_mesh s') !! f = None.
Proof.
  intros J Hl H. unfold deletedFace in H.
  apply bind_Ok in H as ([] & sa & Hcb & H). injection Hcb as <-.
  apply bind_Ok in H as ([] & sb & Hrm & H). apply modifyMesh_Ok in Hrm as ->.
  unfold Face.delete in H.
  apply bind_Ok in H as (bd & sc & Hbd & H). apply read_Ok in Hbd as [Hbd ->].
  apply bind_Ok in H as ([] & sc & Hdel & H). apply modifyMesh_Ok in H as ->.
  split; [|simpl; by rewrite lookup_delete_eq].
  apply sideKept_deleteFace; [|done].
  assert (Ja : sideKept keep m1 (mkState (st_mesh s)
                 (st_log s ++ [mkNotification FaceWillBeDeleted f (st_mesh s)]))).
  { by apply (sideKept_same keep m1 s). }
  apply (sideKept_removeFaceFromList keep m1 _ f) in Ja; [|done]. simpl in Ja.
  apply (kept_forEach_HalfEdge_delete bd _ tt sc Ja); [|exact Hdel].
  intros h Hh x Hx Hk.
  assert (Hf : facePool m1 !! f = Some (mkFace bd)).
  { destruct J as (_ & _ & _ & _ & _ & _ & J7). apply J7.
    revert Hbd. unfold Face.boundary, faceAt, rbind, rret. simpl.
    destruct (facePool (st_mesh s) !! f) as [[bd']|]; [|done]. by intros [= ->]. }
  destruct Hfaces as [F1 _]. rewrite (F1 f bd h x Hf Hh Hx) in Hk. done.
Qed.

End DeletionCalls.

Section DeletionLoop.

Variable keep : option Address -> Prop.
Variable m1 : Mesh.
Hypothesis Hsides : sidesAgree keep m1.
Hypothesis Hfaces : facesOwnBoundaries m1.

Lemma twin_halfOf e h m t ex :
  edgePool m !! e = Some ex -> Edge.twin e h m = Ok (Some t) -> halfOf t ex.
Proof.
  intros Hex. unfold Edge.twin, edgeAt, rbind, rret, rassert. rewrite Hex. simpl.
  destruct (optAddrEqb (e_first ex) (Some h) || optAddrEqb (e_second ex) (Some h));
    [|done].
  destruct (optAddrEqb (e_first ex) (Some h)); intros [= H]; [by right|by left].
Qed.

Lemma fullySpecified_live e m b :
  Edge.fullySpecified e m = Ok b -> exists ex, edgePool m !! e = Some ex.
Proof.
  unfold Edge.fullySpecified, Edge.firstEdge, Edge.first, edgeAt, rbind.
  destruct (edgePool m !! e) as [ex|]; [eauto|done].
Qed.

Lemma loseH_next s h x :
  sideKept keep m1 s -> loseH keep m1 h ->
  halfEdgePool (st_mesh s) !! h = Some x -> loseH keep m1 (h_next x).
Proof.
  intros (J1 & J2 & _) Hl Hx y Hy Hk.
  destruct (J2 h x Hx) as (x1 & A & B & C & D).
  destruct Hfaces as [_ F2]. rewrite C in Hy.
  rewrite (F2 h x1 y A Hy) in Hk. by apply (Hl x1 A).
Qed.

Lemma kept_deleteFacesLoop recurse first :
  (forall t acc s acc' s', sideKept keep m1 s -> loseH keep m1 t ->
     recurse t acc s = Ok (acc', s') -> sideKept keep m1 s') ->
  forall n current acc s acc' s',
  sideKept keep m1 s -> loseH keep m1 current ->
  deleteFacesLoop recurse first n current acc s = Ok (acc', s') ->
  sideKept keep m1 s'.
Proof.
  intros Hrec. induction n as [|n IH]; intros current acc s acc' s' J Hl H;
    simpl in H; [discriminate|].
  apply bind_Ok in H as (oedge & s0 & Hoe & H). apply read_Ok in Hoe as [Hoe ->].
  apply halfEdge_field in Hoe as (x & Hx & Hxe).
  apply bind_Ok in H as (acc1 & sa & Hedge & H).
  assert (Ja : sideKept keep m1 sa).
  { destruct oedge as [edge|]; [|by apply ret_Ok in Hedge as [_ ->]].
    apply bind_Ok in Hedge as (fs & s0 & Hfs & Hedge). apply read_Ok in Hfs as [Hfs ->].
    destruct (fullySpecified_live _ _ _ Hfs) as [ex Hex].
    assert (HlE : loseE keep m1 edge) by (by apply (loseE_of_half keep m1 Hsides s current x edge ex)).
    apply bind_Ok in Hedge as (acc2 & sr & Hr & Hedge).
    assert (Jr : sideKept keep m1 sr).
    { destruct fs; [|by apply ret_Ok in Hr as [_ ->]].
      apply bind_Ok in Hr as (ot & s0 & Hot & Hr). apply read_Ok in Hot as [Hot ->].
      apply bind_Ok in Hr as (t & s0 & Ht & Hr). apply read_Ok in Ht as [Ht ->].
      apply deref_Ok in Ht as ->.
      apply (Hrec t acc s acc2 sr); [done| |done].
      apply (loseH_of_half keep m1 s edge ex); try done.
      by apply (twin_halfOf edge current (st_mesh s)). }
    apply bind_Ok in Hedge as (fs' & s0 & Hfs' & Hedge). apply read_Ok in Hfs' as [_ ->].
    apply bind_Ok in Hedge as ([] & sb & Hmod & Hedge). apply ret_Ok in Hedge as [_ ->].
    destruct fs'.
    - apply bind_Ok in Hmod as ([] & sc & Hm1 & Hm2).
      apply (kept_unsetSecondEdge keep m1 edge sc tt sb); [|done|done].
      by apply (kept_makeSecondEdge keep m1 edge current sr tt sc).
    - apply bind_Ok in Hmod as ([] & sc & Hm1 & Hm2).
      apply bind_Ok in Hm2 as ([] & sd & Hm2 & Hm3).
      apply (kept_deleteEdge keep m1 edge sc tt sd tt sb); [|done|done|done].
      by apply (kept_unsetEdge keep m1 current sr tt sc). }
  apply bind_Ok in H as (origin & s0 & Ho & H). apply read_Ok in Ho as [_ ->].
  apply bind_Ok in H as (l & s0 & Hlv & H). apply read_Ok in Hlv as [_ ->].
  apply bind_Ok in H as (acc3 & sb & Hv & H).
  assert (Jb : sideKept keep m1 sb).
  { destruct (optAddrEqb l (Some current)); [|by apply ret_Ok in Hv as [_ ->]].
    apply bind_Ok in Hv as ([] & sc & Hrm & Hv). apply ret_Ok in Hv as [_ ->].
    apply modifyMesh_Ok in Hrm as ->. by apply (sideKept_same keep m1 sa). }
  apply bind_Ok in H as (next & s0 & Hn & H). apply read_Ok in Hn as [Hn ->].
  apply halfEdge_field in Hn as (xb & Hxb & <-).
  destruct (addrEqb (h_next xb) first); [by apply ret_Ok in H as [_ ->]|].
  apply (IH (h_next xb) acc3 sb acc' s'); [done| |done].
  by apply (loseH_next sb current).
Qed.

Lemma kept_deleteFaces depth : forall first acc s acc' s',
  sideKept keep m1 s -> loseH keep m1 first ->
  deleteFaces depth first acc s = Ok (acc', s') -> sideKept keep m1 s'.
Proof.
  induction depth as [|depth IH]; intros first acc s acc' s' J Hl H; simpl in H;
    [discriminate|].
  apply bind_Ok in H as (oface & s0 & Hof & H). apply read_Ok in Hof as [Hof ->].
  apply halfEdge_field in Hof as (x & Hx & <-).
  apply bind_Ok in H as (face & s0 & Hf & H). apply read_Ok in Hf as [Hf ->].
  apply deref_Ok in Hf.
  case_bool_decide; [by apply ret_Ok in H as [_ ->]|].
  apply bind_Ok in H as (fuel & s0 & Hfuel & H). apply read_Ok in Hfuel as [_ ->].
  apply bind_Ok in H as (acc1 & sa & Hloop & H).
  apply kept_deleteFacesLoop in Hloop; [|exact IH|done|done].
  apply bind_Ok in H as ([] & sb & H1 & H).
  apply bind_Ok in H as ([] & sc & H2 & H).
  apply bind_Ok in H as ([] & sd & H3 & H). apply ret_Ok in H as [_ ->].
  apply (kept_deletedFace keep m1 Hfaces face sa tt sd); [done| |].
  - destruct J as (_ & J2 & _). destruct (J2 first x Hx) as (x1 & A & B & _).
    rewrite <- Hf, B. by apply Hl.
  - unfold deletedFace. eapply bind_intro; [exact H1|].
    eapply bind_intro; [exact H2|]. exact H3.
Qed.

(** The face the deletion is entered through is deleted. *)
Lemma deleteFaces_entry depth first l s acc' s' :
  deleteFaces depth first (∅, l) s = Ok (acc', s') ->
  exists x f, halfEdgePool (st_mesh s) !! first = Some x /\ h_face x = Some f /\
              facePool (st_mesh s') !! f = None.
Proof.
  destruct depth as [|depth]; intros H; simpl in H; [discriminate|].
  apply bind_Ok in H as (oface & s0 & Hof & H). apply read_Ok in Hof as [Hof ->].
  apply halfEdge_field in Hof as (x & Hx & <-).
  apply bind_Ok in H as (face & s0 & Hf & H). apply read_Ok in Hf as [Hf ->].
  apply deref_Ok in Hf.
  rewrite bool_decide_eq_false_2 in H by (by apply not_elem_of_empty).
  apply bind_Ok in H as (fuel & s0 & Hfuel & H). apply read_Ok in Hfuel as [_ ->].
  apply bind_Ok in H as (acc1 & sa & Hloop & H).
  apply bind_Ok in H as ([] & sb & H1 & H).
  apply bind_Ok in H as ([] & sc & H2 & H).
  apply bind_Ok in H as ([] & sd & H3 & H). apply ret_Ok in H as [_ ->].
  exists x, face. split; [done|]. split; [done|].
  unfold Face.delete in H3.
  apply bind_Ok in H3 as (bd & s0 & _ & H3).
  apply bind_Ok in H3 as ([] & s1 & _ & H3). apply modifyMesh_Ok in H3 as ->.
  simpl. by rewrite lookup_delete_eq.
Qed.

End DeletionLoop.

Section Opening.

Variable criterion : SplittingCriterion.
Variable m0 : Mesh.

Lemma opened_start log : edgesKnowHalves m0 -> opened (matching criterion m0) m0 [] (mkState m0 log).
Proof.
  intros Hk. unfold opened. simpl.
  split; [eauto|]. split; [done|]. split; [done|].
  split; [intros e He; by apply elem_of_nil in He|]. done.
Qed.

Lemma opened_step done e s u s' :
  opened (matching criterion m0) m0 done s ->
  matches criterion e m0 = Ok MatchResult_First ->
  (run Edge.setFirstAsLeaving e; Edge.unsetSecondEdge e) s = Ok (u, s') ->
  opened (matching criterion m0) m0 (done ++ [e]) s'.
Proof.
  intros (P1 & P2 & P3 & P4 & P5 & P6 & P7 & P8) Hm H.
  apply bind_Ok in H as ([] & sa & Hlv & H).
  assert (Ea : exists vp, sa = mkState (withVertexPool (fun _ => vp) (st_mesh s)) (st_log s)).
  { unfold Edge.setFirstAsLeaving, HalfEdge.setAsLeaving in Hlv.
    apply bind_Ok in Hlv as (h & s0 & Hh & Hlv). apply read_Ok in Hh as [_ ->].
    apply bind_Ok in Hlv as (o & s0 & Ho & Hlv). apply read_Ok in Ho as [_ ->].
    apply updVertex_eff in Hlv as (x & _ & ->). eauto. }
  destruct Ea as [vp ->].
  unfold Edge.unsetSecondEdge in H.
  apply bind_Ok in H as (h2 & s0 & Hh2 & H). apply read_Ok in Hh2 as [Hh2 ->].
  apply bind_Ok in H as ([] & sb & Hu & H).
  unfold HalfEdge.unsetEdge, HalfEdge.setEdge in Hu.
  apply updHalfEdge_eff in Hu as (x2 & Hx2 & ->).
  apply updEdge_eff in H as (ex & Hex & ->). simpl in Hx2, Hex, Hh2.
  assert (Hsec : e_second ex = Some h2).
  { revert Hh2. unfold Edge.secondEdge, Edge.second, edgeAt, rbind, rret. simpl.
    rewrite Hex. simpl. destruct (e_second ex); [by intros [= ->]|done]. }
  assert (Hnd : e ∉ done).
  { intros Hin. destruct (P4 e Hin) as (a & b & _ & Hs). rewrite Hex in Hs.
    injection Hs as ->. done. }
  apply matches_Ok in Hm as (h1 & h2' & x1 & x2' & b1 & b2 & He0 & H1 & H2 & C1 & C2 & Hr).
  destruct b1, b2; try discriminate. clear Hr.
  rewrite (P3 e Hnd), He0 in Hex. injection Hex as <-. simpl in Hsec.
  injection Hsec as ->.
  unfold opened, edgesKnowHalves. simpl.
  split; [|split; [|split; [|split; [|split; [|done]]]]].
  - intros h x Hx. destruct (decide (h = h2)) as [->|Hne].
    + rewrite lookup_insert_eq in Hx. injection Hx as <-. simpl. by apply P1.
    + rewrite lookup_insert_ne in Hx by done. by apply P1.
  - intros h x0 Hx0 Hk. destruct (decide (h = h2)) as [->|Hne].
    + rewrite H2 in Hx0. injection Hx0 as <-. unfold matching in Hk. congruence.
    + rewrite lookup_insert_ne by done. by apply P2.
  - intros e' He'. rewrite not_elem_of_app, not_elem_of_cons in He'.
    destruct He' as [Hd [Hne _]]. rewrite lookup_insert_ne by done. by apply P3.
  - intros e' He'. apply elem_of_app in He' as [Hd|He'].
    + assert (e' <> e) by congruence. rewrite lookup_insert_ne by done. by apply P4.
    + apply list_elem_of_singleton in He' as ->. exists h1, h2.
      by rewrite lookup_insert_eq.
  - intros h x e' ex' Hx Hxe Hex'.
    destruct (decide (h = h2)) as [->|Hne].
    + rewrite lookup_insert_eq in Hx. injection Hx as <-. simpl in Hxe. done.
    + rewrite lookup_insert_ne in Hx by done.
      destruct (decide (e' = e)) as [->|Hne'].
      * rewrite lookup_insert_eq in Hex'. injection Hex' as <-.
        assert (He : edgePool (st_mesh s) !! e = Some (mkEdge (Some h1) (Some h2)))
          by (by rewrite (P3 e Hnd)).
        destruct (P5 h x e _ Hx Hxe He) as [Hf|Hs]; [by left|].
        simpl in Hs. congruence.
      * rewrite lookup_insert_ne in Hex' by done. by apply (P5 h x e' ex').
Qed.

Lemma opened_forEach it : forall done s u s',
  opened (matching criterion m0) m0 done s ->
  Forall (fun e => matches criterion e m0 = Ok MatchResult_First) it ->
  forEach it (fun edge => run Edge.setFirstAsLeaving edge; Edge.unsetSecondEdge edge) s
    = Ok (u, s') ->
  opened (matching criterion m0) m0 (done ++ it) s'.
Proof.
  induction it as [|e it IH]; intros done s u s' Ho Hm H; simpl in H.
  - apply ret_Ok in H as [_ ->]. by rewrite app_nil_r.
  - apply bind_Ok in H as ([] & sa & He & H).
    apply Forall_cons in Hm as [Hme Hm].
    rewrite (cons_middle e done it), app_assoc.
    apply (IH _ sa u s'); [|done|done].
    by apply (opened_step done e s tt sa).
Qed.

End Opening.

Lemma forEach_Vertex_delete vs : forall s u s',
  forEach vs Vertex.delete s = Ok (u, s') ->
  halfEdgePool (st_mesh s') = halfEdgePool (st_mesh s) /\
  edgePool (st_mesh s') = edgePool (st_mesh s) /\
  facePool (st_mesh s') = facePool (st_mesh s) /\
  m_edges (st_mesh s') = m_edges (st_mesh s) /\
  m_faces (st_mesh s') = m_faces (st_mesh s).
Proof.
  induction vs as [|v vs IH]; intros s u s' H; simpl in H.
  - by apply ret_Ok in H as [_ ->].
  - apply bind_Ok in H as ([] & sa & Hd & H). unfold Vertex.delete in Hd.
    apply bind_Ok in Hd as (x & s0 & Hx & Hd). apply read_Ok in Hx as [_ ->].
    apply modifyMesh_Ok in Hd as ->. apply IH in H as (A & B & C & D & E).
    simpl in *. done.
Qed.

(** What [split] does, seen from the side of the seam that is kept. *)
Lemma split_spec criterion seam s u s' :
  edgesKnowHalves (st_mesh s) -> facesOwnBoundaries (st_mesh s) ->
  oriented criterion (st_mesh s) seam ->
  (forall e ex, edgePool (st_mesh s) !! e = Some ex -> e ∉ seam ->
     exists r, matches criterion e (st_mesh s) = Ok r /\ discriminates r = false) ->
  split seam s = Ok (u, s') ->
  (3 <= length seam)%nat /\
  (forall h x, halfEdgePool (st_mesh s) !! h = Some x ->
     criterion (h_face x) (st_mesh s) = Ok true ->
     halfEdgePool (st_mesh s') !! h = Some x) /\
  (forall f, criterion (Some f) (st_mesh s) = Ok true ->
     facePool (st_mesh s') !! f = facePool (st_mesh s) !! f /\
     (f ∈ m_faces (st_mesh s) -> f ∈ m_faces (st_mesh s'))) /\
  (forall e h1 h2, e ∈ seam ->
     edgePool (st_mesh s) !! e = Some (mkEdge (Some h1) (Some h2)) ->
     edgePool (st_mesh s') !! e = Some (mkEdge (Some h1) None) /\
     (e ∈ m_edges (st_mesh s) -> e ∈ m_edges (st_mesh s'))) /\
  (forall e ex h x, e ∉ seam -> edgePool (st_mesh s) !! e = Some ex ->
     halfOf h ex -> halfEdgePool (st_mesh s) !! h = Some x ->
     criterion (h_face x) (st_mesh s) = Ok true ->
     edgePool (st_mesh s') !! e = Some ex /\
     (e ∈ m_edges (st_mesh s) -> e ∈ m_edges (st_mesh s'))) /\
  (exists e0 f, head seam = Some e0 /\
     Edge.secondFace e0 (st_mesh s) = Ok (Some f) /\
     criterion (Some f) (st_mesh s) = Ok false /\
     facePool (st_mesh s') !! f = None).
Proof.
  intros Hknow Hown Hor Hsep H.
  set (m0 := st_mesh s) in *.
  set (keep := matching criterion m0).
  unfold split in H.
  apply bind_Ok in H as ([] & s0 & Ha & H). apply assert_Ok in Ha as [Hlen ->].
  apply Z.leb_le in Hlen.
  apply bind_Ok in H as (e0 & s0 & He0 & H). apply read_Ok in He0 as [He0 ->].
  apply bind_Ok in H as (first & s0 & Hfirst & H). apply read_Ok in Hfirst as [Hfirst ->].
  apply bind_Ok in H as ([] & s1 & Hopen & H).
  apply bind_Ok in H as (depth & s0 & Hd & H). apply read_Ok in Hd as [_ ->].
  apply bind_Ok in H as (acc & s2 & Hdel & H).
  apply forEach_Vertex_delete in H as (V1 & V2 & V3 & V4 & V5).
  (* the first loop *)
  assert (Ho : opened keep m0 seam s1).
  { apply (opened_forEach criterion m0 seam [] s tt s1); [|done|done].
    destruct s as [m log]. by apply opened_start. }
  destruct Ho as (P1 & P2 & P3 & P4 & P5 & P6 & P7 & P8).
  set (m1 := st_mesh s1) in *.
  (* the seam starts with [e0], whose second half-edge is [first] *)
  destruct seam as [|e0' rest]; [done|]. simpl in He0. injection He0 as ->.
  pose proof Hor as Hor'. apply Forall_cons in Hor' as [Hm0 _].
  apply matches_Ok in Hm0 as (a1 & a2 & y1 & y2 & b1 & b2 & Ee0 & Ya1 & Ya2 & Ca1 & Ca2 & Hr).
  destruct b1, b2; try discriminate. clear Hr.
  assert (first = a2) as ->.
  { revert Hfirst. unfold Edge.secondEdge, Edge.second, edgeAt, rbind, rret.
    fold m0. rewrite Ee0. simpl. by intros [= <-]. }
  (* the mesh the deletion starts from *)
  assert (Hsides : sidesAgree keep m1).
  { intros e ex h h' x x' Hex Hh Hh' Hx Hx' Hk.
    destruct (decide (e ∈ e0 :: rest)) as [Hin|Hnin].
    - destruct (P4 e Hin) as (h1 & h2 & _ & Hs). rewrite Hex in Hs. injection Hs as ->.
      destruct Hh as [Hh|Hh]; [|done]. destruct Hh' as [Hh'|Hh']; [|done].
      simpl in Hh, Hh'. injection Hh as <-. injection Hh' as <-.
      rewrite Hx in Hx'. by injection Hx' as <-.
    - rewrite (P3 e Hnin) in Hex.
      destruct (Hsep e ex Hex Hnin) as (r & Hr & Hd).
      apply matches_Ok in Hr as (c1 & c2 & z1 & z2 & d1 & d2 & Ee & Z1 & Z2 & D1 & D2 & ->).
      rewrite Hex in Ee. injection Ee as ->.
      destruct (P1 h x Hx) as (x0 & X0 & Fx & _).
      destruct (P1 h' x' Hx') as (x0' & X0' & Fx' & _).
      unfold keep, matching in *. rewrite Fx in Hk. rewrite Fx'.
      assert (Hsame : d1 = true /\ d2 = true).
      { destruct Hh as [Hh|Hh]; simpl in Hh; injection Hh as <-.
        - rewrite Z1 in X0. injection X0 as <-. rewrite D1 in Hk. injection Hk as ->.
          by destruct d2.
        - rewrite Z2 in X0. injection X0 as <-. rewrite D2 in Hk. injection Hk as ->.
          by destruct d1. }
      destruct Hsame as [-> ->].
      destruct Hh' as [Hh'|Hh']; simpl in Hh'; injection Hh' as <-.
      + rewrite Z1 in X0'. by injection X0' as <-.
      + rewrite Z2 in X0'. by injection X0' as <-. }
  assert (Hfaces : facesOwnBoundaries m1).
  { destruct Hown as [F1 F2]. split.
    - intros f bd h x Hf Hh Hx. destruct (P1 h x Hx) as (x0 & X0 & Fx & _).
      rewrite Fx. apply (F1 f bd h x0); [by rewrite <- P6|done|done].
    - intros h x y Hx Hy. destruct (P1 h x Hx) as (x0 & X0 & Fx & Nx & _).
      destruct (P1 _ y Hy) as (y0 & Y0 & Fy & _).
      rewrite Fx, Fy. apply (F2 h x0 y0); [done|]. by rewrite <- Nx. }
  assert (Hlose : loseH keep m1 a2).
  { intros x Hx Hk. destruct (P1 a2 x Hx) as (x0 & X0 & Fx & _).
    rewrite Ya2 in X0. injection X0 as <-. unfold keep, matching in Hk.
    rewrite Fx, Ca2 in Hk. discriminate. }
  assert (J1 : sideKept keep m1 s1).
  { destruct s1 as [m log]. by apply sideKept_start. }
  pose proof (kept_deleteFaces keep m1 Hsides Hfaces _ _ _ _ _ _ J1 Hlose Hdel) as J2.
  destruct (deleteFaces_entry _ _ _ _ _ _ Hdel) as (x & f & Hx & Hxf & Hgone).
  assert (J3 : sideKept keep m1 s') by (by apply (sideKept_same keep m1 s2)).
  destruct J3 as (K1 & K2 & K3 & K4 & K5 & K6 & K7).
  split; [simpl in *; lia|].
  split; [intros h x0 Hx0 Hk; apply K1; [by apply P2|done]|].
  split.
  { intros f0 Hk. destruct (K6 f0 Hk) as [A B]. fold m1 in P6, P7.
    rewrite A, P6. split; [done|]. rewrite <- P7. exact B. }
  split.
  { intros e h1 h2 Hin He. destruct (P4 e Hin) as (c1 & c2 & Ee & Es).
    fold m0 in He. rewrite He in Ee. injection Ee as <- <-.
    pose proof Hor as Hor'. unfold oriented in Hor'. rewrite Forall_forall in Hor'.
    apply Hor', matches_Ok in Hin
      as (c1 & c2 & z1 & z2 & d1 & d2 & Ee & Z1 & Z2 & D1 & D2 & Hr).
    destruct d1, d2; try discriminate. clear Hr.
    fold m0 in Ee. rewrite He in Ee. injection Ee as <- <-.
    assert (Hk : keepE keep m1 e).
    { exists (mkEdge (Some h1) None), h1, z1. split; [done|]. split; [by left|].
      split; [by apply P2|done]. }
    destruct (K3 e Hk) as [A B]. rewrite A. split; [done|].
    fold m1 in P8. rewrite <- P8. exact B. }
  split.
  { intros e ex h x0 Hnin Hex Hh Hx0 Hk.
    assert (Hke : keepE keep m1 e).
    { exists ex, h, x0. split; [by rewrite (P3 e Hnin)|]. split; [done|].
      split; [by apply P2|done]. }
    destruct (K3 e Hke) as [A B]. rewrite A, (P3 e Hnin). split; [done|].
    fold m1 in P8. rewrite <- P8. exact B. }
  exists e0, f. split; [done|].
  destruct (P1 a2 x Hx) as (x0 & X0 & Fx & _).
  rewrite Ya2 in X0. injection X0 as <-.
  split.
  { unfold Edge.secondFace, Edge.secondEdge, Edge.second, HalfEdge.face, edgeAt,
      halfEdgeAt, rbind, rret. fold m0. rewrite Ee0. simpl. rewrite Ya2.
    by rewrite <- Fx, Hxf. }
  split; [by rewrite <- Hxf, Fx|].
  by rewrite V3.
Qed.

Lemma seamSeparatesB_true criterion m seam :
  seamSeparatesB criterion m seam = true -> seamSeparates criterion m seam.
Proof.
  intros H e ex Hex Hnin. apply (forallb_map_to_list _ _ H) in Hex. simpl in Hex.
  apply orb_true_iff in Hex as [Hin|Hm].
  - by apply bool_decide_eq_true in Hin.
  - destruct (matches criterion e m) as [r| | |]; try discriminate.
    exists r. split; [done|]. by destruct (discriminates r).
Qed.

Lemma orientedB_true criterion m seam :
  orientedB criterion m seam = true -> oriented criterion m seam.
Proof.
  unfold orientedB, oriented. rewrite forallb_forall, Forall_forall.
  intros H e He. rewrite list_elem_of_In in He. specialize (H e He).
  by destruct (matches criterion e m) as [[]| | |].
Qed.

Lemma facesOwnBoundariesB_true m :
  facesOwnBoundariesB m = true -> facesOwnBoundaries m.
Proof.
  unfold facesOwnBoundariesB, facesOwnBoundaries. rewrite andb_true_iff.
  intros [Hf Hh]. split.
  - intros f bd h x Hfx Hin Hx. apply (forallb_map_to_list _ _ Hf) in Hfx.
    simpl in Hfx. rewrite forallb_forall in Hfx.
    rewrite list_elem_of_In in Hin. specialize (Hfx h Hin). rewrite Hx in Hfx.
    by apply bool_decide_eq_true in Hfx.
  - intros h x y Hx Hy. apply (forallb_map_to_list _ _ Hh) in Hx. simpl in Hx.
    rewrite Hy in Hx. by apply bool_decide_eq_true in Hx.
Qed.

Lemma wellFormed_edgesKnowHalves m : wellFormed m -> edgesKnowHalves m.
Proof. intros (_ & W2 & _) h x e ex Hx He Hex. by apply (W2 h x e ex). Qed.

Lemma fullySpecified_true e m h1 h2 :
  edgePool m !! e = Some (mkEdge (Some h1) (Some h2)) ->
  Edge.fullySpecified e m = Ok true.
Proof.
  intros He. unfold Edge.fullySpecified, Edge.firstEdge, Edge.first, Edge.second,
    edgeAt, rbind, rret. by rewrite He.
Qed.


(** * What split removes *)

#[global] Instance fadesM_refl : Reflexive fadesM.
Proof.
  intros m. unfold fadesM. split_and!; eauto 10.
Qed.

#[global] Instance fadesM_trans : Transitive fadesM.
Proof.
  intros m1 m2 m3 (A1 & A2 & A3 & A4 & A5 & A6 & A7 & A8 & A9)
    (B1 & B2 & B3 & B4 & B5 & B6 & B7 & B8 & B9).
  unfold fadesM. split_and!; [| | | | | |by auto|by auto|by auto].
  - intros h x3 H3. destruct (B1 h x3 H3) as (x2 & H2 & F2 & N2 & O2 & E2).
    destruct (A1 h x2 H2) as (x1 & H1 & F1 & N1 & O1 & E1).
    exists x1. split_and!; try congruence.
    destruct E2 as [E2|E2]; [|by right]. rewrite E2. exact E1.
  - auto.
  - auto.
  - intros v vx1 H1. destruct (A4 v vx1 H1) as (vx2 & H2 & P2 & L2).
    destruct (B4 v vx2 H2) as (vx3 & H3 & P3 & L3).
    exists vx3. split_and!; try congruence.
    destruct L3 as [L3|L3]; [|by right]. rewrite L3. exact L2.
  - auto.
  - intros v vx1 h H1 L1 [x3 H3].
    destruct (B1 h x3 H3) as (x2 & H2 & _).
    destruct (A6 v vx1 h H1 L1 (mk_is_Some _ _ H2)) as (vx2 & V2 & L2).
    apply (B6 v vx2 h V2 L2). eauto.
Qed.

#[global] Instance fades_refl : Reflexive fades.
Proof. intros s. unfold fades. reflexivity. Qed.

#[global] Instance fades_trans : Transitive fades.
Proof. intros s1 s2 s3. unfold fades. apply fadesM_trans. Qed.

Lemma fades_unsetEdge h : preserves fades (HalfEdge.unsetEdge h).
Proof.
  intros s u s' H. unfold HalfEdge.unsetEdge, HalfEdge.setEdge in H.
  apply updHalfEdge_eff in H as (x & Hx & ->).
  unfold fades, fadesM. simpl.
  split_and!; [|by eauto 10..].
  intros h' x' Hx'. destruct (decide (h' = h)) as [->|Hne].
  - rewrite lookup_insert_eq in Hx'. injection Hx' as <-. simpl. eauto 10.
  - rewrite lookup_insert_ne in Hx' by done. eauto 10.
Qed.

Lemma fades_updEdge e f : preserves fades (updEdge e f).
Proof.
  intros s u s' H. apply updEdge_eff in H as (x & Hx & ->).
  unfold fades, fadesM. simpl.
  split_and!; [by eauto 10|by eauto 10| |by eauto 10..].
  intros e' [y Hy]. destruct (decide (e' = e)) as [->|Hne]; [eauto|].
  rewrite lookup_insert_ne in Hy by done. eauto.
Qed.

Lemma fades_Edge_delete e : preserves fades (Edge.delete e).
Proof.
  intros s u s' H. unfold Edge.delete in H.
  apply bind_Ok in H as (x & s1 & Hx & H). apply read_Ok in Hx as [_ ->].
  apply modifyMesh_Ok in H as ->.
  unfold fades, fadesM. simpl.
  split_and!; [by eauto 10|by eauto 10| |by eauto 10..].
  intros e' [y Hy]. apply lookup_delete_Some in Hy as [_ Hy]. eauto.
Qed.

Lemma fades_removeFromList f :
  (forall m, vertexPool (f m) = vertexPool m /\ halfEdgePool (f m) = halfEdgePool m /\
     edgePool (f m) = edgePool m /\ facePool (f m) = facePool m /\
     (forall v, v ∈ m_vertices (f m) -> v ∈ m_vertices m) /\
     (forall v, v ∈ m_edges (f m) -> v ∈ m_edges m) /\
     (forall v, v ∈ m_faces (f m) -> v ∈ m_faces m)) ->
  preserves fades (modifyMesh f).
Proof.
  intros Hf. apply preserves_modifyMesh. intros s.
  destruct (Hf (st_mesh s)) as (A & B & C & D & E & F & G).
  unfold fades, fadesM. simpl. rewrite A, B, C, D.
  split_and!; by eauto 10.
Qed.

Lemma removeAddr_elem a b l : a ∈ removeAddr b l -> a ∈ l.
Proof. unfold removeAddr. rewrite list_elem_of_filter. tauto. Qed.

Lemma fades_HalfEdge_delete h : preserves fades (HalfEdge.delete h).
Proof.
  intros s u s' H. unfold HalfEdge.delete in H.
  apply bind_Ok in H as (o & s1 & Ho & H). apply read_Ok in Ho as [Ho ->].
  apply bind_Ok in H as (l & s1 & Hl & H). apply read_Ok in Hl as [Hl ->].
  apply bind_Ok in H as ([] & s1 & Hs & H). apply modifyMesh_Ok in H as ->.
  apply halfEdge_field in Ho as (x & Hx & Hxo).
  unfold Vertex.leaving, vertexAt, rbind, rret in Hl.
  destruct (vertexPool (st_mesh s) !! o) as [ox|] eqn:Eo; [|discriminate Hl].
  injection Hl as <-.
  unfold fades, fadesM. simpl.
  assert (Hhe : halfEdgePool (st_mesh s1) = halfEdgePool (st_mesh s) /\
                edgePool (st_mesh s1) = edgePool (st_mesh s) /\
                facePool (st_mesh s1) = facePool (st_mesh s) /\
                m_vertices (st_mesh s1) = m_vertices (st_mesh s) /\
                m_edges (st_mesh s1) = m_edges (st_mesh s) /\
                m_faces (st_mesh s1) = m_faces (st_mesh s)).
  { destruct (optAddrEqb (v_leaving ox) (Some h)).
    - unfold Vertex.setLeaving in Hs. apply updVertex_eff in Hs as (y & _ & ->). done.
    - by apply ret_Ok in Hs as [_ ->]. }
  destruct Hhe as (E1 & E2 & E3 & E4 & E5 & E6). rewrite E1, E2, E3, E4, E5, E6.
  assert (Hv : forall v, vertexPool (st_mesh s1) !! v =
                 if decide (v = o) then
                   Some (if optAddrEqb (v_leaving ox) (Some h)
                         then mkVertex (v_position ox) None else ox)
                 else vertexPool (st_mesh s) !! v).
  { intros v. destruct (optAddrEqb (v_leaving ox) (Some h)).
    - unfold Vertex.setLeaving in Hs. apply updVertex_eff in Hs as (y & Hy & ->).
      simpl. rewrite Eo in Hy. injection Hy as <-.
      destruct (decide (v = o)) as [->|Hne].
      + by rewrite lookup_insert_eq.
      + by rewrite lookup_insert_ne.
    - apply ret_Ok in Hs as [_ ->]. destruct (decide (v = o)) as [->|Hne]; done. }
  split_and!; [|by eauto| by eauto| | | |by eauto..].
  - intros h' x' Hx'. apply lookup_delete_Some in Hx' as [_ Hx']. eauto 10.
  - intros v vx Hvx. rewrite Hv. destruct (decide (v = o)) as [->|Hne]; [|eauto].
    rewrite Eo in Hvx. injection Hvx as <-.
    destruct (optAddrEqb (v_leaving ox) (Some h)); simpl; eauto.
  - intros v. rewrite Hv. destruct (decide (v = o)) as [->|Hne]; [|done].
    intros _. by rewrite Eo.
  - intros v vx h0 Hvx Hlv [y Hy]. apply lookup_delete_Some in Hy as [Hne0 Hy].
    rewrite Hv. destruct (decide (v = o)) as [->|Hne]; [|eauto].
    rewrite Eo in Hvx. injection Hvx as <-.
    destruct (optAddrEqb (v_leaving ox) (Some h)) eqn:Eq; [|eauto].
    rewrite Hlv in Eq. apply bool_decide_eq_true in Eq. congruence.
Qed.

Lemma fades_deleteFacePool f :
  preserves fades (modifyMesh (withFacePool (base.delete f))).
Proof.
  apply preserves_modifyMesh. intros s.
  unfold fades, fadesM. simpl.
  split_and!; [by eauto 10| |by eauto 10..].
  intros f' fx Hf. apply lookup_delete_Some in Hf as [_ Hf]. done.
Qed.

Lemma fades_removeVertexFromList v : preserves fades (removeVertexFromList v).
Proof.
  apply fades_removeFromList. intros m. simpl.
  split_and!; try reflexivity; try done. intros w. apply removeAddr_elem.
Qed.

Lemma fades_removeEdgeFromList e : preserves fades (removeEdgeFromList e).
Proof.
  apply fades_removeFromList. intros m. simpl.
  split_and!; try reflexivity; try done. intros w. apply removeAddr_elem.
Qed.

Lemma fades_removeFaceFromList f : preserves fades (removeFaceFromList f).
Proof.
  apply fades_removeFromList. intros m. simpl.
  split_and!; try reflexivity; try done. intros w. apply removeAddr_elem.
Qed.

Lemma fades_faceWillBeDeleted f : preserves fades (faceWillBeDeleted f).
Proof.
  intros s u s' H. unfold faceWillBeDeleted in H. injection H as _ <-.
  unfold fades. simpl. reflexivity.
Qed.

Ltac fade_leaf :=
  lazymatch goal with
  | |- preserves fades (HalfEdge.unsetEdge _) => apply fades_unsetEdge
  | |- preserves fades (HalfEdge.delete _) => apply fades_HalfEdge_delete
  | |- preserves fades (updEdge _ _) => apply fades_updEdge
  | |- preserves fades (Edge.delete _) => apply fades_Edge_delete
  | |- preserves fades (removeVertexFromList _) => apply fades_removeVertexFromList
  | |- preserves fades (removeEdgeFromList _) => apply fades_removeEdgeFromList
  | |- preserves fades (removeFaceFromList _) => apply fades_removeFaceFromList
  | |- preserves fades (modifyMesh (withFacePool _)) => apply fades_deleteFacePool
  | |- preserves fades (faceWillBeDeleted _) => apply fades_faceWillBeDeleted
  end.

Ltac fading := repeat first [fade_leaf | pres_step].

Lemma fades_deleteFacesLoop recurse first n :
  (forall t acc, preserves fades (recurse t acc)) ->
  forall current acc, preserves fades (deleteFacesLoop recurse first n current acc).
Proof. intros Hr. induction n as [|n IH]; intros; simpl; fading. Qed.

Lemma fades_deleteFaces depth : forall first acc,
  preserves fades (deleteFaces depth first acc).
Proof.
  induction depth as [|depth IH]; intros; simpl; [fading|].
  pose proof (fun n => fades_deleteFacesLoop (deleteFaces depth) first n IH) as HL.
  fading.
Qed.

Lemma fullySpecified_inv e m b :
  Edge.fullySpecified e m = Ok b ->
  exists h1 o, edgePool m !! e = Some (mkEdge (Some h1) o) /\ b = bool_decide (o <> None).
Proof.
  unfold Edge.fullySpecified, Edge.firstEdge, Edge.first, Edge.second, edgeAt, rbind, rret.
  destruct (edgePool m !! e) as [[[h1|] o]|]; simpl; try discriminate.
  intros [= <-]. eauto.
Qed.

Lemma twin_other e h m t a b :
  edgePool m !! e = Some (mkEdge (Some a) (Some b)) -> a <> b ->
  Edge.twin e h m = Ok (Some t) ->
  (h = a /\ t = b) \/ (h = b /\ t = a).
Proof.
  intros He Hne. unfold Edge.twin, edgeAt, rbind, rret, rassert, optAddrEqb. rewrite He. simpl.
  destruct (decide (a = h)) as [->|Ha].
  - rewrite bool_decide_eq_true_2 by done. simpl. intros [= <-]. by left.
  - rewrite (bool_decide_eq_false_2 (Some a = Some h)) by congruence. simpl.
    destruct (decide (b = h)) as [->|Hb].
    + rewrite bool_decide_eq_true_2 by done. simpl. intros [= <-]. by right.
    + rewrite bool_decide_eq_false_2 by congruence. discriminate.
Qed.

(** The second visit of a fully specified edge: [makeSecondEdge] and
    [unsetSecondEdge]. *)
Lemma pass_full e current a b x s u s' :
  edgePool (st_mesh s) !! e = Some (mkEdge (Some a) (Some b)) -> a <> b ->
  current = a \/ current = b ->
  halfEdgePool (st_mesh s) !! current = Some x ->
  (run Edge.makeSecondEdge e current; Edge.unsetSecondEdge e) s = Ok (u, s') ->
  halfEdgePool (st_mesh s') =
    <[current := mkHalfEdge (h_origin x) None (h_face x) (h_next x) (h_previous x)]>
      (halfEdgePool (st_mesh s)) /\
  (forall e', e' <> e -> edgePool (st_mesh s') !! e' = edgePool (st_mesh s) !! e') /\
  edgePool (st_mesh s') !! e =
    Some (mkEdge (Some (if decide (current = a) then b else a)) None) /\
  facePool (st_mesh s') = facePool (st_mesh s) /\
  m_vertices (st_mesh s') = m_vertices (st_mesh s) /\
  m_edges (st_mesh s') = m_edges (st_mesh s) /\
  m_faces (st_mesh s') = m_faces (st_mesh s).
Proof.
  intros He Hne Hc Hx H.
  apply bind_Ok in H as ([] & sa & Hm & H).
  assert (Ha : exists ex, edgePool (st_mesh sa) !! e = Some ex /\
             e_second ex = Some current /\
             e_first ex = Some (if decide (current = a) then b else a) /\
             halfEdgePool (st_mesh sa) = halfEdgePool (st_mesh s) /\
             (forall e', e' <> e -> edgePool (st_mesh sa) !! e' = edgePool (st_mesh s) !! e') /\
             facePool (st_mesh sa) = facePool (st_mesh s) /\
             m_vertices (st_mesh sa) = m_vertices (st_mesh s) /\
             m_edges (st_mesh sa) = m_edges (st_mesh s) /\
             m_faces (st_mesh sa) = m_faces (st_mesh s)).
  { unfold Edge.makeSecondEdge in Hm.
    apply bind_Ok in Hm as (ex & s0 & Hex & Hm). apply read_Ok in Hex as [Hex ->].
    unfold edgeAt in Hex. rewrite He in Hex. injection Hex as <-. simpl in Hm.
    apply bind_Ok in Hm as ([] & s0 & Has & Hm). apply assert_Ok in Has as [_ ->].
    unfold optAddrEqb in Hm.
    destruct Hc as [->| ->].
    - rewrite bool_decide_eq_false_2 in Hm by congruence.
      apply flip_eff in Hm as (ex & Hex & ->). rewrite He in Hex. injection Hex as <-.
      simpl. rewrite decide_True by done.
      eexists. split; [apply lookup_insert_eq|]. simpl. split_and!; try done.
      intros e' He'. by rewrite lookup_insert_ne.
    - rewrite bool_decide_eq_true_2 in Hm by done.
      apply ret_Ok in Hm as [_ ->].
      rewrite decide_False by done.
      eexists. split; [exact He|]. simpl. split_and!; done. }
  destruct Ha as (ex & Hex & Hsec & Hfst & E1 & E2 & E3 & E4 & E5 & E6).
  unfold Edge.unsetSecondEdge in H.
  apply bind_Ok in H as (h2 & s0 & Hh2 & H). apply read_Ok in Hh2 as [Hh2 ->].
  assert (h2 = current) as ->.
  { revert Hh2. unfold Edge.secondEdge, Edge.second, edgeAt, rbind, rret.
    rewrite Hex. simpl. rewrite Hsec. by intros [= <-]. }
  apply bind_Ok in H as ([] & sb & Hu & H).
  unfold HalfEdge.unsetEdge, HalfEdge.setEdge in Hu.
  apply updHalfEdge_eff in Hu as (x2 & Hx2 & ->).
  apply updEdge_eff in H as (ex' & Hex' & ->). simpl in *.
  rewrite E1, Hx in Hx2. injection Hx2 as <-.
  rewrite Hex in Hex'. injection Hex' as <-.
  rewrite E1. split; [done|]. split.
  { intros e' He'. rewrite lookup_insert_ne by done. by apply E2. }
  split; [|done]. rewrite lookup_insert_eq. by rewrite Hfst.
Qed.

(** The second visit of an edge that has lost its other half-edge. *)
Lemma pass_half e current x s u s' :
  halfEdgePool (st_mesh s) !! current = Some x ->
  (run HalfEdge.unsetEdge current; run removeEdgeFromList e; Edge.delete e) s
    = Ok (u, s') ->
  halfEdgePool (st_mesh s') =
    <[current := mkHalfEdge (h_origin x) None (h_face x) (h_next x) (h_previous x)]>
      (halfEdgePool (st_mesh s)) /\
  (forall e', e' <> e -> edgePool (st_mesh s') !! e' = edgePool (st_mesh s) !! e') /\
  edgePool (st_mesh s') !! e = None /\
  facePool (st_mesh s') = facePool (st_mesh s) /\
  m_vertices (st_mesh s') = m_vertices (st_mesh s) /\
  m_edges (st_mesh s') = removeAddr e (m_edges (st_mesh s)) /\
  m_faces (st_mesh s') = m_faces (st_mesh s).
Proof.
  intros Hx H.
  apply bind_Ok in H as ([] & sa & Hu & H).
  unfold HalfEdge.unsetEdge, HalfEdge.setEdge in Hu.
  apply updHalfEdge_eff in Hu as (x2 & Hx2 & ->).
  rewrite Hx in Hx2. injection Hx2 as <-.
  apply bind_Ok in H as ([] & sb & Hr & H). apply modifyMesh_Ok in Hr as ->.
  unfold Edge.delete in H.
  apply bind_Ok in H as (y & s0 & Hy & H). apply read_Ok in Hy as [_ ->].
  apply modifyMesh_Ok in H as ->. simpl.
  split_and!; try done.
  - intros e' He'. by rewrite lookup_delete_ne.
  - by rewrite lookup_delete_eq.
Qed.

Lemma HalfEdge_delete_pool h s u s' :
  HalfEdge.delete h s = Ok (u, s') ->
  is_Some (halfEdgePool (st_mesh s) !! h) /\
  halfEdgePool (st_mesh s') = base.delete h (halfEdgePool (st_mesh s)) /\
  edgePool (st_mesh s') = edgePool (st_mesh s) /\
  facePool (st_mesh s') = facePool (st_mesh s) /\
  m_vertices (st_mesh s') = m_vertices (st_mesh s) /\
  m_edges (st_mesh s') = m_edges (st_mesh s) /\
  m_faces (st_mesh s') = m_faces (st_mesh s).
Proof.
  unfold HalfEdge.delete. intros H.
  apply bind_Ok in H as (o & s1 & Ho & H). apply read_Ok in Ho as [Ho ->].
  apply bind_Ok in H as (l & s1 & Hl & H). apply read_Ok in Hl as [Hl ->].
  apply bind_Ok in H as ([] & s1 & Hs & H). apply modifyMesh_Ok in H as ->.
  apply halfEdge_field in Ho as (x & Hx & _).
  split; [eauto|]. simpl.
  destruct (optAddrEqb l (Some h)).
  - unfold Vertex.setLeaving in Hs. apply updVertex_eff in Hs as (y & _ & ->). done.
  - by apply ret_Ok in Hs as [_ ->].
Qed.

Lemma forEach_HalfEdge_delete_pool bd : forall s u s',
  forEach bd HalfEdge.delete s = Ok (u, s') ->
  (forall h, h ∉ bd -> halfEdgePool (st_mesh s') !! h = halfEdgePool (st_mesh s) !! h) /\
  (forall h, h ∈ bd -> halfEdgePool (st_mesh s') !! h = None /\
                       is_Some (halfEdgePool (st_mesh s) !! h)) /\
  edgePool (st_mesh s') = edgePool (st_mesh s) /\
  facePool (st_mesh s') = facePool (st_mesh s) /\
  m_vertices (st_mesh s') = m_vertices (st_mesh s) /\
  m_edges (st_mesh s') = m_edges (st_mesh s) /\
  m_faces (st_mesh s') = m_faces (st_mesh s).
Proof.
  induction bd as [|h bd IH]; intros s u s' H; simpl in H.
  - apply ret_Ok in H as [_ ->]. split_and!; try done. intros h Hh. by apply elem_of_nil in Hh.
  - apply bind_Ok in H as ([] & sa & Hd & H).
    pose proof (fades_HalfEdge_delete _ _ _ _ Hd) as Hf.
    apply HalfEdge_delete_pool in Hd as (L & E1 & E2 & E3 & E4 & E5 & E6).
    apply IH in H as (A & B & C2 & C3 & C4 & C5 & C6).
    split_and!; try congruence.
    + intros h' Hh'. apply not_elem_of_cons in Hh' as [Hne Hh'].
      rewrite (A h' Hh'), E1. by rewrite lookup_delete_ne.
    + intros h' Hh'. destruct (decide (h' ∈ bd)) as [Hin|Hnin].
      * destruct (B h' Hin) as [B1 [y B2]]. split; [done|].
        rewrite E1 in B2. apply lookup_delete_Some in B2 as [_ B2]. eauto.
      * apply elem_of_cons in Hh' as [->|Hh']; [|done].
        rewrite (A h Hnin), E1. rewrite lookup_delete_eq. done.
Qed.

Section Removal.

Variable keep : option Address -> Prop.
Variable m1 : Mesh.
Hypothesis Hown : facesOwnBoundaries m1.
Hypothesis Hknow : edgesKnowHalves m1.
Hypothesis Hsides : sidesAgree keep m1.
Hypothesis Hfull : lostEdgesFull keep m1.
Hypothesis Hhalves : halvesKnowEdge m1.
Hypothesis Hcycle : faceCycles m1.

Lemma pendingB_fades m m' h : fadesM m m' -> pendingB m h = false -> pendingB m' h = false.
Proof.
  intros (F1 & _) H. unfold pendingB in *.
  destruct (halfEdgePool m' !! h) as [x'|] eqn:E; [|done].
  destruct (F1 h x' E) as (x & Hx & _ & _ & _ & He). rewrite Hx in H.
  destruct He as [He|He]; rewrite He; [exact H|done].
Qed.

Lemma passed_fades vs vs' m m' h :
  fadesM m m' -> (forall v, v ∈ vs -> v ∈ vs') ->
  passed m1 vs m h -> passed m1 vs' m' h.
Proof.
  intros F Hvs [P1 P2]. split; [by eapply pendingB_fades|].
  intros x vx Hx Hvx Hl. destruct (P2 x vx Hx Hvx Hl) as [A B].
  split; [auto|]. intros Hin. apply B.
  destruct F as (_ & _ & _ & _ & _ & _ & F7 & _). auto.
Qed.

Lemma pendingB_true m h :
  pendingB m h = true <-> exists x e, halfEdgePool m !! h = Some x /\ h_edge x = Some e.
Proof.
  unfold pendingB. split.
  - destruct (halfEdgePool m !! h) as [x|]; [|done].
    destruct (h_edge x) as [e|] eqn:E; [eauto|done].
  - intros (x & e & -> & ->). done.
Qed.

Lemma remaining_full m a b c d :
  a <> b -> remaining m a b = Some (mkEdge (Some c) (Some d)) ->
  c = a /\ d = b /\ pendingB m a = true /\ pendingB m b = true.
Proof.
  unfold remaining. destruct (pendingB m a), (pendingB m b); intros Hne [=]; subst; done.
Qed.

Lemma remaining_half m a b c :
  remaining m a b = Some (mkEdge (Some c) None) ->
  (c = a /\ pendingB m a = true /\ pendingB m b = false) \/
  (c = b /\ pendingB m a = false /\ pendingB m b = true).
Proof.
  unfold remaining. destruct (pendingB m a), (pendingB m b); intros [=]; subst; auto.
Qed.

(** Visiting one more face. *)
Lemma removalInv_visit V vs m g :
  removalInv keep m1 (V, vs) m -> ~ keep (Some g) -> is_Some (facePool m !! g) ->
  removalInv keep m1 ({[g]} ∪ V, vs) m.
Proof.
  intros (K & I3 & I4 & I5 & I6 & I7 & I8 & I9) Hg Hlive. unfold removalInv. simpl in *.
  split_and!; [exact K| | |exact I5| | | |exact I9].
  - intros f Hf Hd. destruct (I3 f Hf Hd). split; [apply elem_of_union; by right|done].
  - intros f Hf. apply elem_of_union in Hf as [Hf|Hf]; [|auto].
    apply elem_of_singleton in Hf as ->. exact Hg.
  - intros e a b xa xb He Ha Hb Hp.
    destruct (I6 e a b xa xb He Ha Hb Hp) as (fa & fb & A & B & C & D).
    exists fa, fb. split_and!; [done|done|apply elem_of_union; by right..].
  - intros f h x Hf Hd Hx Hxf. apply elem_of_union in Hf as [Hf|Hf].
    + apply elem_of_singleton in Hf as ->. rewrite Hd in Hlive. by destruct Hlive.
    + by apply (I7 f h x).
  - intros v Hv. destruct (I8 v Hv) as (vx & h & x & f & A & B & C & D & E).
    exists vx, h, x, f. split_and!; try done. apply elem_of_union; by right.
Qed.

(** Passing the half-edge [current] of the edge [e]. *)
Lemma removalInv_pass acc m m' current xc x e a b :
  removalInv keep m1 acc m -> fadesM m m' ->
  halfEdgePool m1 !! current = Some xc -> h_edge xc = Some e ->
  edgePool m1 !! e = Some (mkEdge (Some a) (Some b)) ->
  halfEdgePool m !! current = Some x ->
  halfEdgePool m' =
    <[current := mkHalfEdge (h_origin x) None (h_face x) (h_next x) (h_previous x)]>
      (halfEdgePool m) ->
  (forall e', e' <> e -> edgePool m' !! e' = edgePool m !! e') ->
  edgePool m' !! e = remaining m' a b ->
  (pendingB m' a = false -> pendingB m' b = false -> e ∉ m_edges m') ->
  facePool m' = facePool m -> m_vertices m' = m_vertices m -> m_faces m' = m_faces m ->
  (forall xa xb, halfEdgePool m1 !! a = Some xa -> halfEdgePool m1 !! b = Some xb ->
     exists fa fb, h_face xa = Some fa /\ h_face xb = Some fb /\
                   fa ∈ acc.1 /\ fb ∈ acc.1) ->
  removalInv keep m1 acc m'.
Proof.
  intros (K & I3 & I4 & I5 & I6 & I7 & I8 & I9) F Hc Hce He Hx EH EE Ee El EF EV EL Hfaces.
  assert (Hp : forall h, h <> current -> pendingB m' h = pendingB m h).
  { intros h Hne. unfold pendingB. rewrite EH. by rewrite lookup_insert_ne. }
  assert (Hother : forall e' a' b', e' <> e ->
            edgePool m1 !! e' = Some (mkEdge (Some a') (Some b')) ->
            a' <> current /\ b' <> current).
  { intros e' a' b' Hne He'. destruct (Hhalves e' a' b' He') as (_ & (xa & Ha & Hae) & (xb & Hb & Hbe)).
    split; intros ->; congruence. }
  unfold removalInv. split_and!.
  - intros h y f Hy Hyf Hf. rewrite EF in Hf. destruct (K h y f Hy Hyf Hf) as [z Hz].
    rewrite EH. destruct (decide (h = current)) as [->|Hne].
    + rewrite lookup_insert_eq. eauto.
    + rewrite lookup_insert_ne by done. eauto.
  - intros f Hf Hd. rewrite EF in Hd. rewrite EL. by apply I3.
  - exact I4.
  - intros e' a' b' He'. destruct (decide (e' = e)) as [->|Hne].
    + rewrite He in He'. injection He' as <- <-. done.
    + destruct (Hother e' a' b' Hne He') as [Ha Hb].
      destruct (I5 e' a' b' He') as [A B].
      rewrite (EE e' Hne). unfold remaining. rewrite !Hp by done. split; [exact A|].
      intros P1 P2 Hin. apply (B P1 P2).
      destruct F as (_ & _ & _ & _ & _ & _ & _ & F8 & _). auto.
  - intros e' a' b' xa xb He' Ha Hb Hpp. destruct (decide (e' = e)) as [->|Hne].
    + rewrite He in He'. injection He' as <- <-. by apply Hfaces.
    + destruct (Hother e' a' b' Hne He') as [Ha' Hb'].
      rewrite !Hp in Hpp by done. by apply (I6 e' a' b').
  - intros f h y Hf Hd Hy Hyf. rewrite EF in Hd.
    eapply passed_fades; [exact F|done|]. by apply (I7 f h y).
  - exact I8.
  - intros v Hv. rewrite EV. by apply I9.
Qed.

(** Taking the vertex [o] off the list. *)
Lemma removalInv_schedule V vs m m' o vx h x f :
  removalInv keep m1 (V, vs) m ->
  vertexPool m1 !! o = Some vx -> v_leaving vx = Some h ->
  halfEdgePool m1 !! h = Some x -> h_face x = Some f -> f ∈ V ->
  halfEdgePool m' = halfEdgePool m -> edgePool m' = edgePool m ->
  facePool m' = facePool m -> m_vertices m' = removeAddr o (m_vertices m) ->
  m_edges m' = m_edges m -> m_faces m' = m_faces m ->
  removalInv keep m1 (V, vs ++ [o]) m'.
Proof.
  intros (K & I3 & I4 & I5 & I6 & I7 & I8 & I9) Hvx Hl Hx Hf HV EH EE EF EV EL EM.
  assert (Hp : forall h', pendingB m' h' = pendingB m h').
  { intros h'. unfold pendingB. by rewrite EH. }
  unfold removalInv. simpl in *. rewrite EH, EE, EF, EL, EM.
  split_and!; [exact K|exact I3|exact I4| |  | | |].
  - intros e a b He. unfold remaining. rewrite !Hp. by apply I5.
  - intros e a b xa xb He Ha Hb. rewrite !Hp. by apply (I6 e a b).
  - intros f' h' y Hf' Hd Hy Hyf. destruct (I7 f' h' y Hf' Hd Hy Hyf) as [P1 P2].
    split; [by rewrite Hp|]. intros y' vx' Hy' Hvx' Hl'.
    destruct (P2 y' vx' Hy' Hvx' Hl') as [A B]. split; [apply elem_of_app; by left|].
    rewrite EV. intros Hin. apply B. by eapply removeAddr_elem.
  - intros v Hv. apply elem_of_app in Hv as [Hv|Hv]; [by apply I8|].
    apply list_elem_of_singleton in Hv as ->. exists vx, h, x, f. done.
  - intros v Hv. rewrite EV. destruct (decide (v = o)) as [->|Hne].
    + right. apply elem_of_app. right. by apply list_elem_of_singleton.
    + destruct (I9 v Hv) as [A|A]; [left; by apply elem_of_removeAddr|right; apply elem_of_app; by left].
Qed.

Lemma removalStep_refl acc s :
  removalInv keep m1 acc (st_mesh s) -> removalStep keep m1 acc s acc s.
Proof. intros I. unfold removalStep. split_and!; try done. Qed.

Lemma removalStep_trans acc s acc1 s1 acc2 s2 :
  removalStep keep m1 acc s acc1 s1 -> removalStep keep m1 acc1 s1 acc2 s2 ->
  removalStep keep m1 acc s acc2 s2.
Proof.
  intros (A1 & A2 & A3 & A4 & A5 & A6) (B1 & B2 & B3 & B4 & B5 & B6).
  unfold removalStep. split_and!.
  - by etrans.
  - exact B2.
  - by etrans.
  - auto.
  - intros f Hf Hn. destruct (decide (f ∈ acc1.1)) as [Hin|Hnin]; [|by apply B5].
    pose proof (A5 f Hin Hn) as Hd.
    destruct (facePool (st_mesh s2) !! f) as [fx|] eqn:E; [|done].
    destruct B1 as (_ & F2 & _). rewrite (F2 f fx E) in Hd. discriminate.
  - intros f Hf Hl. apply B6; [by apply A3|by apply A6].
Qed.

Lemma removalStep_simple acc s acc' s' :
  fades s s' -> removalInv keep m1 acc' (st_mesh s') ->
  acc'.1 = acc.1 -> (forall v, v ∈ acc.2 -> v ∈ acc'.2) ->
  facePool (st_mesh s') = facePool (st_mesh s) ->
  removalStep keep m1 acc s acc' s'.
Proof.
  intros F I E1 E2 EF. unfold removalStep. rewrite E1, EF. split_and!; try done.
Qed.

Lemma untouched_trans V V' m ma mb :
  V ⊆ V' -> untouched m1 V m ma -> untouched m1 V' ma mb -> untouched m1 V m mb.
Proof.
  intros Hs A B h x f Hx Hf Hin. rewrite (B h x f Hx Hf) by auto. by apply (A h x f).
Qed.

Lemma walk_or_wrap first : forall i c h,
  iterNext m1 i c = Some h ->
  walk m1 first c h \/ exists j, (j < i)%nat /\ iterNext m1 j first = Some h.
Proof.
  induction i as [|i IH]; intros c h H; simpl in H.
  - injection H as ->. left. constructor.
  - destruct (halfEdgePool m1 !! c) as [x|] eqn:E; [|discriminate].
    destruct (decide (h_next x = first)) as [Heq|Hne].
    + right. exists i. rewrite <- Heq. split; [lia|done].
    + destruct (IH _ _ H) as [Hw|(j & Hj & Hi)].
      * left. by eapply walk_next.
      * right. exists j. split; [lia|done].
Qed.

Lemma walk_complete first : forall i h,
  iterNext m1 i first = Some h -> walk m1 first first h.
Proof.
  induction i as [i IH] using lt_wf_ind. intros h H.
  destruct (walk_or_wrap first i first h H) as [Hw|(j & Hj & Hi)]; [done|].
  by apply (IH j).
Qed.

Lemma walk_face first g : forall h,
  (forall x, halfEdgePool m1 !! first = Some x -> h_face x = Some g) ->
  is_Some (halfEdgePool m1 !! first) ->
  forall x, halfEdgePool m1 !! h = Some x -> h_face x = Some g ->
  walk m1 first first h.
Proof.
  intros h Hf [xf Hxf] x Hx Hg.
  destruct (Hcycle first h xf x g Hxf Hx (Hf xf Hxf) Hg) as [i Hi].
  by apply (walk_complete first i).
Qed.

(** Deleting the face [g] once all its half-edges are passed. *)
Lemma removalInv_deleteFace acc m m' g bd :
  removalInv keep m1 acc m -> fadesM m1 m -> g ∈ acc.1 ->
  facePool m !! g = Some (mkFace bd) ->
  (forall h x, halfEdgePool m1 !! h = Some x -> h_face x = Some g ->
     passed m1 acc.2 m h) ->
  (forall h, h ∉ bd -> halfEdgePool m' !! h = halfEdgePool m !! h) ->
  (forall h, h ∈ bd -> halfEdgePool m' !! h = None /\ is_Some (halfEdgePool m !! h)) ->
  edgePool m' = edgePool m -> facePool m' = base.delete g (facePool m) ->
  m_vertices m' = m_vertices m -> m_edges m' = m_edges m ->
  m_faces m' = removeAddr g (m_faces m) ->
  removalInv keep m1 acc m' /\ forall h, pendingB m' h = pendingB m h.
Proof.
  intros (K & I3 & I4 & I5 & I6 & I7 & I8 & I9) F Hg Hbd Hpass A B EE EF EV EL EM.
  pose proof F as (F1 & F2 & _).
  assert (Hbdface : forall h, h ∈ bd ->
            exists x, halfEdgePool m1 !! h = Some x /\ h_face x = Some g).
  { intros h Hh. destruct (B h Hh) as [_ [y Hy]].
    destruct (F1 h y Hy) as (x & Hx & _). exists x. split; [done|].
    destruct Hown as [Ho _]. by apply (Ho g bd h x (F2 g _ Hbd)). }
  assert (Hp : forall h, pendingB m' h = pendingB m h).
  { intros h. destruct (decide (h ∈ bd)) as [Hin|Hnin].
    - destruct (Hbdface h Hin) as (x & Hx & Hxf).
      destruct (Hpass h x Hx Hxf) as [-> _].
      unfold pendingB. by rewrite (proj1 (B h Hin)).
    - unfold pendingB. by rewrite (A h Hnin). }
  split; [|exact Hp].
  unfold removalInv. rewrite EE, EV, EL.
  split_and!.
  - intros h x f Hx Hxf Hf. rewrite EF in Hf. destruct Hf as [fx Hf].
    apply lookup_delete_Some in Hf as [Hne Hf].
    destruct (decide (h ∈ bd)) as [Hin|Hnin].
    + destruct (Hbdface h Hin) as (x' & Hx' & Hxf'). congruence.
    + rewrite (A h Hnin). apply (K h x f Hx Hxf). eauto.
  - intros f Hf Hd. rewrite EF in Hd. rewrite EM.
    destruct (decide (f = g)) as [->|Hne].
    + split; [done|]. unfold removeAddr. rewrite list_elem_of_filter. tauto.
    + rewrite lookup_delete_ne in Hd by done. destruct (I3 f Hf Hd) as [I3a I3b].
      split; [done|]. intros Hin. apply I3b. by eapply removeAddr_elem.
  - exact I4.
  - intros e a b He. unfold remaining. rewrite !Hp. by apply I5.
  - intros e a b xa xb He Ha Hb. rewrite !Hp. by apply (I6 e a b).
  - intros f h x Hf Hd Hx Hxf. rewrite EF in Hd.
    assert (Hpm : passed m1 acc.2 m h).
    { destruct (decide (f = g)) as [->|Hne]; [by apply (Hpass h x)|].
      rewrite lookup_delete_ne in Hd by done. by apply (I7 f h x). }
    destruct Hpm as [P1 P2]. split; [by rewrite Hp|]. by rewrite EV.
  - exact I8.
  - exact I9.
Qed.

(** One boundary half-edge with an edge: the recursion into the other side
    and what is done to the edge. *)
Lemma edgePhase_removes
    (recurse : Address -> gset positive * list Address -> M (gset positive * list Address))
    g current xc x e acc s acc1 sa :
  (forall t xt acc s acc' s',
     halfEdgePool m1 !! t = Some xt -> ~ keep (h_face xt) ->
     fadesM m1 (st_mesh s) -> removalInv keep m1 acc (st_mesh s) ->
     recurse t acc s = Ok (acc', s') ->
     removalStep keep m1 acc s acc' s' /\
     untouched m1 acc.1 (st_mesh s) (st_mesh s') /\
     exists ft, h_face xt = Some ft /\ ft ∈ acc'.1) ->
  ~ keep (Some g) ->
  halfEdgePool m1 !! current = Some xc -> h_face xc = Some g ->
  g ∈ acc.1 -> is_Some (facePool (st_mesh s) !! g) ->
  fadesM m1 (st_mesh s) -> removalInv keep m1 acc (st_mesh s) ->
  halfEdgePool (st_mesh s) !! current = Some x -> h_edge x = Some e ->
  (do fs <- read (Edge.fullySpecified e);
   do acc <-
     (if fs
      then do ot <- read (Edge.twin e current);
           do t <- read (deref ot);
           recurse t acc
      else ret acc);
   do fs <- read (Edge.fullySpecified e);
   run (if fs
        then run Edge.makeSecondEdge e current;
             Edge.unsetSecondEdge e
        else run HalfEdge.unsetEdge current;
             run removeEdgeFromList e;
             Edge.delete e);
   ret acc) s = Ok (acc1, sa) ->
  removalStep keep m1 acc s acc1 sa /\
  untouched m1 (acc.1 ∖ {[g]}) (st_mesh s) (st_mesh sa) /\
  pendingB (st_mesh sa) current = false.
Proof.
  intros Hrec Hg Hxc Hxcf Hgin Hglive F I Hx Hxe H.
  apply bind_Ok in H as (fs & s0 & Hfs & H). apply read_Ok in Hfs as [Hfs ->].
  apply bind_Ok in H as (acc2 & sr & Hr & H).
  apply bind_Ok in H as (fs' & s0 & Hfs' & H). apply read_Ok in Hfs' as [Hfs' ->].
  apply bind_Ok in H as ([] & sb & Hmod & H). apply ret_Ok in H as [-> ->].
  (* the edge in the mesh the deletion started from *)
  pose proof F as (F1 & F2 & F3 & _).
  destruct (F1 current x Hx) as (xc' & Hxc' & _ & _ & _ & Hedge).
  rewrite Hxc in Hxc'. injection Hxc' as <-.
  assert (Hxce : h_edge xc = Some e).
  { destruct Hedge as [Hedge|Hedge]; congruence. }
  apply fullySpecified_inv in Hfs as (h1 & o & Hex & ->).
  destruct (F3 e (mk_is_Some _ _ Hex)) as [ex1 Hex1].
  assert (Hnk : ~ keep (h_face xc)) by (by rewrite Hxcf).
  destruct (Hfull current xc e ex1 Hxc Hxce Hnk Hex1) as (a & b & ->).
  assert (Hab : current = a \/ current = b).
  { destruct (Hknow current xc e _ Hxc Hxce Hex1) as [Hh|Hh]; simpl in Hh;
      injection Hh as ->; auto. }
  destruct (Hhalves e a b Hex1) as (Hne & (xa & Hxa & Hxae) & (xb & Hxb & Hxbe)).
  pose proof I as (K & I3 & I4 & I5 & I6 & I7 & I8 & I9).
  destruct (I5 e a b Hex1) as [Hrem _].
  assert (Hpc : pendingB (st_mesh s) current = true).
  { apply pendingB_true. eauto. }
  (* the recursion *)
  assert (R : removalStep keep m1 acc s acc2 sr /\
              untouched m1 acc.1 (st_mesh s) (st_mesh sr) /\
              forall xa' xb', halfEdgePool m1 !! a = Some xa' ->
                halfEdgePool m1 !! b = Some xb' ->
                exists fa fb, h_face xa' = Some fa /\ h_face xb' = Some fb /\
                              fa ∈ acc2.1 /\ fb ∈ acc2.1).
  { rewrite Hex in Hrem. destruct o as [d|].
    - rewrite (bool_decide_eq_true_2 (Some d <> None)) in Hr by done.
      symmetry in Hrem. apply remaining_full in Hrem as (-> & -> & Pa & Pb); [|done].
      apply bind_Ok in Hr as (ot & s0 & Hot & Hr). apply read_Ok in Hot as [Hot ->].
      apply bind_Ok in Hr as (t & s0 & Ht & Hr). apply read_Ok in Ht as [Ht ->].
      apply deref_Ok in Ht as ->.
      destruct (twin_other e current (st_mesh s) t a b Hex Hne Hot) as [[-> ->]|[-> ->]].
      + assert (Hnt : ~ keep (h_face xb)).
        { intros Hk. apply Hnk.
          apply (Hsides e _ b a xb xc Hex1); [by right|by left|done|done|done]. }
        destruct (Hrec b xb acc s acc2 sr Hxb Hnt F I Hr) as (RS & UT & ft & Hft & Hin).
        split; [done|]. split; [done|]. intros xa' xb' Ha' Hb'.
        rewrite Hxc in Ha'. injection Ha' as <-. rewrite Hxb in Hb'. injection Hb' as <-.
        exists g, ft. split_and!; try done. destruct RS as (_ & _ & Sub & _). by apply Sub.
      + assert (Hnt : ~ keep (h_face xa)).
        { intros Hk. apply Hnk.
          apply (Hsides e _ a b xa xc Hex1); [by left|by right|done|done|done]. }
        destruct (Hrec a xa acc s acc2 sr Hxa Hnt F I Hr) as (RS & UT & ft & Hft & Hin).
        split; [done|]. split; [done|]. intros xa' xb' Ha' Hb'.
        rewrite Hxc in Hb'. injection Hb' as <-. rewrite Hxa in Ha'. injection Ha' as <-.
        exists ft, g. split_and!; try done. destruct RS as (_ & _ & Sub & _). by apply Sub.
    - rewrite (bool_decide_eq_false_2 (@None Address <> None)) in Hr
        by (intros Hn; by apply Hn).
      apply ret_Ok in Hr as [-> ->].
      split; [by apply removalStep_refl|]. split; [by intros h y f _ _ _|].
      intros xa' xb' Ha' Hb'. apply (I6 e a b xa' xb' Hex1 Ha' Hb').
      symmetry in Hrem. apply remaining_half in Hrem as [(_ & _ & ->)|(_ & -> & _)];
        [apply andb_false_r|done]. }
  destruct R as (RS & UT & FV).
  pose proof RS as (Fd & I' & Sub & Vs & P5 & P6).
  assert (F' : fadesM m1 (st_mesh sr)) by (etrans; [exact F|exact Fd]).
  pose proof I' as (K' & _ & _ & I5' & _).
  destruct (K' current xc g Hxc Hxcf (P6 g Hgin Hglive)) as [xr Hxr].
  assert (Hpr : pendingB (st_mesh sr) current = true).
  { rewrite (UT current xc g Hxc Hxcf Hgin). exact Hpc. }
  destruct (I5' e a b Hex1) as [Hrem' _].
  apply fullySpecified_inv in Hfs' as (h1' & o' & Hex' & ->).
  rewrite Hex' in Hrem'.
  (* what is done to the edge *)
  assert (U : fades sr sb /\
              (forall h, h <> current -> pendingB (st_mesh sb) h = pendingB (st_mesh sr) h) /\
              pendingB (st_mesh sb) current = false /\
              facePool (st_mesh sb) = facePool (st_mesh sr) /\
              removalInv keep m1 acc2 (st_mesh sb)).
  { assert (Hfd : fades sr sb).
    { destruct (bool_decide (o' <> None)).
      - assert (Hp : preserves fades (run Edge.makeSecondEdge e current; Edge.unsetSecondEdge e))
          by fading.
        exact (Hp _ _ _ Hmod).
      - assert (Hp : preserves fades (run HalfEdge.unsetEdge current;
                                      run removeEdgeFromList e; Edge.delete e))
          by fading.
        exact (Hp _ _ _ Hmod). }
    split; [exact Hfd|].
    assert (Hins : forall mb, halfEdgePool mb =
              <[current := mkHalfEdge (h_origin xr) None (h_face xr) (h_next xr) (h_previous xr)]>
                (halfEdgePool (st_mesh sr)) ->
              (forall h, h <> current -> pendingB mb h = pendingB (st_mesh sr) h) /\
              pendingB mb current = false).
    { intros mb EH. split.
      - intros h Hh. unfold pendingB. rewrite EH. by rewrite lookup_insert_ne.
      - unfold pendingB. rewrite EH. by rewrite lookup_insert_eq. }
    destruct o' as [d'|].
    - rewrite (bool_decide_eq_true_2 (Some d' <> None)) in Hmod by done.
      symmetry in Hrem'. apply remaining_full in Hrem' as (-> & -> & Pa & Pb); [|done].
      destruct (pass_full e current a b xr sr tt sb Hex' Hne Hab Hxr Hmod)
        as (EH & EE & Ee & EF & EV & EL & EM).
      destruct (Hins _ EH) as [Hp1 Hp2].
      split; [exact Hp1|]. split; [exact Hp2|]. split; [exact EF|].
      apply (removalInv_pass acc2 (st_mesh sr) (st_mesh sb) current xc xr e a b
               I' Hfd Hxc Hxce Hex1 Hxr EH EE); [| |exact EF|exact EV|exact EM|exact FV].
      + rewrite Ee. unfold remaining. destruct Hab as [-> | ->].
        * rewrite Hp2, (Hp1 b) by done. rewrite Pb. by rewrite decide_True.
        * rewrite Hp2, (Hp1 a) by done. rewrite Pa. by rewrite decide_False.
      + destruct Hab as [-> | ->].
        * intros _ Hb'. rewrite (Hp1 b) in Hb' by done. congruence.
        * intros Ha' _. rewrite (Hp1 a) in Ha' by done. congruence.
    - rewrite (bool_decide_eq_false_2 (@None Address <> None)) in Hmod
        by (intros Hn; by apply Hn).
      destruct (pass_half e current xr sr tt sb Hxr Hmod)
        as (EH & EE & Ee & EF & EV & EL & EM).
      destruct (Hins _ EH) as [Hp1 Hp2].
      split; [exact Hp1|]. split; [exact Hp2|]. split; [exact EF|].
      symmetry in Hrem'.
      assert (Hboth : pendingB (st_mesh sb) a = false /\ pendingB (st_mesh sb) b = false).
      { apply remaining_half in Hrem' as [(_ & Pa & Pb)|(_ & Pa & Pb)].
        - destruct Hab as [-> | ->]; [|congruence].
          split; [exact Hp2|]. by rewrite (Hp1 b).
        - destruct Hab as [-> | ->]; [congruence|].
          split; [|exact Hp2]. by rewrite (Hp1 a). }
      destruct Hboth as [Pa' Pb'].
      apply (removalInv_pass acc2 (st_mesh sr) (st_mesh sb) current xc xr e a b
               I' Hfd Hxc Hxce Hex1 Hxr EH EE); [| |exact EF|exact EV|exact EM|exact FV].
      + rewrite Ee. unfold remaining. by rewrite Pa', Pb'.
      + intros _ _. rewrite EL. unfold removeAddr. rewrite list_elem_of_filter. tauto. }
  destruct U as (Fu & Hp1 & Hp2 & EF & Iu).
  split; [|split; [|exact Hp2]].
  - eapply removalStep_trans; [exact RS|].
    apply removalStep_simple; try done.
  - intros h y f Hy Hyf Hf. apply elem_of_difference in Hf as [Hf Hng].
    rewrite Hp1.
    + by apply (UT h y f).
    + intros ->. rewrite Hxc in Hy. injection Hy as <-.
      rewrite Hxcf in Hyf. injection Hyf as <-. apply Hng. by apply elem_of_singleton.
Qed.

(** The loop of [deleteFaces] around the face [g], from [current] on. *)
Lemma deleteFacesLoop_removes
    (recurse : Address -> gset positive * list Address -> M (gset positive * list Address))
    first g :
  (forall t xt acc s acc' s',
     halfEdgePool m1 !! t = Some xt -> ~ keep (h_face xt) ->
     fadesM m1 (st_mesh s) -> removalInv keep m1 acc (st_mesh s) ->
     recurse t acc s = Ok (acc', s') ->
     removalStep keep m1 acc s acc' s' /\
     untouched m1 acc.1 (st_mesh s) (st_mesh s') /\
     exists ft, h_face xt = Some ft /\ ft ∈ acc'.1) ->
  ~ keep (Some g) ->
  forall n current acc s acc' s',
    (forall xc, halfEdgePool m1 !! current = Some xc -> h_face xc = Some g) ->
    g ∈ acc.1 -> is_Some (facePool (st_mesh s) !! g) ->
    fadesM m1 (st_mesh s) -> removalInv keep m1 acc (st_mesh s) ->
    deleteFacesLoop recurse first n current acc s = Ok (acc', s') ->
    removalStep keep m1 acc s acc' s' /\
    untouched m1 (acc.1 ∖ {[g]}) (st_mesh s) (st_mesh s') /\
    forall h, walk m1 first current h -> passed m1 acc'.2 (st_mesh s') h.
Proof.
  intros Hrec Hg. induction n as [|n IH];
    intros current acc s acc' s' Hcf Hgin Hglive F I H; simpl in H; [discriminate|].
  apply bind_Ok in H as (oedge & s0 & Hoe & H). apply read_Ok in Hoe as [Hoe ->].
  apply halfEdge_field in Hoe as (x & Hx & Hxe).
  pose proof F as (F1 & _).
  destruct (F1 current x Hx) as (xc & Hxc & Ef & En & Eo & _).
  pose proof (Hcf xc Hxc) as Hxcf.
  apply bind_Ok in H as (acc1 & sa & Hedge & H).
  (* the edge of the half-edge *)
  assert (EP : removalStep keep m1 acc s acc1 sa /\
               untouched m1 (acc.1 ∖ {[g]}) (st_mesh s) (st_mesh sa) /\
               pendingB (st_mesh sa) current = false).
  { destruct oedge as [e|].
    - exact (edgePhase_removes recurse g current xc x e acc s acc1 sa
               Hrec Hg Hxc Hxcf Hgin Hglive F I Hx Hxe Hedge).
    - apply ret_Ok in Hedge as [-> ->].
      split; [by apply removalStep_refl|]. split; [by intros h y f _ _ _|].
      unfold pendingB. by rewrite Hx, Hxe. }
  destruct EP as (RS1 & UT1 & Pc).
  pose proof RS1 as (Fd1 & I1 & Sub1 & Vs1 & P51 & P61).
  assert (Fa : fadesM m1 (st_mesh sa)) by (etrans; [exact F|exact Fd1]).
  assert (Hgin1 : g ∈ acc1.1) by (by apply Sub1).
  pose proof (P61 g Hgin Hglive) as Hglive1.
  (* the origin of the half-edge *)
  apply bind_Ok in H as (origin & s0 & Ho & H). apply read_Ok in Ho as [Ho ->].
  apply halfEdge_field in Ho as (xa & Hxa & Hxo).
  pose proof Fa as (Fa1 & _ & _ & Fa4 & Fa5 & Fa6 & _).
  destruct (Fa1 current xa Hxa) as (xc' & Hxc' & _ & Ena & Eoa & _).
  rewrite Hxc in Hxc'. injection Hxc' as <-.
  apply bind_Ok in H as (l & s0 & Hl & H). apply read_Ok in Hl as [Hl ->].
  unfold Vertex.leaving, vertexAt, rbind, rret in Hl.
  destruct (vertexPool (st_mesh sa) !! origin) as [vxa|] eqn:Evx; [|discriminate Hl].
  injection Hl as <-.
  apply bind_Ok in H as (acc3 & sb & Hv & H).
  assert (VP : removalStep keep m1 acc1 sa acc3 sb /\
               (forall h, pendingB (st_mesh sb) h = pendingB (st_mesh sa) h) /\
               passed m1 acc3.2 (st_mesh sb) current).
  { destruct (optAddrEqb (v_leaving vxa) (Some current)) eqn:El.
    - apply bool_decide_eq_true in El.
      apply bind_Ok in Hv as ([] & sc & Hrm & Hv). apply ret_Ok in Hv as [-> ->].
      pose proof (fades_removeVertexFromList _ _ _ _ Hrm) as Fd.
      apply modifyMesh_Ok in Hrm as ->.
      destruct (Fa5 origin (mk_is_Some _ _ Evx)) as [vx1 Hvx1].
      destruct (Fa4 origin vx1 Hvx1) as (vx' & Hvx' & _ & Hlv).
      rewrite Evx in Hvx'. injection Hvx' as <-.
      assert (Hl1 : v_leaving vx1 = Some current).
      { destruct Hlv as [Hlv|Hlv]; congruence. }
      destruct acc1 as [V1 vs1]. simpl in *.
      assert (Is : removalInv keep m1 (V1, vs1 ++ [origin])
                     (withVertices (removeAddr origin) (st_mesh sa))).
      { by apply (removalInv_schedule V1 vs1 (st_mesh sa) _ origin vx1 current xc g). }
      split.
      { apply removalStep_simple; try done.
        simpl. intros v Hv. apply elem_of_app. by left. }
      split; [done|]. split; [exact Pc|]. simpl.
      intros x0 vx0 Hx0 Hvx0 Hl0. rewrite Hxc in Hx0. injection Hx0 as <-.
      rewrite <- Hxo, Eoa. split.
      + apply elem_of_app. right. apply list_elem_of_singleton. congruence.
      + unfold removeAddr. rewrite list_elem_of_filter. intros [Hn _]. apply Hn. congruence.
    - apply bool_decide_eq_false in El.
      apply ret_Ok in Hv as [-> ->].
      split; [by apply removalStep_refl|]. split; [done|]. split; [exact Pc|].
      intros x0 vx0 Hx0 Hvx0 Hl0. rewrite Hxc in Hx0. injection Hx0 as <-.
      destruct (Fa6 (h_origin xc) vx0 current Hvx0 Hl0 (mk_is_Some _ _ Hxa))
        as (vx' & Hvx' & Hlv').
      rewrite <- Eoa, Hxo, Evx in Hvx'. injection Hvx' as <-. contradiction. }
  destruct VP as (RS2 & Pb & Pcur).
  pose proof (removalStep_trans _ _ _ _ _ _ RS1 RS2) as RS12.
  pose proof RS2 as (Fd2 & I2 & Sub2 & Vs2 & P52 & P62).
  assert (Fb : fadesM m1 (st_mesh sb)) by (etrans; [exact Fa|exact Fd2]).
  assert (UT12 : untouched m1 (acc.1 ∖ {[g]}) (st_mesh s) (st_mesh sb)).
  { intros h y f Hy Hyf Hf. rewrite Pb. by apply (UT1 h y f). }
  (* the next half-edge *)
  apply bind_Ok in H as (next & s0 & Hn & H). apply read_Ok in Hn as [Hn ->].
  apply halfEdge_field in Hn as (xb & Hxb & <-).
  pose proof Fb as (Fb1 & _).
  destruct (Fb1 current xb Hxb) as (xc' & Hxc' & _ & Enb & _).
  rewrite Hxc in Hxc'. injection Hxc' as <-.
  destruct (addrEqb (h_next xb) first) eqn:Efirst.
  - apply ret_Ok in H as [-> ->]. apply bool_decide_eq_true in Efirst.
    split; [exact RS12|]. split; [exact UT12|].
    intros h Hw. inversion Hw as [|? x0 ? Hx0 Hne Hw']; subst; [exact Pcur|].
    rewrite Hxc in Hx0. injection Hx0 as <-. congruence.
  - apply bool_decide_eq_false in Efirst.
    assert (Hcf' : forall xn, halfEdgePool m1 !! h_next xb = Some xn -> h_face xn = Some g).
    { intros xn Hxn. destruct Hown as [_ Ho]. rewrite Enb in Hxn.
      rewrite (Ho current xc xn Hxc Hxn). exact Hxcf. }
    destruct (IH (h_next xb) acc3 sb acc' s' Hcf' (Sub2 g Hgin1) (P62 g Hgin1 Hglive1) Fb I2 H)
      as (RS3 & UT3 & W3).
    split; [by eapply removalStep_trans|]. split.
    + eapply untouched_trans; [|exact UT12|exact UT3].
      destruct RS12 as (_ & _ & Sub & _). intros f Hf.
      apply elem_of_difference in Hf as [Hf Hn]. apply elem_of_difference. split; [by apply Sub|done].
    + intros h Hw. inversion Hw as [|? x0 ? Hx0 Hne Hw']; subst.
      * destruct RS3 as (Fd3 & _ & _ & Vs3 & _). by eapply passed_fades.
      * rewrite Hxc in Hx0. injection Hx0 as <-. rewrite <- Enb in Hw'. by apply W3.
Qed.

(** [deleteFaces]: every face it visits is deleted when it returns, and the
    half-edges of the faces visited before are as they were. *)
Lemma deleteFaces_removes depth : forall t xt acc s acc' s',
  halfEdgePool m1 !! t = Some xt -> ~ keep (h_face xt) ->
  fadesM m1 (st_mesh s) -> removalInv keep m1 acc (st_mesh s) ->
  deleteFaces depth t acc s = Ok (acc', s') ->
  removalStep keep m1 acc s acc' s' /\
  untouched m1 acc.1 (st_mesh s) (st_mesh s') /\
  exists ft, h_face xt = Some ft /\ ft ∈ acc'.1.
Proof.
  induction depth as [|depth IH]; intros t xt acc s acc' s' Hxt Hnk F I H;
    [discriminate|].
  pose proof (fades_deleteFaces _ _ _ _ _ _ H) as Fd.
  simpl in H.
  apply bind_Ok in H as (oface & s0 & Hof & H). apply read_Ok in Hof as [Hof ->].
  apply halfEdge_field in Hof as (x & Hx & Hxf).
  pose proof F as (F1 & F2 & _).
  destruct (F1 t x Hx) as (xt' & Hxt' & Ef & _).
  rewrite Hxt in Hxt'. injection Hxt' as <-.
  apply bind_Ok in H as (face & s0 & Hd & H). apply read_Ok in Hd as [Hd ->].
  apply deref_Ok in Hd as ->.
  assert (Hface : h_face xt = Some face) by congruence.
  destruct (bool_decide (face ∈ acc.1)) eqn:Evis.
  { apply bool_decide_eq_true in Evis. apply ret_Ok in H as [-> ->].
    split; [by apply removalStep_refl|]. split; [by intros h y f _ _ _|]. eauto. }
  apply bool_decide_eq_false in Evis.
  apply bind_Ok in H as (fuel & s0 & Hfuel & H). apply read_Ok in Hfuel as [_ ->].
  apply bind_Ok in H as (acc2 & s2 & Hloop & H).
  apply bind_Ok in H as ([] & s3 & Hcb & H). injection Hcb as <-.
  apply bind_Ok in H as ([] & s4 & Hrm & H). apply modifyMesh_Ok in Hrm as ->.
  apply bind_Ok in H as ([] & s5 & Hdel & H). apply ret_Ok in H as [-> ->].
  unfold Face.delete in Hdel.
  apply bind_Ok in Hdel as (bd & s0 & Hbd & Hdel). apply read_Ok in Hbd as [Hbd ->].
  apply bind_Ok in Hdel as ([] & s6 & Hfe & Hdel). apply modifyMesh_Ok in Hdel as ->.
  apply forEach_HalfEdge_delete_pool in Hfe as (A & B & EE & EF & EV & EL & EM).
  simpl in *.
  assert (Hbd2 : facePool (st_mesh s2) !! face = Some (mkFace bd)).
  { revert Hbd. unfold Face.boundary, faceAt, rbind, rret. simpl.
    destruct (facePool (st_mesh s2) !! face) as [[bd']|]; [|discriminate].
    by intros [= ->]. }
  assert (Hnkf : ~ keep (Some face)) by (by rewrite <- Hface).
  destruct acc as [V vs]. simpl in *.
  assert (Hlive : is_Some (facePool (st_mesh s) !! face)).
  { assert (Fl : fades s s2).
    { exact (fades_deleteFacesLoop (deleteFaces depth) t fuel (fades_deleteFaces depth)
               t _ _ _ _ Hloop). }
    destruct Fl as (_ & Fl2 & _). rewrite (Fl2 face _ Hbd2). eauto. }
  assert (Iv : removalInv keep m1 ({[face]} ∪ V, vs) (st_mesh s))
    by (by apply removalInv_visit).
  assert (Hcf : forall xc, halfEdgePool m1 !! t = Some xc -> h_face xc = Some face)
    by (intros xc Hxc; congruence).
  assert (Hin : face ∈ ({[face]} ∪ V, vs).1)
    by (simpl; apply elem_of_union; left; by apply elem_of_singleton).
  destruct (deleteFacesLoop_removes (deleteFaces depth) t face IH Hnkf fuel t
              ({[face]} ∪ V, vs) s acc2 s2 Hcf Hin Hlive F Iv Hloop)
    as (RS & UT & W).
  pose proof RS as (Fd2 & I2 & Sub2 & Vs2 & P52 & P62). simpl in *.
  assert (F2' : fadesM m1 (st_mesh s2)) by (etrans; [exact F|exact Fd2]).
  assert (Hpass : forall h y, halfEdgePool m1 !! h = Some y -> h_face y = Some face ->
                    passed m1 acc2.2 (st_mesh s2) h).
  { intros h y Hy Hyf. apply W. apply (walk_face t face h Hcf (mk_is_Some _ _ Hxt) y Hy Hyf). }
  destruct (removalInv_deleteFace acc2 (st_mesh s2)
              (withFacePool (base.delete face) (st_mesh s6)) face bd I2 F2'
              (Sub2 face Hin) Hbd2 Hpass A B EE) as [Id Hp]; simpl; try congruence.
  split; [|split].
  - unfold removalStep. simpl. split_and!; try done.
    + intros f Hf. apply Sub2. apply elem_of_union. by right.
    + intros f Hf Hn. rewrite EF. destruct (decide (f = face)) as [->|Hne].
      * by rewrite lookup_delete_eq.
      * rewrite lookup_delete_ne by done. apply P52; [done|].
        intros Hu. apply elem_of_union in Hu as [Hu|Hu]; [|done].
        by apply elem_of_singleton in Hu.
    + intros f Hf Hl. rewrite EF.
      assert (f <> face) by (intros ->; done).
      rewrite lookup_delete_ne by done. apply P62; [apply elem_of_union; by right|done].
  - intros h y f Hy Hyf Hf. rewrite Hp. apply (UT h y f Hy Hyf).
    simpl. assert (f <> face) by (intros ->; done).
    apply elem_of_difference. split; [apply elem_of_union; by right|].
    intros Hu. by apply elem_of_singleton in Hu.
  - exists face. split; [done|]. by apply Sub2.
Qed.

Lemma removalInv_start : removalInv keep m1 (∅, []) m1.
Proof.
  unfold removalInv. simpl. split_and!.
  - intros h x f Hx _ _. eauto.
  - intros f [fx Hf] Hd. congruence.
  - intros f Hf. by apply elem_of_empty in Hf.
  - intros e a b He. destruct (Hhalves e a b He) as (_ & (xa & Hxa & Hae) & (xb & Hxb & Hbe)).
    assert (Pa : pendingB m1 a = true) by (apply pendingB_true; eauto).
    assert (Pb : pendingB m1 b = true) by (apply pendingB_true; eauto).
    unfold remaining. rewrite Pa, Pb. split; [done|]. intros Hn. congruence.
  - intros e a b xa xb He Ha Hb Hp.
    destruct (Hhalves e a b He) as (_ & (xa' & Hxa & Hae) & (xb' & Hxb & Hbe)).
    assert (Pa : pendingB m1 a = true) by (apply pendingB_true; eauto).
    assert (Pb : pendingB m1 b = true) by (apply pendingB_true; eauto).
    rewrite Pa, Pb in Hp. discriminate.
  - intros f h x Hf. by apply elem_of_empty in Hf.
  - intros v Hv. by apply elem_of_nil in Hv.
  - intros v Hv. by left.
Qed.

(** The whole deletion, entered at the half-edge [first] of the face
    [f0]. *)
Lemma deletion_removes depth first xf f0 s1 acc s2 :
  st_mesh s1 = m1 -> halfEdgePool m1 !! first = Some xf -> h_face xf = Some f0 ->
  ~ keep (Some f0) ->
  deleteFaces depth first (∅, []) s1 = Ok (acc, s2) ->
  fadesM m1 (st_mesh s2) /\ removalInv keep m1 acc (st_mesh s2) /\ f0 ∈ acc.1 /\
  forall f, f ∈ acc.1 -> facePool (st_mesh s2) !! f = None.
Proof.
  intros E Hxf Hf0 Hnk H.
  assert (Hnk' : ~ keep (h_face xf)) by (by rewrite Hf0).
  assert (F : fadesM m1 (st_mesh s1)) by (rewrite E; reflexivity).
  assert (I : removalInv keep m1 (∅, []) (st_mesh s1)) by (rewrite E; apply removalInv_start).
  destruct (deleteFaces_removes depth first xf (∅, []) s1 acc s2 Hxf Hnk' F I H)
    as ((Fd & I' & _ & _ & P5 & _) & _ & ft & Hft & Hin).
  split; [etrans; [exact F|exact Fd]|]. split; [exact I'|]. split; [congruence|].
  intros f Hf. apply P5; [done|]. simpl. apply not_elem_of_empty.
Qed.

(** Once every visited face is gone, the visited faces are closed under
    crossing an edge with two half-edges. *)
Lemma visited_closed acc m e a b xa xb g g' :
  removalInv keep m1 acc m -> (forall f, f ∈ acc.1 -> facePool m !! f = None) ->
  edgePool m1 !! e = Some (mkEdge (Some a) (Some b)) ->
  halfEdgePool m1 !! a = Some xa -> halfEdgePool m1 !! b = Some xb ->
  h_face xa = Some g -> h_face xb = Some g' ->
  (g ∈ acc.1) \/ (g' ∈ acc.1) -> (g ∈ acc.1) /\ (g' ∈ acc.1).
Proof.
  intros (K & I3 & I4 & I5 & I6 & I7 & I8 & I9) Hdead He Ha Hb Hga Hgb Hin.
  assert (Hp : pendingB m a && pendingB m b = false).
  { destruct Hin as [Hin|Hin].
    - destruct (I7 g a xa Hin (Hdead g Hin) Ha Hga) as [-> _]. done.
    - destruct (I7 g' b xb Hin (Hdead g' Hin) Hb Hgb) as [-> _]. apply andb_false_r. }
  destruct (I6 e a b xa xb He Ha Hb Hp) as (fa & fb & Hfa & Hfb & Ia & Ib).
  split; congruence.
Qed.

Lemma removed_edge acc m e a b xa xb fa fb :
  removalInv keep m1 acc m -> (forall f, f ∈ acc.1 -> facePool m !! f = None) ->
  edgePool m1 !! e = Some (mkEdge (Some a) (Some b)) ->
  halfEdgePool m1 !! a = Some xa -> halfEdgePool m1 !! b = Some xb ->
  h_face xa = Some fa -> h_face xb = Some fb -> fa ∈ acc.1 -> fb ∈ acc.1 ->
  edgePool m !! e = None /\ e ∉ m_edges m.
Proof.
  intros (K & I3 & I4 & I5 & I6 & I7 & I8 & I9) Hdead He Ha Hb Hfa Hfb Ia Ib.
  destruct (I7 fa a xa Ia (Hdead fa Ia) Ha Hfa) as [Pa _].
  destruct (I7 fb b xb Ib (Hdead fb Ib) Hb Hfb) as [Pb _].
  destruct (I5 e a b He) as [A B]. unfold remaining in A. rewrite Pa, Pb in A. auto.
Qed.

Lemma removed_vertex acc m v vx h x f :
  removalInv keep m1 acc m -> f ∈ acc.1 -> facePool m !! f = None ->
  vertexPool m1 !! v = Some vx -> v_leaving vx = Some h ->
  halfEdgePool m1 !! h = Some x -> h_origin x = v -> h_face x = Some f ->
  (v ∈ acc.2) /\ v ∉ m_vertices m.
Proof.
  intros (K & I3 & I4 & I5 & I6 & I7 & I8 & I9) Hf Hd Hvx Hl Hx Ho Hxf.
  destruct (I7 f h x Hf Hd Hx Hxf) as [_ P]. subst v. by apply (P x vx).
Qed.

Lemma kept_vertex acc m v vx h x :
  removalInv keep m1 acc m ->
  vertexPool m1 !! v = Some vx -> v_leaving vx = Some h ->
  halfEdgePool m1 !! h = Some x -> keep (h_face x) -> v ∈ m_vertices m1 ->
  (v ∉ acc.2) /\ v ∈ m_vertices m.
Proof.
  intros (K & I3 & I4 & I5 & I6 & I7 & I8 & I9) Hvx Hl Hx Hk Hv.
  assert (Hn : v ∉ acc.2).
  { intros Hin. destruct (I8 v Hin) as (vx' & h' & x' & f & A & B & C & D & E).
    rewrite Hvx in A. injection A as <-. rewrite Hl in B. injection B as <-.
    rewrite Hx in C. injection C as <-. apply (I4 f E). by rewrite <- D. }
  split; [exact Hn|]. destruct (I9 v Hv); [done|contradiction].
Qed.

End Removal.
(** * The first loop of split, seen from the vertices *)

Lemma seamLeaving_mono m0 done done' v h1 :
  (forall e, e ∈ done -> e ∈ done') ->
  seamLeaving m0 done v h1 -> seamLeaving m0 done' v h1.
Proof. intros Hs (e & o & x & He & A & B & C). exists e, o, x. auto. Qed.

Lemma unlinked_start m0 : unlinked m0 [] m0.
Proof.
  unfold unlinked. split_and!; try done.
  - intros h x0 Hx0. exists x0. split_and!; try done. by left.
  - intros v vx Hvx. exists vx. split_and!; try done. by left.
  - intros v h1 (e & o & x & He & _). by apply elem_of_nil in He.
Qed.

Lemma unlinked_step criterion m0 done e s u s' :
  opened (matching criterion m0) m0 done s -> unlinked m0 done (st_mesh s) ->
  matches criterion e m0 = Ok MatchResult_First ->
  (run Edge.setFirstAsLeaving e; Edge.unsetSecondEdge e) s = Ok (u, s') ->
  unlinked m0 (done ++ [e]) (st_mesh s').
Proof.
  intros (P1 & P2 & P3 & P4 & P5 & P6 & P7 & P8) (U1 & U2 & U3 & U4 & U5) Hm H.
  apply matches_Ok in Hm as (h1 & h2 & x1 & x2 & b1 & b2 & He0 & H1 & H2 & C1 & C2 & Hr).
  destruct b1, b2; try discriminate. clear Hr.
  apply bind_Ok in H as ([] & sa & Hlv & H).
  unfold Edge.unsetSecondEdge in H.
  apply bind_Ok in H as (h2' & s0 & Hh2 & H). apply read_Ok in Hh2 as [Hh2 ->].
  apply bind_Ok in H as ([] & sb & Hu & H).
  unfold HalfEdge.unsetEdge, HalfEdge.setEdge in Hu.
  apply updHalfEdge_eff in Hu as (y2 & Hy2 & ->).
  apply updEdge_eff in H as (ex & Hex & ->). simpl in Hy2, Hex, Hh2.
  unfold Edge.setFirstAsLeaving, HalfEdge.setAsLeaving in Hlv.
  apply bind_Ok in Hlv as (h & s0 & Hh & Hlv). apply read_Ok in Hh as [Hh ->].
  apply bind_Ok in Hlv as (o & s0 & Ho & Hlv). apply read_Ok in Ho as [Ho ->].
  unfold Vertex.setLeaving in Hlv. apply updVertex_eff in Hlv as (vo & Hvo & ->).
  simpl in *.
  assert (Hnd : e ∉ done).
  { intros Hin. destruct (P4 e Hin) as (a & b & _ & Hs). rewrite Hex in Hs.
    injection Hs as ->.
    revert Hh2. unfold Edge.secondEdge, Edge.second, edgeAt, rbind, rret. simpl.
    by rewrite Hex. }
  rewrite (P3 e Hnd), He0 in Hex. injection Hex as <-.
  assert (h2' = h2) as ->.
  { revert Hh2. unfold Edge.secondEdge, Edge.second, edgeAt, rbind, rret. simpl.
    rewrite (P3 e Hnd), He0. simpl. by intros [= <-]. }
  assert (h = h1) as ->.
  { revert Hh. unfold Edge.firstEdge, Edge.first, edgeAt, rbind, rret.
    rewrite (P3 e Hnd), He0. simpl. by intros [= <-]. }
  apply halfEdge_field in Ho as (y1 & Hy1 & <-).
  destruct (P1 h1 y1 Hy1) as (x1' & Hx1' & _ & _ & Eo1).
  rewrite H1 in Hx1'. injection Hx1' as <-.
  assert (Hsl : seamLeaving m0 (done ++ [e]) (h_origin y1) h1).
  { exists e, (Some h2), x1. split_and!; try done.
    apply elem_of_app. right. by apply list_elem_of_singleton. }
  assert (Hmono : forall v h', seamLeaving m0 done v h' ->
                    seamLeaving m0 (done ++ [e]) v h').
  { intros v h'. apply seamLeaving_mono. intros e' He'. apply elem_of_app. by left. }
  unfold unlinked. simpl. split_and!.
  - intros h x0 Hx0. destruct (U1 h x0 Hx0) as (x & Hx & Ef & En & Eo & Ee).
    destruct (decide (h = h2)) as [->|Hne].
    + rewrite lookup_insert_eq. eexists. split; [done|]. simpl.
      rewrite Hx in Hy2. injection Hy2 as <-. split_and!; try done.
      right. exists e, h1. split; [|done].
      apply elem_of_app. right. by apply list_elem_of_singleton.
    + rewrite lookup_insert_ne by done. exists x. split_and!; try done.
      destruct Ee as [Ee|(e' & h' & He' & Ee)]; [by left|].
      right. exists e', h'. split; [|done]. apply elem_of_app. by left.
  - intros v vx Hvx. destruct (decide (v = h_origin y1)) as [->|Hne].
    + rewrite lookup_insert_eq in Hvx. injection Hvx as <-. simpl.
      destruct (U2 _ vo Hvo) as (vx0 & Hvx0 & Ep & _).
      exists vx0. split_and!; try done. right. exists h1. done.
    + rewrite lookup_insert_ne in Hvx by done.
      destruct (U2 v vx Hvx) as (vx0 & Hvx0 & Ep & El).
      exists vx0. split_and!; try done.
      destruct El as [El|(h' & Hs' & El)]; [by left|]. right. exists h'. auto.
  - intros v Hv. destruct (decide (v = h_origin y1)) as [->|Hne].
    + rewrite lookup_insert_eq. eauto.
    + rewrite lookup_insert_ne by done. auto.
  - intros v h' Hs'. destruct (decide (v = h_origin y1)) as [->|Hne].
    + rewrite lookup_insert_eq. eexists _, h1. simpl. done.
    + rewrite lookup_insert_ne by done.
      destruct Hs' as (e' & o' & x' & He' & A & B & C).
      apply elem_of_app in He' as [He'|He'].
      * destruct (U4 v h') as (vx & h'' & Hvx & Hl & Hs''); [by exists e', o', x'|].
        exists vx, h''. auto.
      * apply list_elem_of_singleton in He' as ->. rewrite He0 in A.
        injection A as <- <-. rewrite H1 in B. injection B as <-. congruence.
  - exact U5.
Qed.

Lemma unlinked_forEach criterion m0 it : forall done s u s',
  opened (matching criterion m0) m0 done s -> unlinked m0 done (st_mesh s) ->
  Forall (fun e => matches criterion e m0 = Ok MatchResult_First) it ->
  forEach it (fun edge => run Edge.setFirstAsLeaving edge; Edge.unsetSecondEdge edge) s
    = Ok (u, s') ->
  unlinked m0 (done ++ it) (st_mesh s').
Proof.
  induction it as [|e it IH]; intros done s u s' Ho Hu Hm H; simpl in H.
  - apply ret_Ok in H as [_ ->]. by rewrite app_nil_r.
  - apply bind_Ok in H as ([] & sa & He & H).
    apply Forall_cons in Hm as [Hme Hm].
    rewrite (cons_middle e done it), app_assoc.
    apply (IH _ sa u s'); [| |done|done].
    + by apply (opened_step criterion m0 done e s tt sa).
    + by apply (unlinked_step criterion m0 done e s tt sa).
Qed.

Lemma forEach_Vertex_delete_pool vs : forall s u s',
  forEach vs Vertex.delete s = Ok (u, s') ->
  (forall v, v ∈ vs -> vertexPool (st_mesh s') !! v = None) /\
  (forall v, v ∉ vs -> vertexPool (st_mesh s') !! v = vertexPool (st_mesh s) !! v) /\
  m_vertices (st_mesh s') = m_vertices (st_mesh s).
Proof.
  induction vs as [|w vs IH]; intros s u s' H; simpl in H.
  - apply ret_Ok in H as [_ ->]. split_and!; try done.
    intros v Hv. by apply elem_of_nil in Hv.
  - apply bind_Ok in H as ([] & sa & Hd & H). unfold Vertex.delete in Hd.
    apply bind_Ok in Hd as (x & s0 & Hx & Hd). apply read_Ok in Hx as [_ ->].
    apply modifyMesh_Ok in Hd as ->. apply IH in H as (A & B & C). simpl in *.
    split_and!; [| |done].
    + intros v Hv. destruct (decide (v ∈ vs)) as [Hin|Hnin]; [by apply A|].
      apply elem_of_cons in Hv as [->|Hv]; [|done].
      rewrite (B w Hnin). apply lookup_delete_eq.
    + intros v Hv. apply not_elem_of_cons in Hv as [Hne Hv].
      rewrite (B v Hv). by apply lookup_delete_ne.
Qed.

(** * What split removes, and what it keeps *)

Lemma iterNext_same m m' :
  (forall h x, halfEdgePool m !! h = Some x ->
     exists x', halfEdgePool m' !! h = Some x' /\ h_next x' = h_next x) ->
  forall i h h', iterNext m i h = Some h' -> iterNext m' i h = Some h'.
Proof.
  intros Hs. induction i as [|i IH]; intros h h' H; simpl in *; [done|].
  destruct (halfEdgePool m !! h) as [x|] eqn:E; [|discriminate].
  destruct (Hs h x E) as (x' & -> & ->). by apply IH.
Qed.

Lemma secondFace_Ok e m a b xb :
  edgePool m !! e = Some (mkEdge (Some a) (Some b)) -> halfEdgePool m !! b = Some xb ->
  Edge.secondFace e m = Ok (h_face xb).
Proof.
  intros He Hb. unfold Edge.secondFace, Edge.secondEdge, Edge.second, HalfEdge.face,
    edgeAt, halfEdgeAt, rbind, rret. rewrite He. simpl. by rewrite Hb.
Qed.

(** What [split] does, seen from the side of the seam that is removed. *)
Lemma split_removes criterion seam s u s' :
  edgesKnowHalves (st_mesh s) -> facesOwnBoundaries (st_mesh s) ->
  closedSurface (st_mesh s) ->
  oriented criterion (st_mesh s) seam ->
  seamSeparates criterion (st_mesh s) seam ->
  seamOnBorder criterion (st_mesh s) seam ->
  sideConnected criterion (st_mesh s) seam ->
  split seam s = Ok (u, s') ->
  (forall f, is_Some (facePool (st_mesh s) !! f) ->
     criterion (Some f) (st_mesh s) = Ok false ->
     facePool (st_mesh s') !! f = None /\ f ∉ m_faces (st_mesh s')) /\
  (forall e a b xa, e ∉ seam ->
     edgePool (st_mesh s) !! e = Some (mkEdge (Some a) (Some b)) ->
     halfEdgePool (st_mesh s) !! a = Some xa ->
     criterion (h_face xa) (st_mesh s) = Ok false ->
     edgePool (st_mesh s') !! e = None /\ e ∉ m_edges (st_mesh s')) /\
  (forall v, v ∈ m_vertices (st_mesh s) -> strictlyOff criterion (st_mesh s) v ->
     vertexPool (st_mesh s') !! v = None /\ v ∉ m_vertices (st_mesh s')) /\
  (forall v vx, v ∈ m_vertices (st_mesh s) -> vertexPool (st_mesh s) !! v = Some vx ->
     onKeptFace criterion (st_mesh s) v ->
     v ∈ m_vertices (st_mesh s') /\
     exists vx', vertexPool (st_mesh s') !! v = Some vx' /\
                 v_position vx' = v_position vx) /\
  (forall f fx, facePool (st_mesh s') !! f = Some fx ->
     facePool (st_mesh s) !! f = Some fx) /\
  (forall e, is_Some (edgePool (st_mesh s') !! e) -> is_Some (edgePool (st_mesh s) !! e)) /\
  (forall v, is_Some (vertexPool (st_mesh s') !! v) ->
     is_Some (vertexPool (st_mesh s) !! v)) /\
  (forall f, f ∈ m_faces (st_mesh s') -> f ∈ m_faces (st_mesh s)) /\
  (forall e, e ∈ m_edges (st_mesh s') -> e ∈ m_edges (st_mesh s)) /\
  (forall v, v ∈ m_vertices (st_mesh s') -> v ∈ m_vertices (st_mesh s)).
Proof.
  intros Hknow Hown (C1 & C2 & C3 & C4 & C5) Hor Hsep Hborder Hconn H.
  set (m0 := st_mesh s) in *.
  set (keep := matching criterion m0).
  unfold split in H.
  apply bind_Ok in H as ([] & s0 & Ha & H). apply assert_Ok in Ha as [Hlen ->].
  apply bind_Ok in H as (e0 & s0 & He0 & H). apply read_Ok in He0 as [He0 ->].
  apply bind_Ok in H as (first & s0 & Hfirst & H). apply read_Ok in Hfirst as [Hfirst ->].
  apply bind_Ok in H as ([] & s1 & Hopen & H).
  apply bind_Ok in H as (depth & s0 & Hd & H). apply read_Ok in Hd as [_ ->].
  apply bind_Ok in H as (acc & s2 & Hdel & H).
  pose proof (forEach_Vertex_delete _ _ _ _ H) as (V1 & V2 & V3 & V4 & V5).
  apply forEach_Vertex_delete_pool in H as (W1 & W2 & W3).
  (* the first loop *)
  assert (Ho : opened keep m0 seam s1).
  { apply (opened_forEach criterion m0 seam [] s tt s1); [|done|done].
    destruct s as [m log]. by apply opened_start. }
  assert (Hu : unlinked m0 seam (st_mesh s1)).
  { apply (unlinked_forEach criterion m0 seam [] s tt s1); [| |done|done].
    - destruct s as [m log]. by apply opened_start.
    - apply unlinked_start. }
  destruct Ho as (P1 & P2 & P3 & P4 & P5 & P6 & P7 & P8).
  destruct Hu as (U1 & U2 & U3 & U4 & U5).
  set (m1 := st_mesh s1) in *.
  pose proof Hor as Hor'. unfold oriented in Hor'. rewrite Forall_forall in Hor'.
  assert (Hfirsts : forall v h1, seamLeaving m0 seam v h1 ->
            exists x x1, halfEdgePool m0 !! h1 = Some x /\ h_origin x = v /\
              criterion (h_face x) m0 = Ok true /\
              halfEdgePool m1 !! h1 = Some x1 /\ h_face x1 = h_face x).
  { intros v h1 (e & o & x & He & Ee & Hx & Hxo).
    apply Hor', matches_Ok in He
      as (c1 & c2 & z1 & z2 & d1 & d2 & Ee' & Z1 & Z2 & D1 & D2 & Hr).
    destruct d1, d2; try discriminate. clear Hr.
    rewrite Ee in Ee'. injection Ee' as <- _. rewrite Hx in Z1. injection Z1 as <-.
    destruct (U1 h1 x Hx) as (x1 & Hx1 & Ef & _). exists x, x1. done. }
  (* the seam starts with [e0], whose second half-edge is [first] *)
  destruct seam as [|e0' rest]; [done|]. simpl in He0. injection He0 as ->.
  assert (Hin0 : e0 ∈ e0 :: rest) by left.
  pose proof (Hor' e0 Hin0) as Hm0.
  apply matches_Ok in Hm0 as (a1 & a2 & y1 & y2 & b1 & b2 & Ee0 & Ya1 & Ya2 & Ca1 & Ca2 & Hr).
  destruct b1, b2; try discriminate. clear Hr.
  assert (first = a2) as ->.
  { revert Hfirst. unfold Edge.secondEdge, Edge.second, edgeAt, rbind, rret.
    fold m0. rewrite Ee0. simpl. by intros [= <-]. }
  destruct (C4 e0 a1 a2 y2 Ee0 (or_intror Ya2)) as (f0 & Hf0 & Hf0live).
  (* the mesh the deletion starts from *)
  assert (Hsides : sidesAgree keep m1).
  { intros e ex h h' x x' Hex Hh Hh' Hx Hx' Hk.
    destruct (decide (e ∈ e0 :: rest)) as [Hin|Hnin].
    - destruct (P4 e Hin) as (h1 & h2 & _ & Hs). rewrite Hex in Hs. injection Hs as ->.
      destruct Hh as [Hh|Hh]; [|done]. destruct Hh' as [Hh'|Hh']; [|done].
      simpl in Hh, Hh'. injection Hh as <-. injection Hh' as <-.
      rewrite Hx in Hx'. by injection Hx' as <-.
    - rewrite (P3 e Hnin) in Hex.
      destruct (Hsep e ex Hex Hnin) as (r & Hr & Hd).
      apply matches_Ok in Hr as (c1 & c2 & z1 & z2 & d1 & d2 & Ee & Z1 & Z2 & D1 & D2 & ->).
      rewrite Hex in Ee. injection Ee as ->.
      destruct (P1 h x Hx) as (x0 & X0 & Fx & _).
      destruct (P1 h' x' Hx') as (x0' & X0' & Fx' & _).
      unfold keep, matching in *. rewrite Fx in Hk. rewrite Fx'.
      assert (Hsame : d1 = true /\ d2 = true).
      { destruct Hh as [Hh|Hh]; simpl in Hh; injection Hh as <-.
        - rewrite Z1 in X0. injection X0 as <-. rewrite D1 in Hk. injection Hk as ->.
          by destruct d2.
        - rewrite Z2 in X0. injection X0 as <-. rewrite D2 in Hk. injection Hk as ->.
          by destruct d1. }
      destruct Hsame as [-> ->].
      destruct Hh' as [Hh'|Hh']; simpl in Hh'; injection Hh' as <-.
      + rewrite Z1 in X0'. by injection X0' as <-.
      + rewrite Z2 in X0'. by injection X0' as <-. }
  assert (Hown1 : facesOwnBoundaries m1).
  { destruct Hown as [F1 F2]. split.
    - intros f bd h x Hf Hh Hx. destruct (P1 h x Hx) as (x0 & X0 & Fx & _).
      rewrite Fx. apply (F1 f bd h x0); [by rewrite <- P6|done|done].
    - intros h x y Hx Hy. destruct (P1 h x Hx) as (x0 & X0 & Fx & Nx & _).
      destruct (P1 _ y Hy) as (y0 & Y0 & Fy & _).
      rewrite Fx, Fy. apply (F2 h x0 y0); [done|]. by rewrite <- Nx. }
  assert (Hfull1 : lostEdgesFull keep m1).
  { intros h x e ex Hx Hxe Hnk Hex.
    destruct (decide (e ∈ e0 :: rest)) as [Hin|Hnin].
    - exfalso. apply Hnk.
      destruct (P4 e Hin) as (h1 & h2 & Ee & Es). rewrite Hex in Es. injection Es as ->.
      destruct (P5 h x e _ Hx Hxe Hex) as [Hh|Hh]; [|done]. simpl in Hh.
      injection Hh as <-.
      destruct (Hfirsts (h_origin x) h1) as (z & z1 & Hz & _ & Hc & Hz1 & Hzf).
      { destruct (P1 h1 x Hx) as (x0 & X0 & _ & _ & Eo). exists e, (Some h2), x0. done. }
      rewrite Hx in Hz1. injection Hz1 as <-. unfold keep, matching. by rewrite Hzf.
    - rewrite (P3 e Hnin) in Hex. by apply (C2 e). }
  assert (Hhalves1 : halvesKnowEdge m1).
  { intros e a b He.
    assert (Hnin : e ∉ e0 :: rest).
    { intros Hin. destruct (P4 e Hin) as (h1 & h2 & _ & Es). rewrite He in Es. done. }
    rewrite (P3 e Hnin) in He.
    destruct (C1 e a b He) as (Hne & (xa & Hxa & Hae) & (xb & Hxb & Hbe)).
    split; [done|].
    assert (Hk : forall h xh, halfEdgePool m0 !! h = Some xh -> h_edge xh = Some e ->
                   exists x, halfEdgePool m1 !! h = Some x /\ h_edge x = Some e).
    { intros h xh Hxh Hhe. destruct (U1 h xh Hxh) as (x & Hx & _ & _ & _ & Hedge).
      exists x. split; [done|].
      destruct Hedge as [Hedge|(e' & h1 & Hin' & Ee')]; [congruence|].
      destruct (C1 e' h1 h Ee') as (_ & _ & (xh' & Hxh' & Hhe')).
      rewrite Hxh in Hxh'. injection Hxh' as <-. congruence. }
    split; eauto. }
  assert (Hcycle1 : faceCycles m1).
  { intros h h' x x' f Hx Hx' Hf Hf'.
    destruct (P1 h x Hx) as (x0 & X0 & Fx & _).
    destruct (P1 h' x' Hx') as (x0' & X0' & Fx' & _).
    destruct (C3 h h' x0 x0' f X0 X0') as [i Hi]; [congruence|congruence|].
    exists i. apply (iterNext_same m0 m1); [|done].
    intros g y Hy. destruct (U1 g y Hy) as (y' & Hy' & _ & Hn & _). eauto. }
  (* the deletion *)
  destruct (U1 a2 y2 Ya2) as (xf & Hxf & Hxff & _).
  assert (Hnk0 : ~ keep (Some f0)).
  { unfold keep, matching. rewrite <- Hf0, Ca2. discriminate. }
  destruct (deletion_removes keep m1 Hown1 P5 Hsides Hfull1 Hhalves1 Hcycle1
              depth a2 xf f0 s1 acc s2 eq_refl Hxf) as (Fd & I & Hin & Hdead);
    [congruence|done|done|].
  assert (Hreach : forall f, crossing m0 (e0 :: rest) f0 f -> f ∈ acc.1).
  { intros f Hc. induction Hc as [|g g' e a b xa xb _ IH Hnin He Ha Hb Hf]; [done|].
    destruct (U1 a xa Ha) as (xa1 & Hxa1 & Fa & _).
    destruct (U1 b xb Hb) as (xb1 & Hxb1 & Fb & _).
    rewrite <- (P3 e Hnin) in He.
    destruct Hf as [[Hfa Hfb]|[Hfa Hfb]].
    - apply (visited_closed keep m1 acc (st_mesh s2) e a b xa1 xb1 g g' I Hdead He Hxa1 Hxb1);
        [congruence|congruence|by left].
    - apply (visited_closed keep m1 acc (st_mesh s2) e a b xa1 xb1 g' g I Hdead He Hxa1 Hxb1);
        [congruence|congruence|by right]. }
  assert (Hlost : forall f, is_Some (facePool m0 !! f) -> criterion (Some f) m0 = Ok false ->
                    f ∈ acc.1).
  { intros f Hf Hc. apply Hreach. apply (Hconn e0 f0 f); try done.
    rewrite (secondFace_Ok e0 m0 a1 a2 y2 Ee0 Ya2). by rewrite Hf0. }
  assert (Hlosth : forall h x, halfEdgePool m0 !! h = Some x -> inLiveFace m0 x ->
                     criterion (h_face x) m0 = Ok false ->
                     exists f x1, h_face x = Some f /\ f ∈ acc.1 /\
                       halfEdgePool m1 !! h = Some x1 /\ h_face x1 = Some f /\
                       h_origin x1 = h_origin x).
  { intros h x Hx (f & Hf & Hlive) Hc.
    destruct (U1 h x Hx) as (x1 & Hx1 & Ef & _ & Eo & _).
    exists f, x1. split_and!; try done; [|congruence]. apply Hlost; [done|by rewrite <- Hf]. }
  pose proof I as (K & I3 & I4 & I5 & I6 & I7 & I8 & I9).
  pose proof Fd as (D1 & D2 & D3 & D4 & D5 & D6 & D7 & D8 & D9).
  split_and!.
  - intros f Hf Hc. pose proof (Hlost f Hf Hc) as Hv.
    rewrite V3, V5. split; [by apply Hdead|].
    apply (I3 f); [by rewrite P6|by apply Hdead].
  - intros e a b xa Hnin He Ha Hc.
    destruct (Hsep e _ He Hnin) as (r & Hr & Hdis).
    apply matches_Ok in Hr as (c1 & c2 & z1 & z2 & d1 & d2 & Ee & Z1 & Z2 & D1' & D2' & ->).
    fold m0 in He. rewrite He in Ee. injection Ee as <- <-.
    rewrite Ha in Z1. injection Z1 as <-. rewrite Hc in D1'. injection D1' as <-.
    destruct d2; [discriminate|].
    destruct (Hlosth a xa Ha (C4 e a b xa He (or_introl Ha)) Hc)
      as (fa & xa1 & _ & Hfa & Hxa1 & Hfa1 & _).
    destruct (Hlosth b z2 Z2 (C4 e a b z2 He (or_intror Z2)) D2')
      as (fb & xb1 & _ & Hfb & Hxb1 & Hfb1 & _).
    rewrite V2, V4.
    apply (removed_edge keep m1 acc (st_mesh s2) e a b xa1 xb1 fa fb I Hdead); try done.
    by rewrite (P3 e Hnin).
  - intros v Hv Hoff.
    destruct (C5 v Hv) as (vx0 & h & x0 & Hvx0 & Hl0 & Hx0 & Ho0 & Hlf).
    destruct (Hlosth h x0 Hx0 Hlf (Hoff h x0 Hx0 Ho0))
      as (f & x1 & _ & Hf & Hx1 & Hf1 & Ho1).
    destruct (U3 v (mk_is_Some _ _ Hvx0)) as [vx1 Hvx1].
    destruct (U2 v vx1 Hvx1) as (vx0' & Hvx0' & _ & Hlv).
    rewrite Hvx0 in Hvx0'. injection Hvx0' as <-.
    assert (Hl1 : v_leaving vx1 = Some h).
    { destruct Hlv as [Hlv|(h1 & Hs & _)]; [congruence|].
      destruct (Hfirsts v h1 Hs) as (z & _ & Hz & Hzo & Hzc & _).
      rewrite (Hoff h1 z Hz Hzo) in Hzc. discriminate. }
    destruct (removed_vertex keep m1 acc (st_mesh s2) v vx1 h x1 f I Hf (Hdead f Hf)
                Hvx1 Hl1 Hx1) as [A B]; [congruence|done|].
    split; [by apply W1|by rewrite W3].
  - intros v vx Hv Hvx (hk & xk & Hxk & Hok & Hck).
    destruct (C5 v Hv) as (vx0 & h & x0 & Hvx0 & Hl0 & Hx0 & Ho0 & _).
    rewrite Hvx in Hvx0. injection Hvx0 as <-.
    destruct (U3 v (mk_is_Some _ _ Hvx)) as [vx1 Hvx1].
    destruct (U2 v vx1 Hvx1) as (vx0' & Hvx0' & Hpos & Hlv).
    rewrite Hvx in Hvx0'. injection Hvx0' as <-.
    assert (Hkeepl : exists hl xl, v_leaving vx1 = Some hl /\
              halfEdgePool m1 !! hl = Some xl /\ keep (h_face xl)).
    { assert (Hseam : forall h1, seamLeaving m0 (e0 :: rest) v h1 ->
                exists hl xl, v_leaving vx1 = Some hl /\
                  halfEdgePool m1 !! hl = Some xl /\ keep (h_face xl)).
      { intros h1 Hs. destruct (U4 v h1 Hs) as (vx1' & h1' & Hvx1' & Hl1' & Hs').
        rewrite Hvx1 in Hvx1'. injection Hvx1' as <-.
        destruct (Hfirsts v h1' Hs') as (z & z1 & _ & _ & Hzc & Hz1 & Hzf).
        exists h1', z1. split_and!; try done. unfold keep, matching. by rewrite Hzf. }
      destruct Hlv as [Hlv|(h1 & Hs & _)]; [|by apply (Hseam h1)].
      destruct (U1 h x0 Hx0) as (x1 & Hx1 & Ef & _).
      destruct (decide (criterion (h_face x0) m0 = Ok true)) as [Hc|Hc].
      - exists h, x1. split_and!; [congruence|done|]. unfold keep, matching. by rewrite Ef.
      - destruct (Hborder hk xk h x0 Hxk Hx0) as [h1 Hs]; [congruence|done|done|].
        rewrite Hok in Hs. by apply (Hseam h1). }
    destruct Hkeepl as (hl & xl & Hll & Hxl & Hkl).
    destruct (kept_vertex keep m1 acc (st_mesh s2) v vx1 hl xl I Hvx1 Hll Hxl Hkl)
      as [A B]; [by rewrite U5|].
    split; [by rewrite W3|].
    destruct (D4 v vx1 Hvx1) as (vx2 & Hvx2 & Hp2 & _).
    exists vx2. split; [by rewrite (W2 v A)|congruence].
  - intros f fx Hf. rewrite V3 in Hf. rewrite <- P6. by apply D2.
  - intros e He. rewrite V2 in He. destruct (D3 e He) as [ex Hex].
    destruct (decide (e ∈ e0 :: rest)) as [Hine|Hnin].
    + destruct (P4 e Hine) as (h1 & h2 & Ee & _). fold m0. rewrite Ee. eauto.
    + rewrite (P3 e Hnin) in Hex. eauto.
  - intros v [vx' Hv].
    assert (Hv2 : is_Some (vertexPool (st_mesh s2) !! v)).
    { destruct (decide (v ∈ acc.2)) as [Hinv|Hnin].
      - rewrite (W1 v Hinv) in Hv. discriminate.
      - rewrite (W2 v Hnin) in Hv. eauto. }
    destruct (D5 v Hv2) as [vx1 Hvx1].
    destruct (U2 v vx1 Hvx1) as (vx0 & Hvx0 & _). eauto.
  - intros f Hf. rewrite V5 in Hf. rewrite <- P7. by apply D9.
  - intros e He. rewrite V4 in He. rewrite <- P8. by apply D8.
  - intros v Hv. rewrite W3 in Hv. rewrite <- U5. by apply D7.
Qed.

(** * Checking the hypotheses on a given mesh *)

Lemma inLiveFaceB_true m x : inLiveFaceB m x = true -> inLiveFace m x.
Proof.
  unfold inLiveFaceB, inLiveFace. destruct (h_face x) as [f|]; [|discriminate].
  intros H. apply bool_decide_eq_true in H. eauto.
Qed.

Lemma closedSurfaceB_true m : closedSurfaceB m = true -> closedSurface m.
Proof.
  unfold closedSurfaceB. rewrite !andb_true_iff. intros [[H1 H2] H4].
  assert (Hfull : forall e ex, edgePool m !! e = Some ex ->
            exists a b, ex = mkEdge (Some a) (Some b) /\ a <> b /\
              (exists xa, halfEdgePool m !! a = Some xa /\ h_edge xa = Some e /\
                          inLiveFace m xa) /\
              (exists xb, halfEdgePool m !! b = Some xb /\ h_edge xb = Some e /\
                          inLiveFace m xb)).
  { intros e ex He. pose proof (forallb_map_to_list _ _ H1 e ex He) as Hc. simpl in Hc.
    destruct ex as [[a|] [b|]]; try discriminate.
    apply andb_true_iff in Hc as [Hne Hc]. apply negb_true_iff, bool_decide_eq_false in Hne.
    destruct (halfEdgePool m !! a) as [xa|] eqn:Ea; [|discriminate].
    destruct (halfEdgePool m !! b) as [xb|] eqn:Eb; [|discriminate].
    rewrite !andb_true_iff in Hc. destruct Hc as [[[Ha Hb] Fa] Fb].
    apply bool_decide_eq_true in Ha, Hb. apply inLiveFaceB_true in Fa, Fb.
    exists a, b.
    split; [done|]. split; [done|]. split; [by exists xa|by exists xb]. }
  unfold closedSurface. split_and!.
  - intros e a b He.
    destruct (Hfull e _ He) as (a' & b' & [= <- <-] & Hne & (xa & A1 & A2 & _) & (xb & B1 & B2 & _)).
    split; [done|]. split; eauto.
  - intros e ex He. destruct (Hfull e _ He) as (a & b & -> & _). eauto.
  - intros h h' x x' f Hx Hx' Hf Hf'.
    pose proof (forallb_map_to_list _ _ H2 h x Hx) as Hc. cbn [fst snd] in Hc.
    pose proof (forallb_map_to_list _ _ Hc h' x' Hx') as Hc'. cbn [fst snd] in Hc'.
    rewrite Hf in Hc'. apply orb_true_iff in Hc' as [Hc'|Hc'].
    { apply negb_true_iff, bool_decide_eq_false in Hc'. contradiction. }
    apply existsb_exists in Hc' as (i & _ & Hi). apply bool_decide_eq_true in Hi. eauto.
  - intros e a b x He Hx.
    destruct (Hfull e _ He) as (a' & b' & [= <- <-] & _ & (xa & A1 & _ & A3) & (xb & B1 & _ & B3)).
    destruct Hx as [Hx|Hx]; congruence.
  - intros v Hv. rewrite forallb_forall in H4. apply list_elem_of_In in Hv.
    pose proof (H4 v Hv) as Hc.
    destruct (vertexPool m !! v) as [vx|]; [|discriminate].
    destruct (v_leaving vx) as [h|] eqn:El; [|discriminate].
    destruct (halfEdgePool m !! h) as [x|] eqn:Eh; [|discriminate].
    apply andb_true_iff in Hc as [Hc Hf].
    apply bool_decide_eq_true in Hc. apply inLiveFaceB_true in Hf.
    exists vx, h, x. done.
Qed.

Lemma seamLeavingB_true m seam v :
  seamLeavingB m seam v = true -> exists h1, seamLeaving m seam v h1.
Proof.
  unfold seamLeavingB. intros H. apply existsb_exists in H as (e & He & H).
  apply list_elem_of_In in He.
  destruct (edgePool m !! e) as [[[h1|] o]|] eqn:Ee; try discriminate.
  destruct (halfEdgePool m !! h1) as [x|] eqn:Eh; [|discriminate].
  apply bool_decide_eq_true in H. exists h1, e, o, x. done.
Qed.

Lemma seamOnBorderB_true criterion m seam :
  seamOnBorderB criterion m seam = true -> seamOnBorder criterion m seam.
Proof.
  unfold seamOnBorderB. intros H h x h' x' Hx Hx' Ho Hc Hc'.
  pose proof (forallb_map_to_list _ _ H h x Hx) as H1. simpl in H1.
  pose proof (forallb_map_to_list _ _ H1 h' x' Hx') as H2. simpl in H2.
  rewrite bool_decide_eq_true_2 in H2 by done. rewrite Hc in H2. simpl in H2.
  apply orb_true_iff in H2 as [H2|H2]; [|by apply seamLeavingB_true].
  exfalso. apply Hc'. unfold holds in H2.
  destruct (criterion (h_face x') m) as [[|]| | |]; done.
Qed.

Lemma neighboursOf_crossing m seam f g g' :
  crossing m seam f g -> g' ∈ neighboursOf m seam g -> crossing m seam f g'.
Proof.
  intros Hc Hin. unfold neighboursOf in Hin.
  apply list_elem_of_In, in_flat_map in Hin as ([e ex] & He & Hin). simpl in Hin.
  apply list_elem_of_In, elem_of_map_to_list in He.
  destruct (bool_decide (e ∈ seam)) eqn:Es; [by destruct Hin|].
  apply bool_decide_eq_false in Es.
  destruct ex as [[a|] [b|]]; try (by destruct Hin).
  destruct (halfEdgePool m !! a) as [xa|] eqn:Ea; [|by destruct Hin].
  destruct (halfEdgePool m !! b) as [xb|] eqn:Eb; [|by destruct Hin].
  destruct (h_face xa) as [fa|] eqn:Efa; [|by destruct Hin].
  destruct (h_face xb) as [fb|] eqn:Efb; [|by destruct Hin].
  apply list_elem_of_In, elem_of_app in Hin as [Hin|Hin].
  - destruct (bool_decide (fa = g)) eqn:E1; [|by apply elem_of_nil in Hin].
    apply bool_decide_eq_true in E1 as ->. apply list_elem_of_singleton in Hin as ->.
    apply (crossing_step m seam f g fb e a b xa xb); auto.
  - destruct (bool_decide (fb = g)) eqn:E1; [|by apply elem_of_nil in Hin].
    apply bool_decide_eq_true in E1 as ->. apply list_elem_of_singleton in Hin as ->.
    apply (crossing_step m seam f g fa e a b xa xb); auto.
Qed.

Lemma spread_crossing m seam f : forall n l,
  (forall g, g ∈ l -> crossing m seam f g) ->
  forall g, g ∈ spread m seam n l -> crossing m seam f g.
Proof.
  induction n as [|n IH]; intros l Hl g Hg; simpl in Hg; [by apply Hl|].
  apply (IH (l ++ flat_map (neighboursOf m seam) l)); [|exact Hg].
  intros g0 Hg0. apply elem_of_app in Hg0 as [Hg0|Hg0]; [by apply Hl|].
  apply list_elem_of_In, in_flat_map in Hg0 as (g1 & Hg1 & Hg0).
  apply (neighboursOf_crossing m seam f g1).
  - apply Hl. by apply list_elem_of_In.
  - by apply list_elem_of_In.
Qed.

Lemma sideConnectedB_true criterion m seam :
  sideConnectedB criterion m seam = true -> sideConnected criterion m seam.
Proof.
  unfold sideConnectedB. intros H e0 f0 f Hhead Hsec [fx Hfx] Hc.
  destruct seam as [|e seam']; [discriminate Hhead|]. injection Hhead as ->.
  rewrite Hsec in H.
  pose proof (forallb_map_to_list _ _ H f fx Hfx) as Hf. simpl in Hf.
  rewrite Hc in Hf. apply bool_decide_eq_true in Hf.
  apply (spread_crossing m (e0 :: seam') f0 (size (facePool m)) [f0]); [|exact Hf].
  intros g Hg. apply list_elem_of_singleton in Hg as ->. constructor.
Qed.

(** * Split removes exactly the side of the seam that does not match *)



(** ** A cube and a point that sees three of its faces *)

(** * Further properties of the surgery *)

(** ** The first splitting edge *)

(** [findFirstSplittingEdge] returns the first edge of the list on which the
    criterion discriminates: every edge before it has the criterion with the
    same answer on both faces; the edge is flipped when the criterion is true
    on its second face, and nothing else is changed.  It returns [NULL] when
    the criterion discriminates on no edge, and then changes nothing. *)
Theorem findFirstSplittingEdge_finds_first (criterion : SplittingCriterion)
    (edges : list Address) (s : State) (o : option Address) (s' : State) :
  findFirstSplittingEdge criterion edges s = Ok (o, s') ->
  match o with
  | None =>
      s' = s /\
      Forall (fun e => exists r, matches criterion e (st_mesh s) = Ok r /\
                                 discriminates r = false) edges
  | Some f =>
      exists pre post r,
        edges = pre ++ f :: post /\
        Forall (fun e => exists r, matches criterion e (st_mesh s) = Ok r /\
                                   discriminates r = false) pre /\
        matches criterion f (st_mesh s) = Ok r /\
        (r = MatchResult_First /\ s' = s \/
         r = MatchResult_Second /\ Edge.flip f s = Ok (tt, s'))
  end.
Proof.
  revert s o s'. induction edges as [|e edges IH]; intros s o s' H; simpl in H.
  - apply ret_Ok in H as [-> ->]. split; [done|constructor].
  - apply bind_Ok in H as (r & s1 & Hr & H). apply read_Ok in Hr as [Hr ->].
    assert (Hrec : forall r0, r = r0 -> discriminates r0 = false ->
              findFirstSplittingEdge criterion edges s = Ok (o, s') ->
              match o with
              | None =>
                  s' = s /\
                  Forall (fun e => exists r, matches criterion e (st_mesh s) = Ok r /\
                                             discriminates r = false) (e :: edges)
              | Some f =>
                  exists pre post r,
                    e :: edges = pre ++ f :: post /\
                    Forall (fun e => exists r, matches criterion e (st_mesh s) = Ok r /\
                                               discriminates r = false) pre /\
                    matches criterion f (st_mesh s) = Ok r /\
                    (r = MatchResult_First /\ s' = s \/
                     r = MatchResult_Second /\ Edge.flip f s = Ok (tt, s'))
              end).
    { intros r0 -> Hd H'. apply IH in H'. destruct o as [f|].
      - destruct H' as (pre & post & r & -> & Hpre & Hm & Hc).
        exists (e :: pre), post, r. split; [done|]. split; [|done].
        constructor; [eauto|done].
      - destruct H' as [-> Hall]. split; [done|]. constructor; [eauto|done]. }
    destruct r.
    + apply ret_Ok in H as [-> ->].
      exists [], edges, MatchResult_First. split; [done|]. split; [constructor|].
      split; [done|]. by left.
    + apply bind_Ok in H as ([] & s1 & Hflip & H). apply ret_Ok in H as [-> ->].
      exists [], edges, MatchResult_Second. split; [done|]. split; [constructor|].
      split; [done|]. by right.
    + by apply (Hrec MatchResult_Both).
    + by apply (Hrec MatchResult_Neither).
Qed.

Lemma findFirstSplittingEdge_finds_first_witness :
  let p := polyhedronOf tetrahedron in
  let criterion := SplitByConnectivityCriterion (vertexOf (vec3 0 0 4) p) in
  let s := mkState (mesh p) [] in
  findFirstSplittingEdge criterion (m_edges (mesh p)) s = Ok (Some 8%positive, s) /\
  exists pre post r,
    m_edges (mesh p) = pre ++ 8%positive :: post /\
    Forall (fun e => exists r, matches criterion e (st_mesh s) = Ok r /\
                               discriminates r = false) pre /\
    matches criterion 8%positive (st_mesh s) = Ok r /\
    (r = MatchResult_First /\ s = s \/
     r = MatchResult_Second /\ Edge.flip 8%positive s = Ok (tt, s)).
Proof.
  intros p criterion s.
  assert (H : findFirstSplittingEdge criterion (m_edges (mesh p)) s
              = Ok (Some 8%positive, s)) by (vm_compute; reflexivity).
  split; [exact H|].
  exact (findFirstSplittingEdge_finds_first criterion (m_edges (mesh p)) s
           (Some 8%positive) s H).
Defined.

(** ** createSeam changes nothing but the orientation of edges *)

#[global] Instance onlyFlips_refl : Reflexive onlyFlips.
Proof. intros s. unfold onlyFlips. repeat split. intros e. by left. Qed.

#[global] Instance onlyFlips_trans : Transitive onlyFlips.
Proof.
  intros s1 s2 s3 (A1 & A2 & A3 & A4 & A5 & A6 & A7 & A8 & A9)
                  (B1 & B2 & B3 & B4 & B5 & B6 & B7 & B8 & B9).
  unfold onlyFlips. rewrite B1, B2, B3, B4, B5, B6, B7, B8.
  do 8 (split; [done|]).
  intros e. destruct (A9 e) as [Ea|(x & Ex & Ea)], (B9 e) as [Eb|(y & Ey & Eb)].
  - left. congruence.
  - right. exists y. split; congruence.
  - right. exists x. split; congruence.
  - left. rewrite Eb, Ex. rewrite Ea in Ey. injection Ey as <-. by destruct x.
Qed.

Lemma onlyFlips_flip e : preserves onlyFlips (Edge.flip e).
Proof.
  intros s u s' H. apply flip_eff in H as (x & Hx & ->).
  unfold onlyFlips. simpl. do 8 (split; [done|]).
  intros e'. destruct (decide (e' = e)) as [->|Hne].
  - right. exists x. by rewrite lookup_insert_eq.
  - left. by rewrite lookup_insert_ne.
Qed.

Lemma onlyFlips_findFirstSplittingEdge criterion edges :
  preserves onlyFlips (findFirstSplittingEdge criterion edges).
Proof.
  pose proof onlyFlips_flip as HF.
  induction edges as [|e edges IH]; simpl; pres.
Qed.

Lemma onlyFlips_findNextSplittingEdge criterion last :
  preserves onlyFlips (findNextSplittingEdge criterion last).
Proof. pose proof onlyFlips_flip as HF. unfold findNextSplittingEdge. pres. Qed.

Lemma onlyFlips_createSeamLoop criterion fuel : forall first seam current,
  preserves onlyFlips (createSeamLoop criterion fuel first seam current).
Proof.
  pose proof (onlyFlips_findNextSplittingEdge criterion) as HN.
  induction fuel as [|fuel IH]; intros; simpl; pres.
Qed.

Lemma onlyFlips_createSeam criterion : preserves onlyFlips (createSeam criterion).
Proof.
  pose proof (onlyFlips_findFirstSplittingEdge criterion) as HF.
  pose proof (onlyFlips_createSeamLoop criterion) as HL.
  unfold createSeam. pres.
Qed.

(** [createSeam] creates and destroys nothing: the vertices, half-edges and
    faces, the three lists and the callback are as before; an edge record is
    as before or has its two half-edges exchanged (the edge was flipped). *)
Theorem createSeam_only_flips (criterion : SplittingCriterion) (s : State)
    (seam : Seam.t) (s' : State) :
  createSeam criterion s = Ok (seam, s') -> onlyFlips s s'.
Proof. apply onlyFlips_createSeam. Qed.

Lemma createSeam_only_flips_witness :
  let p := polyhedronOf tetrahedron in
  let criterion := SplitByConnectivityCriterion (vertexOf (vec3 0 0 4) p) in
  let s := mkState (mesh p) [] in
  let s' := finalState (createSeam criterion s) s in
  createSeam criterion s = Ok ([8; 11; 14]%positive, s') /\ onlyFlips s s'.
Proof.
  intros p criterion s s'.
  assert (H : createSeam criterion s = Ok ([8; 11; 14]%positive, s')).
  { destruct (isOk_true (createSeam criterion s)) as [[seam0 s0] E];
      [vm_compute; reflexivity|].
    assert (Hs : seam0 = [8; 11; 14]%positive).
    { assert (Hf : andThen (createSeam criterion s) (fun r => Ok r.1)
                   = Ok [8; 11; 14]%positive) by (vm_compute; reflexivity).
      rewrite E in Hf. simpl in Hf. injection Hf as Hf. exact Hf. }
    unfold s'. rewrite E. simpl. rewrite Hs. reflexivity. }
  split; [exact H|].
  exact (createSeam_only_flips criterion s _ s' H).
Defined.

(** ** The seam accepted for sealing *)

Lemma setPlanePoints_inside p1 p2 p3 plane :
  setPlanePoints p1 p2 p3 = Some plane ->
  planePointStatus plane p1 = PSInside /\
  planePointStatus plane p2 = PSInside /\
  planePointStatus plane p3 = PSInside.
Proof.
  unfold setPlanePoints. destruct (null _); [discriminate|]. intros [= <-].
  destruct p1 as [x1 y1 z1], p2 as [x2 y2 z2], p3 as [x3 y3 z3].
  unfold planePointStatus, dot, crossed, vsub. simpl.
  repeat split;
    match goal with
    | |- classify ?d = _ => replace d with 0 by ring
    end; reflexivity.
Qed.

Lemma rexistsb_false {A} (f : A -> R bool) l m :
  rexistsb f l m = Ok false -> Forall (fun x => f x m = Ok false) l.
Proof.
  induction l as [|x l IH]; simpl; [constructor|].
  intros H. apply rbind_Ok in H as (b & Hb & H). destruct b.
  - apply rret_Ok in H. discriminate H.
  - constructor; [exact Hb|exact (IH H)].
Qed.

Lemma connected_Ok a b m :
  connected a b m = Ok true ->
  exists v, Edge.firstVertex a m = Ok v /\ Edge.secondVertex b m = Ok v.
Proof.
  unfold connected. intros H.
  apply rbind_Ok in H as (x & Hx & H). apply rbind_Ok in H as (y & Hy & H).
  apply rret_Ok in H. symmetry in H. apply bool_decide_eq_true in H as ->.
  eauto.
Qed.

Lemma statusOfVertex_Ok plane v m st :
  statusOfVertex plane v m = Ok st ->
  exists p, Vertex.position v m = Ok p /\ planePointStatus plane p = st.
Proof.
  unfold statusOfVertex. intros H. apply rbind_Ok in H as (p & Hp & H).
  apply rret_Ok in H as ->. eauto.
Qed.

(** When [ShiftSeamForSealing] accepts a seam that is a closed loop, no
    vertex of the seam lies above the plane through the first three vertices
    of the seam (the two vertices of its first edge and the first vertex of
    its second edge), and the second vertex of the last edge lies strictly
    below that plane. *)
Theorem shiftSeamForSealing_accepts_hollow (seam : Seam.t) (m : Mesh) :
  looped m seam ->
  ShiftSeamForSealing.call seam m = Ok true ->
  exists first second v1 v2 v3 plane,
    seam !! 0%nat = Some first /\ seam !! 1%nat = Some second /\
    Edge.firstVertex first m = Ok v1 /\ Edge.secondVertex first m = Ok v2 /\
    Edge.firstVertex second m = Ok v3 /\ planeOf v1 v2 v3 m = Ok plane /\
    Forall (notAbove m plane) seam /\
    exists l v4, last seam = Some l /\ Edge.secondVertex l m = Ok v4 /\
                 statusOfVertex plane v4 m = Ok PSBelow.
Proof.
  intros Hloop H. unfold ShiftSeamForSealing.call in H.
  apply rbind_Ok in H as (first & Hfirst & H).
  apply rbind_Ok in H as (second & Hsecond & H).
  apply rbind_Ok in H as (v1 & Hv1 & H).
  apply rbind_Ok in H as (v2 & Hv2 & H).
  apply rbind_Ok in H as (v3 & Hv3 & H).
  apply rbind_Ok in H as (plane & Hplane & H).
  apply rbind_Ok in H as (l & Hl & H).
  apply rbind_Ok in H as (v4 & Hv4 & H).
  apply rbind_Ok in H as (st & Hst & H).
  destruct (decide (st = PSBelow)) as [->|Hne];
    [|rewrite bool_decide_eq_true_2 in H by exact Hne;
      apply (proj1 (rret_Ok _ m _)) in H; discriminate H].
  simpl in H.
  destruct seam as [|e0 [|e1 rest]]; try discriminate Hsecond.
  apply (proj1 (rret_Ok _ m _)) in Hfirst as ->. apply (proj1 (rret_Ok _ m _)) in Hsecond as ->.
  unfold Seam.last in Hl. rewrite last_map_Some in Hl.
  destruct (last (e0 :: e1 :: rest)) as [l'|] eqn:El; [|discriminate Hl].
  apply (proj1 (rret_Ok _ m _)) in Hl as ->.
  unfold looped in Hloop. rewrite El in Hloop.
  exists e0, e1, v1, v2, v3, plane. do 6 (split; [done|]).
  split; [|by exists l', v4].
  (* the three points of the plane *)
  pose proof Hplane as Hpl. unfold planeOf in Hpl.
  apply rbind_Ok in Hpl as (p1 & Hp1 & Hpl).
  apply rbind_Ok in Hpl as (p2 & Hp2 & Hpl).
  apply rbind_Ok in Hpl as (p3 & Hp3 & Hpl).
  destruct (setPlanePoints p1 p2 p3) as [pl|] eqn:Epl; [|discriminate Hpl].
  apply (proj1 (rret_Ok _ m _)) in Hpl as ->.
  apply setPlanePoints_inside in Epl as (I1 & I2 & I3).
  assert (N0 : notAbove m pl e0).
  { exists v1, p1. rewrite I1. by repeat split. }
  assert (N1 : notAbove m pl e1).
  { exists v3, p3. rewrite I3. by repeat split. }
  constructor; [exact N0|]. constructor; [exact N1|].
  destruct rest as [|x mid _] using rev_ind; [constructor|].
  (* the last edge starts at v2 *)
  assert (El' : l' = x).
  { change (e0 :: e1 :: mid ++ [x]) with ([e0; e1] ++ mid ++ [x]) in El.
    rewrite app_assoc, last_snoc in El. by injection El. }
  subst l'.
  destruct Hloop as (C0 & C1 & Hc).
  apply connected_Ok in C0 as (w & Hw & Hw'). rewrite Hv2 in Hw'.
  injection Hw' as <-.
  assert (Nx : notAbove m pl x).
  { exists v2, p2. rewrite I2. by repeat split. }
  apply Forall_app. split; [|by constructor].
  destruct mid as [|e2 mid]; [constructor|].
  unfold ShiftSeamForSealing.checkRemainingPoints in H.
  destruct (length (e0 :: e1 :: (e2 :: mid) ++ [x]) <? 5)%nat eqn:E5.
  - (* four edges: the third starts where the last ends *)
    apply Nat.ltb_lt in E5. simpl in E5. rewrite length_app in E5. simpl in E5.
    destruct mid as [|? ?]; [|simpl in E5; lia].
    simpl in Hc. destruct Hc as (_ & C2 & _).
    apply connected_Ok in C2 as (w & Hw2 & Hw2'). rewrite Hv4 in Hw2'.
    injection Hw2' as <-.
    apply statusOfVertex_Ok in Hst as (p4 & Hp4 & Hs4).
    constructor; [|constructor]. exists v4, p4. rewrite Hs4. by repeat split.
  - apply rbind_Ok in H as (above & Habove & H). apply (proj1 (rret_Ok _ m _)) in H.
    destruct above; [discriminate H|].
    change (skipn 2 (e0 :: e1 :: (e2 :: mid) ++ [x])) with ((e2 :: mid) ++ [x]) in Habove.
    rewrite removelast_last in Habove.
    apply rexistsb_false in Habove.
    eapply Forall_impl; [exact Habove|]. simpl. intros e He.
    apply rbind_Ok in He as (v & Hv & He).
    apply rbind_Ok in He as (st & Hs & He).
    apply (proj1 (rret_Ok _ m _)) in He. symmetry in He. apply bool_decide_eq_false in He.
    apply statusOfVertex_Ok in Hs as (p & Hp & <-).
    by exists v, p.
Qed.

Lemma shiftSeamForSealing_accepts_hollow_witness :
  let seam := [11; 14; 25; 47; 41]%positive in
  let m := st_mesh (finalState openedRing (mkState emptyMesh [])) in
  (looped m seam /\ ShiftSeamForSealing.call seam m = Ok true) /\
  exists first second v1 v2 v3 plane,
    seam !! 0%nat = Some first /\ seam !! 1%nat = Some second /\
    Edge.firstVertex first m = Ok v1 /\ Edge.secondVertex first m = Ok v2 /\
    Edge.firstVertex second m = Ok v3 /\ planeOf v1 v2 v3 m = Ok plane /\
    Forall (notAbove m plane) seam /\
    exists l v4, last seam = Some l /\ Edge.secondVertex l m = Ok v4 /\
                 statusOfVertex plane v4 m = Ok PSBelow.
Proof.
  intros seam m.
  assert (H1 : looped m seam).
  { assert (Hc : Seam.checkEdges seam m = Ok true) by (vm_compute; reflexivity).
    apply checkEdges_true in Hc as [_ Hc]. exact Hc. }
  assert (H2 : ShiftSeamForSealing.call seam m = Ok true)
    by (vm_compute; reflexivity).
  split; [exact (conj H1 H2)|].
  exact (shiftSeamForSealing_accepts_hollow seam m H1 H2).
Defined.

(** * The vertices of the hull *)

#[global] Instance positionsFixed_refl : Reflexive positionsFixed.
Proof. intros s. by split. Qed.

#[global] Instance positionsFixed_trans : Transitive positionsFixed.
Proof.
  intros s1 s2 s3 [A1 A2] [B1 B2]. split; [congruence|].
  intros v. by rewrite B2.
Qed.

#[global] Instance verticesShrink_refl : Reflexive verticesShrink.
Proof. intros s. by split. Qed.

#[global] Instance verticesShrink_trans : Transitive verticesShrink.
Proof.
  intros s1 s2 s3 [A1 A2] [B1 B2]. split; [auto|].
  intros v q H. auto.
Qed.

Lemma positionsFixed_shrink s s' : positionsFixed s s' -> verticesShrink s s'.
Proof.
  intros [A B]. split.
  - intros v. by rewrite A.
  - intros v q. by rewrite B.
Qed.

Lemma positionsFixed_same s s' :
  vertexPool (st_mesh s') = vertexPool (st_mesh s) ->
  m_vertices (st_mesh s') = m_vertices (st_mesh s) ->
  positionsFixed s s'.
Proof.
  intros Hp Hl. split; [exact Hl|]. intros v.
  unfold Vertex.position, vertexAt, rbind. by rewrite Hp.
Qed.

Lemma fixed_setLeaving v h : preserves positionsFixed (Vertex.setLeaving v h).
Proof.
  intros s u s' H. unfold Vertex.setLeaving, updVertex, storeVertex in H.
  apply bind_Ok in H as (x & s1 & Hx & H). apply read_Ok in Hx as [Hx ->].
  apply bind_Ok in H as (x' & s1 & Hx' & H). apply read_Ok in Hx' as [_ ->].
  apply modifyMesh_Ok in H as ->.
  split; [reflexivity|]. intros w. simpl.
  unfold Vertex.position, vertexAt, rbind in *. simpl.
  destruct (vertexPool (st_mesh s) !! v) as [y|] eqn:E; [|discriminate Hx].
  injection Hx as <-.
  destruct (decide (w = v)) as [->|Hne].
  - by rewrite lookup_insert_eq, E.
  - by rewrite lookup_insert_ne.
Qed.

Lemma shrink_delete v : preserves verticesShrink (Vertex.delete v).
Proof.
  intros s u s' H. unfold Vertex.delete in H.
  apply bind_Ok in H as (x & s1 & Hx & H). apply read_Ok in Hx as [Hx ->].
  apply modifyMesh_Ok in H as ->.
  split; [done|]. intros w q. simpl.
  unfold Vertex.position, vertexAt, rbind. simpl.
  destruct (decide (w = v)) as [->|Hne].
  - by rewrite lookup_delete_eq.
  - by rewrite lookup_delete_ne.
Qed.

Lemma shrink_removeVertexFromList v :
  preserves verticesShrink (removeVertexFromList v).
Proof.
  intros s u s' H. apply modifyMesh_Ok in H as ->.
  split; [|done]. intros w. simpl. unfold removeAddr.
  rewrite list_elem_of_filter. tauto.
Qed.

Ltac vertex_leaf :=
  lazymatch goal with
  | |- preserves positionsFixed (Vertex.setLeaving _ _) => apply fixed_setLeaving
  | |- preserves verticesShrink (Vertex.setLeaving _ _) =>
      intros ? ? ? ?; eapply positionsFixed_shrink, fixed_setLeaving; eassumption
  | |- preserves verticesShrink (Vertex.delete _) => apply shrink_delete
  | |- preserves verticesShrink (removeVertexFromList _) =>
      apply shrink_removeVertexFromList
  | |- preserves positionsFixed (modifyMesh _) =>
      apply preserves_modifyMesh; intros ?; apply positionsFixed_same; reflexivity
  | |- preserves verticesShrink (modifyMesh _) =>
      apply preserves_modifyMesh; intros ?;
      apply positionsFixed_shrink, positionsFixed_same; reflexivity
  | |- preserves positionsFixed fresh =>
      intros ? ? ? [= <- <-]; apply positionsFixed_same; reflexivity
  | |- preserves verticesShrink fresh =>
      intros ? ? ? [= <- <-]; apply positionsFixed_shrink, positionsFixed_same; reflexivity
  | |- preserves positionsFixed (faceWasCreated _) =>
      intros ? ? ? [= <- <-]; apply positionsFixed_same; reflexivity
  | |- preserves verticesShrink (faceWillBeDeleted _) =>
      intros ? ? ? [= <- <-]; apply positionsFixed_shrink, positionsFixed_same; reflexivity
  end.

Ltac vertices := repeat first [vertex_leaf | pres_step].

Lemma fixed_HalfEdge_new o : preserves positionsFixed (HalfEdge.new o).
Proof. unfold HalfEdge.new. vertices. Qed.

Lemma fixed_append l h : preserves positionsFixed (HalfEdgeList.append l h).
Proof. unfold HalfEdgeList.append. vertices. Qed.

Lemma fixed_setSecondEdge e h : preserves positionsFixed (Edge.setSecondEdge e h).
Proof. unfold Edge.setSecondEdge. vertices. Qed.

Lemma fixed_Edge_new h1 h2 : preserves positionsFixed (Edge.new h1 h2).
Proof. unfold Edge.new. vertices. Qed.

Lemma fixed_Face_new boundary : preserves positionsFixed (Face.new boundary).
Proof. unfold Face.new. vertices. Qed.

Lemma fixed_createSeam criterion : preserves positionsFixed (createSeam criterion).
Proof.
  intros s seam s' H. apply onlyFlips_createSeam in H.
  destruct H as (A & _ & _ & B & _). by apply positionsFixed_same.
Qed.

#[local] Hint Resolve fixed_HalfEdge_new fixed_append fixed_setSecondEdge
  fixed_Edge_new fixed_Face_new fixed_createSeam : pres.

Lemma fixed_sealSingleLoop it : forall boundary,
  preserves positionsFixed (sealSingleLoop it boundary).
Proof. induction it as [|e it IH]; intros; simpl; vertices. Qed.

#[local] Hint Resolve fixed_sealSingleLoop : pres.

Lemma fixed_sealWithSinglePolygon seam :
  preserves positionsFixed (sealWithSinglePolygon seam).
Proof. unfold sealWithSinglePolygon. vertices. Qed.

Lemma fixed_sealRun plane curIt : forall boundary lastVertex,
  preserves positionsFixed (sealRun plane curIt boundary lastVertex).
Proof. induction curIt as [|e it IH]; intros; simpl; vertices. Qed.

#[local] Hint Resolve fixed_sealRun fixed_sealWithSinglePolygon : pres.

Lemma fixed_sealLoop fuel : forall seam, preserves positionsFixed (sealLoop fuel seam).
Proof.
  induction fuel as [|fuel IH]; intros seam; destruct seam as [|e1 [|e2 seam]];
    simpl; vertices.
Qed.

#[local] Hint Resolve fixed_sealLoop : pres.

Lemma fixed_sealWithMultiplePolygons seam :
  preserves positionsFixed (sealWithMultiplePolygons seam).
Proof. unfold sealWithMultiplePolygons. vertices. Qed.

Lemma fixed_weaveRun plane it : forall h boundary,
  preserves positionsFixed (weaveRun plane it h boundary).
Proof. induction it as [|e it IH]; intros; simpl; vertices. Qed.

#[local] Hint Resolve fixed_weaveRun : pres.

Lemma fixed_weaveLoop fuel : forall top it first last,
  preserves positionsFixed (weaveLoop fuel top it first last).
Proof.
  induction fuel as [|fuel IH]; intros top it first last; destruct it as [|e it];
    simpl; vertices.
Qed.

Lemma fixed_makePolyhedronLoop fuel : forall first current seam,
  preserves positionsFixed (makePolyhedronLoop fuel first current seam).
Proof. induction fuel as [|fuel IH]; intros; simpl; vertices. Qed.

Lemma shrink_deleteFacesLoop recurse first n :
  (forall t acc, preserves verticesShrink (recurse t acc)) ->
  forall current acc,
    preserves verticesShrink (deleteFacesLoop recurse first n current acc).
Proof. intros Hr. induction n as [|n IH]; intros; simpl; vertices. Qed.

Lemma shrink_deleteFaces depth : forall first acc,
  preserves verticesShrink (deleteFaces depth first acc).
Proof.
  induction depth as [|depth IH]; intros; simpl; [vertices|].
  pose proof (fun n => shrink_deleteFacesLoop (deleteFaces depth) first n IH) as HL.
  vertices.
Qed.

#[local] Hint Resolve shrink_deleteFaces : pres.

Lemma shrink_split seam : preserves verticesShrink (split seam).
Proof. unfold split. vertices. Qed.

Lemma Vertex_new_spec p s a s' :
  Vertex.new p s = Ok (a, s') ->
  m_vertices (st_mesh s') = m_vertices (st_mesh s) /\
  Vertex.position a (st_mesh s') = Ok p /\
  (nextAddress (st_mesh s) <= a)%positive /\
  forall v, v <> a -> Vertex.position v (st_mesh s') = Vertex.position v (st_mesh s).
Proof.
  unfold Vertex.new. intros H.
  apply bind_Ok in H as (a' & s1 & Hf & H). apply fresh_strict in Hf as Hn.
  injection Hf as <- <-.
  apply bind_Ok in H as ([] & s2 & Hm & H). apply modifyMesh_Ok in Hm as ->.
  apply ret_Ok in H as [-> ->]. simpl.
  split; [reflexivity|].
  unfold Vertex.position, vertexAt, rbind. simpl.
  split; [by rewrite lookup_insert_eq|]. split; [lia|].
  intros v Hv. by rewrite lookup_insert_ne.
Qed.

Lemma weave_spec seam position s u s' :
  weave seam position s = Ok (u, s') ->
  exists top,
    m_vertices (st_mesh s') = m_vertices (st_mesh s) ++ [top] /\
    Vertex.position top (st_mesh s') = Ok position /\
    forall v, v <> top ->
      Vertex.position v (st_mesh s') = Vertex.position v (st_mesh s).
Proof.
  unfold weave. intros H.
  apply bind_Ok in H as ([] & s1 & Ha & H). apply assert_Ok in Ha as [_ ->].
  apply bind_Ok in H as ([b seam'] & s1 & Hs & H). apply read_Ok in Hs as [_ ->].
  apply bind_Ok in H as ([] & s1 & Ha & H). apply assert_Ok in Ha as [_ ->].
  apply bind_Ok in H as (top & s1 & Hv & H).
  apply Vertex_new_spec in Hv as (V1 & V2 & _ & V3).
  apply bind_Ok in H as ([first last] & s2 & HL & H).
  apply fixed_weaveLoop in HL as [L1 L2].
  apply bind_Ok in H as (first' & s3 & Hr & H). apply read_Ok in Hr as [_ ->].
  apply bind_Ok in H as (last' & s3 & Hr & H). apply read_Ok in Hr as [_ ->].
  apply bind_Ok in H as (f1 & s3 & Hr & H). apply read_Ok in Hr as [_ ->].
  apply bind_Ok in H as (f2 & s3 & Hr & H). apply read_Ok in Hr as [_ ->].
  apply bind_Ok in H as ([] & s3 & Ha & H). apply assert_Ok in Ha as [_ ->].
  apply bind_Ok in H as (e & s3 & He & H). apply fixed_Edge_new in He as [E1 E2].
  apply bind_Ok in H as ([] & s4 & Hm & H). apply modifyMesh_Ok in Hm as ->.
  apply modifyMesh_Ok in H as ->. simpl.
  exists top. split; [by rewrite E1, L1, V1|].
  unfold Vertex.position, vertexAt, rbind in *. simpl.
  split.
  - by rewrite E2, L2.
  - intros v Hv. by rewrite E2, L2, V3.
Qed.

Lemma fromInput_shrink position s s' : verticesShrink s s' -> fromInput position s s'.
Proof. intros [A B] v q Hv Hq. right. auto. Qed.

Lemma fromInput_after_shrink position s s1 s' :
  verticesShrink s s1 -> fromInput position s1 s' -> fromInput position s s'.
Proof.
  intros [A B] H v q Hv Hq. destruct (H v q Hv Hq) as [->|[Hv1 Hq1]]; [by left|].
  right. auto.
Qed.

Lemma addPointToPolyhedron_vertices position seam s b s' :
  addPointToPolyhedron position seam s = Ok (b, s') ->
  b = true /\ hasVertexAt position s' /\ fromInput position s s'.
Proof.
  unfold addPointToPolyhedron. intros H.
  apply bind_Ok in H as ([] & s1 & Ha & H). apply assert_Ok in Ha as [_ ->].
  apply bind_Ok in H as (f & s1 & Hr & H). apply read_Ok in Hr as [_ ->].
  apply bind_Ok in H as (vs & s1 & Hr & H). apply read_Ok in Hr as [_ ->].
  apply bind_Ok in H as ([] & s1 & Hw & H). apply weave_spec in Hw as (top & W1 & W2 & W3).
  apply bind_Ok in H as (p & s2 & Hr & H). apply read_Ok in Hr as [_ ->].
  apply bind_Ok in H as ([] & s2 & Ha & H). apply assert_Ok in Ha as [_ ->].
  apply ret_Ok in H as [-> ->].
  split; [reflexivity|]. split.
  - exists top. split; [|exact W2]. rewrite W1. apply elem_of_app. right. left.
  - intros v q Hv Hq. destruct (decide (v = top)) as [->|Hne].
    + left. congruence.
    + right. rewrite W1 in Hv. apply elem_of_app in Hv as [Hv|Hv].
      * split; [exact Hv|]. by rewrite <- (W3 v Hne).
      * apply list_elem_of_singleton in Hv. contradiction.
Qed.

Lemma addFurtherPointToPolyhedron_vertices position s b s' :
  addFurtherPointToPolyhedron position s = Ok (b, s') ->
  (b = true -> hasVertexAt position s') /\ fromInput position s s' /\
  (b = false -> positionsFixed s s').
Proof.
  unfold addFurtherPointToPolyhedron. intros H.
  apply bind_Ok in H as (p & s1 & Hr & H). apply read_Ok in Hr as [_ ->].
  apply bind_Ok in H as ([] & s1 & Ha & H). apply assert_Ok in Ha as [_ ->].
  apply bind_Ok in H as (c & s1 & Hr & H). apply read_Ok in Hr as [_ ->].
  destruct c.
  { apply ret_Ok in H as [-> ->]. split; [discriminate|].
    split; [apply fromInput_shrink|]; reflexivity. }
  apply bind_Ok in H as (seam & s1 & Hc & H). apply fixed_createSeam in Hc.
  destruct (bool_decide (seam = [])).
  { apply ret_Ok in H as [-> ->]. split; [discriminate|].
    split; [by apply fromInput_shrink, positionsFixed_shrink|done]. }
  apply bind_Ok in H as ([] & s2 & Hs & H). apply shrink_split in Hs.
  apply addPointToPolyhedron_vertices in H as (-> & Hv & Hf).
  split; [done|]. split; [|discriminate].
  eapply fromInput_after_shrink; [|exact Hf].
  etrans; [by apply positionsFixed_shrink|exact Hs].
Qed.

Lemma makePolyhedron_vertices position s b s' :
  makePolyhedron position s = Ok (b, s') ->
  b = true /\ hasVertexAt position s' /\ fromInput position s s'.
Proof.
  unfold makePolyhedron. intros H.
  apply bind_Ok in H as (p & s1 & Hr & H). apply read_Ok in Hr as [_ ->].
  apply bind_Ok in H as ([] & s1 & Ha & H). apply assert_Ok in Ha as [_ ->].
  apply bind_Ok in H as (f & s1 & Hr & H). apply read_Ok in Hr as [_ ->].
  apply bind_Ok in H as (bd & s1 & Hr & H). apply read_Ok in Hr as [_ ->].
  apply bind_Ok in H as (h & s1 & Hr & H). apply read_Ok in Hr as [_ ->].
  apply bind_Ok in H as (fuel & s1 & Hr & H). apply read_Ok in Hr as [_ ->].
  apply bind_Ok in H as (seam & s1 & HL & H). apply fixed_makePolyhedronLoop in HL.
  apply addPointToPolyhedron_vertices in H as (-> & Hv & Hf).
  split; [done|]. split; [done|].
  eapply fromInput_after_shrink; [|exact Hf]. by apply positionsFixed_shrink.
Qed.

Lemma removeVertexBody_vertices vertex s u s' :
  removeVertexBody vertex s = Ok (u, s') -> verticesShrink s s'.
Proof.
  unfold removeVertexBody. intros H.
  apply bind_Ok in H as (pos & s1 & Hr & H). apply read_Ok in Hr as [_ ->].
  apply bind_Ok in H as (found & s1 & Hr & H). apply read_Ok in Hr as [_ ->].
  apply bind_Ok in H as ([] & s1 & Ha & H). apply assert_Ok in Ha as [_ ->].
  apply bind_Ok in H as (seam & s1 & Hc & H). apply fixed_createSeam in Hc.
  apply bind_Ok in H as ([] & s2 & Hs & H). apply shrink_split in Hs.
  apply fixed_sealWithMultiplePolygons in H.
  etrans; [by apply positionsFixed_shrink|].
  etrans; [exact Hs|by apply positionsFixed_shrink].
Qed.

Lemma mergeWith_keeps b p q : boxContains b q -> boxContains (mergeWith b p) q.
Proof.
  unfold boxContains, mergeWith, vle, vmin, vmax. simpl. lia.
Qed.

(** ** Where the vertices of the enlarged hull come from *)

(** When a point is added to a polyhedron, or to a polygon that it is not
    coplanar with, and the call returns true, the point is the position of a
    vertex of the result; every vertex of the result is at the new point or
    was a vertex before the call, at the same position.  When
    [addFurtherPointToPolyhedron] returns false the list of vertices and all
    positions are what they were. *)
Theorem added_point_joins_old_vertices (position : Vec3) (s : State)
    (b : bool) (s' : State) :
  addFurtherPointToPolyhedron position s = Ok (b, s') \/
  makePolyhedron position s = Ok (b, s') ->
  (b = true -> hasVertexAt position s') /\
  fromInput position s s' /\
  (b = false -> positionsFixed s s').
Proof.
  intros [H|H].
  - by apply addFurtherPointToPolyhedron_vertices.
  - apply makePolyhedron_vertices in H as (-> & Hv & Hf).
    split; [done|]. split; [done|discriminate].
Qed.

Lemma added_point_joins_old_vertices_witness :
  let position := vec3 4 4 4 in
  let s := mkState (mesh (polyhedronOf tetrahedron)) [] in
  let s' := finalState (addFurtherPointToPolyhedron position s) s in
  addFurtherPointToPolyhedron position s = Ok (true, s') /\
  hasVertexAt position s' /\ fromInput position s s'.
Proof.
  intros position s s'.
  assert (H : addFurtherPointToPolyhedron position s = Ok (true, s')).
  { destruct (isOk_true (addFurtherPointToPolyhedron position s)) as [[b0 s0] E];
      [vm_compute; reflexivity|].
    assert (Hb : b0 = true).
    { assert (Hf : andThen (addFurtherPointToPolyhedron position s)
                     (fun r => Ok r.1) = Ok true) by (vm_compute; reflexivity).
      rewrite E in Hf. simpl in Hf. injection Hf as Hf. exact Hf. }
    unfold s'. rewrite E. simpl. rewrite Hb. reflexivity. }
  split; [exact H|].
  destruct (added_point_joins_old_vertices position s true s' (or_introl H))
    as (A & B & _).
  exact (conj (A eq_refl) B).
Defined.

(** ** removeVertex creates no vertex *)

(** Every vertex of the polyhedron after [removeVertex] was a vertex before
    the call, at the same position: no vertex is created or moved. *)
Theorem removeVertex_creates_no_vertex (vertex : Address) (s : State)
    (u : unit) (s' : State) :
  removeVertexBody vertex s = Ok (u, s') ->
  forall v q, v ∈ m_vertices (st_mesh s') ->
    Vertex.position v (st_mesh s') = Ok q ->
    v ∈ m_vertices (st_mesh s) /\ Vertex.position v (st_mesh s) = Ok q.
Proof.
  intros H v q Hv Hq. apply removeVertexBody_vertices in H as [A B]. auto.
Qed.

Lemma removeVertex_creates_no_vertex_witness :
  let p := polyhedronOf ringWithApex in
  let s := mkState (mesh p) [] in
  let s' := finalState (removeVertexBody (vertexOf apex p) s) s in
  removeVertexBody (vertexOf apex p) s = Ok (tt, s') /\
  forall v q, v ∈ m_vertices (st_mesh s') ->
    Vertex.position v (st_mesh s') = Ok q ->
    v ∈ m_vertices (st_mesh s) /\ Vertex.position v (st_mesh s) = Ok q.
Proof.
  intros p s s'.
  assert (H : removeVertexBody (vertexOf apex p) s = Ok (tt, s')).
  { destruct (isOk_true (removeVertexBody (vertexOf apex p) s)) as [[[] s0] E];
      [vm_compute; reflexivity|].
    unfold s'. rewrite E. reflexivity. }
  split; [exact H|].
  exact (removeVertex_creates_no_vertex (vertexOf apex p) s tt s' H).
Defined.

(** ** The bounds of a polyhedron *)

(** On a polyhedron with three or more vertices that is not a polygon (it
    has not exactly one face), [addPoint] keeps the bounding box around the
    vertices: when every vertex lies within the bounds before the call, every
    vertex lies within the bounds after it. *)
Theorem addPoint_keeps_vertices_in_bounds (position : Vec3) (p p' : Polyhedron)
    (cb cb' : list Notification) (r : unit) :
  boundsCoverVertices p ->
  (3 <= length (m_vertices (mesh p)))%nat ->
  length (m_faces (mesh p)) <> 1%nat ->
  addPoint position p cb = Ok (r, p', cb') ->
  boundsCoverVertices p'.
Proof.
  intros Hcover Hlen Hfaces H. unfold addPoint in H.
  destruct (m_vertices (mesh p)) as [|a [|b0 [|c l]]] eqn:El;
    simpl in Hlen; try lia.
  simpl in H.
  destruct (call _ _ _) as [[[b m] cb0]| | |] eqn:E; try discriminate H.
  injection H as <- <-. apply call_Ok in E.
  unfold addFurtherPoint in E.
  apply bind_Ok in E as (n & s1 & Hr & E). apply read_Ok in Hr as [Hn ->].
  injection Hn as <-. simpl in E.
  rewrite bool_decide_eq_false_2 in E by exact Hfaces.
  apply addFurtherPointToPolyhedron_vertices in E as (_ & Hf & Hfix).
  intros v q Hv Hq. simpl in Hv, Hq |- *.
  destruct b.
  - destruct (Hf v q Hv Hq) as [->|[Hv0 Hq0]].
    + apply mergeWith_contains.
    + apply mergeWith_keeps. by apply (Hcover v q).
  - destruct (Hfix eq_refl) as [F1 F2]. simpl in F1, F2.
    rewrite F1 in Hv. rewrite F2 in Hq. by apply (Hcover v q).
Qed.

Lemma addPoint_keeps_vertices_in_bounds_witness :
  let position := vec3 4 4 4 in
  let p := polyhedronOf tetrahedron in
  let p' := polyhedronOf (addPoint position p []) in
  let cb' := match addPoint position p [] with Ok (_, _, cb) => cb | _ => [] end in
  (boundsCoverVertices p /\ (3 <= length (m_vertices (mesh p)))%nat /\
   length (m_faces (mesh p)) <> 1%nat /\
   addPoint position p [] = Ok (tt, p', cb')) /\
  boundsCoverVertices p'.
Proof.
  intros position p p' cb'.
  assert (H1 : boundsCoverVertices p)
    by (apply boundsCoverVerticesB_true; vm_compute; reflexivity).
  assert (H2 : (3 <= length (m_vertices (mesh p)))%nat)
    by (apply Nat.leb_le; vm_compute; reflexivity).
  assert (H3 : length (m_faces (mesh p)) <> 1%nat)
    by (apply Nat.eqb_neq; vm_compute; reflexivity).
  assert (H4 : addPoint position p [] = Ok (tt, p', cb')).
  { destruct (isOk_true (addPoint position p [])) as [[[[] p0] cb0] E];
      [vm_compute; reflexivity|].
    unfold p', cb'. rewrite E. reflexivity. }
  split; [exact (conj H1 (conj H2 (conj H3 H4)))|].
  exact (addPoint_keeps_vertices_in_bounds position p p' [] cb' tt H1 H2 H3 H4).
Defined.

(** * The polygon made of a list of points *)

#[global] Instance originsKept_refl : Reflexive originsKept.
Proof. intros s. unfold originsKept. split; [lia|]. by repeat split. Qed.

#[global] Instance originsKept_trans : Transitive originsKept.
Proof.
  intros s1 s2 s3 (A1 & A2 & A3 & A4) (B1 & B2 & B3 & B4).
  unfold originsKept. split; [lia|]. split; [|split; congruence].
  intros h o Hh Ho. apply B2; [lia|]. by apply A2.
Qed.

Lemma originsKept_same s s' :
  (nextAddress (st_mesh s) <= nextAddress (st_mesh s'))%positive ->
  halfEdgePool (st_mesh s') = halfEdgePool (st_mesh s) ->
  m_edges (st_mesh s') = m_edges (st_mesh s) ->
  m_faces (st_mesh s') = m_faces (st_mesh s) ->
  originsKept s s'.
Proof.
  intros Hn Hp He Hf. split; [exact Hn|]. split; [|by split].
  intros h o _. unfold HalfEdge.origin, halfEdgeAt, rbind. by rewrite Hp.
Qed.

Lemma origins_updHalfEdge h f :
  (forall x, h_origin (f x) = h_origin x) ->
  preserves originsKept (updHalfEdge h f).
Proof.
  intros Hf s u s' H. apply updHalfEdge_eff in H as (x & Hx & ->).
  split; [simpl; lia|]. split; [|by split].
  intros h' o _. simpl. unfold HalfEdge.origin, halfEdgeAt, rbind. simpl.
  destruct (decide (h' = h)) as [->|Hne].
  - rewrite lookup_insert_eq, Hx. simpl. by rewrite Hf.
  - by rewrite lookup_insert_ne.
Qed.

Lemma origins_HalfEdge_new o : preserves originsKept (HalfEdge.new o).
Proof.
  intros s h s' H.
  apply HalfEdge_new_eff in H as (-> & Hn & Hp & _ & _ & Hf & _ & He & _).
  split; [lia|]. split; [|by split].
  intros h o' Hh. unfold HalfEdge.origin, halfEdgeAt, rbind.
  rewrite Hp, lookup_insert_ne by lia. done.
Qed.

Ltac origin_leaf :=
  lazymatch goal with
  | |- preserves originsKept (HalfEdge.new _) => apply origins_HalfEdge_new
  | |- preserves originsKept (updHalfEdge _ _) =>
      apply origins_updHalfEdge; intros ?; reflexivity
  | |- preserves originsKept (Vertex.setLeaving _ _) =>
      let H := fresh in
      intros ? ? ? H; apply updVertex_eff in H as (? & ? & ->);
      apply originsKept_same; [simpl; lia|reflexivity..]
  | |- preserves originsKept (modifyMesh _) =>
      apply preserves_modifyMesh; intros ?;
      apply originsKept_same; [simpl; lia|reflexivity..]
  | |- preserves originsKept fresh =>
      intros ? ? ? [= <- <-]; apply originsKept_same; [simpl; lia|reflexivity..]
  | |- preserves originsKept (faceWasCreated _) =>
      intros ? ? ? [= <- <-]; apply originsKept_same; [simpl; lia|reflexivity..]
  end.

Ltac origins := repeat first [origin_leaf | pres_step].

Lemma origins_Vertex_new p : preserves originsKept (Vertex.new p).
Proof. unfold Vertex.new. origins. Qed.

Lemma origins_append l h : preserves originsKept (HalfEdgeList.append l h).
Proof. unfold HalfEdgeList.append. origins. Qed.

Lemma origins_Edge_new h1 h2 : preserves originsKept (Edge.new h1 h2).
Proof. unfold Edge.new. origins. Qed.

Lemma origins_Face_new boundary : preserves originsKept (Face.new boundary).
Proof. unfold Face.new. origins. Qed.

Lemma HalfEdge_new_origin o s h s' :
  HalfEdge.new o s = Ok (h, s') ->
  HalfEdge.origin h (st_mesh s') = Ok o /\
  (h < nextAddress (st_mesh s'))%positive.
Proof.
  intros H. apply HalfEdge_new_eff in H as (-> & Hn & Hp & _).
  unfold HalfEdge.origin, halfEdgeAt, rbind. rewrite Hp, lookup_insert_eq.
  split; [done|lia].
Qed.

Lemma Vertex_new_fresh p s a s' :
  Vertex.new p s = Ok (a, s') ->
  a = nextAddress (st_mesh s) /\ nextAddress (st_mesh s') = Pos.succ a.
Proof.
  unfold Vertex.new. intros H.
  apply bind_Ok in H as (a' & s1 & Hf & H). apply fresh_strict in Hf as [-> Hn].
  apply bind_Ok in H as ([] & s2 & Hm & H). apply modifyMesh_Ok in Hm as ->.
  apply ret_Ok in H as [-> ->]. by split.
Qed.

Lemma rmapM_Forall2 {A B} (f : A -> R B) (l : list A) (ys : list B) m :
  Forall2 (fun x y => f x m = Ok y) l ys -> rmapM f l m = Ok ys.
Proof.
  induction 1 as [|x y l ys Hx _ IH]; simpl; [done|].
  unfold rbind. by rewrite Hx, IH.
Qed.

(** The loop of [makePolygon]: one vertex, one half-edge and one edge for
    each position, in the order of the positions. *)
Lemma makePolygonLoop_spec positions : forall boundary s boundary' s',
  makePolygonLoop positions boundary s = Ok (boundary', s') ->
  (nextAddress (st_mesh s) <= nextAddress (st_mesh s'))%positive /\
  (forall h o, (h < nextAddress (st_mesh s))%positive ->
     HalfEdge.origin h (st_mesh s) = Ok o -> HalfEdge.origin h (st_mesh s') = Ok o) /\
  (forall v p, (v < nextAddress (st_mesh s))%positive ->
     Vertex.position v (st_mesh s) = Ok p -> Vertex.position v (st_mesh s') = Ok p) /\
  m_faces (st_mesh s') = m_faces (st_mesh s) /\
  exists vs hs es,
    m_vertices (st_mesh s') = m_vertices (st_mesh s) ++ vs /\
    boundary' = boundary ++ hs /\
    m_edges (st_mesh s') = m_edges (st_mesh s) ++ es /\
    length es = length positions /\
    Forall2 (fun v p => Vertex.position v (st_mesh s') = Ok p) vs positions /\
    Forall2 (fun h v => HalfEdge.origin h (st_mesh s') = Ok v) hs vs /\
    Forall (fun h => (h < nextAddress (st_mesh s'))%positive) hs.
Proof.
  induction positions as [|p rest IH]; intros bd s bd' s' H; simpl in H.
  - apply ret_Ok in H as [-> ->]. split; [lia|]. do 3 (split; [auto|]).
    exists [], [], []. rewrite !app_nil_r. by repeat split.
  - apply bind_Ok in H as (v & s1 & Hv & H).
    pose proof (origins_Vertex_new _ _ _ _ Hv) as (N1 & Q1 & E1 & G1).
    pose proof (Vertex_new_fresh _ _ _ _ Hv) as [Hva Hv1].
    apply Vertex_new_spec in Hv as (V1 & V2 & V3 & V4).
    apply bind_Ok in H as (h & s2 & Hh & H).
    pose proof (origins_HalfEdge_new _ _ _ _ Hh) as (N2 & Q2 & E2 & G2).
    pose proof (fixed_HalfEdge_new _ _ _ _ Hh) as [F2 P2].
    apply HalfEdge_new_origin in Hh as [Ho Hhlt].
    apply bind_Ok in H as (e & s3 & He & H).
    pose proof (origins_Edge_new _ _ _ _ _ He) as (N3 & Q3 & E3 & G3).
    apply fixed_Edge_new in He as [F3 P3].
    apply bind_Ok in H as ([] & s4 & Hm & H). apply modifyMesh_Ok in Hm as ->.
    apply bind_Ok in H as (bd1 & s5 & Ha & H).
    pose proof (origins_append _ _ _ _ _ Ha) as (N5 & Q5 & E5 & G5).
    pose proof (fixed_append _ _ _ _ _ Ha) as [F5 P5].
    apply append_result in Ha as ->.
    apply bind_Ok in H as ([] & s6 & Hm & H). apply modifyMesh_Ok in Hm as ->.
    apply IH in H as (N7 & Q7 & P7 & G7 & vs & hs & es & L1 & -> & L3 & L4 & L5 & L6 & L7).
    simpl in *.
    change (HalfEdge.origin ?a (withEdges ?g ?m)) with (HalfEdge.origin a m) in *.
    change (HalfEdge.origin ?a (withVertices ?g ?m)) with (HalfEdge.origin a m) in *.
    change (Vertex.position ?a (withEdges ?g ?m)) with (Vertex.position a m) in *.
    change (Vertex.position ?a (withVertices ?g ?m)) with (Vertex.position a m) in *.
    assert (Hvn : (v < nextAddress (st_mesh s1))%positive) by lia.
    split; [lia|]. split; [|split; [|split]].
    + intros h' o Hh' Ho'. apply Q7; [lia|]. apply Q5; [lia|].
      apply Q3; [lia|]. apply Q2; [lia|]. by apply Q1.
    + intros v' p' Hv' Hp'. apply P7; [lia|]. rewrite P5, P3, P2, V4; [done|lia].
    + congruence.
    + exists (v :: vs), (h :: hs), (e :: es).
      split. { rewrite L1, F5, F3, F2, V1, <- app_assoc. done. }
      split. { by rewrite <- app_assoc. }
      split. { rewrite L3, E5, E3, E2, E1, <- app_assoc. done. }
      split. { simpl. by rewrite L4. }
      split. { constructor; [|done]. apply P7; [lia|]. by rewrite P5, P3, P2. }
      split. { constructor; [|done]. apply Q7; [lia|]. apply Q5; [lia|].
               by apply Q3. }
      constructor; [lia|done].
Qed.

(** ** makePolygon *)

(** [makePolygon] returns only on a polyhedron without vertices and for more
    than two positions.  It then has one vertex for each position, in the
    order of the positions, as many new edges as positions, and one new
    face, the last of the face list, whose boundary visits the positions in
    the given order. *)
Theorem makePolygon_builds_the_polygon (positions : list Vec3) (s : State)
    (u : unit) (s' : State) :
  makePolygon positions s = Ok (u, s') ->
  (2 < length positions)%nat /\
  m_vertices (st_mesh s) = [] /\
  vertexPositions (st_mesh s') = Ok positions /\
  length (m_edges (st_mesh s')) = (length (m_edges (st_mesh s)) + length positions)%nat /\
  exists f, m_faces (st_mesh s') = m_faces (st_mesh s) ++ [f] /\
            Face.vertexPositions f (st_mesh s') = Ok positions.
Proof.
  unfold makePolygon. intros H.
  apply bind_Ok in H as (em & s1 & Hr & H). apply read_Ok in Hr as [Hem ->].
  apply bind_Ok in H as ([] & s1 & Ha & H). apply assert_Ok in Ha as [-> ->].
  apply bind_Ok in H as ([] & s1 & Ha & H). apply assert_Ok in Ha as [Hlen ->].
  apply bind_Ok in H as (bd & s1 & HL & H).
  apply makePolygonLoop_spec in HL
    as (N1 & Q1 & P1 & G1 & vs & hs & es & L1 & -> & L3 & L4 & L5 & L6 & L7).
  apply bind_Ok in H as (f & s2 & Hf & H).
  pose proof (origins_Face_new _ _ _ _ Hf) as (N2 & Q2 & E2 & G2).
  pose proof (fixed_Face_new _ _ _ _ Hf) as [F2 P2].
  apply Face_new_eff in Hf as (_ & _ & Hfp & _).
  apply bind_Ok in H as ([] & s3 & Hc & H). injection Hc as <-.
  apply modifyMesh_Ok in H as ->. simpl in *.
  injection Hem as Hem. unfold isEmpty in Hem.
  apply bool_decide_eq_true in Hem.
  apply nil_length_inv in Hem. rewrite Hem in L1. simpl in L1.
  split; [apply Z.ltb_lt in Hlen; lia|]. split; [exact Hem|].
  assert (Hvs : Forall2 (fun v p => Vertex.position v (st_mesh s2) = Ok p) vs positions).
  { eapply Forall2_impl; [exact L5|]. intros v p Hp. by rewrite P2. }
  split.
  { unfold vertexPositions. simpl. rewrite F2, L1. by apply rmapM_Forall2. }
  split.
  { rewrite E2, L3, length_app. lia. }
  exists f. split; [by rewrite G2, G1|].
  unfold Face.vertexPositions, Face.boundary, faceAt, rbind. simpl.
  rewrite Hfp, lookup_insert_eq. simpl.
  apply rmapM_Forall2.
  assert (Hb : Forall2 (fun h p => (get o <- HalfEdge.origin h; Vertex.position o)
                                     (st_mesh s2) = Ok p) hs positions);
    [|exact Hb].
  clear - L5 L6 L7 Q2 P2.
  revert positions L5. induction L6 as [|h v hs vs Hh _ IH]; intros positions L5.
  - inversion L5. constructor.
  - inversion L5 as [|? p ? ps Hp Hps]; subst. inversion L7 as [|? ? Hlt Hlts]; subst.
    constructor; [|by apply IH].
    unfold rbind. rewrite (Q2 _ _ Hlt Hh). by rewrite P2.
Qed.

Lemma makePolygon_builds_the_polygon_witness :
  let positions := [vec3 0 0 0; vec3 2 0 0; vec3 2 2 0; vec3 0 2 0] in
  let s := mkState emptyMesh [] in
  let s' := finalState (makePolygon positions s) s in
  makePolygon positions s = Ok (tt, s') /\
  vertexPositions (st_mesh s') = Ok positions /\
  exists f, m_faces (st_mesh s') = m_faces (st_mesh s) ++ [f] /\
            Face.vertexPositions f (st_mesh s') = Ok positions.
Proof.
  intros positions s s'.
  assert (H : makePolygon positions s = Ok (tt, s')) by (vm_compute; reflexivity).
  split; [exact H|].
  destruct (makePolygon_builds_the_polygon positions s tt s' H) as (_ & _ & A & _ & B).
  exact (conj A B).
Defined.

(** * Closing the seam *)

#[global] Instance edgesStay_refl : Reflexive edgesStay.
Proof. intros s. split; [lia|]. intros e _. split; eauto. Qed.

#[global] Instance edgesStay_trans : Transitive edgesStay.
Proof.
  intros s1 s2 s3 [A1 A2] [B1 B2]. split; [lia|].
  intros e He. destruct (A2 e He) as [Af As].
  destruct (B2 e ltac:(lia)) as [Bf Bs]. split; [|auto].
  intros h Hh. destruct (Af h Hh) as [h' Hh']. eauto.
Qed.

Lemma edgesStay_same s s' :
  (nextAddress (st_mesh s) <= nextAddress (st_mesh s'))%positive ->
  edgePool (st_mesh s') = edgePool (st_mesh s) ->
  edgesStay s s'.
Proof.
  intros Hn Hp. split; [exact Hn|]. intros e _.
  unfold Edge.fullySpecified, Edge.firstEdge, Edge.first, Edge.second, edgeAt, rbind, rret.
  rewrite Hp.
  destruct (edgePool (st_mesh s) !! e) as [[[g|] [h|]]|]; simpl; split; eauto.
Qed.

Lemma fullySpecified_Ok_true e m :
  Edge.fullySpecified e m = Ok true <->
  exists g h, edgePool m !! e = Some (mkEdge (Some g) (Some h)).
Proof.
  split; [|intros (g & h & H); by eapply fullySpecified_true].
  unfold Edge.fullySpecified, Edge.firstEdge, Edge.first, Edge.second, edgeAt, rbind, rret.
  destruct (edgePool m !! e) as [[[g|] [h|]]|]; try discriminate; eauto.
Qed.

Lemma firstEdge_Ok e m h :
  Edge.firstEdge e m = Ok h <->
  exists o, edgePool m !! e = Some (mkEdge (Some h) o).
Proof.
  unfold Edge.firstEdge, Edge.first, edgeAt, rbind, rret.
  destruct (edgePool m !! e) as [[[g|] o]|]; split;
    try discriminate; try (intros [? [=]]; fail).
  - intros [= ->]. eauto.
  - intros [? [= -> ->]]. done.
Qed.

Lemma stay_updEdge e f :
  (forall x, e_first (f x) = e_first x) ->
  (forall x, e_second x <> None -> e_second (f x) <> None) ->
  preserves edgesStay (updEdge e f).
Proof.
  intros Hf Hs s u s' H. apply updEdge_eff in H as (x & Hx & ->).
  split; [simpl; lia|]. intros e' _. simpl.
  destruct (decide (e' = e)) as [->|Hne].
  - split.
    + intros h Hh. apply firstEdge_Ok in Hh as (o & Ho). rewrite Hx in Ho.
      injection Ho as ->. exists h. apply firstEdge_Ok. simpl.
      rewrite lookup_insert_eq. specialize (Hf (mkEdge (Some h) o)).
      destruct (f (mkEdge (Some h) o)) as [g o']. simpl in Hf. subst g. eauto.
    + intros Hfs. apply fullySpecified_Ok_true in Hfs as (g & h & Hgh).
      rewrite Hx in Hgh. injection Hgh as ->. apply fullySpecified_Ok_true. simpl.
      rewrite lookup_insert_eq.
      specialize (Hf (mkEdge (Some g) (Some h))).
      specialize (Hs (mkEdge (Some g) (Some h)) ltac:(discriminate)).
      destruct (f (mkEdge (Some g) (Some h))) as [g' [h'|]]; simpl in *;
        [subst g'; eauto|congruence].
  - unfold Edge.fullySpecified, Edge.firstEdge, Edge.first, Edge.second, edgeAt, rbind, rret.
    simpl. rewrite lookup_insert_ne by done.
    destruct (edgePool (st_mesh s) !! e') as [[[g|] [h|]]|]; simpl; split; eauto.
Qed.

Lemma Edge_new_fresh h1 h2 s e s' :
  Edge.new h1 h2 s = Ok (e, s') ->
  e = nextAddress (st_mesh s) /\
  (e < nextAddress (st_mesh s'))%positive /\
  edgePool (st_mesh s') = <[e := mkEdge (Some h1) h2]> (edgePool (st_mesh s)).
Proof.
  unfold Edge.new. intros H.
  apply bind_Ok in H as (a & s1 & Hf & H). apply fresh_strict in Hf as Hn.
  injection Hf as <- <-.
  apply bind_Ok in H as ([] & s2 & Hm & H). apply modifyMesh_Ok in Hm as ->.
  apply bind_Ok in H as ([] & s3 & H1 & H).
  apply updHalfEdge_eff in H1 as (x1 & _ & ->).
  apply bind_Ok in H as ([] & s4 & H2 & H). apply ret_Ok in H as [-> ->].
  destruct h2 as [h|].
  - apply updHalfEdge_eff in H2 as (x2 & _ & ->). simpl. split; [done|]. split; [lia|done].
  - apply ret_Ok in H2 as [_ ->]. simpl. split; [done|]. split; [lia|done].
Qed.

Lemma stay_Edge_new h1 h2 : preserves edgesStay (Edge.new h1 h2).
Proof.
  intros s e s' H. apply Edge_new_fresh in H as (-> & Hlt & Hp).
  split; [lia|]. intros e He.
  unfold Edge.fullySpecified, Edge.firstEdge, Edge.first, Edge.second, edgeAt, rbind, rret.
  rewrite Hp, lookup_insert_ne by lia.
  destruct (edgePool (st_mesh s) !! e) as [[[g|] [h|]]|]; simpl; split; eauto.
Qed.

Ltac stay_leaf :=
  lazymatch goal with
  | |- preserves edgesStay (Edge.new _ _) => apply stay_Edge_new
  | |- preserves edgesStay (updEdge _ _) =>
      apply stay_updEdge; [intros ?; reflexivity|intros ? ?; simpl; discriminate]
  | |- preserves edgesStay (modifyMesh _) =>
      apply preserves_modifyMesh; intros ?;
      apply edgesStay_same; [simpl; lia|reflexivity]
  | |- preserves edgesStay fresh =>
      intros ? ? ? [= <- <-]; apply edgesStay_same; [simpl; lia|reflexivity]
  | |- preserves edgesStay (faceWasCreated _) =>
      intros ? ? ? [= <- <-]; apply edgesStay_same; [simpl; lia|reflexivity]
  end.

Ltac stays := repeat first [stay_leaf | pres_step].

Lemma stay_HalfEdge_new o : preserves edgesStay (HalfEdge.new o).
Proof. unfold HalfEdge.new. stays. Qed.

Lemma stay_append l h : preserves edgesStay (HalfEdgeList.append l h).
Proof. unfold HalfEdgeList.append. stays. Qed.

Lemma stay_setSecondEdge e h : preserves edgesStay (Edge.setSecondEdge e h).
Proof. unfold Edge.setSecondEdge. stays. Qed.

Lemma stay_Face_new boundary : preserves edgesStay (Face.new boundary).
Proof. unfold Face.new. stays. Qed.

Lemma stay_Vertex_new p : preserves edgesStay (Vertex.new p).
Proof. unfold Vertex.new. stays. Qed.

#[local] Hint Resolve stay_HalfEdge_new stay_append stay_setSecondEdge
  stay_Face_new stay_Vertex_new : pres.

Lemma stay_sealSingleLoop it : forall boundary,
  preserves edgesStay (sealSingleLoop it boundary).
Proof. induction it as [|e it IH]; intros; simpl; stays. Qed.

Lemma stay_sealRun plane curIt : forall boundary lastVertex,
  preserves edgesStay (sealRun plane curIt boundary lastVertex).
Proof. induction curIt as [|e it IH]; intros; simpl; stays. Qed.

#[local] Hint Resolve stay_sealRun stay_sealSingleLoop : pres.

Lemma stay_sealLoop fuel : forall seam, preserves edgesStay (sealLoop fuel seam).
Proof.
  induction fuel as [|fuel IH]; intros seam; destruct seam as [|e1 [|e2 seam]];
    simpl; stays.
Qed.

Lemma stay_weaveRun plane it : forall h boundary,
  preserves edgesStay (weaveRun plane it h boundary).
Proof. induction it as [|e it IH]; intros; simpl; stays. Qed.

#[local] Hint Resolve stay_weaveRun stay_sealLoop : pres.

Lemma stay_weaveLoop fuel : forall top it first last,
  preserves edgesStay (weaveLoop fuel top it first last).
Proof.
  induction fuel as [|fuel IH]; intros top it first last; destruct it as [|e it];
    simpl; stays.
Qed.

#[local] Hint Resolve stay_weaveLoop : pres.

Lemma setSecondEdge_closes e h g s u s' :
  Edge.firstEdge e (st_mesh s) = Ok g ->
  Edge.setSecondEdge e h s = Ok (u, s') ->
  Edge.fullySpecified e (st_mesh s') = Ok true.
Proof.
  intros Hg H. apply (setSecondEdge_eff 1) in H as (_ & x & Hx & _ & Hx'); [|lia].
  apply firstEdge_Ok in Hg as (o & Ho). rewrite Hx in Ho. injection Ho as ->.
  by eapply fullySpecified_true.
Qed.

Lemma secondVertex_firstEdge e m v :
  Edge.secondVertex e m = Ok v -> exists g, Edge.firstEdge e m = Ok g.
Proof.
  unfold Edge.secondVertex. intros H. apply rbind_Ok in H as (g & Hg & _). eauto.
Qed.

Lemma firstVertex_firstEdge e m v :
  Edge.firstVertex e m = Ok v -> exists g, Edge.firstEdge e m = Ok g.
Proof.
  unfold Edge.firstVertex. intros H. apply rbind_Ok in H as (g & Hg & _). eauto.
Qed.

(** A seam edge with a first half-edge at [s0] that receives its second
    half-edge at a later state is fully specified afterwards. *)
Lemma closes_later e h g s0 s s1 s' u :
  (e < nextAddress (st_mesh s0))%positive ->
  Edge.firstEdge e (st_mesh s0) = Ok g ->
  edgesStay s0 s ->
  Edge.setSecondEdge e h s = Ok (u, s1) ->
  edgesStay s1 s' ->
  Edge.fullySpecified e (st_mesh s') = Ok true.
Proof.
  intros Hlt Hg [N0 S0] Hset [N1 S1].
  destruct (S0 e Hlt) as [Hf _]. destruct (Hf g Hg) as [g' Hg'].
  pose proof (setSecondEdge_closes _ _ _ _ _ _ Hg' Hset) as Hfs.
  apply stay_setSecondEdge in Hset as [N2 _].
  apply S1; [lia|exact Hfs].
Qed.

Lemma belowNext_mono s s' l :
  (nextAddress (st_mesh s) <= nextAddress (st_mesh s'))%positive ->
  belowNext s l -> belowNext s' l.
Proof.
  intros Hn Hb. eapply Forall_impl; [exact Hb|]. intros e He. simpl in He. lia.
Qed.

Lemma allClosed_stay s s' l : belowNext s l -> edgesStay s s' -> allClosed s l -> allClosed s' l.
Proof.
  intros Hb [_ Hs] Hc. unfold belowNext, allClosed in *. rewrite Forall_forall in *.
  intros e He. apply Hs; auto.
Qed.

Lemma sealSingleLoop_closes it : forall boundary s boundary' s',
  belowNext s it ->
  sealSingleLoop it boundary s = Ok (boundary', s') -> allClosed s' it.
Proof.
  induction it as [|e it IH]; intros bd s bd' s' Hb H; simpl in H; [constructor|].
  inversion Hb as [|? ? Hlt Hb']; subst.
  apply bind_Ok in H as (fs & s1 & Hr & H). apply read_Ok in Hr as [_ ->].
  apply bind_Ok in H as ([] & s1 & Ha & H). apply assert_Ok in Ha as [_ ->].
  apply bind_Ok in H as (o & s1 & Hr & H). apply read_Ok in Hr as [Ho ->].
  apply secondVertex_firstEdge in Ho as [g Hg].
  apply bind_Ok in H as (h & s1 & Hh & H). apply stay_HalfEdge_new in Hh.
  apply bind_Ok in H as (bd1 & s2 & Ha & H). apply stay_append in Ha.
  apply bind_Ok in H as ([] & s3 & Hset & H).
  pose proof (stay_setSecondEdge _ _ _ _ _ Hset) as H3.
  pose proof (stay_sealSingleLoop _ _ _ _ _ H) as H4.
  constructor.
  - eapply closes_later; [exact Hlt|exact Hg| |exact Hset|exact H4]. by etrans.
  - eapply IH; [|exact H]. eapply belowNext_mono; [|exact Hb'].
    destruct Hh, Ha, H3. lia.
Qed.

Lemma sealRun_closes plane curIt : forall boundary lastVertex s curIt' boundary' lastVertex' s',
  belowNext s curIt ->
  sealRun plane curIt boundary lastVertex s = Ok ((curIt', boundary', lastVertex'), s') ->
  exists done, curIt = done ++ curIt' /\ allClosed s' done.
Proof.
  induction curIt as [|e it IH]; intros bd lv s it' bd' lv' s' Hb H; simpl in H.
  - apply ret_Ok in H as [[= -> -> ->] ->]. exists []. split; [done|constructor].
  - inversion Hb as [|? ? Hlt Hb']; subst.
    apply bind_Ok in H as (v & s1 & Hr & H). apply read_Ok in Hr as [Hv ->].
    apply firstVertex_firstEdge in Hv as [g Hg].
    apply bind_Ok in H as (st & s1 & Hr & H). apply read_Ok in Hr as [_ ->].
    destruct (bool_decide (st = PSInside)).
    + apply bind_Ok in H as (o & s1 & Hr & H). apply read_Ok in Hr as [_ ->].
      apply bind_Ok in H as (h & s1 & Hh & H). apply stay_HalfEdge_new in Hh.
      apply bind_Ok in H as (bd1 & s2 & Ha & H). apply stay_append in Ha.
      apply bind_Ok in H as ([] & s3 & Hset & H).
      pose proof (stay_setSecondEdge _ _ _ _ _ Hset) as H3.
      apply bind_Ok in H as (lv1 & s4 & Hr & H). apply read_Ok in Hr as [_ ->].
      pose proof (stay_sealRun _ _ _ _ _ _ _ H) as H4.
      apply IH in H as (done & -> & Hc).
      * exists (e :: done). split; [done|]. constructor; [|exact Hc].
        eapply closes_later; [exact Hlt|exact Hg| |exact Hset|exact H4]. by etrans.
      * eapply belowNext_mono; [|exact Hb']. destruct Hh, Ha, H3. lia.
    + apply ret_Ok in H as [[= -> -> ->] ->]. exists []. split; [done|constructor].
Qed.

Lemma belowNext_app s l1 l2 : belowNext s (l1 ++ l2) <-> belowNext s l1 /\ belowNext s l2.
Proof. apply Forall_app. Qed.

Lemma sealLoop_closes fuel : forall seam s u s',
  belowNext s seam -> sealLoop fuel seam s = Ok (u, s') -> allClosed s' seam.
Proof.
  induction fuel as [|fuel IH]; intros seam s u s' Hb H.
  { destruct seam; simpl in H; [constructor|discriminate H]. }
  destruct seam as [|e1 [|e2 cur]]; [constructor| |].
  { simpl in H. apply bind_Ok in H as ([] & s1 & Ha & H). discriminate Ha. }
  cbn [sealLoop] in H.
  apply bind_Ok in H as ([] & s1 & Ha & H). apply assert_Ok in Ha as [_ ->].
  inversion Hb as [|? ? Hlt1 Hb1]; subst. inversion Hb1 as [|? ? Hlt2 Hb2]; subst.
  apply bind_Ok in H as (o1 & s1 & Hr & H). apply read_Ok in Hr as [Ho1 ->].
  apply secondVertex_firstEdge in Ho1 as [g1 Hg1].
  apply bind_Ok in H as (h1 & s1 & Hh1 & H). apply stay_HalfEdge_new in Hh1.
  apply bind_Ok in H as (o2 & s2 & Hr & H). apply read_Ok in Hr as [Ho2 ->].
  apply secondVertex_firstEdge in Ho2 as [g2 Hg2].
  apply bind_Ok in H as (h2 & s2 & Hh2 & H). apply stay_HalfEdge_new in Hh2.
  apply bind_Ok in H as (bd1 & s3 & Ha1 & H). apply stay_append in Ha1.
  apply bind_Ok in H as (bd2 & s4 & Ha2 & H). apply stay_append in Ha2.
  apply bind_Ok in H as ([] & s5 & Hset1 & H).
  pose proof (stay_setSecondEdge _ _ _ _ _ Hset1) as T5.
  apply bind_Ok in H as ([] & s6 & Hset2 & H).
  pose proof (stay_setSecondEdge _ _ _ _ _ Hset2) as T6.
  apply bind_Ok in H as (v1 & s7 & Hr & H). apply read_Ok in Hr as [_ ->].
  apply bind_Ok in H as (v2 & s7 & Hr & H). apply read_Ok in Hr as [_ ->].
  apply bind_Ok in H as (v3 & s7 & Hr & H). apply read_Ok in Hr as [_ ->].
  apply bind_Ok in H as (plane & s7 & Hr & H). apply read_Ok in Hr as [_ ->].
  apply bind_Ok in H as ([[cur' bd3] lv] & s7 & Hrun & H).
  pose proof (stay_sealRun _ _ _ _ _ _ _ Hrun) as T7.
  assert (N6 : (nextAddress (st_mesh s) <= nextAddress (st_mesh s6))%positive).
  { destruct Hh1, Hh2, Ha1, Ha2, T5, T6. lia. }
  apply sealRun_closes in Hrun as (done & -> & Hdone);
    [|by eapply belowNext_mono; [|exact Hb2]].
  apply belowNext_app in Hb2 as [Hbd Hbc].
  assert (N7 : (nextAddress (st_mesh s) <= nextAddress (st_mesh s7))%positive).
  { destruct T7. lia. }
  (* what is left of the loop keeps allClosed edges allClosed *)
  assert (Hrest : edgesStay s7 s' /\ allClosed s' cur').
  { destruct cur' as [|c cur'].
    - apply bind_Ok in H as ([seam' bd4] & s8 & Hr & H).
      apply ret_Ok in Hr as [[= -> ->] ->].
      split; [|constructor].
      lazymatch type of H with
      | ?m _ = Ok _ => assert (Hp : preserves edgesStay m) by stays
      end.
      exact (Hp _ _ _ H).
    - apply bind_Ok in H as ([seam' bd4] & s8 & Hr & H).
      apply bind_Ok in Hr as (lh & s9 & Hlh & Hr). apply stay_HalfEdge_new in Hlh.
      apply bind_Ok in Hr as (bd5 & s10 & Hap & Hr). apply stay_append in Hap.
      apply bind_Ok in Hr as (newEdge & s11 & Hne & Hr).
      pose proof (stay_Edge_new _ _ _ _ _ Hne) as T11.
      apply Edge_new_fresh in Hne as (_ & Hnlt & _).
      apply bind_Ok in Hr as ([] & s12 & Hm & Hr). apply modifyMesh_Ok in Hm as ->.
      apply bind_Ok in Hr as (seam2 & s13 & Hrep & Hr). apply read_Ok in Hrep as [Hrep ->].
      apply ret_Ok in Hr as [[= -> ->] ->].
      unfold Seam.replace in Hrep.
      apply rbind_Ok in Hrep as (c0 & _ & Hrep).
      apply rbind_Ok in Hrep as ([] & _ & Hrep). apply rret_Ok in Hrep as ->.
      apply bind_Ok in H as (f & s14 & Hf & H). apply stay_Face_new in Hf.
      apply bind_Ok in H as ([] & s15 & Hc & H). injection Hc as <-.
      apply bind_Ok in H as ([] & s16 & Hm & H). apply modifyMesh_Ok in Hm as ->.
      pose proof (stay_sealLoop _ _ _ _ _ H) as T16.
      assert (T8 : edgesStay s7 s14).
      { etrans; [exact Hlh|]. etrans; [exact Hap|]. etrans; [exact T11|].
        etrans; [|exact Hf]. apply edgesStay_same; [simpl; lia|reflexivity]. }
      assert (T9 : edgesStay s7 s').
      { etrans; [exact T8|]. etrans; [|exact T16].
        apply edgesStay_same; [simpl; lia|reflexivity]. }
      split; [exact T9|].
      apply IH in H.
      + apply Forall_app in H as [H _]. exact H.
      + apply belowNext_app. split.
        * eapply belowNext_mono; [|exact Hbc]. destruct T8. simpl. lia.
        * constructor; [|constructor]. simpl.
          destruct Hf as [Nf _]. simpl in Nf. lia. }
  destruct Hrest as [T8 Hc'].
  constructor; [|constructor; [|apply Forall_app; split; [|exact Hc']]].
  - eapply closes_later; [exact Hlt1|exact Hg1| |exact Hset1|].
    + etrans; [exact Hh1|]. etrans; [exact Hh2|]. etrans; [exact Ha1|exact Ha2].
    + etrans; [exact T6|]. etrans; [exact T7|exact T8].
  - assert (Hlt2' : (e2 < nextAddress (st_mesh s1))%positive) by (destruct Hh1; lia).
    eapply closes_later; [exact Hlt2'|exact Hg2| |exact Hset2|].
    + etrans; [exact Hh2|]. etrans; [exact Ha1|]. etrans; [exact Ha2|exact T5].
    + etrans; [exact T7|exact T8].
  - eapply allClosed_stay; [|exact T8|exact Hdone].
    eapply belowNext_mono; [|exact Hbd]. exact N7.
Qed.

Lemma weaveRun_closes plane it : forall h boundary s it' h' boundary' s',
  belowNext s it ->
  weaveRun plane it h boundary s = Ok ((it', h', boundary'), s') ->
  exists done, it = done ++ it' /\ allClosed s' done.
Proof.
  induction it as [|e it IH]; intros h bd s it' h' bd' s' Hb H; simpl in H.
  - apply ret_Ok in H as [[= -> -> ->] ->]. exists []. split; [done|constructor].
  - inversion Hb as [|? ? Hlt Hb']; subst.
    apply bind_Ok in H as (v & s1 & Hr & H). apply read_Ok in Hr as [Hv ->].
    apply firstVertex_firstEdge in Hv as [g Hg].
    apply bind_Ok in H as (st & s1 & Hr & H). apply read_Ok in Hr as [_ ->].
    destruct (bool_decide (st = PSInside)).
    + apply bind_Ok in H as ([] & s1 & Hset & H).
      pose proof (stay_setSecondEdge _ _ _ _ _ Hset) as T1.
      lazymatch type of H with
      | ?m _ = Ok _ => assert (Hp : preserves edgesStay m) by stays
      end.
      pose proof (Hp _ _ _ H) as T2.
      apply bind_Ok in H as (v' & s2 & Hr & H). apply read_Ok in Hr as [_ ->].
      apply bind_Ok in H as (hn & s2 & Hh & H). apply stay_HalfEdge_new in Hh.
      apply bind_Ok in H as (bd1 & s3 & Ha & H). apply stay_append in Ha.
      apply IH in H as (done & -> & Hc).
      * exists (e :: done). split; [done|]. constructor; [|exact Hc].
        eapply closes_later; [exact Hlt|exact Hg|reflexivity|exact Hset|exact T2].
      * eapply belowNext_mono; [|exact Hb']. destruct T1, Hh, Ha. lia.
    + apply ret_Ok in H as [[= -> -> ->] ->]. exists []. split; [done|constructor].
Qed.

Lemma weaveLoop_closes fuel : forall top it first last s r s',
  belowNext s it ->
  weaveLoop fuel top it first last s = Ok (r, s') -> allClosed s' it.
Proof.
  induction fuel as [|fuel IH]; intros top it first last s r s' Hb H.
  { destruct it; simpl in H; [constructor|discriminate H]. }
  destruct it as [|e it]; [constructor|].
  cbn [weaveLoop] in H.
  inversion Hb as [|? ? Hlt Hb']; subst.
  apply bind_Ok in H as (fs & s1 & Hr & H). apply read_Ok in Hr as [_ ->].
  apply bind_Ok in H as ([] & s1 & Ha & H). apply assert_Ok in Ha as [_ ->].
  apply bind_Ok in H as (v1 & s1 & Hr & H). apply read_Ok in Hr as [Hv1 ->].
  apply secondVertex_firstEdge in Hv1 as [g Hg].
  apply bind_Ok in H as (v2 & s1 & Hr & H). apply read_Ok in Hr as [_ ->].
  apply bind_Ok in H as (h1 & s1 & Hh1 & H). apply stay_HalfEdge_new in Hh1.
  apply bind_Ok in H as (h2 & s2 & Hh2 & H). apply stay_HalfEdge_new in Hh2.
  apply bind_Ok in H as (h3 & s3 & Hh3 & H). apply stay_HalfEdge_new in Hh3.
  apply bind_Ok in H as (bd1 & s4 & Ha1 & H). apply stay_append in Ha1.
  apply bind_Ok in H as (bd2 & s5 & Ha2 & H). apply stay_append in Ha2.
  apply bind_Ok in H as (bd3 & s6 & Ha3 & H). apply stay_append in Ha3.
  apply bind_Ok in H as ([] & s7 & Hset & H).
  pose proof (stay_setSecondEdge _ _ _ _ _ Hset) as T7.
  assert (T6 : edgesStay s s6).
  { etrans; [exact Hh1|]. etrans; [exact Hh2|]. etrans; [exact Hh3|].
    etrans; [exact Ha1|]. etrans; [exact Ha2|exact Ha3]. }
  lazymatch type of H with
  | ?m _ = Ok _ => assert (Hp : preserves edgesStay m) by stays
  end.
  pose proof (Hp _ _ _ H) as T8. clear Hp.
  apply bind_Ok in H as ([[it' h] bd4] & s8 & Hrun & H).
  assert (Hrun' : edgesStay s7 s8 /\ exists done, it = done ++ it' /\ allClosed s8 done).
  { destruct it as [|c it0].
    - apply ret_Ok in Hrun as [[= -> -> ->] ->]. split; [reflexivity|].
      exists []. split; [done|constructor].
    - apply bind_Ok in Hrun as (plane & s9 & Hr & Hrun). apply read_Ok in Hr as [_ ->].
      split; [by eapply stay_weaveRun|].
      eapply weaveRun_closes; [|exact Hrun].
      eapply belowNext_mono; [|exact Hb']. destruct T6, T7. lia. }
  destruct Hrun' as (T9 & done & -> & Hdone).
  apply belowNext_app in Hb' as [Hbd Hbc].
  apply bind_Ok in H as (f & s9 & Hf & H). apply stay_Face_new in Hf.
  apply bind_Ok in H as ([] & s10 & Hc & H). injection Hc as <-.
  apply bind_Ok in H as ([] & s11 & Hm & H). apply modifyMesh_Ok in Hm as ->.
  apply bind_Ok in H as ([] & s12 & He & H).
  assert (T12 : edgesStay s8 s12).
  { etrans; [exact Hf|].
    etrans; [apply (edgesStay_same _ (mkState (withFaces (fun l => l ++ [f])
               (st_mesh s9)) (st_log s9 ++ [mkNotification FaceWasCreated f (st_mesh s9)])));
             [simpl; lia|reflexivity]|].
    lazymatch type of He with
    | ?m _ = Ok _ => assert (Hp : preserves edgesStay m) by stays
    end.
    exact (Hp _ _ _ He). }
  pose proof (stay_weaveLoop _ _ _ _ _ _ _ _ H) as T13.
  assert (N8 : (nextAddress (st_mesh s) <= nextAddress (st_mesh s8))%positive).
  { destruct T6, T7, T9. lia. }
  constructor; [|apply Forall_app; split].
  - eapply closes_later; [exact Hlt|exact Hg|exact T6|exact Hset|exact T8].
  - eapply allClosed_stay; [|etrans; [exact T12|exact T13]|exact Hdone].
    eapply belowNext_mono; [|exact Hbd]. exact N8.
  - eapply IH; [|exact H]. eapply belowNext_mono; [|exact Hbc].
    destruct T12. lia.
Qed.

Lemma rot_Forall {A} (P : A -> Prop) k (l : list A) : Forall P (rot k l) <-> Forall P l.
Proof. by rewrite (rot_perm k l). Qed.

Lemma shift_Forall (P : Address -> Prop) (criterion : Seam.t -> R bool) seam m
    (b : bool) seam' :
  Seam.shift criterion seam m = Ok (b, seam') -> Forall P seam' <-> Forall P seam.
Proof.
  unfold Seam.shift. intros H.
  apply shiftLoop_spec in H as (k & _ & -> & _). apply rot_Forall.
Qed.

(** ** Sealing and weaving close the seam *)

(** [split] leaves each seam edge with its first half-edge only; sealing or
    weaving gives each of them a second half-edge again.  For a seam whose
    edges were allocated before the call: when [sealWithSinglePolygon],
    [sealWithMultiplePolygons] or [weave] returns, every edge of the seam is
    fully specified. *)
Theorem sealing_and_weaving_close_the_seam (seam : Seam.t) (position : Vec3)
    (s : State) (u : unit) (s' : State) :
  Forall (fun e => (e < nextAddress (st_mesh s))%positive) seam ->
  sealWithSinglePolygon seam s = Ok (u, s') \/
  sealWithMultiplePolygons seam s = Ok (u, s') \/
  weave seam position s = Ok (u, s') ->
  Forall (fun e => Edge.fullySpecified e (st_mesh s') = Ok true) seam.
Proof.
  intros Hb H.
  assert (Hsingle : forall s', sealWithSinglePolygon seam s = Ok (u, s') ->
            allClosed s' seam).
  { clear H s'. intros s' H. unfold sealWithSinglePolygon in H.
    apply bind_Ok in H as ([] & s1 & Ha & H). apply assert_Ok in Ha as [_ ->].
    apply bind_Ok in H as (bd & s1 & HL & H).
    pose proof (stay_sealSingleLoop _ _ _ _ _ HL) as T1.
    apply sealSingleLoop_closes in HL; [|exact Hb].
    lazymatch type of H with
    | ?m _ = Ok _ => assert (Hp : preserves edgesStay m) by stays
    end.
    eapply allClosed_stay; [|exact (Hp _ _ _ H)|exact HL].
    eapply belowNext_mono; [|exact Hb]. destruct T1. lia. }
  destruct H as [H|[H|H]].
  - by apply Hsingle.
  - unfold sealWithMultiplePolygons in H.
    apply bind_Ok in H as ([] & s1 & Ha & H). apply assert_Ok in Ha as [Hlen ->].
    destruct (bool_decide (length seam = 3%nat)); [by apply Hsingle|].
    apply bind_Ok in H as ([b seam1] & s1 & Hs & H). apply read_Ok in Hs as [Hs ->].
    apply sealLoop_closes in H.
    + by apply (shift_Forall _ _ _ _ _ _ Hs) in H.
    + by apply (shift_Forall _ _ _ _ _ _ Hs).
  - unfold weave in H.
    apply bind_Ok in H as ([] & s1 & Ha & H). apply assert_Ok in Ha as [_ ->].
    apply bind_Ok in H as ([b seam1] & s1 & Hs & H). apply read_Ok in Hs as [Hs ->].
    apply bind_Ok in H as ([] & s1 & Ha & H). apply assert_Ok in Ha as [_ ->].
    apply bind_Ok in H as (top & s1 & Hv & H). apply stay_Vertex_new in Hv.
    apply bind_Ok in H as ([first last] & s2 & HL & H).
    pose proof (stay_weaveLoop _ _ _ _ _ _ _ _ HL) as T2.
    apply weaveLoop_closes in HL.
    + lazymatch type of H with
      | ?m _ = Ok _ => assert (Hp : preserves edgesStay m) by stays
      end.
      apply (shift_Forall _ _ _ _ _ _ Hs).
      eapply allClosed_stay; [|exact (Hp _ _ _ H)|exact HL].
      apply (shift_Forall _ _ _ _ _ _ Hs).
      eapply belowNext_mono; [|exact Hb]. destruct Hv, T2. lia.
    + apply (shift_Forall _ _ _ _ _ _ Hs).
      eapply belowNext_mono; [|exact Hb]. destruct Hv. lia.
Qed.

Lemma sealing_and_weaving_close_the_seam_witness :
  let seam := [11; 14; 25; 47; 41]%positive in
  let s := finalState openedRing (mkState emptyMesh []) in
  let s' := finalState (sealWithMultiplePolygons seam s) s in
  (Forall (fun e => (e < nextAddress (st_mesh s))%positive) seam /\
   sealWithMultiplePolygons seam s = Ok (tt, s')) /\
  Forall (fun e => Edge.fullySpecified e (st_mesh s') = Ok true) seam.
Proof.
  intros seam s s'.
  assert (H1 : Forall (fun e => (e < nextAddress (st_mesh s))%positive) seam).
  { apply Forall_forall. intros e He. apply Pos.ltb_lt.
    assert (Hall : forallb (fun e => Pos.ltb e (nextAddress (st_mesh s))) seam = true)
      by (vm_compute; reflexivity).
    rewrite forallb_forall in Hall. apply Hall. by apply list_elem_of_In. }
  assert (H2 : sealWithMultiplePolygons seam s = Ok (tt, s')).
  { destruct (isOk_true (sealWithMultiplePolygons seam s)) as [[[] s0] E];
      [vm_compute; reflexivity|].
    unfold s'. rewrite E. reflexivity. }
  split; [exact (conj H1 H2)|].
  exact (sealing_and_weaving_close_the_seam seam (vec3 0 0 0) s tt s' H1
           (or_intror (or_introl H2))).
Defined.

(** ** The first two points *)

(** [addFirstPoint] returns only on a polyhedron without vertices, which then
    has the one vertex at the given position.  [addSecondPoint] returns only
    on a polyhedron with one vertex; a point equal to its position changes
    nothing, any other point becomes the second vertex, the first staying
    where it is, and one edge is added.  (The objects of the polyhedron lie
    below the next free address.) *)
Theorem first_two_points_become_vertices (position : Vec3) (s : State)
    (u : unit) (s' : State) :
  allocated (st_mesh s) ->
  (addFirstPoint position s = Ok (u, s') ->
     vertexPositions (st_mesh s) = Ok [] /\
     vertexPositions (st_mesh s') = Ok [position]) /\
  (addSecondPoint position s = Ok (u, s') ->
     exists q, vertexPositions (st_mesh s) = Ok [q] /\
       if bool_decide (position = q) then s' = s
       else vertexPositions (st_mesh s') = Ok [q; position] /\
            length (m_edges (st_mesh s')) = S (length (m_edges (st_mesh s)))).
Proof.
  intros (Hal & _). split; intros H.
  - unfold addFirstPoint in H.
    apply bind_Ok in H as (e & s1 & He & H). apply read_Ok in He as [He ->].
    apply bind_Ok in H as ([] & s1 & Ha & H). apply assert_Ok in Ha as [-> ->].
    injection He as He. unfold isEmpty in He. apply bool_decide_eq_true in He.
    apply nil_length_inv in He.
    apply bind_Ok in H as (v & s1 & Hv & H).
    apply Vertex_new_spec in Hv as (V1 & V2 & _ & _).
    apply modifyMesh_Ok in H as ->.
    unfold vertexPositions. simpl. rewrite He, V1, He. simpl.
    split; [done|]. unfold rbind.
    change (Vertex.position v (withVertices (fun l => l ++ [v]) (st_mesh s1)))
      with (Vertex.position v (st_mesh s1)).
    by rewrite V2.
  - unfold addSecondPoint in H.
    apply bind_Ok in H as (e & s1 & He & H). apply read_Ok in He as [He ->].
    apply bind_Ok in H as ([] & s1 & Ha & H). apply assert_Ok in Ha as [-> ->].
    injection He as He. unfold isPoint in He.
    apply andb_true_iff in He as [He _]. apply andb_true_iff in He as [He _].
    apply bool_decide_eq_true in He.
    apply bind_Ok in H as (v & s1 & Hv & H). apply read_Ok in Hv as [Hv ->].
    apply bind_Ok in H as (q & s1 & Hq & H). apply read_Ok in Hq as [Hq ->].
    unfold frontVertex in Hv.
    destruct (m_vertices (st_mesh s)) as [|v0 [|? ?]] eqn:El; try discriminate He.
    simpl in Hv. injection Hv as ->.
    exists q. split.
    { unfold vertexPositions. rewrite El. simpl. unfold rbind. by rewrite Hq. }
    destruct (decide (position = q)) as [->|Hne].
    + rewrite bool_decide_eq_true_2 by done.
      rewrite bool_decide_eq_false_2 in H by (intros Hn; by apply Hn).
      by apply ret_Ok in H as [_ ->].
    + rewrite bool_decide_eq_false_2 by done.
      rewrite bool_decide_eq_true_2 in H by done.
      apply bind_Ok in H as (nv & s1 & Hn & H).
      pose proof (origins_Vertex_new _ _ _ _ Hn) as (_ & _ & E1 & _).
      pose proof (Vertex_new_fresh _ _ _ _ Hn) as [Hnv _].
      apply Vertex_new_spec in Hn as (V1 & V2 & V3 & V4).
      apply bind_Ok in H as ([] & s2 & Hm & H). apply modifyMesh_Ok in Hm as ->.
      apply bind_Ok in H as (h1 & s2 & Hh1 & H).
      pose proof (origins_HalfEdge_new _ _ _ _ Hh1) as (_ & _ & E2 & _).
      apply fixed_HalfEdge_new in Hh1 as [F2 P2].
      apply bind_Ok in H as (h2 & s3 & Hh2 & H).
      pose proof (origins_HalfEdge_new _ _ _ _ Hh2) as (_ & _ & E3 & _).
      apply fixed_HalfEdge_new in Hh2 as [F3 P3].
      apply bind_Ok in H as (e & s4 & Hedge & H).
      pose proof (origins_Edge_new _ _ _ _ _ Hedge) as (_ & _ & E4 & _).
      apply fixed_Edge_new in Hedge as [F4 P4].
      apply modifyMesh_Ok in H as ->. simpl in *.
      split.
      * unfold vertexPositions. simpl. rewrite F4, F3, F2, V1, El. simpl.
        unfold rbind.
        change (Vertex.position ?a (withEdges ?g ?m)) with (Vertex.position a m).
        rewrite !P4, !P3, !P2.
        change (Vertex.position ?a (withVertices ?g ?m)) with (Vertex.position a m).
        rewrite V2, V4, Hq; [done|].
        intros ->. unfold Vertex.position, vertexAt, rbind in Hq.
        destruct (vertexPool (st_mesh s) !! nv) as [x|] eqn:Ex; [|discriminate Hq].
        apply Hal in Ex. lia.
      * rewrite length_app, E4, E3, E2. simpl. rewrite E1. lia.
Qed.

Lemma first_two_points_become_vertices_witness :
  let s := mkState (mesh (polyhedronOf (addPoint (vec3 0 0 0) emptyPolyhedron []))) [] in
  let position := vec3 1 0 0 in
  let s' := finalState (addSecondPoint position s) s in
  (allocated (st_mesh s) /\ addSecondPoint position s = Ok (tt, s')) /\
  vertexPositions (st_mesh s') = Ok [vec3 0 0 0; position].
Proof.
  intros s position s'.
  assert (H1 : allocated (st_mesh s)) by (apply allocatedB_true; vm_compute; reflexivity).
  assert (H2 : addSecondPoint position s = Ok (tt, s')) by (vm_compute; reflexivity).
  split; [exact (conj H1 H2)|].
  destruct (first_two_points_become_vertices position s tt s' H1) as [_ B].
  destruct (B H2) as (q & Hq & Hr).
  assert (Eq : q = vec3 0 0 0).
  { assert (E : vertexPositions (st_mesh s) = Ok [vec3 0 0 0]) by (vm_compute; reflexivity).
    rewrite E in Hq. by injection Hq. }
  subst q. rewrite bool_decide_eq_false_2 in Hr by discriminate.
  exact (proj1 Hr).
Defined.

(** * What the boolean of the insertion helpers means *)

Lemma setPosition_spec v position s u s' :
  Vertex.setPosition v position s = Ok (u, s') ->
  m_vertices (st_mesh s') = m_vertices (st_mesh s) /\
  Vertex.position v (st_mesh s') = Ok position.
Proof.
  unfold Vertex.setPosition, updVertex, storeVertex. intros H.
  apply bind_Ok in H as (x & s1 & Hx & H). apply read_Ok in Hx as [Hx ->].
  apply bind_Ok in H as (x' & s1 & Hx' & H). apply read_Ok in Hx' as [_ ->].
  apply modifyMesh_Ok in H as ->. split; [reflexivity|].
  unfold Vertex.position, vertexAt, rbind. simpl. by rewrite lookup_insert_eq.
Qed.

Lemma makePolygon_positions positions s u s' :
  makePolygon positions s = Ok (u, s') ->
  vertexPositions (st_mesh s') = Ok positions.
Proof.
  unfold makePolygon. intros H.
  apply bind_Ok in H as (em & s1 & Hr & H). apply read_Ok in Hr as [Hem ->].
  apply bind_Ok in H as ([] & s1 & Ha & H). apply assert_Ok in Ha as [-> ->].
  apply bind_Ok in H as ([] & s1 & Ha & H). apply assert_Ok in Ha as [Hlen ->].
  apply bind_Ok in H as (bd & s1 & HL & H).
  apply makePolygonLoop_spec in HL
    as (N1 & Q1 & P1 & G1 & vs & hs & es & L1 & -> & L3 & L4 & L5 & L6 & L7).
  apply bind_Ok in H as (f & s2 & Hf & H).
  pose proof (fixed_Face_new _ _ _ _ Hf) as [F2 P2].
  apply bind_Ok in H as ([] & s3 & Hc & H). injection Hc as <-.
  apply modifyMesh_Ok in H as ->. simpl in *.
  injection Hem as Hem. unfold isEmpty in Hem.
  apply bool_decide_eq_true in Hem.
  apply nil_length_inv in Hem. rewrite Hem in L1. simpl in L1.
  assert (Hvs : Forall2 (fun v p => Vertex.position v (st_mesh s2) = Ok p) vs positions).
  { eapply Forall2_impl; [exact L5|]. intros v p Hp. by rewrite P2. }
  unfold vertexPositions. simpl. rewrite F2, L1. by apply rmapM_Forall2.
Qed.

Lemma addPointToPolygon_incorporates position s b s' :
  addPointToPolygon position s = Ok (b, s') ->
  if b then incorporated position s s' else s' = s.
Proof.
  intros H. pose proof (addPointToPolygon_result _ _ _ _ H) as Hr.
  unfold addPointToPolygon in H.
  apply bind_Ok in H as (n & s1 & Hn & H). apply read_Ok in Hn as [_ ->].
  apply bind_Ok in H as (ps & s1 & Hp & H). apply read_Ok in Hp as [Hp ->].
  destruct (_ && _).
  - apply ret_Ok in H as [-> ->]. done.
  - apply bind_Ok in H as ([] & s1 & Hc & H).
    apply bind_Ok in H as ([] & s2 & Hm & H). apply ret_Ok in H as [-> ->].
    split.
    + intros E. rewrite E in Hr. lia.
    + right. exists ps. split; [exact Hp|]. by eapply makePolygon_positions.
Qed.

Lemma addThirdPoint_incorporates position s b s' :
  addThirdPoint position s = Ok (b, s') ->
  if b then incorporated position s s' else s' = s.
Proof.
  intros H. pose proof (addThirdPoint_result _ _ _ _ H) as Hr.
  unfold addThirdPoint in H.
  apply bind_Ok in H as (e & s1 & He & H). apply read_Ok in He as [_ ->].
  apply bind_Ok in H as ([] & s1 & Ha & H). apply assert_Ok in Ha as [_ ->].
  apply bind_Ok in H as (v1 & s1 & Hv1 & H). apply read_Ok in Hv1 as [Hv1 ->].
  apply bind_Ok in H as (v2 & s1 & Hv2 & H). apply read_Ok in Hv2 as [Hv2 ->].
  apply bind_Ok in H as (p1 & s1 & Hp1 & H). apply read_Ok in Hp1 as [Hp1 ->].
  apply bind_Ok in H as (p2 & s1 & Hp2 & H). apply read_Ok in Hp2 as [Hp2 ->].
  destruct (linearlyDependent p1 p2 position).
  - apply addPointToEdge_spec in H
      as (v1' & v2' & p1' & p2' & _ & Hv1' & Hv2' & _ & _ & _ & _ & H).
    rewrite Hv1 in Hv1'. injection Hv1' as <-.
    rewrite Hv2 in Hv2'. injection Hv2' as <-.
    destruct b; [|exact H].
    split; [exact Hr|]. left.
    apply setPosition_spec in H as [Hl Hq].
    exists v2. split; [|exact Hq]. rewrite Hl. by eapply nextVertex_elem.
  - by apply addPointToPolygon_incorporates.
Qed.

Lemma addFurtherPoint_incorporates position s b s' :
  addFurtherPoint position s = Ok (b, s') ->
  if b then incorporated position s s' else s' = s.
Proof.
  intros H. pose proof (addFurtherPoint_result _ _ _ _ H) as Hr.
  assert (Hne : b = true -> st_mesh s' <> st_mesh s).
  { intros -> E. rewrite E in Hr. lia. }
  unfold addFurtherPoint in H.
  apply bind_Ok in H as (n & s1 & Hn & H). apply read_Ok in Hn as [_ ->].
  destruct (bool_decide (n = 1%nat)).
  - unfold addFurtherPointToPolygon in H.
    apply bind_Ok in H as (f & s1 & Hf & H). apply read_Ok in Hf as [_ ->].
    apply bind_Ok in H as (st & s1 & Hs & H). apply read_Ok in Hs as [_ ->].
    destruct st.
    + apply bind_Ok in H as ([] & s1 & Hfl & H).
      apply makePolyhedron_vertices in H as (-> & Hv & _).
      split; [by apply Hne|by left].
    + apply makePolyhedron_vertices in H as (-> & Hv & _).
      split; [by apply Hne|by left].
    + by apply addPointToPolygon_incorporates.
  - destruct b; [|exact Hr].
    apply addFurtherPointToPolyhedron_vertices in H as (Hv & _).
    split; [by apply Hne|left; by apply Hv].
Qed.

(** C7 (as amended).  The insertion helpers [addThirdPoint] and
    [addFurtherPoint] report with their boolean result whether the point was
    incorporated.  When the result is false the point was ignored: the
    polyhedron and the callback are exactly as before the call.  When it is
    true the point was incorporated: the mesh is not what it was, and the
    polyhedron has a vertex at the point or, for a coplanar point added to an
    edge or a polygon, was built anew as the polygon of the planar convex
    hull of its vertex positions and the point.  [addFirstPoint],
    [addSecondPoint] and the public [addPoint] return no value. *)
Theorem helpers_report_incorporation (position : Vec3) (s s' : State) (b : bool) :
  addThirdPoint position s = Ok (b, s') \/ addFurtherPoint position s = Ok (b, s') ->
  (b = false -> s' = s) /\ (b = true -> incorporated position s s').
Proof.
  intros [H|H].
  - apply addThirdPoint_incorporates in H. destruct b; split; done.
  - apply addFurtherPoint_incorporates in H. destruct b; split; done.
Qed.

Lemma helpers_report_incorporation_witness :
  let tetra := mkState (mesh (polyhedronOf tetrahedron)) [] in
  let outside := vec3 4 4 4 in
  let grown := finalState (addFurtherPoint outside tetra) tetra in
  let third := vec3 0 2 0 in
  let triangle := finalState (addThirdPoint third edgeState) edgeState in
  (addFurtherPoint outside tetra = Ok (true, grown) /\ incorporated outside tetra grown) /\
  (addThirdPoint third edgeState = Ok (true, triangle) /\ incorporated third edgeState triangle) /\
  (addFurtherPoint (vec3 1 1 1) tetra = Ok (false, tetra)) /\
  (addThirdPoint (vec3 1 0 0) edgeState = Ok (false, edgeState)).
Proof.
  intros tetra outside grown third triangle.
  assert (H1 : addFurtherPoint outside tetra = Ok (true, grown)).
  { destruct (isOk_true (addFurtherPoint outside tetra)) as [[b s0] E];
      [vm_compute; reflexivity|].
    assert (Hb : match addFurtherPoint outside tetra with Ok (b, _) => b | _ => false end = true)
      by (vm_compute; reflexivity).
    unfold grown. rewrite E in Hb |- *. simpl in *. by rewrite Hb. }
  assert (H2 : addThirdPoint third edgeState = Ok (true, triangle)).
  { destruct (isOk_true (addThirdPoint third edgeState)) as [[b s0] E];
      [vm_compute; reflexivity|].
    assert (Hb : match addThirdPoint third edgeState with Ok (b, _) => b | _ => false end = true)
      by (vm_compute; reflexivity).
    unfold triangle. rewrite E in Hb |- *. simpl in *. by rewrite Hb. }
  assert (H3 : addFurtherPoint (vec3 1 1 1) tetra = Ok (false, tetra))
    by (vm_compute; reflexivity).
  assert (H4 : addThirdPoint (vec3 1 0 0) edgeState = Ok (false, edgeState))
    by (vm_compute; reflexivity).
  split; [split; [exact H1|]|].
  { exact (proj2 (helpers_report_incorporation outside tetra grown true (or_intror H1)) eq_refl). }
  split; [split; [exact H2|]|].
  { exact (proj2 (helpers_report_incorporation third edgeState triangle true (or_introl H2)) eq_refl). }
  split; [exact H3|exact H4].
Defined.
